(** * Urban-Navigation-Engine: weighted-graph algorithms and route narration

    A shallow embedding of [grafo_pesado.py] (weight functions, Dijkstra,
    Prim, Kruskal), of the speed table and the cleaning of the edges of
    [callejero.py] and of the route narrator of [gps.py], followed by the
    properties proved about them.

    Python floats are IEEE binary64 numbers: they are Rocq's primitive
    floats.  Dictionaries are [gmap]s, sets are [gset]s, and the networkx
    graph is the pair of its two insertion-ordered tables.  Every function
    that receives the graph runs in a state monad whose state is that
    graph, so that what a call does to the graph is part of its result. *)

From Stdlib Require Import ZArith Floats Ascii String List Lia.
From stdpp Require Import gmap strings list pretty sorting.

#[local] Set Warnings "-inexact-float".
#[local] Open Scope string_scope.
#[local] Open Scope list_scope.
#[local] Open Scope Z_scope.

(* ================================================================== *)
(** * Part I.  Definitions                                             *)
(* ================================================================== *)

(** ** The Python runtime, as far as the sources use it *)

Module Py.

(** The exceptions the modelled code can raise.  [NetworkXError] is what
    [G.neighbors] raises on a node that is not in the graph. *)
Inductive exn : Type :=
  | KeyError | TypeError | ValueError | ZeroDivisionError | IndexError
  | NetworkXError.

(** The outcome of a call.  [OutOfFuel] is not a Python outcome: it is what
    the unrolling of a [while] loop gives when its budget is used up. *)
Inductive res (A : Type) : Type :=
  | Ok (a : A)
  | Raise (e : exn)
  | OutOfFuel.
Arguments Ok {A} a.
Arguments Raise {A} e.
Arguments OutOfFuel {A}.

#[global] Instance res_ret : MRet res := @Ok.
#[global] Instance res_bind : MBind res := λ A B f r,
  match r with
  | Ok a => f a
  | Raise e => Raise e
  | OutOfFuel => OutOfFuel
  end.

Definition is_ok {A} (r : res A) : Prop := ∃ a, r = Ok a.

(** *** Floats *)

(** [sys.float_info.max] *)
Definition float_max : float := 0x1.fffffffffffffp+1023%float.

(** [x != x], true of NaN only *)
Definition is_nan (x : float) : bool := negb (x =? x)%float.

(** [a / b] on floats: Python raises where IEEE would give an infinity or
    a NaN. *)
Definition truediv (a b : float) : res float :=
  if (b =? 0)%float then Raise ZeroDivisionError else Ok (a / b)%float.

(** *** [str.strip] and [float(str)]

    Strings are byte strings here, so only the ASCII white space and the
    ASCII digits are recognised. *)

(** [str.isspace] on ASCII, which [str.strip] removes. *)
Definition is_space (c : ascii) : bool :=
  let n := nat_of_ascii c in
  ((9 <=? n) && (n <=? 13) || (28 <=? n) && (n <=? 32))%nat.

(** The white space [float] skips around a number. *)
Definition is_float_space (c : ascii) : bool :=
  let n := nat_of_ascii c in
  ((9 <=? n) && (n <=? 13) || (n =? 32))%nat.

Fixpoint lstrip (sp : ascii → bool) (cs : list ascii) : list ascii :=
  match cs with
  | c :: r => if sp c then lstrip sp r else cs
  | [] => []
  end.

Definition strip_chars (sp : ascii → bool) (cs : list ascii) : list ascii :=
  rev (lstrip sp (rev (lstrip sp cs))).

(** [s.strip()] *)
Definition strip (s : string) : string :=
  string_of_list_ascii (strip_chars is_space (list_ascii_of_string s)).

Definition digit_val (c : ascii) : option Z :=
  let n := nat_of_ascii c in
  if ((48 <=? n) && (n <=? 57))%nat then Some (Z.of_nat n - 48) else None.

(** [digitpart ::= digit (["_"] digit)*]: the digits read and what follows
    them. *)
Fixpoint digitpart (cs : list ascii) : list Z * list ascii :=
  match cs with
  | c :: r =>
      match digit_val c with
      | Some d =>
          match r with
          | "_"%char :: r2 =>
              match r2 with
              | c2 :: _ =>
                  if digit_val c2 is Some _
                  then let '(ds, rest) := digitpart r2 in (d :: ds, rest)
                  else ([d], r)
              | [] => ([d], r)
              end
          | _ => let '(ds, rest) := digitpart r in (d :: ds, rest)
          end
      | None => ([], cs)
      end
  | [] => ([], [])
  end.

Definition digits_val (ds : list Z) : Z := foldl (λ acc d, 10 * acc + d) 0 ds.

Definition lower (c : ascii) : ascii :=
  let n := nat_of_ascii c in
  if ((65 <=? n) && (n <=? 90))%nat then ascii_of_nat (n + 32) else c.

(** The binary64 number nearest to [±d·10^e] (ties to even), as the
    correctly rounded [float(str)] of CPython gives it. *)
Definition round_decimal (neg : bool) (d e : Z) : float :=
  if (d =? 0)%Z then (if neg then -0 else 0)%float
  else if (0 <=? e)%Z then
    SF2Prim (binary_normalize prec emax ((if neg then - d else d) * 10 ^ e) 0 false)
  else
    let '(q, e', l) := SFdiv_core_binary prec emax d 0 (10 ^ (- e)) 0 in
    SF2Prim (binary_round_aux prec emax neg q e' l).

Definition sign_of (cs : list ascii) : bool * list ascii :=
  match cs with
  | "+"%char :: r => (false, r)
  | "-"%char :: r => (true, r)
  | _ => (false, cs)
  end.

(** [exponent ::= ("e" | "E") [sign] digitpart], or nothing; [None] when
    what is left is neither. *)
Definition exponent (cs : list ascii) : option Z :=
  match cs with
  | [] => Some 0
  | c :: r =>
      if decide (lower c = "e"%char) then
        let '(neg, r) := sign_of r in
        match digitpart r with
        | ((_ :: _) as ds, []) => Some (if neg then - digits_val ds else digits_val ds)
        | _ => None
        end
      else None
  end.

(** [float(s)] for a string [s]; [None] is [ValueError]. *)
Definition float_of_string (s : string) : option float :=
  let '(neg, cs) := sign_of (strip_chars is_float_space (list_ascii_of_string s)) in
  let word := string_of_list_ascii (map lower cs) in
  if decide (word = "inf" ∨ word = "infinity")
  then Some (if neg then neg_infinity else infinity)
  else if decide (word = "nan") then Some nan
  else
    let '(ip, r1) := digitpart cs in
    let '(fp, r2) :=
      match r1 with
      | "."%char :: r => digitpart r
      | _ => ([], r1)
      end in
    match (ip ++ fp)%list with
    | [] => None
    | ds =>
        ex ← exponent r2;
        Some (round_decimal neg (digits_val ds) (ex - Z.of_nat (length fp)))
    end.

(** *** [f"{x:.2f}"]: two decimals, correctly rounded (ties to even) *)

Definition round_half_even (num den : Z) : Z :=
  let q := num / den in
  let r := num mod den in
  match (2 * r ?= den)%Z with
  | Lt => q
  | Gt => q + 1
  | Eq => if Z.even q then q else q + 1
  end.

Definition two_digits (n : Z) : string :=
  (if (n <? 10)%Z then "0" else "") +:+ pretty n.

Definition format_2f (x : float) : string :=
  match Prim2SF x with
  | S754_nan => "nan"
  | S754_infinity s => if s then "-inf" else "inf"
  | S754_zero s => if s then "-0.00" else "0.00"
  | S754_finite s m e =>
      let n := if (0 <=? e)%Z then Z.pos m * 100 * 2 ^ e
               else round_half_even (Z.pos m * 100) (2 ^ (- e)) in
      (if s then "-" else "") +:+ pretty (n / 100) +:+ "." +:+ two_digits (n mod 100)
  end.

End Py.
Export Py.

(** ** The road graph *)

(** A numeric edge attribute as OpenStreetMap data carries it: text, or a
    number once [procesa_grafo] has converted it. *)
Inductive pyval : Type :=
  | PStr (s : string)
  | PFloat (f : float).

(** The attribute dictionary of an edge.  [None] is a key that is absent:
    [datos["length"]] raises [KeyError] on it, [datos.get("length")] gives
    Python's [None] and [datos.get("length", 0.0)] gives [0.0]. *)
Record EdgeData : Type := mkEdge {
  e_name : option string;
  e_length : option pyval;
  e_highway : option string;
  e_maxspeed : option pyval;
}.

(** The attribute dictionary of a node: its planar coordinates. *)
Record NodeData : Type := mkNode {
  n_x : option float;
  n_y : option float;
}.

(** A networkx graph: [G._node] and [G._adj], both in insertion order, and
    whether the graph is an [nx.DiGraph] or an [nx.Graph]. *)
Record Graph (K : Type) : Type := mkGraph {
  directed : bool;
  node_tab : list (K * NodeData);
  adj_tab : list (K * list (K * EdgeData));
}.
Arguments mkGraph {K} _ _ _.
Arguments directed {K} _.
Arguments node_tab {K} _.
Arguments adj_tab {K} _.

(** The first binding of a key in an insertion-ordered table. *)
Fixpoint assoc {A B : Type} `{EqDecision A} (k : A) (l : list (A * B)) : option B :=
  match l with
  | [] => None
  | (k', b) :: l' => if decide (k = k') then Some b else assoc k l'
  end.

(** [d[k]] on a dictionary *)
Definition getitem {K V : Type} `{Countable K} (d : gmap K V) (k : K) : res V :=
  match d !! k with
  | Some v => Ok v
  | None => Raise KeyError
  end.

(** ** Computations over the graph

    A computation receives the graph and gives it back with its outcome:
    the graph is a mutable object that the callee, and the weight function
    it is handed, could alter. *)

Definition M (K A : Type) : Type := Graph K → res A * Graph K.

#[global] Instance M_ret {K} : MRet (M K) := λ A a g, (Ok a, g).
#[global] Instance M_bind {K} : MBind (M K) := λ A B f m g,
  match m g with
  | (Ok a, g') => f a g'
  | (Raise e, g') => (Raise e, g')
  | (OutOfFuel, g') => (OutOfFuel, g')
  end.

(** An outcome that does not involve the graph. *)
Definition lift {K A} (r : res A) : M K A := λ g, (r, g).

Fixpoint foldM {K A B} (f : B → A → M K B) (l : list A) (b : B) : M K B :=
  match l with
  | [] => mret b
  | a :: l' => b' ← f b a; foldM f l' b'
  end.

Fixpoint mapM {K A B} (f : A → M K B) (l : list A) : M K (list B) :=
  match l with
  | [] => mret []
  | a :: l' => b ← f a; bs ← mapM f l'; mret (b :: bs)
  end.

(** A weight function [peso(G, u, v)]. *)
Definition Peso (K : Type) : Type := K → K → M K float.

Section GraphAccess.
Context {K : Type} `{Countable K}.

(** [G.nodes] *)
Definition G_nodes : M K (list K) := λ g, (Ok (node_tab g).*1, g).

(** [G.neighbors(v)] *)
Definition G_neighbors (v : K) : M K (list K) := λ g,
  (match assoc v (adj_tab g) with
   | Some nbrs => Ok nbrs.*1
   | None => Raise NetworkXError
   end, g).

(** [G[u][v]] *)
Definition G_getitem (u v : K) : M K EdgeData := λ g,
  (nbrs ← from_option Ok (Raise KeyError) (assoc u (adj_tab g));
   from_option Ok (Raise KeyError) (assoc v nbrs), g).

(** [G.nodes[n]] *)
Definition G_node (n : K) : M K NodeData := λ g,
  (from_option Ok (Raise KeyError) (assoc n (node_tab g)), g).

(** The pairs [G.edges] yields: every adjacency entry of a directed graph;
    for an undirected graph, those whose neighbour was not enumerated
    before (networkx's [seen]). *)
Fixpoint edges_from (dir : bool) (seen : gset K)
    (tab : list (K * list (K * EdgeData))) : list (K * K) :=
  match tab with
  | [] => []
  | (n, nbrs) :: tab' =>
      ((λ nbr, (n, nbr)) <$> filter (λ nbr, dir = true ∨ nbr ∉ seen) nbrs.*1)
      ++ edges_from dir ({[n]} ∪ seen) tab'
  end.

(** [G.edges] *)
Definition G_edges : M K (list (K * K)) := λ g,
  (Ok (edges_from (directed g) ∅ (adj_tab g)), g).

End GraphAccess.

(** ** callejero.py: the speed of each road class *)

Definition MAX_SPEEDS : list (string * string) :=
  [("living_street", "20"); ("residential", "30"); ("primary_link", "40");
   ("unclassified", "40"); ("secondary_link", "40"); ("trunk_link", "40");
   ("secondary", "50"); ("tertiary", "50"); ("primary", "50"); ("trunk", "50");
   ("tertiary_link", "50"); ("busway", "50"); ("motorway_link", "70");
   ("motorway", "100")].

(** ** grafo_pesado.py: weight functions *)

(** [INFTY = sys.float_info.max] *)
Definition INFTY : float := float_max.

(** [float(v)] for an attribute value *)
Definition py_float (v : pyval) : res float :=
  match v with
  | PFloat f => Ok f
  | PStr s => from_option Ok (Raise ValueError) (float_of_string s)
  end.

(** [float(v)] where [v] may be [None] *)
Definition py_float_opt (v : option pyval) : res float :=
  match v with
  | Some v => py_float v
  | None => Raise TypeError
  end.

(** What the [maxspeed] branch of [_velocidad_kmh] computes from a value
    that is not [None]: [float(str(maxspeed).strip())], and [None] when
    the text is blank or [float] raises [ValueError].  The text of a float
    is never blank and reads back as that float. *)
Definition float_of_text (v : pyval) : option float :=
  match v with
  | PFloat f => Some f
  | PStr s =>
      let texto := strip s in
      if decide (texto = "") then None else float_of_string texto
  end.

(** [velocidad_kmh] after the [maxspeed] branch: the speed the edge itself
    gives, if it gives one. *)
Definition maxspeed_usable (datos : EdgeData) : option float :=
  maxspeed ← e_maxspeed datos; float_of_text maxspeed.

(** [callejero.MAX_SPEEDS.get(datos.get("highway"))] *)
Definition valor_de_tabla (datos : EdgeData) : option string :=
  highway ← e_highway datos; assoc highway MAX_SPEEDS.

Section Weights.
Context {K : Type} `{Countable K}.

Definition mas_corto : Peso K := λ u v,
  datos ← G_getitem u v;
  lift (from_option py_float (Raise KeyError) (e_length datos)).

Definition _velocidad_kmh (u v : K) : M K float :=
  datos ← G_getitem u v;
  match maxspeed_usable datos with
  | Some velocidad_kmh => mret velocidad_kmh
  | None =>
      let valor := valor_de_tabla datos in
      lift (py_float_opt (PStr <$> valor))
  end.

Definition mas_rapido : Peso K := λ u v,
  datos ← G_getitem u v;
  longitud_m ← lift (py_float_opt (e_length datos));
  vel_kmh ← _velocidad_kmh u v;
  let vel_m_s := (vel_kmh / 3.6)%float in
  lift (truediv longitud_m vel_m_s).

Definition mas_rapido_semaforos : Peso K := λ u v,
  tiempo_base ← mas_rapido u v;
  let p := 0.8%float in
  let tiempo_parada := 30.0%float in
  let espera_esperada := (p * tiempo_parada)%float in
  mret (tiempo_base + espera_esperada)%float.

End Weights.

(** ** heapq

    The queues hold tuples [(cost, sequence number, node)].  Python compares
    tuples at the first position where they differ; the sequence numbers of
    one queue are all different, so the nodes are never compared. *)

Definition entry (K : Type) : Type := float * nat * K.

Definition entry_lt {K} (a b : entry K) : bool :=
  let '(d1, c1, _) := a in
  let '(d2, c2, _) := b in
  if (d1 =? d2)%float then (c1 <? c2)%nat else (d1 <? d2)%float.

(** heapq keeps the list as an implicit binary tree.  Only what [heappop]
    returns is observable, and among entries that [<] orders totally that is
    the least one: the model keeps the entries in the order of their
    insertion and takes the least out. *)
Definition heappush {K} (q : list (entry K)) (e : entry K) : list (entry K) :=
  q ++ [e].

(** The least of [e :: q], and the others. *)
Fixpoint pop_min {K} (e : entry K) (q : list (entry K)) : entry K * list (entry K) :=
  match q with
  | [] => (e, [])
  | e' :: q' =>
      let '(m, r) := pop_min e' q' in
      if entry_lt m e then (m, e :: r) else (e, q)
  end.

Definition heappop {K} (q : list (entry K)) : option (entry K * list (entry K)) :=
  match q with
  | [] => None
  | e :: q' => Some (pop_min e q')
  end.

(** ** grafo_pesado.py: Dijkstra *)

(** The locals of [dijkstra]: the three dictionaries, the next value of
    [contador] and the queue. *)
Record DState (K : Type) `{Countable K} : Type := mkDState {
  d_padre : gmap K (option K);
  d_dist : gmap K float;
  d_visitado : gmap K bool;
  d_contador : nat;
  d_Q : list (entry K);
}.
Arguments mkDState {K _ _} _ _ _ _ _.
Arguments d_padre {K _ _} _.
Arguments d_dist {K _ _} _.
Arguments d_visitado {K _ _} _.
Arguments d_contador {K _ _} _.
Arguments d_Q {K _ _} _.

(** The locals of [prim]. *)
Record PState (K : Type) `{Countable K} : Type := mkPState {
  p_padre : gmap K (option K);
  p_coste : gmap K float;
  p_contador : nat;
  p_Q : list (entry K);
  p_en_Q : gset K;
}.
Arguments mkPState {K _ _} _ _ _ _ _.
Arguments p_padre {K _ _} _.
Arguments p_coste {K _ _} _.
Arguments p_contador {K _ _} _.
Arguments p_Q {K _ _} _.
Arguments p_en_Q {K _ _} _.

(** The number of adjacency entries of the graph, which bounds the pushes
    of a run of [dijkstra] or [prim]. *)
Definition adj_size {K} (g : Graph K) : nat :=
  sum_list ((λ p, length p.2) <$> adj_tab g).

(** The budget of a [while] loop of the model: [n] more than that number. *)
Definition budget {K} (n : nat) : M K nat := λ g, (Ok (n + adj_size g)%nat, g).

Section Algorithms.
Context {K : Type} `{Countable K}.

(** The body of [for x in G.neighbors(v)] in [dijkstra]. *)
Definition dijkstra_relax (peso : Peso K) (v : K) (st : DState K) (x : K)
    : M K (DState K) :=
  w_vx ← peso v x;
  dist_x ← lift (getitem (d_dist st) x);
  dist_v ← lift (getitem (d_dist st) v);
  if (dist_v + w_vx <? dist_x)%float then
    let d := (dist_v + w_vx)%float in
    mret (mkDState (<[x := Some v]> (d_padre st)) (<[x := d]> (d_dist st))
            (d_visitado st) (S (d_contador st))
            (heappush (d_Q st) (d, d_contador st, x)))
  else mret st.

(** [while Q: ...] *)
Fixpoint dijkstra_loop (fuel : nat) (peso : Peso K) (st : DState K)
    : M K (DState K) :=
  match fuel with
  | O => lift OutOfFuel
  | S fuel =>
      match heappop (d_Q st) with
      | None => mret st
      | Some ((_, _, v), Q') =>
          lift (getitem (d_visitado st) v) ≫= λ visto : bool,
          if visto then
            dijkstra_loop fuel peso
              (mkDState (d_padre st) (d_dist st) (d_visitado st) (d_contador st) Q')
          else
            let st := mkDState (d_padre st) (d_dist st)
                        (<[v := true]> (d_visitado st)) (d_contador st) Q' in
            vecinos ← G_neighbors v;
            st ← foldM (dijkstra_relax peso v) vecinos st;
            dijkstra_loop fuel peso st
      end
  end.

(** The locals after [for v in G.nodes: ...], then after [dist[origen] = 0]
    and the creation of the queue.  The hashability test that opens the
    function cannot fail on a key. *)
Definition dijkstra_tabs (nodes : list K) : DState K :=
  foldl (λ st v,
      mkDState (<[v := None]> (d_padre st)) (<[v := INFTY]> (d_dist st))
        (<[v := false]> (d_visitado st)) 0 [])
    (mkDState ∅ ∅ ∅ 0 []) nodes.

Definition dijkstra_init (nodes : list K) (origen : K) : DState K :=
  let st := dijkstra_tabs nodes in
  mkDState (d_padre st) (<[origen := 0%float]> (d_dist st)) (d_visitado st) 1
    [(0%float, 0%nat, origen)].

Definition dijkstra (peso : Peso K) (origen : K) : M K (gmap K (option K)) :=
  nodes ← G_nodes;
  fuel ← budget 2;
  st ← dijkstra_loop fuel peso (dijkstra_init nodes origen);
  mret (delete origen (d_padre st)).

(** [while actual != origen: actual = padres[actual]; camino.append(actual)],
    then [camino.reverse()].  A node whose parent is [None] makes the next
    test look [None] up in [padres], which has no such key. *)
Fixpoint camino_minimo_loop (fuel : nat) (padres : gmap K (option K))
    (origen actual : K) (camino : list K) : res (list K) :=
  match fuel with
  | O => OutOfFuel
  | S fuel =>
      if decide (actual = origen) then Ok (reverse camino)
      else
        match padres !! actual with
        | None => Raise KeyError
        | Some None => Raise KeyError
        | Some (Some p) => camino_minimo_loop fuel padres origen p (camino ++ [p])
        end
  end.

Definition camino_minimo (peso : Peso K) (origen destino : K) : M K (list K) :=
  if decide (origen = destino) then mret [origen]
  else
    let camino := [destino] in
    padres ← dijkstra peso origen;
    if decide (padres !! destino = None) then mret []
    else lift (camino_minimo_loop (2 + size padres) padres origen destino camino).

(** ** grafo_pesado.py: Prim *)

(** The body of [for x in G.neighbors(v)] in [prim]. *)
Definition prim_relax (peso : Peso K) (v : K) (st : PState K) (x : K)
    : M K (PState K) :=
  if decide (x ∈ p_en_Q st) then
    w_vx ← peso v x;
    coste_x ← lift (getitem (p_coste st) x);
    if (w_vx <? coste_x)%float then
      mret (mkPState (<[x := Some v]> (p_padre st)) (<[x := w_vx]> (p_coste st))
              (S (p_contador st)) (heappush (p_Q st) (w_vx, p_contador st, x))
              (p_en_Q st))
    else mret st
  else mret st.

Fixpoint prim_loop (fuel : nat) (peso : Peso K) (st : PState K) : M K (PState K) :=
  match fuel with
  | O => lift OutOfFuel
  | S fuel =>
      match heappop (p_Q st) with
      | None => mret st
      | Some ((_, _, v), Q') =>
          let st := mkPState (p_padre st) (p_coste st) (p_contador st) Q' (p_en_Q st) in
          if decide (v ∈ p_en_Q st) then
            let st := mkPState (p_padre st) (p_coste st) (p_contador st) Q'
                        (p_en_Q st ∖ {[v]}) in
            vecinos ← G_neighbors v;
            st ← foldM (prim_relax peso v) vecinos st;
            prim_loop fuel peso st
          else prim_loop fuel peso st
      end
  end.

(** The locals after [for v in G.nodes: ...], then after
    [en_Q = set(G.nodes)]. *)
Definition prim_tabs (nodes : list K) : PState K :=
  foldl (λ st v,
      mkPState (<[v := None]> (p_padre st)) (<[v := INFTY]> (p_coste st))
        (S (p_contador st)) (heappush (p_Q st) (INFTY, p_contador st, v)) ∅)
    (mkPState ∅ ∅ 0 [] ∅) nodes.

Definition prim_init (nodes : list K) : PState K :=
  let st := prim_tabs nodes in
  mkPState (p_padre st) (p_coste st) (p_contador st) (p_Q st) (list_to_set nodes).

Definition prim (peso : Peso K) : M K (gmap K (option K)) :=
  nodes ← G_nodes;
  fuel ← budget (1 + length nodes);
  st ← prim_loop fuel peso (prim_init nodes);
  mret (p_padre st).

(** ** grafo_pesado.py: Kruskal *)

(** [lista.sort(key=...)]: a stable sort on the keys.  Where [<] orders
    the keys (no key is NaN) the outcome of a stable sort is unique: the
    ascending list in which equal keys keep their order; the model is the
    insertion sort, which gives that list.  With a NaN among the keys [<]
    is not an order, and what CPython's sort leaves depends on the
    comparisons it happens to make: the properties of [kruskal] that speak
    of the order in which the edges are considered are stated for weights
    that are numbers.  (A list in which no key is below the key before it
    is one ascending run for CPython, which leaves it as it is, as the
    insertion sort does: the keys 2, NaN, 1 of [grafo_nan] are such a
    list.) *)
Fixpoint sort_insert {A} (key : A → float) (x : A) (l : list A) : list A :=
  match l with
  | [] => [x]
  | y :: l' =>
      if (key y <? key x)%float then y :: sort_insert key x l' else x :: l
  end.

Definition list_sort {A} (key : A → float) (l : list A) : list A :=
  foldr (sort_insert key) [] l.

(** [while lista: c, u, v = lista.pop(0); ...] *)
Fixpoint kruskal_loop (lista : list (float * K * K)) (C : gmap K (gset K))
    (aristas_aam : list (K * K)) : res (list (K * K)) :=
  match lista with
  | [] => Ok aristas_aam
  | (c, u, v) :: lista =>
      comp_u ← getitem C u;
      comp_v ← getitem C v;
      if decide (comp_u ≠ comp_v) then
        let nueva_comp := comp_u ∪ comp_v in
        kruskal_loop lista
          (set_fold (λ w C, <[w := nueva_comp]> C) C nueva_comp)
          (aristas_aam ++ [(u, v)])
      else kruskal_loop lista C aristas_aam
  end.

Definition kruskal (peso : Peso K) : M K (list (K * K)) :=
  edges ← G_edges;
  lista ← mapM (λ '(u, v), c ← peso u v; mret (c, u, v)) edges;
  let lista := list_sort (λ x, x.1.1) lista in
  nodes ← G_nodes;
  let C := foldl (λ C v, <[v := {[v]}]> C) ∅ nodes in
  lift (kruskal_loop lista C []).

End Algorithms.

(** ** gps.py: the route narrator *)

(** A street segment of [construir_instrucciones]. *)
Record Segmento : Type := mkSegmento {
  s_nombre : string;
  s_dist : float;
  s_inicio : nat;
  s_fin : nat;
}.

Definition via_sin_nombre : string := "vía sin nombre".
Definition gira_izquierda : string := "gira a la izquierda".
Definition gira_derecha : string := "gira a la derecha".
Definition mensaje_coinciden : string :=
  "Origen y destino coinciden. Ya estás en tu destino.".

(** [float(datos.get("length", 0.0))] *)
Definition longitud_de (datos : EdgeData) : res float :=
  from_option py_float (Ok 0%float) (e_length datos).

Definition _frase_segmento (nombre : string) (dist_m : float) (es_primero : bool)
    (giro : option string) : string :=
  let dist_km := (dist_m / 1000.0)%float in
  let inicio :=
    if es_primero then "Sal desde el origen y "
    else
      match giro with
      | Some giro => if decide (giro = "") then "Luego " else "Luego " +:+ giro +:+ " y "
      | None => "Luego "
      end in
  if decide (nombre = via_sin_nombre)
  then inicio +:+ "continúa durante " +:+ format_2f dist_km +:+ " km por una vía sin nombre."
  else inicio +:+ "sigue por " +:+ nombre +:+ " durante " +:+ format_2f dist_km +:+ " km.".

(** [vx == 0 and vy == 0] *)
Definition es_nulo (vx vy : float) : bool := ((vx =? 0) && (vy =? 0))%float.

Definition producto_cruzado (v1x v1y v2x v2y : float) : float :=
  (v1x * v2y - v1y * v2x)%float.

Definition producto_escalar (v1x v1y v2x v2y : float) : float :=
  (v1x * v2x + v1y * v2y)%float.

Definition eps : float := 0.000001%float.

(** [abs(cross) < eps and dot > 0] *)
Definition es_recto (cross dot : float) : bool :=
  ((abs cross <? eps) && (0 <? dot))%float.

Section Narrator.
Context {K : Type} `{Countable K}.

Definition _nombre_calle (u v : K) : M K string :=
  datos ← G_getitem u v;
  match e_name datos with
  | None => mret via_sin_nombre
  | Some nombre => if decide (strip nombre = "") then mret via_sin_nombre else mret nombre
  end.

(** [camino[i]] for an index that is not negative *)
Definition item (camino : list K) (i : Z) : res K :=
  from_option Ok (Raise IndexError) (camino !! Z.to_nat i).

(** [G.nodes[n]["x"], G.nodes[n]["y"]] *)
Definition coordenadas (n : K) : M K (float * float) :=
  dx ← G_node n;
  x ← lift (from_option Ok (Raise KeyError) (n_x dx));
  dy ← G_node n;
  y ← lift (from_option Ok (Raise KeyError) (n_y dy));
  mret (x, y).

(** What [_calcular_giro] answers from the two vectors. *)
Definition giro_de (v1x v1y v2x v2y : float) : option string :=
  if es_nulo v1x v1y then None
  else if es_nulo v2x v2y then None
  else
    let cross := producto_cruzado v1x v1y v2x v2y in
    let dot := producto_escalar v1x v1y v2x v2y in
    if es_recto cross dot then None
    else if (0 <? cross)%float then Some gira_izquierda
    else Some gira_derecha.

Definition _calcular_giro (camino : list K) (idx_inicio_segmento : Z)
    : M K (option string) :=
  if decide (idx_inicio_segmento ≤ 0 ∨ Z.of_nat (length camino) ≤ idx_inicio_segmento + 1)%Z
  then mret None
  else
    n0 ← lift (item camino (idx_inicio_segmento - 1));
    n1 ← lift (item camino idx_inicio_segmento);
    n2 ← lift (item camino (idx_inicio_segmento + 1));
    '(x0, y0) ← coordenadas n0;
    '(x1, y1) ← coordenadas n1;
    '(x2, y2) ← coordenadas n2;
    let '(v1x, v1y) := ((x1 - x0)%float, (y1 - y0)%float) in
    let '(v2x, v2y) := ((x2 - x1)%float, (y2 - y1)%float) in
    mret (giro_de v1x v1y v2x v2y).

(** [for i in range(1, len(camino) - 1)]: [resto] is [camino[i:]], and the
    loop goes on while it holds [camino[i]] and [camino[i + 1]]. *)
Fixpoint segmentos_loop (i : nat) (resto : list K) (nombre_actual : string)
    (dist_actual : float) (inicio_idx : nat) (segmentos : list Segmento)
    : M K (string * float * nat * list Segmento) :=
  match resto with
  | u :: resto' =>
      match resto' with
      | v :: _ =>
          datos ← G_getitem u v;
          nombre ← _nombre_calle u v;
          longitud ← lift (longitud_de datos);
          if decide (nombre = nombre_actual) then
            segmentos_loop (S i) resto' nombre_actual (dist_actual + longitud)%float
              inicio_idx segmentos
          else
            segmentos_loop (S i) resto' nombre longitud i
              (segmentos ++ [mkSegmento nombre_actual dist_actual inicio_idx i])
      | [] => mret (nombre_actual, dist_actual, inicio_idx, segmentos)
      end
  | [] => mret (nombre_actual, dist_actual, inicio_idx, segmentos)
  end.

(** The list [segmentos] of a path of two nodes or more. *)
Definition segmentos_de (camino : list K) : M K (list Segmento) :=
  match camino with
  | u0 :: (v0 :: _) as resto =>
      nombre_actual ← _nombre_calle u0 v0;
      datos ← G_getitem u0 v0;
      dist_actual ← lift (longitud_de datos);
      '(nombre_actual, dist_actual, inicio_idx, segmentos) ←
        segmentos_loop 1 resto nombre_actual dist_actual 0 [];
      mret (segmentos ++
              [mkSegmento nombre_actual dist_actual inicio_idx (length camino - 1)])
  | _ => lift (Raise IndexError)
  end.

(** The body of [for j, seg in enumerate(segmentos)]; the state is [j],
    [instrucciones] and [total_dist]. *)
Definition frase_de (camino : list K) (st : nat * list string * float) (seg : Segmento)
    : M K (nat * list string * float) :=
  let '(j, instrucciones, total_dist) := st in
  giro ← (if decide (j = 0%nat) then mret None
          else _calcular_giro camino (Z.of_nat (s_inicio seg)));
  let frase := _frase_segmento (s_nombre seg) (s_dist seg) (bool_decide (j = 0%nat)) giro in
  mret (S j, instrucciones ++ [frase], (total_dist + s_dist seg)%float).

Definition linea_total (total_dist : float) : string :=
  "Distancia total aproximada: " +:+ format_2f (total_dist / 1000)%float +:+ " km.".

Definition construir_instrucciones (camino : list K) : M K (list string) :=
  match camino with
  | [] | [_] => mret [mensaje_coinciden]
  | _ =>
      segmentos ← segmentos_de camino;
      '(_, instrucciones, total_dist) ←
        foldM (frase_de camino) segmentos (0%nat, [], 0%float);
      mret (instrucciones ++ [linea_total total_dist])
  end.

End Narrator.

(** ** callejero.py: the cleaning of the edges *)

(** An edge attribute as osmnx loads it from OpenStreetMap: a text, a
    number, or a list of texts where the ways that were merged into the
    edge disagree. *)
Inductive valor : Type :=
  | VStr (s : string)
  | VNum (f : float)
  | VLista (l : list string).

(** The attribute dictionary of an edge before [procesa_grafo]. *)
Record DatosOSM : Type := mkOSM {
  o_name : option valor;
  o_length : option pyval;
  o_highway : option valor;
  o_maxspeed : option valor;
}.

(** [for i in highway: vel = float(MAX_SPEEDS.get(i)); if vel > vel_ant: ...]:
    the road class of the greatest speed, the first of them. *)
Fixpoint tipo_mas_rapido (highway : list string) (vel_ant : float) (tipo : string)
    : res string :=
  match highway with
  | [] => Ok tipo
  | i :: highway =>
      vel ← py_float_opt (PStr <$> assoc i MAX_SPEEDS);
      if (vel_ant <? vel)%float then tipo_mas_rapido highway vel i
      else tipo_mas_rapido highway vel_ant tipo
  end.

(** [MAX_SPEEDS[h]]: a list is not hashable, and no other key than a text
    is in the table. *)
Definition tabla_getitem (h : option valor) : res string :=
  match h with
  | Some (VStr s) => from_option Ok (Raise KeyError) (assoc s MAX_SPEEDS)
  | Some (VLista _) => Raise TypeError
  | Some (VNum _) | None => Raise KeyError
  end.

(** [MAX_SPEEDS.get(h)] *)
Definition tabla_get (h : option valor) : res (option string) :=
  match h with
  | Some (VStr s) => Ok (assoc s MAX_SPEEDS)
  | Some (VLista _) => Raise TypeError
  | Some (VNum _) | None => Ok None
  end.

(** [float(v)] for an attribute value *)
Definition float_de_valor (v : valor) : res float :=
  match v with
  | VStr s => py_float (PStr s)
  | VNum f => Ok f
  | VLista _ => Raise TypeError
  end.

(** [valores.append(float(v))] for each [v] *)
Fixpoint floats_de (vs : list string) : res (list float) :=
  match vs with
  | [] => Ok []
  | v :: vs => f ← py_float (PStr v); fs ← floats_de vs; Ok (f :: fs)
  end.

(** [max(valores)]: the first of the greatest. *)
Definition py_max (v : float) (vs : list float) : float :=
  foldl (λ m x, if (m <? x)%float then x else m) v vs.

(** [highway = data.get("highway"); if isinstance(highway, list) and highway: ...] *)
Definition limpia_highway (d : DatosOSM) : res DatosOSM :=
  match o_highway d with
  | Some (VLista (i :: highway)) =>
      tipo ← tipo_mas_rapido (i :: highway) neg_infinity "";
      Ok (mkOSM (o_name d) (o_length d) (Some (VStr tipo)) (o_maxspeed d))
  | _ => Ok d
  end.

(** [name = data.get("name"); if isinstance(name, list): data["name"] = name[0]] *)
Definition limpia_name (d : DatosOSM) : res DatosOSM :=
  match o_name d with
  | Some (VLista name) =>
      match name with
      | primero :: _ =>
          Ok (mkOSM (Some (VStr primero)) (o_length d) (o_highway d) (o_maxspeed d))
      | [] => Raise IndexError
      end
  | _ => Ok d
  end.

(** [ms = data.get("maxspeed"); if ms is None or ms == "" or ms == []: ...
    else: ...] *)
Definition limpia_maxspeed (d : DatosOSM) : res DatosOSM :=
  let con_maxspeed (f : float) :=
    mkOSM (o_name d) (o_length d) (o_highway d) (Some (VNum f)) in
  match o_maxspeed d with
  | None | Some (VStr "") | Some (VLista []) =>
      valor ← tabla_getitem (o_highway d);
      f ← py_float (PStr valor);
      Ok (con_maxspeed f)
  | Some (VLista (v :: vs)) =>
      valores ← floats_de (v :: vs);
      match valores with
      | x :: xs => Ok (con_maxspeed (py_max x xs))
      | [] => Raise ValueError
      end
  | Some ms =>
      match float_de_valor ms with
      | Ok f => Ok (con_maxspeed f)
      | _ =>
          valor ← tabla_get (o_highway d);
          f ← py_float_opt (PStr <$> valor);
          Ok (con_maxspeed f)
      end
  end.

(** The body of [for _, _, data in G.edges(data=True)]. *)
Definition procesa_datos (d : DatosOSM) : res DatosOSM :=
  d ← limpia_highway d; d ← limpia_name d; limpia_maxspeed d.

(** The DiGraph that [ox.convert.to_digraph] hands to the rest of
    [procesa_grafo]: its nodes and its adjacency, in insertion order. *)
Record GrafoOSM (K : Type) : Type := mkGrafoOSM {
  osm_nodos : list (K * NodeData);
  osm_adj : list (K * list (K * DatosOSM));
}.
Arguments mkGrafoOSM {K} _ _.
Arguments osm_nodos {K} _.
Arguments osm_adj {K} _.

Fixpoint mapR {A B} (f : A → res B) (l : list A) : res (list B) :=
  match l with
  | [] => Ok []
  | a :: l => b ← f a; bs ← mapR f l; Ok (b :: bs)
  end.

Section ProcesaGrafo.
Context {K : Type} `{Countable K}.

(** [G.remove_edges_from(list(nx.selfloop_edges(G)))] *)
Definition sin_bucles (adj : list (K * list (K * DatosOSM)))
    : list (K * list (K * DatosOSM)) :=
  (λ fila : K * list (K * DatosOSM),
     (fila.1, filter (λ arista : K * DatosOSM, arista.1 ≠ fila.1) fila.2)) <$> adj.

(** [procesa_grafo], after the conversion to a DiGraph: the loops are
    removed, then the attributes of every edge are cleaned, in the order
    of [G.edges]. *)
Definition procesa_digrafo (G : GrafoOSM K) : res (GrafoOSM K) :=
  adj ← mapR (λ fila : K * list (K * DatosOSM),
                aristas ← mapR (λ arista : K * DatosOSM,
                                  datos ← procesa_datos arista.2;
                                  Ok (arista.1, datos)) fila.2;
                Ok (fila.1, aristas))
           (sin_bucles (osm_adj G));
  Ok (mkGrafoOSM (osm_nodos G) adj).

End ProcesaGrafo.

(** ** Vocabulary of the properties *)

(** *** The speed of an edge *)

(** The static table of the road classes as the specification gives it,
    road class and km/h, to be compared with [MAX_SPEEDS], the table of
    the code, whose speeds are texts. *)
Definition velocidades_kmh : list (string * float) :=
  [("living_street", 20%float); ("residential", 30%float);
   ("primary_link", 40%float); ("unclassified", 40%float);
   ("secondary_link", 40%float); ("trunk_link", 40%float);
   ("secondary", 50%float); ("tertiary", 50%float); ("primary", 50%float);
   ("trunk", 50%float); ("tertiary_link", 50%float); ("busway", 50%float);
   ("motorway_link", 70%float); ("motorway", 100%float)].

(** The edge has a max-speed of its own that reads as the number [s]: the
    attribute is the number [s], or a text that is not blank and that
    [float] reads as [s]. *)
Definition velocidad_propia (datos : EdgeData) (s : float) : Prop :=
  e_maxspeed datos = Some (PFloat s) ∨
  ∃ txt, e_maxspeed datos = Some (PStr txt) ∧
         strip txt ≠ "" ∧ float_of_string (strip txt) = Some s.

(** The edge has no max-speed of its own: the attribute is absent, or it
    is a text that is blank or that [float] does not read. *)
Definition sin_velocidad_propia (datos : EdgeData) : Prop :=
  e_maxspeed datos = None ∨
  ∃ txt, e_maxspeed datos = Some (PStr txt) ∧
         (strip txt = "" ∨ float_of_string (strip txt) = None).

(** *** The graph, its edges and its weights *)

(** A computation is read-only when it hands the graph back as it
    received it, whatever its outcome. *)
Definition read_only {K A} (m : M K A) : Prop := ∀ g, (m g).2 = g.

(** The attributes of an edge, with a missing [length] set to [0.0]. *)
Definition con_longitud_cero (datos : EdgeData) : EdgeData :=
  mkEdge (e_name datos) (Some (default (PFloat 0) (e_length datos)))
    (e_highway datos) (e_maxspeed datos).

(** The graph in which every edge without a [length] has the length [0.0]. *)
Definition rellena_longitudes {K} (g : Graph K) : Graph K :=
  mkGraph (directed g) (node_tab g)
    (map (λ fila : K * list (K * EdgeData),
            (fila.1, map (λ arista : K * EdgeData,
                            (arista.1, con_longitud_cero arista.2)) fila.2))
       (adj_tab g)).

(** The street name [_nombre_calle] reads off the attributes of an edge. *)
Definition nombre_de (datos : EdgeData) : string :=
  match e_name datos with
  | None => via_sin_nombre
  | Some nombre => if decide (strip nombre = "") then via_sin_nombre else nombre
  end.

(** A computation whose outcome does not depend on the edges without a
    [length]: it is read-only, and it gives the same outcome on the graph
    in which they have the length [0.0]. *)
Definition indiferente {K A} (m : M K A) : Prop :=
  ∀ g, ∃ r, m g = (r, g) ∧ m (rellena_longitudes g) = (r, rellena_longitudes g).

(** The [length] of an edge is absent or converts to a float. *)
Definition longitud_admisible (datos : EdgeData) : Prop :=
  match e_length datos with
  | None => True
  | Some l => is_ok (py_float l)
  end.

(** Consecutive nodes of the path are joined by an edge of the graph, with
    an admissible length. *)
Definition transitable {K} `{Countable K} (g : Graph K) (camino : list K) : Prop :=
  ∀ i u v, camino !! i = Some u → camino !! S i = Some v →
    ∃ datos, G_getitem u v g = (Ok datos, g) ∧ longitud_admisible datos.

(** Every node of the path has its two coordinates. *)
Definition con_coordenadas {K} `{Countable K} (g : Graph K) (camino : list K) : Prop :=
  ∀ n, n ∈ camino → ∃ x y, assoc n (node_tab g) = Some (mkNode (Some x) (Some y)).

Section Conectividad.
Context {K : Type} `{Countable K}.

(** The nodes of the graph, in the order of [G.nodes]. *)
Definition nodos (g : Graph K) : list K := (node_tab g).*1.

(** [v] is a neighbour of [u]: [(u, v)] is an edge. *)
Definition adyacente (g : Graph K) (u v : K) : Prop :=
  ∃ nbrs, assoc u (adj_tab g) = Some nbrs ∧ v ∈ nbrs.*1.

(** Joined by a chain of edges of the list, taken in either direction. *)
Definition conectados (es : list (K * K)) : relation K :=
  rtsc (λ a b, (a, b) ∈ es).

(** In the same connected component of the graph (the direction of the
    edges does not count). *)
Definition conectados_en (g : Graph K) : relation K := rtsc (adyacente g).

(** [b] can be reached from [a] along the edges, in their direction. *)
Definition alcanzable (g : Graph K) : relation K := rtc (adyacente g).

(** What networkx maintains: the nodes are distinct, the adjacency table
    has a row for each node, in the same order, the endpoints of the edges
    are nodes, and the rows of an undirected graph are symmetric. *)
Record bien_formado (g : Graph K) : Prop := mk_bien_formado {
  bf_nodos : NoDup (nodos g);
  bf_adj : (adj_tab g).*1 = nodos g;
  bf_vecinos : ∀ u v, adyacente g u v → v ∈ nodos g;
  bf_simetrico : directed g = false → ∀ u v, adyacente g u v → adyacente g v u;
}.

(** On the edges of the graph the weight function returns a number and
    leaves the graph as it is. *)
Definition peso_definido (g : Graph K) (peso : Peso K) : Prop :=
  ∀ u v, adyacente g u v → ∃ w, peso u v g = (Ok w, g).

(** On the edges of the graph the weight function returns a number (not
    NaN) and leaves the graph as it is. *)
Definition peso_numerico (g : Graph K) (peso : Peso K) : Prop :=
  ∀ u v, adyacente g u v → ∃ w, peso u v g = (Ok w, g) ∧ is_nan w = false.


(** Kruskal's dictionary [C] binds every node of [V] to its class under
    the edges [seen], those considered so far. *)
Definition clases_de (V : gset K) (seen : list (K * K)) (C : gmap K (gset K)) : Prop :=
  dom C = V ∧
  ∀ v c, C !! v = Some c → ∀ w, w ∈ c ↔ w ∈ V ∧ conectados seen v w.

(** [voraz es ks]: [ks] is what the greedy pass keeps of the edges [es],
    taken in order: an edge is kept exactly when its endpoints are not
    joined by the edges considered before it. *)
Inductive voraz : list (K * K) → list (K * K) → Prop :=
  | voraz_nil : voraz [] []
  | voraz_keep es ks u v :
      voraz es ks → ¬ conectados es u v → voraz (es ++ [(u, v)]) (ks ++ [(u, v)])
  | voraz_skip es ks u v :
      voraz es ks → conectados es u v → voraz (es ++ [(u, v)]) ks.

(** A forest, built edge by edge: each edge joins two nodes that the edges
    before it do not join, so no edge closes a cycle. *)
Inductive bosque : list (K * K) → Prop :=
  | bosque_nil : bosque []
  | bosque_snoc ks u v :
      bosque ks → ¬ conectados ks u v → bosque (ks ++ [(u, v)]).

End Conectividad.

(** The edge of a weighted entry [(c, u, v)] of Kruskal's list. *)
Definition arista_de {K} (x : float * K * K) : K * K := (x.1.2, x.2).

Section VocabularioPrim.
Context {K : Type} `{Countable K}.

(** Adjacency does not depend on the direction, as in an [nx.Graph]. *)
Definition simetrico (g : Graph K) : Prop :=
  ∀ u v, adyacente g u v → adyacente g v u.

(** On the edges of the graph the weight function returns a number below
    [INFTY] and leaves the graph as it is. *)
Definition peso_acotado (g : Graph K) (peso : Peso K) : Prop :=
  ∀ u v, adyacente g u v →
    ∃ w, peso u v g = (Ok w, g) ∧ (w <? INFTY)%float = true.

(** The weight [peso(G, a, b)] (NaN where the call raises). *)
Definition peso_en (g : Graph K) (peso : Peso K) (a b : K) : float :=
  match (peso a b g).1 with
  | Ok w => w
  | _ => nan
  end.

(** The nodes that come before [x] in [orden]; all of [orden] when [x]
    does not occur in it. *)
Fixpoint previos (orden : list K) (x : K) : list K :=
  match orden with
  | [] => []
  | y :: orden => if decide (y = x) then [] else y :: previos orden x
  end.

(** The number of neighbours of a node. *)
Definition grado (g : Graph K) (x : K) : nat :=
  length (default [] (assoc x (adj_tab g))).

(** The neighbours of the nodes that are still in [en_Q]. *)
Definition pendiente (g : Graph K) (en_Q : gset K) : nat :=
  sum_list (grado g <$> filter (λ x, x ∈ en_Q) (nodos g)).

(** What holds of a removed node [x], given the order of removal: either
    it is a root, and then no edge leads from a node removed before it to
    a node that was not; or it has a parent [p], removed before it and
    adjacent to it, and the edge [(p, x)] is a lightest edge among those
    that lead from a node removed before [x] to a node that was not. *)
Definition retirado_bien (g : Graph K) (peso : Peso K) (padre : gmap K (option K))
    (orden : list K) (x : K) : Prop :=
  (padre !! x = Some None ∧
   ∀ a b, a ∈ previos orden x → adyacente g a b → b ∈ previos orden x) ∨
  (∃ p, padre !! x = Some (Some p) ∧ p ∈ previos orden x ∧ adyacente g p x ∧
     ∀ a b, a ∈ previos orden x → b ∈ nodos g → b ∉ previos orden x →
       adyacente g a b →
       (peso_en g peso p x <=? peso_en g peso a b)%float = true).

(** [r] is reached from [v] by following parents. *)
Definition asciende (padre : gmap K (option K)) : relation K :=
  rtc (λ x p, padre !! x = Some (Some p)).

(** The parent edges [(padre[x], x)], for the nodes [x] of [orden]. *)
Definition aristas_del_padre (padre : gmap K (option K)) (orden : list K)
    : list (K * K) :=
  omap (λ x, match padre !! x with
             | Some (Some p) => Some (p, x)
             | _ => None
             end) orden.

(** A spanning forest of the graph: a forest of edges of the graph that
    joins whatever the graph joins. *)
Definition bosque_abarcador (g : Graph K) (F : list (K * K)) : Prop :=
  bosque F ∧
  (∀ u v, (u, v) ∈ F → adyacente g u v) ∧
  (∀ a b, conectados_en g a b → conectados F a b).

(** The weight of an edge does not depend on its direction. *)
Definition peso_simetrico (g : Graph K) (peso : Peso K) : Prop :=
  ∀ a b, adyacente g a b →
    (peso_en g peso a b =? peso_en g peso b a)%float = true.

(** A valuation of the weights in the natural numbers that respects their
    order. *)
Definition monotona (μ : float → nat) : Prop :=
  ∀ x y, (x <=? y)%float = true → (μ x ≤ μ y)%nat.

(** The total weight of a list of edges, under a valuation. *)
Definition coste_total (μ : float → nat) (g : Graph K) (peso : Peso K)
    (F : list (K * K)) : nat :=
  sum_list ((λ e, μ (peso_en g peso e.1 e.2)) <$> F).

(** The edges of weight at most [t], under a valuation. *)
Definition ligera (μ : float → nat) (g : Graph K) (peso : Peso K) (t : nat)
    (e : K * K) : Prop :=
  (μ (peso_en g peso e.1 e.2) ≤ t)%nat.

#[global] Instance ligera_dec μ g peso t e : Decision (ligera μ g peso t e).
Proof. unfold ligera. apply _. Defined.

End VocabularioPrim.

(** The value of a non-negative number in units of [2^-1074], the least
    positive binary64 number (infinity counts as [2^2098], above every
    number); 0 for negative numbers and NaN. *)
Definition en_unidades (x : float) : nat :=
  match Prim2SF x with
  | S754_finite false m e => Z.to_nat (Z.pos m * 2 ^ (e + 1074))
  | S754_infinity false => Z.to_nat (2 ^ 2098)
  | _ => 0%nat
  end.

Section VocabularioPrimInv.
Context {K : Type} `{Countable K}.

(** The edges looked at once the nodes of [orden] have been removed. *)
Definition relajadas (g : Graph K) (orden : list K) (a x : K) : Prop :=
  a ∈ orden ∧ adyacente g a x.

(** The invariant of [while Q] in [prim].  [orden] lists the nodes removed
    from [en_Q], in the order of their removal; [relajada a x] says that
    the edge [(a, x)] has been looked at from the removed node [a]. *)
Record prim_inv (g : Graph K) (peso : Peso K) (relajada : K → K → Prop)
    (st : PState K) (orden : list K) : Prop := mk_prim_inv {
  pi_nodup : NoDup orden;
  pi_en_Q : p_en_Q st = list_to_set (nodos g) ∖ list_to_set orden;
  pi_orden : ∀ x, x ∈ orden → x ∈ nodos g;
  pi_dom_padre : dom (p_padre st) = list_to_set (nodos g);
  pi_dom_coste : dom (p_coste st) = list_to_set (nodos g);
  pi_entrada : ∀ x, x ∈ p_en_Q st →
    ∃ c n, p_coste st !! x = Some c ∧ (c, n, x) ∈ p_Q st;
  pi_cola : ∀ c n x, (c, n, x) ∈ p_Q st →
    x ∈ nodos g ∧ is_nan c = false ∧
    (x ∈ p_en_Q st → ∃ c', p_coste st !! x = Some c' ∧ (c' <=? c)%float = true);
  pi_coste : ∀ x c, x ∈ p_en_Q st → p_coste st !! x = Some c →
    (p_padre st !! x = Some None ∧ c = INFTY) ∨
    (∃ p, p_padre st !! x = Some (Some p) ∧ p ∈ orden ∧ adyacente g p x ∧
          c = peso_en g peso p x);
  pi_retirados : ∀ x, x ∈ orden → retirado_bien g peso (p_padre st) orden x;
  pi_relajada : ∀ a x, relajada a x → x ∈ p_en_Q st →
    ∃ c, p_coste st !! x = Some c ∧ (c <=? peso_en g peso a x)%float = true;
}.

End VocabularioPrimInv.

Section VocabularioDijkstra.
Context {K : Type} `{Countable K}.

(** The invariant of [while Q] in [dijkstra].  [U] is the set of the nodes
    not visited yet. *)
Record dijkstra_inv (g : Graph K) (origen : K) (st : DState K) (U : gset K)
    : Prop := mk_dijkstra_inv {
  di_padre : dom (d_padre st) = list_to_set (nodos g);
  di_dist : dom (d_dist st) = list_to_set (nodos g);
  di_visitado : ∀ x, x ∈ nodos g → d_visitado st !! x = Some (bool_decide (x ∉ U));
  di_cola : ∀ c n x, (c, n, x) ∈ d_Q st → x ∈ nodos g ∧ alcanzable g origen x;
  di_alcanzable : ∀ x p, d_padre st !! x = Some (Some p) →
    alcanzable g origen p ∧ adyacente g p x;
  di_sin_padre : ∀ x, x ∈ nodos g → is_Some (d_padre st !! x);
}.

End VocabularioDijkstra.

(** The comparison of two floats; [None] when one of them is NaN. *)
Definition compara (x y : float) : option comparison :=
  SFcompare (Prim2SF x) (Prim2SF y).

(** In ascending order of the keys. *)
Definition ordenada {A} (key : A → float) (l : list A) : Prop :=
  StronglySorted (λ a b, (key a <=? key b)%float = true) l.


(** A weight function that is not read-only: it answers 1.0 and leaves a
    graph without nodes. *)
Definition peso_que_borra {K} : Peso K := λ _ _ g,
  (Ok 1%float, mkGraph (directed g) [] []).

(** *** The edges of [procesa_grafo] *)

(** The attributes as the weight functions and the narrator read them,
    where they are texts and numbers. *)
Definition texto_de (v : option valor) : option (option string) :=
  match v with
  | None => Some None
  | Some (VStr s) => Some (Some s)
  | _ => None
  end.

Definition pyval_de (v : option valor) : option (option pyval) :=
  match v with
  | None => Some None
  | Some (VStr s) => Some (Some (PStr s))
  | Some (VNum f) => Some (Some (PFloat f))
  | Some (VLista _) => None
  end.

Definition arista_limpia (d : DatosOSM) : option EdgeData :=
  name ← texto_de (o_name d);
  highway ← texto_de (o_highway d);
  maxspeed ← pyval_de (o_maxspeed d);
  Some (mkEdge name (o_length d) highway maxspeed).


Fixpoint mapO {A B} (f : A → option B) (l : list A) : option (list B) :=
  match l with
  | [] => Some []
  | a :: l => b ← f a; bs ← mapO f l; Some (b :: bs)
  end.

Section ComoGrafo.
Context {K : Type} `{Countable K}.

(** The graph that [procesa_grafo] returns, as the weight functions read
    it: [gps.crear_grafo] hands it to them as it is. *)
Definition como_grafo (G : GrafoOSM K) : option (Graph K) :=
  adj ← mapO (λ fila : K * list (K * DatosOSM),
                aristas ← mapO (λ arista : K * DatosOSM,
                                  datos ← arista_limpia arista.2;
                                  Some (arista.1, datos)) fila.2;
                Some (fila.1, aristas))
           (osm_adj G);
  Some (mkGraph true (osm_nodos G) adj).

(** [(u, v, d)] is an entry of [G.edges(data=True)]. *)
Definition arista_osm (G : GrafoOSM K) (u v : K) (d : DatosOSM) : Prop :=
  ∃ vecinos, (u, vecinos) ∈ osm_adj G ∧ (v, d) ∈ vecinos.

End ComoGrafo.

(** The speed the table gives for a road class. *)
Definition velocidad_de_tabla (i : string) : option float :=
  txt ← assoc i MAX_SPEEDS; float_of_string txt.

(** What [procesa_grafo] leaves: a number for [maxspeed], no list for
    [name], no list of road classes for [highway]. *)
Definition limpio (d : DatosOSM) : Prop :=
  (∃ f, o_maxspeed d = Some (VNum f)) ∧
  (∀ l, o_name d ≠ Some (VLista l)) ∧
  (∀ i l, o_highway d ≠ Some (VLista (i :: l))).

(** *** The segments of a route *)

Section VocabularioTramos.
Context {K : Type} `{Countable K}.

(** [l0 + l1 + ... + ln], added from left to right as [dist_actual += longitud]
    does; nothing for no summand. *)
Definition suma_izquierda (ls : list float) : option float :=
  match ls with
  | [] => None
  | l :: ls => Some (foldl (λ a b, (a + b)%float) l ls)
  end.

(** The edge [(camino[i], camino[i + 1])] is in the graph, with the
    attributes [datos]. *)
Definition arista_del_camino (g : Graph K) (camino : list K) (i : nat)
    (datos : EdgeData) : Prop :=
  ∃ u v, camino !! i = Some u ∧ camino !! S i = Some v ∧
         G_getitem u v g = (Ok datos, g).

(** The segment [s] is a stretch of the path: it runs over the edges
    [s_inicio s], ..., [s_fin s - 1], at least one, all of them of the
    street [s_nombre s], and [s_dist s] is the sum of their lengths. *)
Definition tramo_de (g : Graph K) (camino : list K) (s : Segmento) : Prop :=
  (s_inicio s < s_fin s)%nat ∧
  ∃ ls : list float,
    length ls = (s_fin s - s_inicio s)%nat ∧
    (∀ k l, ls !! k = Some l →
       ∃ datos, arista_del_camino g camino (s_inicio s + k) datos ∧
                nombre_de datos = s_nombre s ∧ longitud_de datos = Ok l) ∧
    suma_izquierda ls = Some (s_dist s).

(** The segments cut the edges [0], ..., [n - 1] into consecutive
    stretches: the first starts at 0, the last ends at [n], each starts
    where the one before it ends, and consecutive segments are of
    different streets. *)
Definition segmentacion (n : nat) (segs : list Segmento) : Prop :=
  (∀ s, head segs = Some s → s_inicio s = 0%nat) ∧
  (∃ s, last segs = Some s ∧ s_fin s = n) ∧
  (∀ k s s', segs !! k = Some s → segs !! S k = Some s' →
     s_fin s = s_inicio s' ∧ s_nombre s ≠ s_nombre s').

End VocabularioTramos.

(** *** Lightest paths *)

(** The value of a non-negative binary64 number in units of [2^-1074];
    infinity counts as [2^2098]. *)
Definition unidades (x : spec_float) : Z :=
  match x with
  | S754_finite false m e => Z.pos m * 2 ^ (e + 1074)
  | S754_infinity false => 2 ^ 2098
  | _ => 0
  end.

(** Rounding to nearest, ties to even, of a number of units to 53
    significant bits; [2^2098] stands for infinity. *)
Definition redondeo (n : Z) : Z :=
  let sh := Z.max (Z.log2 n + 1 - 53) 0 in
  let q := n / 2 ^ sh in
  let r := n mod 2 ^ sh in
  let q' := match 2 * r ?= 2 ^ sh with
            | Lt => q
            | Gt => q + 1
            | Eq => if Z.even q then q else q + 1
            end in
  Z.min (q' * 2 ^ sh) (2 ^ 2098).

(** A number above zero, or infinity. *)
Definition positivo (x : spec_float) : Prop :=
  match x with
  | S754_finite false _ _ | S754_infinity false => True
  | _ => False
  end.

(** A valid number that is not negative: zero, a positive number,
    or infinity. *)
Definition valido_no_negativo (x : spec_float) : Prop :=
  match x with
  | S754_zero _ => True
  | S754_infinity s => s = false
  | S754_nan => False
  | S754_finite s m e =>
      s = false ∧ -1074 ≤ e ≤ 971 ∧ Z.pos m < 2 ^ 53 ∧ (-1074 < e → 2 ^ 52 ≤ Z.pos m)
  end.

(** A float that is zero, a positive number or infinity. *)
Definition no_negativo (x : float) : Prop := (0 <=? x)%float = true.

Section VocabularioCaminos.
Context {K : Type} `{Countable K}.

(** On the edges of the graph the weight function returns a number that
    is not negative (zero, a positive number or infinity) and leaves the
    graph as it is. *)
Definition peso_no_negativo (g : Graph K) (peso : Peso K) : Prop :=
  ∀ u v, adyacente g u v → ∃ w, peso u v g = (Ok w, g) ∧ no_negativo w.

(** [camino] leads from [o] to [d] along edges of the graph. *)
Definition es_camino (g : Graph K) (o d : K) (camino : list K) : Prop :=
  head camino = Some o ∧ last camino = Some d ∧
  ∀ i u v, camino !! i = Some u → camino !! S i = Some v → adyacente g u v.

(** The weight of a path: the weights of its edges, added from the
    origin on, as [dijkstra] adds them. *)
Fixpoint peso_desde (g : Graph K) (peso : Peso K) (acc : float) (u : K)
    (resto : list K) : float :=
  match resto with
  | [] => acc
  | v :: resto => peso_desde g peso (acc + peso_en g peso u v)%float v resto
  end.

Definition peso_camino (g : Graph K) (peso : Peso K) (camino : list K) : float :=
  match camino with
  | [] => 0%float
  | u :: resto => peso_desde g peso 0%float u resto
  end.

(** The branch of the tree of [padres] that leads from the origin to a
    node. *)
Inductive rama (padres : gmap K (option K)) (o : K) : K → list K → Prop :=
  | rama_origen : rama padres o o [o]
  | rama_hijo (x p : K) (C : list K) :
      x ≠ o → padres !! x = Some (Some p) → rama padres o p C →
      rama padres o x (C ++ [x]).

(** The invariant of [while Q] in [dijkstra] when no weight is negative.
    [orden] lists the visited nodes in the order of their visit, and
    [A y x] says that the edge [(y, x)] has been relaxed. *)
Record dijkstra_nn (g : Graph K) (peso : Peso K) (origen : K)
    (A : K → K → Prop) (st : DState K) (U : gset K) (orden : list K)
    : Prop := mk_dijkstra_nn {
  dn_base : dijkstra_inv g origen st U;
  dn_U : U = list_to_set (nodos g) ∖ list_to_set orden;
  dn_nodup : NoDup orden;
  dn_orden : ∀ x, x ∈ orden → x ∈ nodos g ∧ alcanzable g origen x;
  dn_origen : d_dist st !! origen = Some 0%float;
  dn_rango : ∀ x d, d_dist st !! x = Some d →
    no_negativo d ∧ (d <=? INFTY)%float = true;
  dn_cola : ∀ c n y, (c, n, y) ∈ d_Q st →
    ∃ dy, d_dist st !! y = Some dy ∧ (dy <=? c)%float = true;
  dn_entrada : ∀ y dy, y ∈ U → d_dist st !! y = Some dy →
    (dy <? INFTY)%float = true → ∃ n, (dy, n, y) ∈ d_Q st;
  dn_frontera : ∀ x y dx dy, x ∈ orden → y ∈ U →
    d_dist st !! x = Some dx → d_dist st !! y = Some dy →
    (dx <=? dy)%float = true;
  dn_hecho : ∀ y x, A y x → y ∈ orden ∧ adyacente g y x;
  dn_relajada : ∀ y x, A y x →
    ∃ dy dx, d_dist st !! y = Some dy ∧ d_dist st !! x = Some dx ∧
             (dx <=? dy + peso_en g peso y x)%float = true;
  dn_arbol : ∀ x p, d_padre st !! x = Some (Some p) →
    x ≠ origen ∧ p ∈ orden ∧ (x ∈ orden → p ∈ previos orden x) ∧
    ∃ dp, d_dist st !! p = Some dp ∧
          d_dist st !! x = Some (dp + peso_en g peso p x)%float ∧
          (dp + peso_en g peso p x <? INFTY)%float = true;
  dn_raiz : ∀ x, x ≠ origen → d_padre st !! x = Some None →
    d_dist st !! x = Some INFTY;
  dn_cola_padre : ∀ c n y, (c, n, y) ∈ d_Q st → y ≠ origen →
    ∃ p, d_padre st !! y = Some (Some p);
  dn_orden_padre : ∀ x, x ∈ orden → x ≠ origen →
    ∃ p, d_padre st !! x = Some (Some p);
}.

End VocabularioCaminos.

Section VocabularioAncestros.
Context {K : Type} `{Countable K}.

(** The node reached from [x] by following [n] parents. *)
Fixpoint ancestro (padres : gmap K (option K)) (n : nat) (x : K) : option K :=
  match n with
  | O => Some x
  | S n =>
      match padres !! x with
      | Some (Some p) => ancestro padres n p
      | _ => None
      end
  end.

End VocabularioAncestros.

(** ** Example graphs *)

(** Three corners [A(0,0)], [B(1,0)], [C(1,1)] joined by Main St (with a
    posted speed) and Side St (residential, without one). *)
Definition grafo_esquina : Graph string :=
  mkGraph true
    [("A", mkNode (Some 0%float) (Some 0%float));
     ("B", mkNode (Some 1%float) (Some 0%float));
     ("C", mkNode (Some 1%float) (Some 1%float))]
    [("A", [("B", mkEdge (Some "Main St") (Some (PFloat 100)) (Some "primary")
                    (Some (PStr "50")))]);
     ("B", [("C", mkEdge (Some "Side St") (Some (PFloat 50)) (Some "residential")
                    None)]);
     ("C", [])].

(** The three corners once more: Main St, a primary road, has a posted
    speed of 20 km/h, and a track, which the table of speeds does not know
    and which has no posted speed, takes the place of Side St. *)
Definition grafo_pista : Graph string :=
  mkGraph true
    [("A", mkNode (Some 0%float) (Some 0%float));
     ("B", mkNode (Some 1%float) (Some 0%float));
     ("C", mkNode (Some 1%float) (Some 1%float))]
    [("A", [("B", mkEdge (Some "Main St") (Some (PFloat 100)) (Some "primary")
                    (Some (PStr "20")))]);
     ("B", [("C", mkEdge (Some "Camino") (Some (PFloat 50)) (Some "track") None)]);
     ("C", [])].

(** Two nodes and no street between them. *)
Definition grafo_aislado : Graph string :=
  mkGraph true
    [("a", mkNode (Some 0%float) (Some 0%float));
     ("b", mkNode (Some 1%float) (Some 0%float))]
    [("a", []); ("b", [])].

(** The three corners again; Main St has lost its [length]. *)
Definition grafo_sin_longitud : Graph string :=
  mkGraph true
    [("A", mkNode (Some 0%float) (Some 0%float));
     ("B", mkNode (Some 1%float) (Some 0%float));
     ("C", mkNode (Some 1%float) (Some 1%float))]
    [("A", [("B", mkEdge (Some "Main St") None (Some "primary") (Some (PStr "50")))]);
     ("B", [("C", mkEdge (Some "Side St") (Some (PFloat 50)) (Some "residential")
                    None)]);
     ("C", [])].

Definition calle (longitud : float) : EdgeData :=
  mkEdge None (Some (PFloat longitud)) (Some "residential") None.

(** An undirected graph with two components: the triangle A, B, C and the
    street D, E.  The rows are in the order in which networkx builds them
    from the edges A-B, B-C, A-C, D-E. *)
Definition grafo_islas : Graph string :=
  mkGraph false
    [("A", mkNode (Some 0%float) (Some 0%float));
     ("B", mkNode (Some 1%float) (Some 0%float));
     ("C", mkNode (Some 1%float) (Some 1%float));
     ("D", mkNode (Some 5%float) (Some 5%float));
     ("E", mkNode (Some 6%float) (Some 5%float))]
    [("A", [("B", calle 1); ("C", calle 3)]);
     ("B", [("A", calle 1); ("C", calle 2)]);
     ("C", [("B", calle 2); ("A", calle 3)]);
     ("D", [("E", calle 1)]);
     ("E", [("D", calle 1)])].


(** Three nodes on a straight line, far from the origin. *)
Definition grafo_lejano : Graph string :=
  mkGraph true
    [("p", mkNode (Some 0%float) (Some 0%float));
     ("q", mkNode (Some 1e200%float) (Some 1e200%float));
     ("r", mkNode (Some 2e200%float) (Some 2e200%float))]
    [("p", [("q", mkEdge (Some "Gran Vía") (Some (PFloat 10)) None (Some (PFloat 50)))]);
     ("q", [("r", mkEdge (Some "Calle Mayor") (Some (PFloat 10)) None (Some (PFloat 50)))]);
     ("r", [])].

(** An edge as OpenStreetMap gives it where two ways were merged, and
    what [procesa_grafo] makes of it. *)
Definition datos_fusionados : DatosOSM :=
  mkOSM (Some (VLista ["Calle Mayor"; "Plaza Mayor"])) (Some (PFloat 120))
        (Some (VLista ["residential"; "primary"; "secondary"])) None.

Definition datos_fusionados_limpios : DatosOSM :=
  mkOSM (Some (VStr "Calle Mayor")) (Some (PFloat 120))
        (Some (VStr "primary")) (Some (VNum 50)).

(** A track, which the table of speeds does not know. *)
Definition datos_pista (maxspeed : option valor) : DatosOSM :=
  mkOSM None (Some (PFloat 80)) (Some (VStr "track")) maxspeed.

(** Two crossings joined in both directions, with a loop at the first. *)
Definition osm_ida_y_vuelta : GrafoOSM string :=
  mkGrafoOSM
    [("A", mkNode (Some 0%float) (Some 0%float));
     ("B", mkNode (Some 1%float) (Some 0%float))]
    [("A", [("A", datos_pista None); ("B", datos_fusionados)]);
     ("B", [("A", mkOSM (Some (VStr "Calle Mayor")) (Some (PFloat 120))
                        (Some (VStr "residential")) (Some (VStr "walk")))])].

Definition osm_ida_y_vuelta_limpio : GrafoOSM string :=
  mkGrafoOSM
    [("A", mkNode (Some 0%float) (Some 0%float));
     ("B", mkNode (Some 1%float) (Some 0%float))]
    [("A", [("B", datos_fusionados_limpios)]);
     ("B", [("A", mkOSM (Some (VStr "Calle Mayor")) (Some (PFloat 120))
                        (Some (VStr "residential")) (Some (VNum 30)))])].

Definition grafo_ida_y_vuelta : Graph string :=
  mkGraph true
    [("A", mkNode (Some 0%float) (Some 0%float));
     ("B", mkNode (Some 1%float) (Some 0%float))]
    [("A", [("B", mkEdge (Some "Calle Mayor") (Some (PFloat 120))
                         (Some "primary") (Some (PFloat 50)))]);
     ("B", [("A", mkEdge (Some "Calle Mayor") (Some (PFloat 120))
                         (Some "residential") (Some (PFloat 30)))])].

(** A street with a negative length between B and C. *)
Definition grafo_negativo : Graph string :=
  mkGraph true
    [("A", mkNode (Some 0%float) (Some 0%float));
     ("B", mkNode (Some 1%float) (Some 0%float));
     ("C", mkNode (Some 1%float) (Some 1%float))]
    [("A", [("B", calle 1)]);
     ("B", [("C", calle 1)]);
     ("C", [("B", calle (-5))])].

(* ================================================================== *)
(** * Part II.  Properties                                             *)
(* ================================================================== *)

(** ** The monad *)

Lemma M_bind_ok {K A B} (m : M K A) (f : A → M K B) g a g' :
  m g = (Ok a, g') → (m ≫= f) g = f a g'.
Proof. intros Hm. unfold mbind, M_bind. by rewrite Hm. Qed.

Lemma M_bind_raise {K A B} (m : M K A) (f : A → M K B) g e g' :
  m g = (Raise e, g') → (m ≫= f) g = (Raise e, g').
Proof. intros Hm. unfold mbind, M_bind. by rewrite Hm. Qed.

Lemma M_bind_lift {K A B} (r : res A) (f : A → M K B) g :
  (lift r ≫= f) g =
  match r with Ok a => f a g | Raise e => (Raise e, g) | OutOfFuel => (OutOfFuel, g) end.
Proof. unfold mbind, M_bind, lift. by destruct r. Qed.

(** ** C7: the expected wait at traffic lights *)

Section WeightFacts.
Context {K : Type} `{Countable K}.

(** C7.  Wherever [mas_rapido] gives a time for an edge, [mas_rapido_semaforos]
    gives that time plus 24.0 exactly: the product 0.8 × 30.0 is the
    binary64 number 24.0.  The graph is handed on as [mas_rapido] left it. *)
Theorem mas_rapido_semaforos_suma_24 (g g' : Graph K) (u v : K) (tiempo : float) :
  mas_rapido u v g = (Ok tiempo, g') →
  mas_rapido_semaforos u v g = (Ok (tiempo + 24)%float, g').
Proof.
  intros Hbase. unfold mas_rapido_semaforos.
  by rewrite (M_bind_ok _ _ _ _ _ Hbase).
Qed.

End WeightFacts.

Lemma mas_rapido_semaforos_suma_24_witness :
  mas_rapido "A" "B" grafo_esquina = (Ok 7.2%float, grafo_esquina) ∧
  mas_rapido_semaforos "A" "B" grafo_esquina
    = (Ok (7.2 + 24)%float, grafo_esquina).
Proof.
  split; [reflexivity |].
  apply (mas_rapido_semaforos_suma_24 grafo_esquina grafo_esquina "A" "B" 7.2%float).
  reflexivity.
Defined.

(** ** C8: a route from a node to itself *)

Section Dijkstra_init.
Context {K : Type} `{Countable K}.

Lemma dijkstra_tabs_dom (nodes : list K) :
  dom (d_padre (dijkstra_tabs nodes)) = list_to_set nodes ∧
  dom (d_dist (dijkstra_tabs nodes)) = list_to_set nodes ∧
  dom (d_visitado (dijkstra_tabs nodes)) = list_to_set nodes.
Proof.
  unfold dijkstra_tabs.
  induction nodes as [|v nodes IH] using rev_ind; simpl.
  - rewrite !dom_empty_L. done.
  - rewrite foldl_app. simpl. rewrite !dom_insert_L, list_to_set_app_L.
    destruct IH as (-> & -> & ->). simpl. set_solver.
Qed.

Lemma dijkstra_tabs_visitado (nodes : list K) (v : K) :
  v ∉ nodes → d_visitado (dijkstra_tabs nodes) !! v = None.
Proof.
  intros Hv. apply not_elem_of_dom.
  destruct (dijkstra_tabs_dom nodes) as (_ & _ & ->). set_solver.
Qed.

(** Outside the graph [dijkstra] stops at [visitado[origen]]. *)
Lemma dijkstra_fuera_del_grafo (peso : Peso K) (o : K) (g : Graph K) :
  o ∉ (node_tab g).*1 → dijkstra peso o g = (Raise KeyError, g).
Proof.
  intros Ho. unfold dijkstra.
  erewrite M_bind_ok by reflexivity.
  erewrite M_bind_ok by reflexivity.
  erewrite M_bind_raise; [done |]. simpl.
  rewrite M_bind_lift. unfold getitem.
  by rewrite dijkstra_tabs_visitado.
Qed.

(** C8.  For every weight function [peso], node [o] and graph [g],
    [camino_minimo peso o o] returns the one-node path [[o]] and leaves the
    graph as it was; it does so without running [dijkstra]: the answer is
    [[o]] also where the weight function raises or alters the graph, and
    on a graph without the node, where [dijkstra] itself raises. *)
Theorem camino_minimo_mismo_nodo (peso : Peso K) (o : K) (g : Graph K) :
  camino_minimo peso o o g = (Ok [o], g) ∧
  (o ∉ (node_tab g).*1 → dijkstra peso o g = (Raise KeyError, g)).
Proof.
  split; [| apply dijkstra_fuera_del_grafo].
  unfold camino_minimo. by rewrite decide_True.
Qed.

End Dijkstra_init.

(** ** C3: the speed of an edge *)

(** Every value of the table is the text of a number. *)
Lemma MAX_SPEEDS_parse (highway txt : string) :
  assoc highway MAX_SPEEDS = Some txt → is_Some (float_of_string txt).
Proof.
  unfold MAX_SPEEDS. simpl.
  repeat (case_decide; [intros [= <-]; eexists; vm_compute; reflexivity |]).
  done.
Qed.

(** [float] of what the table gives for a road class: its speed, and the
    [TypeError] of [float(None)] for a class it does not know. *)
Lemma py_float_opt_tabla (i : string) :
  py_float_opt (PStr <$> assoc i MAX_SPEEDS)
  = from_option Ok (Raise TypeError) (velocidad_de_tabla i).
Proof.
  unfold velocidad_de_tabla. destruct (assoc i MAX_SPEEDS) as [txt|] eqn:Hi; [| done].
  simpl. by destruct (MAX_SPEEDS_parse i txt Hi) as [f ->].
Qed.

(** The two readings of [maxspeed] are the two outcomes of the first
    branch of [_velocidad_kmh]. *)
Lemma velocidad_propia_usable (datos : EdgeData) (s : float) :
  velocidad_propia datos s ↔ maxspeed_usable datos = Some s.
Proof.
  unfold velocidad_propia, maxspeed_usable, float_of_text.
  destruct (e_maxspeed datos) as [[txt | f] |];
    cbn [mbind option_bind]; [| naive_solver | naive_solver].
  case_decide as Hb; split.
  - intros [? | (t & [= <-] & Hne & _)]; done.
  - done.
  - intros [? | (t & [= <-] & _ & Hs)]; done.
  - intros Hs. right. by exists txt.
Qed.

Lemma sin_velocidad_propia_usable (datos : EdgeData) :
  sin_velocidad_propia datos ↔ maxspeed_usable datos = None.
Proof.
  unfold sin_velocidad_propia, maxspeed_usable, float_of_text.
  destruct (e_maxspeed datos) as [[txt | f] |];
    cbn [mbind option_bind]; [| naive_solver | naive_solver].
  case_decide as Hb; split.
  - done.
  - intros _. right. exists txt. by split; [| left].
  - intros [? | (t & [= <-] & [? | Hs])]; done.
  - intros Hs. right. exists txt. by split; [| right].
Qed.

(** Either the edge has a max-speed of its own, or it has none. *)
Lemma velocidad_propia_o_no (datos : EdgeData) :
  (∃ s, velocidad_propia datos s) ∨ sin_velocidad_propia datos.
Proof.
  destruct (maxspeed_usable datos) as [s |] eqn:Hs.
  - left. exists s. by apply velocidad_propia_usable.
  - right. by apply sin_velocidad_propia_usable.
Qed.

(** The table of [callejero.py] spells the speeds of the specification's
    table, for the same road classes. *)
Lemma velocidades_kmh_tabla (h : string) (s : float) :
  (h, s) ∈ velocidades_kmh → velocidad_de_tabla h = Some s.
Proof.
  intros Hin.
  repeat (apply elem_of_cons in Hin as [[= -> ->] | Hin]; [by vm_compute |]).
  by apply elem_of_nil in Hin.
Qed.

Lemma velocidades_kmh_ausente (h : string) :
  (∀ s, (h, s) ∉ velocidades_kmh) → assoc h MAX_SPEEDS = None.
Proof.
  intros Hno. unfold MAX_SPEEDS. simpl.
  repeat (case_decide;
          [subst h; exfalso; eapply Hno; repeat (first [by left | right]) |]).
  done.
Qed.

Lemma velocidad_desde_tabla (datos : EdgeData) (h : string) (s : float) :
  e_highway datos = Some h → (h, s) ∈ velocidades_kmh →
  py_float_opt (PStr <$> valor_de_tabla datos) = Ok s.
Proof.
  intros Hh Hin%velocidades_kmh_tabla.
  unfold valor_de_tabla. rewrite Hh. cbn [mbind option_bind].
  rewrite py_float_opt_tabla. by rewrite Hin.
Qed.

Lemma velocidad_sin_tabla (datos : EdgeData) :
  (∀ h s, e_highway datos = Some h → (h, s) ∉ velocidades_kmh) →
  py_float_opt (PStr <$> valor_de_tabla datos) = Raise TypeError.
Proof.
  intros Hno. unfold valor_de_tabla.
  destruct (e_highway datos) as [h |]; cbn [mbind option_bind]; [| done].
  rewrite (velocidades_kmh_ausente h); [done |].
  intros s. by apply Hno.
Qed.

Section Velocidad.
Context {K : Type} `{Countable K}.

Lemma _velocidad_kmh_unfold (g : Graph K) (u v : K) (datos : EdgeData) :
  G_getitem u v g = (Ok datos, g) →
  _velocidad_kmh u v g =
    match maxspeed_usable datos with
    | Some s => (Ok s, g)
    | None => (py_float_opt (PStr <$> valor_de_tabla datos), g)
    end.
Proof.
  intros Hd. unfold _velocidad_kmh. rewrite (M_bind_ok _ _ _ _ _ Hd).
  by destruct (maxspeed_usable datos).
Qed.

Lemma mas_rapido_unfold (g : Graph K) (u v : K) (datos : EdgeData) (l : float) :
  G_getitem u v g = (Ok datos, g) →
  py_float_opt (e_length datos) = Ok l →
  mas_rapido u v g =
    match _velocidad_kmh u v g with
    | (Ok s, _) => (truediv l (s / 3.6)%float, g)
    | (Raise e, _) => (Raise e, g)
    | (OutOfFuel, _) => (OutOfFuel, g)
    end.
Proof.
  intros Hd Hl. unfold mas_rapido. rewrite (M_bind_ok _ _ _ _ _ Hd).
  rewrite M_bind_lift, Hl. rewrite (_velocidad_kmh_unfold _ _ _ _ Hd).
  unfold mbind, M_bind. rewrite (_velocidad_kmh_unfold _ _ _ _ Hd).
  destruct (maxspeed_usable datos); [done |].
  by destruct (py_float_opt _).
Qed.

(** C3.  Let [datos] be the attributes of an edge [(u, v)] whose length
    converts to the float [longitud_m].
    - If the edge has a max-speed of its own that reads as the number [s]
      (the attribute is that number, or a text that is not blank and that
      [float] reads as [s]), [_velocidad_kmh] answers [s], whatever the
      road class, and [mas_rapido] divides the length by [s / 3.6].
    - Otherwise (no max-speed, or a text that is blank or is not the text
      of a number) a road class of the static table gives the speed of
      the table; for "residential" it is 30 km/h, and nothing is raised.
    - With neither a max-speed of its own nor a road class of the table,
      both functions raise [TypeError], the error of [float(None)]: the
      code has no error of its own for an unknown road class. *)
Theorem velocidad_resuelta (g : Graph K) (u v : K) (datos : EdgeData)
    (longitud_m : float) :
  G_getitem u v g = (Ok datos, g) →
  py_float_opt (e_length datos) = Ok longitud_m →
  (∀ s, velocidad_propia datos s →
     _velocidad_kmh u v g = (Ok s, g) ∧
     mas_rapido u v g = (truediv longitud_m (s / 3.6)%float, g)) ∧
  (sin_velocidad_propia datos →
   ∀ h s, e_highway datos = Some h → (h, s) ∈ velocidades_kmh →
     _velocidad_kmh u v g = (Ok s, g) ∧
     mas_rapido u v g = (truediv longitud_m (s / 3.6)%float, g)) ∧
  (sin_velocidad_propia datos →
   e_highway datos = Some "residential" →
     _velocidad_kmh u v g = (Ok 30%float, g) ∧
     mas_rapido u v g = (truediv longitud_m (30 / 3.6)%float, g)) ∧
  (sin_velocidad_propia datos →
   (∀ h s, e_highway datos = Some h → (h, s) ∉ velocidades_kmh) →
     _velocidad_kmh u v g = (Raise TypeError, g) ∧
     mas_rapido u v g = (Raise TypeError, g)).
Proof.
  intros Hd Hl.
  pose proof (_velocidad_kmh_unfold _ _ _ _ Hd) as Hv.
  pose proof (mas_rapido_unfold _ _ _ _ _ Hd Hl) as Hm.
  assert (∀ h s, sin_velocidad_propia datos →
            e_highway datos = Some h → (h, s) ∈ velocidades_kmh →
            _velocidad_kmh u v g = (Ok s, g) ∧
            mas_rapido u v g = (truediv longitud_m (s / 3.6)%float, g)) as Htabla.
  { intros h s Hno%sin_velocidad_propia_usable Hh Hin.
    rewrite Hm, Hv, Hno. by rewrite (velocidad_desde_tabla datos h s Hh Hin). }
  split; [| split; [| split]].
  - intros s Hs%velocidad_propia_usable. by rewrite Hm, Hv, Hs.
  - intros Hno h s. by apply Htabla.
  - intros Hno Hres. apply (Htabla "residential"); [done.. |].
    unfold velocidades_kmh. right. left.
  - intros Hno%sin_velocidad_propia_usable Htab.
    rewrite Hm, Hv, Hno. by rewrite (velocidad_sin_tabla datos Htab).
Qed.

End Velocidad.

(** Main St of [grafo_pista] is a primary road, 50 km/h in the table, with
    a posted speed of 20 km/h: the speed is 20.  Side St of [grafo_esquina]
    is residential and has no posted speed: the speed is 30, and its 50 m
    take 6 s. *)
Lemma velocidad_resuelta_witness :
  (_velocidad_kmh "A" "B" grafo_pista = (Ok 20%float, grafo_pista) ∧
   mas_rapido "A" "B" grafo_pista = (Ok (100 / (20 / 3.6))%float, grafo_pista)) ∧
  (_velocidad_kmh "B" "C" grafo_esquina = (Ok 30%float, grafo_esquina) ∧
   mas_rapido "B" "C" grafo_esquina = (Ok 6%float, grafo_esquina)).
Proof.
  pose proof (velocidad_resuelta grafo_pista "A" "B"
    (mkEdge (Some "Main St") (Some (PFloat 100)) (Some "primary") (Some (PStr "20")))
    100%float eq_refl eq_refl) as (HAB & _).
  pose proof (velocidad_resuelta grafo_esquina "B" "C"
    (mkEdge (Some "Side St") (Some (PFloat 50)) (Some "residential") None)
    50%float eq_refl eq_refl) as (_ & _ & HBC & _).
  split.
  - apply (HAB 20%float). right. exists "20".
    split; [reflexivity |]. split; [discriminate | vm_compute; reflexivity].
  - apply HBC; [by left | reflexivity].
Defined.

(** On the track, which has no [maxspeed] and a road class that the table
    does not know, both functions raise the [TypeError] of [float(None)];
    it is the error that [mas_rapido] raises on Main St without its
    [length], whose road class the table knows. *)
Lemma velocidad_sin_clase_TypeError :
  _velocidad_kmh "B" "C" grafo_pista = (Raise TypeError, grafo_pista) ∧
  mas_rapido "B" "C" grafo_pista = (Raise TypeError, grafo_pista) ∧
  mas_rapido "A" "B" grafo_sin_longitud = (Raise TypeError, grafo_sin_longitud).
Proof. repeat split; vm_compute; reflexivity. Qed.

(** ** C1 and C2: nodes that cannot be reached *)

Section Unreachable.
Context {K : Type} `{Countable K}.

(** A destination that [dijkstra] left with the parent [None] is a key of
    the returned dictionary, so [camino_minimo] does not take its early
    exit: it climbs to [None] and raises. *)
Lemma camino_minimo_sin_padre (peso : Peso K) (o d : K) (g g' : Graph K)
    (padres : gmap K (option K)) :
  o ≠ d →
  dijkstra peso o g = (Ok padres, g') →
  padres !! d = Some None →
  camino_minimo peso o d g = (Raise KeyError, g').
Proof.
  intros Hod Hdij Hd. unfold camino_minimo.
  rewrite decide_False by done. rewrite (M_bind_ok _ _ _ _ _ Hdij).
  rewrite decide_False by (by rewrite Hd). unfold lift. simpl.
  rewrite decide_False by done. by rewrite Hd.
Qed.

End Unreachable.

(** C2, on the graph of two nodes and no edge.  From "a" nothing but "a"
    can be reached, and yet the dictionary [dijkstra] returns has the key
    "b" (bound to [None]): its keys are all the nodes but the origin, not
    the reachable ones. *)
Theorem dijkstra_clave_inalcanzable (peso : Peso string) :
  G_neighbors "a" grafo_aislado = (Ok [], grafo_aislado) ∧
  dijkstra peso "a" grafo_aislado = (Ok {["b" := None]}, grafo_aislado).
Proof. split; reflexivity. Qed.

(** C1, on the same graph.  "b" cannot be reached from "a"; the call
    [camino_minimo peso "a" "b"] does not return the empty list, it raises
    [KeyError]. *)
Theorem camino_minimo_inalcanzable (peso : Peso string) :
  G_neighbors "a" grafo_aislado = (Ok [], grafo_aislado) ∧
  camino_minimo peso "a" "b" grafo_aislado = (Raise KeyError, grafo_aislado).
Proof.
  split; [reflexivity |].
  apply (camino_minimo_sin_padre peso "a" "b" _ _ {["b" := None]});
    [done | reflexivity | reflexivity].
Qed.

(** ** The order of binary64 numbers

    [<], [==] and [<=] on floats are read through [SFcompare], the
    comparison of the standard library's specification of binary64.  Away
    from NaN it is a total preorder. *)

Module FloatOrder.
#[local] Open Scope float_scope.

Lemma SFcompare_antisym (x y : spec_float) :
  SFcompare y x = CompOpp <$> SFcompare x y.
Proof.
  destruct x as [sx|sx| |sx mx ex], y as [sy|sy| |sy my ey]; simpl; try done;
    try (by destruct sx); try (by destruct sy); try (by destruct sx, sy).
  destruct sx, sy; simpl; try done.
  - rewrite (Z.compare_antisym ey ex).
    destruct (ey ?= ex)%Z; simpl; try done.
    change (Pos.compare_cont Eq ?a ?b) with (Pos.compare a b).
    rewrite (Pos.compare_antisym mx my). by destruct (mx ?= my)%positive.
  - rewrite (Z.compare_antisym ey ex).
    destruct (ey ?= ex)%Z; simpl; try done.
    change (Pos.compare_cont Eq ?a ?b) with (Pos.compare a b).
    rewrite (Pos.compare_antisym mx my). by destruct (mx ?= my)%positive.
Qed.

Lemma SFcompare_nan (x y : spec_float) :
  SFcompare x y = None ↔ x = S754_nan ∨ y = S754_nan.
Proof.
  destruct x as [sx|sx| |sx mx ex], y as [sy|sy| |sy my ey]; simpl;
    split; try done; try (intros [?|?]; done); auto.
Qed.

Ltac sf_cases x y z :=
  destruct x as [?sx|?sx| |?sx ?mx ?ex], y as [?sy|?sy| |?sy ?my ?ey],
    z as [?sz|?sz| |?sz ?mz ?ez]; simpl; try done;
  repeat match goal with s : bool |- _ => destruct s end;
  simpl; try congruence.

Lemma SFcompare_trans (x y z : spec_float) (c : comparison) :
  SFcompare x y = Some c → SFcompare y z = Some c → SFcompare x z = Some c.
Proof.
  sf_cases x y z;
    change (Pos.compare_cont Eq ?a ?b) with (Pos.compare a b);
    destruct (Z.compare_spec ex ey), (Z.compare_spec ey ez), (Z.compare_spec ex ez);
    simpl; try congruence; try lia;
    destruct (Pos.compare_spec mx my), (Pos.compare_spec my mz), (Pos.compare_spec mx mz);
    simpl; try congruence; try lia.
Qed.

Lemma SFcompare_eq_l (x y z : spec_float) :
  SFcompare x y = Some Eq → SFcompare x z = SFcompare y z.
Proof.
  sf_cases x y z;
    change (Pos.compare_cont Eq ?a ?b) with (Pos.compare a b);
    destruct (Z.compare_spec ex ey); simpl; try congruence;
    destruct (Pos.compare_spec mx my); simpl; try congruence; by subst.
Qed.

Lemma ltb_compara x y : (x <? y) = true ↔ compara x y = Some Lt.
Proof.
  rewrite FloatAxioms.ltb_spec. unfold SFltb, compara.
  destruct (SFcompare _ _) as [[]|]; split; congruence.
Qed.

Lemma eqb_compara x y : (x =? y) = true ↔ compara x y = Some Eq.
Proof.
  rewrite FloatAxioms.eqb_spec. unfold SFeqb, compara.
  destruct (SFcompare _ _) as [[]|]; split; congruence.
Qed.

Lemma leb_compara x y :
  (x <=? y) = true ↔ compara x y = Some Lt ∨ compara x y = Some Eq.
Proof.
  rewrite FloatAxioms.leb_spec. unfold SFleb, compara.
  destruct (SFcompare _ _) as [[]|]; split; intros Hh;
    try (destruct Hh; congruence); auto; congruence.
Qed.

Lemma compara_antisym x y : compara y x = CompOpp <$> compara x y.
Proof. apply SFcompare_antisym. Qed.

Lemma compara_refl x : is_nan x = false → compara x x = Some Eq.
Proof. unfold is_nan. rewrite negb_false_iff. apply eqb_compara. Qed.

Lemma compara_not_nan x y c :
  compara x y = Some c → is_nan x = false ∧ is_nan y = false.
Proof.
  intros Hc. unfold is_nan. rewrite !negb_false_iff, !eqb_compara. unfold compara in *.
  destruct (Prim2SF x) as [sx|sx| |sx mx ex], (Prim2SF y) as [sy|sy| |sy my ey];
    simpl in *; try done; try (by destruct sx); try (by destruct sy);
    try (by destruct sx, sy);
    rewrite ?Z.compare_refl;
    change (Pos.compare_cont Eq ?a ?b) with (Pos.compare a b);
    rewrite ?Pos.compare_refl; try (by destruct sx); try (by destruct sy);
    by destruct sx, sy.
Qed.

Lemma compara_some x y :
  is_nan x = false → is_nan y = false → is_Some (compara x y).
Proof.
  intros Hx%compara_refl Hy%compara_refl.
  destruct (compara x y) eqn:Hc; [eauto |].
  apply SFcompare_nan in Hc as [Hc|Hc]; unfold compara in *; rewrite Hc in *.
  - done.
  - by destruct (Prim2SF y).
Qed.

Lemma compara_trans x y z c :
  compara x y = Some c → compara y z = Some c → compara x z = Some c.
Proof. apply SFcompare_trans. Qed.

Lemma compara_eq_l x y z : compara x y = Some Eq → compara x z = compara y z.
Proof. apply SFcompare_eq_l. Qed.

Lemma compara_eq_r x y z : compara x y = Some Eq → compara z x = compara z y.
Proof.
  intros Hxy. rewrite (compara_antisym x z), (compara_antisym y z).
  by rewrite (compara_eq_l _ _ _ Hxy).
Qed.

Lemma compara_sym_eq x y : compara x y = Some Eq → compara y x = Some Eq.
Proof. intros Hxy. by rewrite compara_antisym, Hxy. Qed.

(** *** The same facts on the boolean tests *)

Lemma ltb_irrefl x : (x <? x) = false.
Proof.
  apply not_true_is_false. rewrite ltb_compara. intros Hlt.
  destruct (compara_not_nan _ _ _ Hlt) as [Hx _].
  rewrite (compara_refl _ Hx) in Hlt. done.
Qed.

Lemma ltb_trans x y z : (x <? y) = true → (y <? z) = true → (x <? z) = true.
Proof. rewrite !ltb_compara. apply compara_trans. Qed.

Lemma ltb_asym x y : (x <? y) = true → (y <? x) = false.
Proof.
  intros Hxy. apply not_true_is_false. intros Hyx.
  pose proof (ltb_trans _ _ _ Hxy Hyx) as Hxx. by rewrite ltb_irrefl in Hxx.
Qed.

Lemma ltb_not_nan x y : (x <? y) = true → is_nan x = false ∧ is_nan y = false.
Proof. rewrite ltb_compara. apply compara_not_nan. Qed.

Lemma eqb_not_nan x y : (x =? y) = true → is_nan x = false ∧ is_nan y = false.
Proof. rewrite eqb_compara. apply compara_not_nan. Qed.

Lemma eqb_refl x : is_nan x = false → (x =? x) = true.
Proof. unfold is_nan. by rewrite negb_false_iff. Qed.

Lemma eqb_sym x y : (x =? y) = (y =? x).
Proof.
  apply eq_true_iff_eq. rewrite !eqb_compara. split; apply compara_sym_eq.
Qed.

Lemma eqb_trans x y z : (x =? y) = true → (y =? z) = true → (x =? z) = true.
Proof. rewrite !eqb_compara. apply compara_trans. Qed.

Lemma eqb_ltb_l x y z : (x =? y) = true → (x <? z) = (y <? z).
Proof.
  rewrite eqb_compara. intros Hxy. apply eq_true_iff_eq.
  by rewrite !ltb_compara, (compara_eq_l _ _ _ Hxy).
Qed.

Lemma eqb_ltb_r x y z : (x =? y) = true → (z <? x) = (z <? y).
Proof.
  rewrite eqb_compara. intros Hxy. apply eq_true_iff_eq.
  by rewrite !ltb_compara, (compara_eq_r _ _ _ Hxy).
Qed.

Lemma eqb_eqb_l x y z : (x =? y) = true → (x =? z) = (y =? z).
Proof.
  rewrite eqb_compara. intros Hxy. apply eq_true_iff_eq.
  by rewrite !eqb_compara, (compara_eq_l _ _ _ Hxy).
Qed.

Lemma leb_ltb_eqb x y : (x <=? y) = (x <? y) || (x =? y).
Proof.
  apply eq_true_iff_eq.
  rewrite orb_true_iff, leb_compara, ltb_compara, eqb_compara. done.
Qed.

(** Trichotomy away from NaN. *)
Lemma float_total x y :
  is_nan x = false → is_nan y = false →
  (x <? y) = true ∨ (x =? y) = true ∨ (y <? x) = true.
Proof.
  intros Hx Hy. rewrite !ltb_compara, eqb_compara.
  destruct (compara_some x y Hx Hy) as [c Hc].
  rewrite (compara_antisym x y), Hc. destruct c; simpl; auto.
Qed.

Lemma nltb_leb x y :
  is_nan x = false → is_nan y = false → (y <? x) = false → (x <=? y) = true.
Proof.
  intros Hx Hy Hyx. rewrite leb_ltb_eqb, orb_true_iff.
  destruct (float_total x y Hx Hy) as [?|[?|?]]; auto. congruence.
Qed.

Lemma leb_nltb x y : (x <=? y) = true → (y <? x) = false.
Proof.
  rewrite leb_ltb_eqb, orb_true_iff. intros [Hlt|Heq].
  - by apply ltb_asym.
  - rewrite eqb_sym in Heq. rewrite (eqb_ltb_l _ _ _ Heq). apply ltb_irrefl.
Qed.

Lemma leb_not_nan x y : (x <=? y) = true → is_nan x = false ∧ is_nan y = false.
Proof.
  rewrite leb_ltb_eqb, orb_true_iff. intros [?|?];
    [by apply ltb_not_nan | by apply eqb_not_nan].
Qed.

Lemma leb_trans x y z : (x <=? y) = true → (y <=? z) = true → (x <=? z) = true.
Proof.
  rewrite !leb_ltb_eqb, !orb_true_iff. intros [Hxy|Hxy] [Hyz|Hyz].
  - left. by apply (ltb_trans _ y).
  - left. rewrite eqb_sym in Hyz. by rewrite (eqb_ltb_r _ _ _ Hyz).
  - left. by rewrite (eqb_ltb_l _ _ _ Hxy).
  - right. by apply (eqb_trans _ y).
Qed.

Lemma ltb_leb_trans x y z : (x <? y) = true → (y <=? z) = true → (x <? z) = true.
Proof.
  rewrite leb_ltb_eqb, orb_true_iff. intros Hxy [Hyz|Hyz].
  - by apply (ltb_trans _ y).
  - rewrite eqb_sym in Hyz. by rewrite (eqb_ltb_r _ _ _ Hyz).
Qed.

Lemma leb_ltb_trans x y z : (x <=? y) = true → (y <? z) = true → (x <? z) = true.
Proof.
  rewrite leb_ltb_eqb, orb_true_iff. intros [Hxy|Hxy] Hyz.
  - by apply (ltb_trans _ y).
  - by rewrite (eqb_ltb_l _ _ _ Hxy).
Qed.

Lemma leb_refl x : is_nan x = false → (x <=? x) = true.
Proof. intros Hx. by rewrite leb_ltb_eqb, (eqb_refl _ Hx), orb_true_r. Qed.

End FloatOrder.

(** ** C5: left, right or straight on *)

Section Giro.
Context {K : Type} `{Countable K}.

Lemma coordenadas_ok (g : Graph K) (n : K) (x y : float) :
  assoc n (node_tab g) = Some (mkNode (Some x) (Some y)) →
  coordenadas n g = (Ok (x, y), g).
Proof.
  intros Hn. unfold coordenadas.
  assert (G_node n g = (Ok (mkNode (Some x) (Some y)), g)) as Hg.
  { unfold G_node. by rewrite Hn. }
  rewrite (M_bind_ok _ _ _ _ _ Hg), M_bind_lift. simpl.
  by rewrite (M_bind_ok _ _ _ _ _ Hg), M_bind_lift.
Qed.

(** The answer of [_calcular_giro] at an inner index of the path. *)
Lemma _calcular_giro_interior (g : Graph K) (camino : list K) (i : nat)
    (n0 n1 n2 : K) (x0 y0 x1 y1 x2 y2 : float) :
  camino !! i = Some n0 → camino !! S i = Some n1 → camino !! S (S i) = Some n2 →
  assoc n0 (node_tab g) = Some (mkNode (Some x0) (Some y0)) →
  assoc n1 (node_tab g) = Some (mkNode (Some x1) (Some y1)) →
  assoc n2 (node_tab g) = Some (mkNode (Some x2) (Some y2)) →
  _calcular_giro camino (Z.of_nat (S i)) g
    = (Ok (giro_de (x1 - x0) (y1 - y0) (x2 - x1) (y2 - y1)), g).
Proof.
  intros H0 H1 H2 Hn0 Hn1 Hn2. unfold _calcular_giro.
  pose proof (lookup_lt_Some _ _ _ H2) as Hlen.
  rewrite decide_False by lia.
  unfold item.
  replace (Z.to_nat (Z.of_nat (S i) - 1)) with i by lia.
  replace (Z.to_nat (Z.of_nat (S i) + 1)) with (S (S i)) by lia.
  rewrite Nat2Z.id, H0, H1, H2. simpl.
  rewrite !M_bind_lift.
  rewrite (M_bind_ok _ _ _ _ _ (coordenadas_ok _ _ _ _ Hn0)).
  rewrite (M_bind_ok _ _ _ _ _ (coordenadas_ok _ _ _ _ Hn1)).
  by rewrite (M_bind_ok _ _ _ _ _ (coordenadas_ok _ _ _ _ Hn2)).
Qed.

End Giro.

(** How [giro_de] classifies two vectors. *)
Lemma giro_de_clasifica (v1x v1y v2x v2y : float) :
  let cross := producto_cruzado v1x v1y v2x v2y in
  let dot := producto_escalar v1x v1y v2x v2y in
  let giro := giro_de v1x v1y v2x v2y in
  (es_nulo v1x v1y = true ∨ es_nulo v2x v2y = true → giro = None) ∧
  (es_recto cross dot = true → giro = None) ∧
  (es_nulo v1x v1y = false → es_nulo v2x v2y = false → es_recto cross dot = false →
     (giro = Some gira_izquierda ↔ (0 <? cross)%float = true) ∧
     (giro = Some gira_derecha ↔ (0 <? cross)%float = false) ∧
     (is_nan cross = false →
        (giro = Some gira_derecha ↔ (cross <=? 0)%float = true))).
Proof.
  intros cross dot giro. subst giro. unfold giro_de. fold cross dot.
  split; [| split].
  - intros [-> | Hz]; [done |]. rewrite Hz. by destruct (es_nulo v1x v1y).
  - intros ->. by destruct (es_nulo v1x v1y), (es_nulo v2x v2y).
  - intros -> -> ->.
    destruct (0 <? cross)%float eqn:Hpos.
    + split; [done |]. split; [done |]. intros _. split; [done |].
      intros Hle%FloatOrder.leb_nltb. congruence.
    + split; [done |]. split; [done |]. intros Hnan. split; [| done].
      intros _. by apply FloatOrder.nltb_leb.
Qed.

Section GiroClaim.
Context {K : Type} `{Countable K}.

(** C5, as the code has it.  At a path index [S i] that has a node before
    it and a node after it, [_calcular_giro] takes the arrival vector
    [node[i+1] - node[i]] and the departure vector [node[i+2] - node[i+1]];
    it answers [None] when either is the zero vector, and [None] when
    [|cross| < 1e-6] and [dot > 0].  In every other case it answers "gira a
    la izquierda" exactly when [cross > 0], and "gira a la derecha"
    exactly when [cross > 0] does not hold, which is [cross ≤ 0] whenever
    the cross product is a number (not NaN). *)
Theorem calcular_giro_clasifica (g : Graph K) (camino : list K) (i : nat)
    (n0 n1 n2 : K) (x0 y0 x1 y1 x2 y2 : float) :
  camino !! i = Some n0 → camino !! S i = Some n1 → camino !! S (S i) = Some n2 →
  assoc n0 (node_tab g) = Some (mkNode (Some x0) (Some y0)) →
  assoc n1 (node_tab g) = Some (mkNode (Some x1) (Some y1)) →
  assoc n2 (node_tab g) = Some (mkNode (Some x2) (Some y2)) →
  let '(v1x, v1y) := ((x1 - x0)%float, (y1 - y0)%float) in
  let '(v2x, v2y) := ((x2 - x1)%float, (y2 - y1)%float) in
  let cross := producto_cruzado v1x v1y v2x v2y in
  let dot := producto_escalar v1x v1y v2x v2y in
  ∃ giro : option string,
    _calcular_giro camino (Z.of_nat (S i)) g = (Ok giro, g) ∧
    (es_nulo v1x v1y = true ∨ es_nulo v2x v2y = true → giro = None) ∧
    (es_recto cross dot = true → giro = None) ∧
    (es_nulo v1x v1y = false → es_nulo v2x v2y = false → es_recto cross dot = false →
       (giro = Some gira_izquierda ↔ (0 <? cross)%float = true) ∧
       (giro = Some gira_derecha ↔ (0 <? cross)%float = false) ∧
       (is_nan cross = false →
          (giro = Some gira_derecha ↔ (cross <=? 0)%float = true))).
Proof.
  intros H0 H1 H2 Hn0 Hn1 Hn2. simpl.
  eexists. split; [by apply (_calcular_giro_interior g camino i n0 n1 n2) |].
  apply giro_de_clasifica.
Qed.

End GiroClaim.

(** At the corner B of the example, the route A, B, C turns left. *)
Lemma calcular_giro_clasifica_witness :
  ∃ giro : option string,
    _calcular_giro ["A"; "B"; "C"] 1 grafo_esquina = (Ok giro, grafo_esquina) ∧
    giro = Some gira_izquierda.
Proof.
  destruct (calcular_giro_clasifica grafo_esquina ["A"; "B"; "C"] 0 "A" "B" "C"
              0 0 1 0 1 1)
    as (giro & Hgiro & _ & _ & Hturn); [reflexivity .. |].
  exists giro. split; [exact Hgiro |].
  destruct (Hturn eq_refl eq_refl eq_refl) as (Hleft & _).
  apply Hleft. reflexivity.
Defined.

(** C5, as the claim states it, fails where the cross product is NaN.  On
    the far straight line p, q, r the products overflow, [cross] is
    [inf - inf]; neither vector is zero and the move does not count as
    straight; the answer is "gira a la derecha" although [cross ≤ 0] does
    not hold. *)
Lemma calcular_giro_derecha_con_nan :
  _calcular_giro ["p"; "q"; "r"] 1 grafo_lejano
    = (Ok (Some gira_derecha), grafo_lejano) ∧
  es_nulo (1e200 - 0) (1e200 - 0) = false ∧
  es_nulo (2e200 - 1e200) (2e200 - 1e200) = false ∧
  es_recto (producto_cruzado (1e200 - 0) (1e200 - 0) (2e200 - 1e200) (2e200 - 1e200))
           (producto_escalar (1e200 - 0) (1e200 - 0) (2e200 - 1e200) (2e200 - 1e200))
    = false ∧
  (producto_cruzado (1e200 - 0) (1e200 - 0) (2e200 - 1e200) (2e200 - 1e200) <=? 0)%float
    = false.
Proof. repeat split; reflexivity. Qed.

(** ** C9: the graph is only read *)

Section ReadOnly.
Context {K : Type} `{Countable K}.

Lemma read_only_ret {A} (a : A) : read_only (mret a : M K A).
Proof. by intros g. Qed.

Lemma read_only_lift {A} (r : res A) : read_only (lift r : M K A).
Proof. by intros g. Qed.

Lemma read_only_bind {A B} (m : M K A) (f : A → M K B) :
  read_only m → (∀ a, read_only (f a)) → read_only (m ≫= f).
Proof.
  intros Hm Hf g. unfold mbind, M_bind. specialize (Hm g).
  destruct (m g) as [[a|e|] g']; simpl in *; subst; [apply Hf | done | done].
Qed.

Lemma read_only_foldM {A B} (f : B → A → M K B) (l : list A) (b : B) :
  (∀ b a, read_only (f b a)) → read_only (foldM f l b).
Proof.
  intros Hf. revert b. induction l as [|a l IH]; intros b; simpl.
  - apply read_only_ret.
  - apply read_only_bind; [apply Hf | intros b'; apply IH].
Qed.

Lemma read_only_mapM {A B} (f : A → M K B) (l : list A) :
  (∀ a, read_only (f a)) → read_only (mapM f l).
Proof.
  intros Hf. induction l as [|a l IH]; simpl.
  - apply read_only_ret.
  - apply read_only_bind; [apply Hf | intros b].
    apply read_only_bind; [apply IH | intros bs; apply read_only_ret].
Qed.

Lemma read_only_G_nodes : read_only (G_nodes : M K (list K)).
Proof. by intros g. Qed.
Lemma read_only_G_neighbors (v : K) : read_only (G_neighbors v).
Proof. by intros g. Qed.
Lemma read_only_G_getitem (u v : K) : read_only (G_getitem u v).
Proof. by intros g. Qed.
Lemma read_only_G_node (n : K) : read_only (G_node n).
Proof. by intros g. Qed.
Lemma read_only_G_edges : read_only (G_edges : M K (list (K * K))).
Proof. by intros g. Qed.
Lemma read_only_budget (n : nat) : read_only (budget n : M K nat).
Proof. by intros g. Qed.

End ReadOnly.

(** One step of a proof that a computation is read-only. *)
Ltac ro_step :=
  lazymatch goal with
  | |- read_only (mbind _ _) => apply read_only_bind; [| intros ?]
  | |- read_only (mret _) => apply read_only_ret
  | |- read_only (lift _) => apply read_only_lift
  | |- read_only (foldM _ _ _) => apply read_only_foldM; intros ? ?
  | |- read_only (mapM _ _) => apply read_only_mapM; intros ?
  | |- read_only G_nodes => apply read_only_G_nodes
  | |- read_only (G_neighbors _) => apply read_only_G_neighbors
  | |- read_only (G_getitem _ _) => apply read_only_G_getitem
  | |- read_only (G_node _) => apply read_only_G_node
  | |- read_only G_edges => apply read_only_G_edges
  | |- read_only (budget _) => apply read_only_budget
  | |- read_only (if ?c then _ else _) => destruct c
  | |- read_only (match ?x with _ => _ end) => destruct x
  | |- read_only (let _ := _ in _) => cbv zeta
  | |- read_only _ => first [ assumption | progress cbv beta ]
  end.

Ltac ro := repeat ro_step.

Section Frame.
Context {K : Type} `{Countable K}.

Lemma read_only_mas_corto (u v : K) : read_only (mas_corto u v).
Proof. unfold mas_corto. ro. Qed.

Lemma read_only__velocidad_kmh (u v : K) : read_only (_velocidad_kmh u v).
Proof. unfold _velocidad_kmh. ro. Qed.

Lemma read_only_mas_rapido (u v : K) : read_only (mas_rapido u v).
Proof. unfold mas_rapido. ro. apply read_only__velocidad_kmh. Qed.

Lemma read_only_mas_rapido_semaforos (u v : K) : read_only (mas_rapido_semaforos u v).
Proof. unfold mas_rapido_semaforos. ro. apply read_only_mas_rapido. Qed.

Section WithPeso.
Variable peso : Peso K.
Hypothesis peso_read_only : ∀ u v, read_only (peso u v).

Lemma read_only_dijkstra_relax v st x : read_only (dijkstra_relax peso v st x).
Proof. unfold dijkstra_relax. ro. apply peso_read_only. Qed.

Lemma read_only_dijkstra_loop fuel st : read_only (dijkstra_loop fuel peso st).
Proof.
  revert st. induction fuel as [|fuel IH]; intros st; simpl; ro;
    first [apply IH | apply read_only_dijkstra_relax].
Qed.

Lemma read_only_dijkstra o : read_only (dijkstra peso o).
Proof. unfold dijkstra. ro. apply read_only_dijkstra_loop. Qed.

Lemma read_only_camino_minimo o d : read_only (camino_minimo peso o d).
Proof. unfold camino_minimo. ro. apply read_only_dijkstra. Qed.

Lemma read_only_prim_relax v st x : read_only (prim_relax peso v st x).
Proof. unfold prim_relax. ro. apply peso_read_only. Qed.

Lemma read_only_prim_loop fuel st : read_only (prim_loop fuel peso st).
Proof.
  revert st. induction fuel as [|fuel IH]; intros st; simpl; ro;
    first [apply IH | apply read_only_prim_relax].
Qed.

Lemma read_only_prim : read_only (prim peso).
Proof. unfold prim. ro. apply read_only_prim_loop. Qed.

Lemma read_only_kruskal : read_only (kruskal peso).
Proof. unfold kruskal. ro. apply peso_read_only. Qed.

End WithPeso.

Lemma read_only__nombre_calle (u v : K) : read_only (_nombre_calle u v).
Proof. unfold _nombre_calle. ro. Qed.

Lemma read_only_coordenadas (n : K) : read_only (coordenadas n).
Proof. unfold coordenadas. ro. Qed.

Lemma read_only__calcular_giro (camino : list K) (i : Z) :
  read_only (_calcular_giro camino i).
Proof. unfold _calcular_giro. ro; apply read_only_coordenadas. Qed.

Lemma read_only_segmentos_loop i (resto : list K) nombre dist inicio segs :
  read_only (segmentos_loop i resto nombre dist inicio segs).
Proof.
  revert i nombre dist inicio segs.
  induction resto as [|u resto IH]; intros i nombre dist inicio segs; simpl; ro;
    first [apply IH | apply read_only__nombre_calle].
Qed.

Lemma read_only_segmentos_de (camino : list K) : read_only (segmentos_de camino).
Proof.
  unfold segmentos_de. ro;
    first [apply read_only_segmentos_loop | apply read_only__nombre_calle].
Qed.

Lemma read_only_frase_de (camino : list K) st seg : read_only (frase_de camino st seg).
Proof. unfold frase_de. ro. apply read_only__calcular_giro. Qed.

Lemma read_only_construir_instrucciones (camino : list K) :
  read_only (construir_instrucciones camino).
Proof.
  unfold construir_instrucciones. ro;
    first [apply read_only_segmentos_de | apply read_only_frase_de].
Qed.

(** C9.  Whatever their arguments and their outcome, [dijkstra],
    [camino_minimo], [prim] and [kruskal] hand the graph back as they
    received it, provided the weight function they call does; the three
    weight functions of the module do, and so does
    [construir_instrucciones]. *)
Theorem operaciones_solo_leen (peso : Peso K) :
  (∀ u v, read_only (peso u v)) →
  (∀ o, read_only (dijkstra peso o)) ∧
  (∀ o d, read_only (camino_minimo peso o d)) ∧
  read_only (prim peso) ∧
  read_only (kruskal peso) ∧
  (∀ camino : list K, read_only (construir_instrucciones camino)) ∧
  (∀ u v : K, read_only (mas_corto u v) ∧ read_only (mas_rapido u v) ∧
              read_only (mas_rapido_semaforos u v)).
Proof.
  intros Hpeso. repeat split.
  - intros o. by apply read_only_dijkstra.
  - intros o d. by apply read_only_camino_minimo.
  - by apply read_only_prim.
  - by apply read_only_kruskal.
  - apply read_only_construir_instrucciones.
  - apply read_only_mas_corto.
  - apply read_only_mas_rapido.
  - apply read_only_mas_rapido_semaforos.
Qed.

End Frame.

(** With the weight function [mas_rapido], on the three corners. *)
Lemma operaciones_solo_leen_witness :
  (dijkstra mas_rapido "A" grafo_esquina).2 = grafo_esquina ∧
  (camino_minimo mas_rapido "A" "C" grafo_esquina).2 = grafo_esquina ∧
  (prim mas_rapido grafo_esquina).2 = grafo_esquina ∧
  (kruskal mas_rapido grafo_esquina).2 = grafo_esquina ∧
  (construir_instrucciones ["A"; "B"; "C"] grafo_esquina).2 = grafo_esquina.
Proof.
  destruct (operaciones_solo_leen (K := string) mas_rapido read_only_mas_rapido)
    as (Hd & Hc & Hp & Hk & Hi & _).
  split; [apply Hd |]. split; [apply Hc |]. split; [apply Hp |].
  split; [apply Hk | apply Hi].
Defined.

(** The hypothesis on the weight function is needed: what a weight function
    does to the graph is what the caller gets back. *)
Lemma dijkstra_con_peso_que_borra :
  (dijkstra peso_que_borra "A" grafo_esquina).2 = mkGraph true [] [].
Proof. reflexivity. Qed.

(** ** C10: edges without a length *)

Section SinLongitud.
Context {K : Type} `{Countable K}.

Lemma assoc_map {A B C : Type} `{EqDecision A} (f : B → C) (k : A) (l : list (A * B)) :
  assoc k (map (λ p, (p.1, f p.2)) l) = f <$> assoc k l.
Proof.
  induction l as [|[k' b] l IH]; simpl; [done |]. by case_decide.
Qed.

Lemma G_getitem_rellena (u v : K) (g : Graph K) :
  G_getitem u v (rellena_longitudes g) =
    (match (G_getitem u v g).1 with
     | Ok datos => Ok (con_longitud_cero datos)
     | Raise e => Raise e
     | OutOfFuel => OutOfFuel
     end, rellena_longitudes g).
Proof.
  unfold G_getitem, rellena_longitudes. simpl. f_equal.
  rewrite (assoc_map (λ fila, map _ fila)).
  destruct (assoc u (adj_tab g)) as [nbrs|]; simpl; [| done].
  rewrite (assoc_map con_longitud_cero).
  by destruct (assoc v nbrs).
Qed.

Lemma longitud_de_rellena (datos : EdgeData) :
  longitud_de (con_longitud_cero datos) = longitud_de datos.
Proof. unfold longitud_de. by destruct datos as [? [l|] ? ?]. Qed.

Lemma nombre_de_rellena (datos : EdgeData) :
  nombre_de (con_longitud_cero datos) = nombre_de datos.
Proof. done. Qed.

Lemma _nombre_calle_ok (u v : K) (g : Graph K) (datos : EdgeData) :
  G_getitem u v g = (Ok datos, g) → _nombre_calle u v g = (Ok (nombre_de datos), g).
Proof.
  intros Hd. unfold _nombre_calle. rewrite (M_bind_ok _ _ _ _ _ Hd).
  unfold nombre_de. destruct (e_name datos); [| done]. by case_decide.
Qed.

Lemma G_getitem_state (u v : K) (g : Graph K) :
  G_getitem u v g = ((G_getitem u v g).1, g).
Proof. done. Qed.

(** *** Computations that do not depend on the missing lengths *)

Lemma indiferente_ret {A} (a : A) : indiferente (mret a : M K A).
Proof. intros g. by eexists. Qed.

Lemma indiferente_lift {A} (r : res A) : indiferente (lift r : M K A).
Proof. intros g. by eexists. Qed.

Lemma indiferente_bind {A B} (m : M K A) (f : A → M K B) :
  indiferente m → (∀ a, indiferente (f a)) → indiferente (m ≫= f).
Proof.
  intros Hm Hf g. destruct (Hm g) as (r & Hg & Hg').
  unfold mbind, M_bind. rewrite Hg, Hg'.
  destruct r as [a|e|]; [apply Hf | by eexists | by eexists].
Qed.

Lemma indiferente_foldM {A B} (f : B → A → M K B) (l : list A) (b : B) :
  (∀ b a, indiferente (f b a)) → indiferente (foldM f l b).
Proof.
  intros Hf. revert b. induction l as [|a l IH]; intros b; simpl.
  - apply indiferente_ret.
  - apply indiferente_bind; [apply Hf | intros b'; apply IH].
Qed.

Lemma indiferente_G_node (n : K) : indiferente (G_node n).
Proof. intros g. by eexists. Qed.

(** The attributes of an edge differ on the two graphs; what is computed
    from them does not, if it does not look at a missing length. *)
Lemma indiferente_arista {B} (u v : K) (f : EdgeData → M K B) :
  (∀ datos g, ∃ r, f datos g = (r, g) ∧
      f (con_longitud_cero datos) (rellena_longitudes g) = (r, rellena_longitudes g)) →
  indiferente (G_getitem u v ≫= f).
Proof.
  intros Hf g. unfold mbind, M_bind.
  rewrite G_getitem_rellena, (G_getitem_state u v g).
  destruct (G_getitem u v g).1 as [datos|e|]; simpl; [apply Hf | by eexists ..].
Qed.

Lemma indiferente__nombre_calle (u v : K) : indiferente (_nombre_calle u v).
Proof.
  unfold _nombre_calle. apply indiferente_arista. intros datos g. simpl.
  destruct (e_name datos); [case_decide |]; by eexists.
Qed.

Lemma indiferente_coordenadas (n : K) : indiferente (coordenadas n).
Proof.
  unfold coordenadas.
  repeat first [ apply indiferente_bind; [| intros ?] | apply indiferente_G_node
               | apply indiferente_lift | apply indiferente_ret ].
Qed.

Lemma indiferente__calcular_giro (camino : list K) (i : Z) :
  indiferente (_calcular_giro camino i).
Proof.
  unfold _calcular_giro. case_decide; [apply indiferente_ret |].
  repeat first [ apply indiferente_coordenadas
               | apply indiferente_lift | apply indiferente_ret
               | apply indiferente_bind; [| intros ?]
               | match goal with
                 | |- indiferente (match ?p with _ => _ end) => destruct p
                 end ].
Qed.

Lemma indiferente_frase_de (camino : list K) st seg : indiferente (frase_de camino st seg).
Proof.
  unfold frase_de. destruct st as [[j instrucciones] total_dist].
  apply indiferente_bind; [| intros ?; apply indiferente_ret].
  case_decide; [apply indiferente_ret | apply indiferente__calcular_giro].
Qed.

Lemma indiferente_segmentos_loop i (resto : list K) nombre dist inicio segs :
  indiferente (segmentos_loop i resto nombre dist inicio segs).
Proof.
  revert i nombre dist inicio segs.
  induction resto as [|u resto IH]; intros i nombre dist inicio segs; simpl;
    [apply indiferente_ret |].
  destruct resto as [|v resto]; [apply indiferente_ret |].
  apply indiferente_arista. intros datos g.
  destruct (indiferente__nombre_calle u v g) as (r & Hr & Hr').
  unfold mbind at 1 3, M_bind at 1 3. rewrite Hr, Hr'.
  destruct r as [nombre'|e|]; [| by eexists ..].
  rewrite !M_bind_lift, longitud_de_rellena.
  destruct (longitud_de datos) as [longitud|e|]; [| by eexists ..].
  case_decide; apply IH.
Qed.

Lemma indiferente_segmentos_de (camino : list K) : indiferente (segmentos_de camino).
Proof.
  unfold segmentos_de. destruct camino as [|u0 [|v0 camino]];
    [apply indiferente_lift .. |].
  apply indiferente_bind; [apply indiferente__nombre_calle | intros nombre].
  apply indiferente_arista. intros datos g.
  rewrite !M_bind_lift, longitud_de_rellena.
  destruct (longitud_de datos) as [longitud|e|]; [| by eexists ..].
  apply indiferente_bind; [apply indiferente_segmentos_loop |].
  intros [[[? ?] ?] ?]. apply indiferente_ret.
Qed.

Lemma indiferente_construir_instrucciones (camino : list K) :
  indiferente (construir_instrucciones camino).
Proof.
  unfold construir_instrucciones.
  destruct camino as [|u0 [|v0 camino]]; [apply indiferente_ret .. |].
  apply indiferente_bind; [apply indiferente_segmentos_de | intros segs].
  apply indiferente_bind.
  - apply indiferente_foldM. intros st seg. apply indiferente_frase_de.
  - intros [[? ?] ?]. apply indiferente_ret.
Qed.

End SinLongitud.

Section SinLongitudTotal.
Context {K : Type} `{Countable K}.

Lemma longitud_admisible_ok (datos : EdgeData) :
  longitud_admisible datos → ∃ l, longitud_de datos = Ok l.
Proof.
  unfold longitud_admisible, longitud_de.
  destruct (e_length datos) as [l|]; simpl; [intros [f Hf] | intros _]; eauto.
Qed.

Lemma transitable_tail (g : Graph K) (u : K) (resto : list K) :
  transitable g (u :: resto) → transitable g resto.
Proof. intros Ht i a b Ha Hb. by apply (Ht (S i)). Qed.

Lemma segmentos_loop_ok (g : Graph K) i (resto : list K) nombre dist inicio segs :
  transitable g resto →
  ∃ out, segmentos_loop i resto nombre dist inicio segs g = (Ok out, g).
Proof.
  revert i nombre dist inicio segs.
  induction resto as [|u resto IH]; intros i nombre dist inicio segs Ht; simpl;
    [by eexists |].
  destruct resto as [|v resto]; [by eexists |].
  destruct (Ht 0%nat u v eq_refl eq_refl) as (datos & Hd & Hadm).
  destruct (longitud_admisible_ok _ Hadm) as [l Hl].
  rewrite (M_bind_ok _ _ _ _ _ Hd).
  rewrite (M_bind_ok _ _ _ _ _ (_nombre_calle_ok _ _ _ _ Hd)).
  rewrite M_bind_lift, Hl.
  case_decide; apply IH; by apply (transitable_tail g u).
Qed.

Lemma segmentos_de_ok (g : Graph K) (camino : list K) :
  (2 ≤ length camino)%nat → transitable g camino →
  ∃ segs, segmentos_de camino g = (Ok segs, g).
Proof.
  intros Hlen Ht. unfold segmentos_de.
  destruct camino as [|u0 [|v0 camino]]; simpl in Hlen; [lia | lia |].
  destruct (Ht 0%nat u0 v0 eq_refl eq_refl) as (datos & Hd & Hadm).
  destruct (longitud_admisible_ok _ Hadm) as [l Hl].
  rewrite (M_bind_ok _ _ _ _ _ (_nombre_calle_ok _ _ _ _ Hd)).
  rewrite (M_bind_ok _ _ _ _ _ Hd), M_bind_lift, Hl.
  destruct (segmentos_loop_ok g 1 (v0 :: camino) (nombre_de datos) l 0 [])
    as ([[[n d] ini] segs] & Hloop); [by apply (transitable_tail g u0) |].
  rewrite (M_bind_ok _ _ _ _ _ Hloop). by eexists.
Qed.

Lemma _calcular_giro_ok (g : Graph K) (camino : list K) (idx : Z) :
  con_coordenadas g camino →
  ∃ giro, _calcular_giro camino idx g = (Ok giro, g).
Proof.
  intros Hc. unfold _calcular_giro. case_decide as Hidx; [by eexists |].
  assert (∀ j, (0 ≤ j < Z.of_nat (length camino))%Z →
            ∃ n x y, item camino j = Ok n ∧ coordenadas n g = (Ok (x, y), g)) as Hitem.
  { intros j Hj. unfold item.
    destruct (lookup_lt_is_Some_2 camino (Z.to_nat j)) as [n Hn]; [lia |].
    destruct (Hc n) as (x & y & Hxy); [by eapply list_elem_of_lookup_2 |].
    exists n, x, y. rewrite Hn. split; [done | by apply coordenadas_ok]. }
  destruct (Hitem (idx - 1)%Z) as (n0 & x0 & y0 & -> & Hc0); [lia |].
  destruct (Hitem idx) as (n1 & x1 & y1 & -> & Hc1); [lia |].
  destruct (Hitem (idx + 1)%Z) as (n2 & x2 & y2 & -> & Hc2); [lia |].
  rewrite !M_bind_lift.
  rewrite (M_bind_ok _ _ _ _ _ Hc0), (M_bind_ok _ _ _ _ _ Hc1),
    (M_bind_ok _ _ _ _ _ Hc2).
  by eexists.
Qed.

Lemma foldM_frase_de_ok (g : Graph K) (camino : list K) (segs : list Segmento) st :
  con_coordenadas g camino →
  ∃ out, foldM (frase_de camino) segs st g = (Ok out, g).
Proof.
  intros Hc. revert st. induction segs as [|seg segs IH]; intros st; simpl;
    [by eexists |].
  assert (∃ st', frase_de camino st seg g = (Ok st', g)) as [st' Hst'].
  { unfold frase_de. destruct st as [[j instrucciones] total_dist].
    case_decide.
    - rewrite (M_bind_ok _ _ _ None g); by eexists.
    - destruct (_calcular_giro_ok g camino (Z.of_nat (s_inicio seg)) Hc) as [giro Hg].
      rewrite (M_bind_ok _ _ _ _ _ Hg). by eexists. }
  rewrite (M_bind_ok _ _ _ _ _ Hst'). apply IH.
Qed.

(** C10.  Take a path of two nodes or more whose consecutive nodes are
    joined by edges of the graph, each with a [length] that is absent or
    converts to a float, and whose nodes have coordinates.  Then
    [construir_instrucciones] returns its instructions, and so does the
    computation of the segments; both results are those obtained on the
    graph in which every edge without a [length] has the length [0.0]:
    a missing length counts as 0.0 in the distance of its segment and in
    the line of the total. *)
Theorem construir_instrucciones_sin_longitud (g : Graph K) (camino : list K) :
  (2 ≤ length camino)%nat →
  transitable g camino →
  con_coordenadas g camino →
  ∃ (segmentos : list Segmento) (instrucciones : list string),
    segmentos_de camino g = (Ok segmentos, g) ∧
    segmentos_de camino (rellena_longitudes g) = (Ok segmentos, rellena_longitudes g) ∧
    construir_instrucciones camino g = (Ok instrucciones, g) ∧
    construir_instrucciones camino (rellena_longitudes g)
      = (Ok instrucciones, rellena_longitudes g).
Proof.
  intros Hlen Ht Hc.
  destruct (segmentos_de_ok g camino Hlen Ht) as [segs Hsegs].
  assert (∃ instrucciones, construir_instrucciones camino g = (Ok instrucciones, g))
    as [instrucciones Hins].
  { unfold construir_instrucciones.
    destruct camino as [|u0 [|v0 camino]]; simpl in Hlen; [lia | lia |].
    rewrite (M_bind_ok _ _ _ _ _ Hsegs).
    destruct (foldM_frase_de_ok g (u0 :: v0 :: camino) segs (0%nat, [], 0%float) Hc)
      as ([[j ins] total] & Hfold).
    rewrite (M_bind_ok _ _ _ _ _ Hfold). by eexists. }
  exists segs, instrucciones.
  destruct (indiferente_segmentos_de camino g) as (r1 & Hr1 & Hr1').
  destruct (indiferente_construir_instrucciones camino g) as (r2 & Hr2 & Hr2').
  rewrite Hsegs in Hr1. rewrite Hins in Hr2.
  injection Hr1 as <-. injection Hr2 as <-. done.
Qed.

End SinLongitudTotal.

(** The route A, B, C where Main St has no [length]: its segment is 0.00 km
    long and the total is the length of Side St. *)
Lemma construir_instrucciones_sin_longitud_witness :
  ∃ segmentos : list Segmento,
    segmentos_de ["A"; "B"; "C"] grafo_sin_longitud = (Ok segmentos, grafo_sin_longitud) ∧
    s_dist <$> segmentos = [0%float; 50%float] ∧
    construir_instrucciones ["A"; "B"; "C"] grafo_sin_longitud
      = (Ok ["Sal desde el origen y sigue por Main St durante 0.00 km.";
             "Luego gira a la izquierda y sigue por Side St durante 0.05 km.";
             "Distancia total aproximada: 0.05 km."], grafo_sin_longitud).
Proof.
  destruct (construir_instrucciones_sin_longitud grafo_sin_longitud ["A"; "B"; "C"])
    as (segmentos & instrucciones & Hsegs & _ & Hins & _).
  - simpl. lia.
  - intros [|[|[|i]]] u v; simpl; intros [= <-] [= <-];
      eexists; (split; [reflexivity | exact I || (eexists; reflexivity)]).
  - intros n Hn.
    repeat (apply elem_of_cons in Hn as [-> | Hn]; [do 2 eexists; reflexivity |]).
    by apply elem_of_nil in Hn.
  - exists segmentos. split; [exact Hsegs |].
    assert (segmentos_de ["A"; "B"; "C"] grafo_sin_longitud
            = (Ok [mkSegmento "Main St" 0 0 1; mkSegmento "Side St" 50 1 2],
               grafo_sin_longitud)) as Heval by reflexivity.
    rewrite Heval in Hsegs. injection Hsegs as <-.
    split; [reflexivity |].
    rewrite Hins. f_equal. f_equal.
    assert (construir_instrucciones ["A"; "B"; "C"] grafo_sin_longitud
            = (Ok ["Sal desde el origen y sigue por Main St durante 0.00 km.";
                   "Luego gira a la izquierda y sigue por Side St durante 0.05 km.";
                   "Distancia total aproximada: 0.05 km."], grafo_sin_longitud))
      as Heval2 by reflexivity.
    rewrite Heval2 in Hins. by injection Hins as <-.
Defined.

(** ** C4: Kruskal *)

Section Conexion.
Context {K : Type} `{Countable K}.

Lemma conectados_mono (es es' : list (K * K)) (a b : K) :
  (∀ e, e ∈ es → e ∈ es') → conectados es a b → conectados es' a b.
Proof.
  intros Hsub. unfold conectados.
  apply (rtsc_congruence id). intros x y. apply Hsub.
Qed.

Lemma conectados_arista (es : list (K * K)) (u v : K) :
  (u, v) ∈ es → conectados es u v.
Proof. intros He. by apply rtsc_lr. Qed.

(** What one more edge joins. *)
Lemma conectados_snoc (es : list (K * K)) (u v a b : K) :
  conectados (es ++ [(u, v)]) a b ↔
    conectados es a b ∨
    (conectados es a u ∧ conectados es v b) ∨
    (conectados es a v ∧ conectados es u b).
Proof.
  split.
  - intros Hab. unfold conectados in Hab.
    induction Hab as [a | a c b Hac Hcb IH]; [by left |].
    assert (conectados es a c ∨ (a = u ∧ c = v) ∨ (a = v ∧ c = u)) as Hstep.
    { destruct Hac as [Hac | Hac];
        apply elem_of_app in Hac as [Hac | Hac%list_elem_of_singleton].
      - left. by apply rtsc_lr.
      - right. left. by injection Hac.
      - left. by apply rtsc_rl.
      - right. right. by injection Hac. }
    destruct Hstep as [Hstep | [[-> ->] | [-> ->]]].
    + destruct IH as [IH | [[IH1 IH2] | [IH1 IH2]]].
      * left. by trans c.
      * right. left. split; [by trans c | done].
      * right. right. split; [by trans c | done].
    + destruct IH as [IH | [[IH1 IH2] | [IH1 IH2]]].
      * right. left. done.
      * right. left. done.
      * left. done.
    + destruct IH as [IH | [[IH1 IH2] | [IH1 IH2]]].
      * right. right. done.
      * left. done.
      * right. right. done.
  - assert (∀ x y, conectados es x y → conectados (es ++ [(u, v)]) x y) as Hm.
    { intros x y. apply conectados_mono. intros e He. apply elem_of_app. by left. }
    assert (conectados (es ++ [(u, v)]) u v) as Huv.
    { apply conectados_arista. apply elem_of_app. right. by apply list_elem_of_singleton. }
    intros [Hab | [[H1 H2] | [H1 H2]]].
    + by apply Hm.
    + trans u; [by apply Hm |]. trans v; [done | by apply Hm].
    + trans v; [by apply Hm |]. trans u; [by symmetry | by apply Hm].
Qed.

Lemma conectados_snoc_ya (es : list (K * K)) (u v a b : K) :
  conectados es u v → conectados (es ++ [(u, v)]) a b ↔ conectados es a b.
Proof.
  intros Huv. rewrite conectados_snoc. split; [| by left].
  intros [Hab | [[H1 H2] | [H1 H2]]]; [done | |].
  - trans u; [done |]. by trans v.
  - trans v; [done |]. trans u; [by symmetry | done].
Qed.

Lemma voraz_conectados (es ks : list (K * K)) :
  voraz es ks → ∀ a b, conectados ks a b ↔ conectados es a b.
Proof.
  induction 1 as [| es ks u v _ IH Hno | es ks u v _ IH Hyes]; intros a b.
  - done.
  - rewrite !conectados_snoc, !IH. done.
  - rewrite conectados_snoc_ya by done. apply IH.
Qed.

Lemma voraz_bosque (es ks : list (K * K)) : voraz es ks → bosque ks.
Proof.
  induction 1 as [| es ks u v Hv IH Hno | es ks u v _ IH Hyes].
  - constructor.
  - constructor; [done |]. by rewrite (voraz_conectados _ _ Hv).
  - done.
Qed.

Lemma voraz_sublist (es ks : list (K * K)) : voraz es ks → sublist ks es.
Proof.
  induction 1 as [| es ks u v _ IH Hno | es ks u v _ IH Hyes].
  - done.
  - by apply sublist_app.
  - by apply sublist_inserts_r.
Qed.

End Conexion.

Section KruskalLoop.
Context {K : Type} `{Countable K}.
Variable V : gset K.

Lemma clases_de_self seen C v c :
  clases_de V seen C → C !! v = Some c → v ∈ V ∧ v ∈ c.
Proof.
  intros [Hdom Hcl] Hv.
  assert (v ∈ V) by (rewrite <- Hdom; by apply elem_of_dom_2 in Hv).
  split; [done |]. apply (Hcl v c Hv). split; [done | reflexivity].
Qed.

Lemma clases_de_eq seen C a b ca cb :
  clases_de V seen C → C !! a = Some ca → C !! b = Some cb →
  ca = cb ↔ conectados seen a b.
Proof.
  intros HC Ha Hb. destruct (clases_de_self _ _ _ _ HC Hb) as [HbV Hbb].
  destruct HC as [Hdom Hcl]. split.
  - intros ->. by apply (Hcl a cb Ha b).
  - intros Hab. apply set_eq. intros w.
    rewrite (Hcl a ca Ha w), (Hcl b cb Hb w).
    split; intros [? ?]; (split; [done |]).
    + trans a; [by symmetry | done].
    + by trans b.
Qed.

(** [for w in nueva_comp: C[w] = nueva_comp] *)
Lemma lookup_set_fold_insert (C : gmap K (gset K)) (val X : gset K) (w : K) :
  set_fold (λ w C, <[w := val]> C) C X !! w
    = if decide (w ∈ X) then Some val else C !! w.
Proof.
  revert X.
  refine (set_fold_ind_L
            (λ (C' : gmap K (gset K)) (X : gset K),
               C' !! w = if decide (w ∈ X) then Some val else C !! w) _ _ _ _).
  - by rewrite decide_False by set_solver.
  - intros x X C' Hx IH. destruct (decide (w = x)) as [-> | Hne].
    + rewrite lookup_insert_eq. by rewrite decide_True by set_solver.
    + rewrite lookup_insert_ne by done. rewrite IH.
      destruct (decide (w ∈ X)).
      * by rewrite decide_True by set_solver.
      * by rewrite decide_False by set_solver.
Qed.

(** The edge [(u, v)] joins two classes. *)
Lemma clases_de_unir seen C u v (cu cv : gset K) :
  clases_de V seen C → C !! u = Some cu → C !! v = Some cv → cu ≠ cv →
  let C' := set_fold (λ w C, <[w := cu ∪ cv]> C) C (cu ∪ cv) in
  clases_de V (seen ++ [(u, v)]) C' ∧
  (size (map_img C' : gset (gset K)) + 1 = size (map_img C : gset (gset K)))%nat.
Proof.
  intros HC Hu Hv Hne C'.
  destruct (clases_de_self _ _ _ _ HC Hu) as [HuV Huu].
  destruct (clases_de_self _ _ _ _ HC Hv) as [HvV Hvv].
  assert (¬ conectados seen u v) as Hnc
    by (by rewrite <- (clases_de_eq _ _ _ _ _ _ HC Hu Hv)).
  pose proof HC as [Hdom Hcl].
  assert (cu ∪ cv ⊆ V) as Hsub.
  { intros w [Hw | Hw]%elem_of_union;
      [apply (Hcl u cu Hu) in Hw | apply (Hcl v cv Hv) in Hw]; tauto. }
  assert (∀ w, C' !! w = if decide (w ∈ cu ∪ cv) then Some (cu ∪ cv) else C !! w)
    as HC' by (intros w; apply lookup_set_fold_insert).
  split; [split |].
  - apply set_eq. intros w. rewrite !elem_of_dom, HC'.
    destruct (decide (w ∈ cu ∪ cv)) as [Hw | Hw].
    + split; [intros _ | by eauto]. by apply Hsub.
    + by rewrite <- elem_of_dom, Hdom.
  - intros a c Ha w. rewrite HC' in Ha. rewrite conectados_snoc.
    destruct (decide (a ∈ cu ∪ cv)) as [Hin | Hout].
    + injection Ha as <-. rewrite elem_of_union.
      rewrite (Hcl u cu Hu w), (Hcl v cv Hv w).
      apply elem_of_union in Hin as [Hin | Hin];
        [apply (Hcl u cu Hu) in Hin | apply (Hcl v cv Hv) in Hin];
        destruct Hin as [HaV Hin]; split.
      * intros [[? ?] | [? ?]]; (split; [done |]).
        -- left. by trans u; [symmetry |].
        -- right. left. split; [by symmetry | done].
      * intros [? [? | [[? ?] | [? ?]]]].
        -- left. split; [done |]. by trans a.
        -- right. done.
        -- destruct Hnc. trans a; [done |]. done.
      * intros [[? ?] | [? ?]]; (split; [done |]).
        -- right. right. split; [by symmetry | done].
        -- left. by trans v; [symmetry |].
      * intros [? [? | [[? ?] | [? ?]]]].
        -- right. split; [done |]. by trans a.
        -- destruct Hnc. symmetry. by trans a.
        -- left. done.
    + rewrite (Hcl a c Ha w).
      assert (¬ conectados seen a u) as Hau.
      { intros Hau. apply Hout, elem_of_union. left.
        apply (Hcl u cu Hu). destruct (clases_de_self _ _ _ _ HC Ha). split; [done |].
        by symmetry. }
      assert (¬ conectados seen a v) as Hav.
      { intros Hav. apply Hout, elem_of_union. right.
        apply (Hcl v cv Hv). destruct (clases_de_self _ _ _ _ HC Ha). split; [done |].
        by symmetry. }
      tauto.
  - assert ((map_img C' : gset (gset K))
            = {[cu ∪ cv]} ∪ ((map_img C : gset (gset K)) ∖ {[cu; cv]})) as ->.
    { apply set_eq. intros c.
      rewrite elem_of_union, elem_of_difference, elem_of_singleton, !elem_of_map_img.
      split.
      - intros [w Hw]. rewrite HC' in Hw.
        destruct (decide (w ∈ cu ∪ cv)) as [Hin | Hout]; [left; congruence |].
        right. split; [by eauto |].
        destruct (clases_de_self _ _ _ _ HC Hw) as [_ Hwc].
        intros Hc. apply Hout. set_solver.
      - intros [-> | [[w Hw] Hno]].
        + exists u. rewrite HC'. by rewrite decide_True by set_solver.
        + exists w. rewrite HC'. rewrite decide_False; [done |].
          intros [Hin | Hin]%elem_of_union.
          * apply Hno, elem_of_union. left. apply elem_of_singleton.
            symmetry. apply (clases_de_eq _ _ _ _ _ _ HC Hu Hw).
            by apply (Hcl u cu Hu).
          * apply Hno, elem_of_union. right. apply elem_of_singleton.
            symmetry. apply (clases_de_eq _ _ _ _ _ _ HC Hv Hw).
            by apply (Hcl v cv Hv). }
    assert (cu ∈ (map_img C : gset (gset K))) as Hcu
      by (apply elem_of_map_img; eauto).
    assert (cv ∈ (map_img C : gset (gset K))) as Hcv
      by (apply elem_of_map_img; eauto).
    assert (cu ∪ cv ∉ (map_img C : gset (gset K))) as Hnew.
    { intros [w Hw]%elem_of_map_img.
      assert (cu = cu ∪ cv) as Heq.
      { apply (clases_de_eq _ _ _ _ _ _ HC Hu Hw). symmetry.
        apply (Hcl w _ Hw). set_solver. }
      apply Hne. apply (clases_de_eq _ _ _ _ _ _ HC Hu Hv).
      apply (Hcl u cu Hu). rewrite Heq. set_solver. }
    assert (size ({[cu; cv]} : gset (gset K)) = 2%nat) as Hpair.
    { rewrite size_union by set_solver. by rewrite !size_singleton. }
    assert (size ({[cu; cv]} : gset (gset K)) ≤ size (map_img C : gset (gset K)))%nat
      as Hle by (apply subseteq_size; set_solver).
    rewrite size_union by set_solver.
    rewrite size_difference by set_solver.
    rewrite size_singleton. lia.
Qed.

End KruskalLoop.

Section KruskalVoraz.
Context {K : Type} `{Countable K}.
Variable V : gset K.

Lemma clases_de_saltar seen C u v :
  clases_de V seen C → conectados seen u v → clases_de V (seen ++ [(u, v)]) C.
Proof.
  intros [Hdom Hcl] Huv. split; [done |].
  intros a c Ha w. rewrite (conectados_snoc_ya _ _ _ _ _ Huv). by apply Hcl.
Qed.

(** The loop of [kruskal] is the greedy pass, and each edge it keeps
    lowers the number of classes by one. *)
Lemma kruskal_loop_voraz (lista : list (float * K * K)) :
  ∀ (seen : list (K * K)) (C : gmap K (gset K)) (ks : list (K * K)),
  clases_de V seen C → voraz seen ks →
  (size (map_img C : gset (gset K)) + length ks = size V)%nat →
  (∀ x, x ∈ lista → x.1.2 ∈ V ∧ x.2 ∈ V) →
  ∃ ks' C',
    kruskal_loop lista C ks = Ok ks' ∧
    clases_de V (seen ++ (arista_de <$> lista)) C' ∧
    voraz (seen ++ (arista_de <$> lista)) ks' ∧
    (size (map_img C' : gset (gset K)) + length ks' = size V)%nat.
Proof.
  induction lista as [|[[c u] v] lista IH]; intros seen C ks HC Hvor Hsize HV.
  - exists ks, C. simpl. by rewrite app_nil_r.
  - destruct (HV (c, u, v)) as [HuV HvV]; [left |]. simpl in HuV, HvV.
    pose proof HC as [Hdom _].
    destruct (C !! u) as [cu|] eqn:Hu;
      [| apply not_elem_of_dom in Hu; by rewrite Hdom in Hu].
    destruct (C !! v) as [cv|] eqn:Hv;
      [| apply not_elem_of_dom in Hv; by rewrite Hdom in Hv].
    assert (∀ x, x ∈ lista → x.1.2 ∈ V ∧ x.2 ∈ V) as HV'
      by (intros x Hx; apply HV; by right).
    rewrite fmap_cons. change (arista_de (c, u, v)) with (u, v).
    rewrite (cons_middle (u, v) seen), app_assoc.
    cbn [kruskal_loop]. unfold getitem. rewrite Hu, Hv. cbn [mbind res_bind].
    case_decide as Hne.
    + destruct (clases_de_unir V seen C u v cu cv HC Hu Hv Hne) as [HC' Hsz].
      apply IH; [done | | | done].
      * apply voraz_keep; [done |].
        by rewrite <- (clases_de_eq V _ _ _ _ _ _ HC Hu Hv).
      * rewrite length_app. simpl. lia.
    + assert (conectados seen u v) as Huv.
      { apply (clases_de_eq V _ _ _ _ _ _ HC Hu Hv). by destruct (decide (cu = cv)). }
      apply IH; [by apply clases_de_saltar | by apply voraz_skip | done | done].
Qed.

End KruskalVoraz.

Section KruskalInicio.
Context {K : Type} `{Countable K}.

Lemma conectados_nil (a b : K) : conectados [] a b ↔ a = b.
Proof.
  split; [| by intros ->].
  unfold conectados. induction 1 as [| a c b [Hac | Hac] _ _]; [done | |];
    by apply elem_of_nil in Hac.
Qed.

(** [C = {v: {v} for v in G.nodes}] *)
Lemma clases_iniciales (nodes : list K) :
  NoDup nodes →
  let C := foldl (λ (C : gmap K (gset K)) v, <[v := {[v]}]> C) ∅ nodes in
  (∀ v, C !! v = if decide (v ∈ nodes) then Some {[v]} else None) ∧
  size (map_img C : gset (gset K)) = length nodes.
Proof.
  induction nodes as [|x nodes IH] using rev_ind; intros Hnd; cbv zeta.
  - cbn [foldl]. split.
    + intros v. rewrite lookup_empty. by destruct (decide (v ∈ [])) as [?%elem_of_nil|].
    + by rewrite map_img_empty_L, size_empty.
  - apply NoDup_app in Hnd as (Hnd & Hx & _).
    destruct (IH Hnd) as [Hlk Hsz]. rewrite foldl_app. cbn [foldl]. split.
    + intros v. destruct (decide (v = x)) as [-> | Hne].
      * rewrite lookup_insert_eq. by rewrite decide_True by set_solver.
      * rewrite lookup_insert_ne by done. rewrite Hlk.
        destruct (decide (v ∈ nodes)).
        -- by rewrite decide_True by set_solver.
        -- by rewrite decide_False by set_solver.
    + rewrite map_img_insert_notin_L.
      2:{ rewrite Hlk. rewrite decide_False; [done |]. intros Hin.
          by apply (Hx x), list_elem_of_singleton. }
      rewrite size_union.
      * rewrite size_singleton, Hsz, length_app. simpl. lia.
      * intros c Hc1%elem_of_singleton [w Hw]%elem_of_map_img. subst c.
        rewrite Hlk in Hw. destruct (decide (w ∈ nodes)) as [Hin |]; [| done].
        apply (inj Some) in Hw. apply (Hx w Hin).
        assert (x ∈ ({[w]} : gset K)) as Hxw by (rewrite Hw; set_solver).
        apply elem_of_singleton in Hxw. subst. by apply list_elem_of_singleton.
Qed.

Lemma clases_de_iniciales (nodes : list K) :
  NoDup nodes →
  clases_de (list_to_set nodes) []
    (foldl (λ (C : gmap K (gset K)) v, <[v := {[v]}]> C) ∅ nodes).
Proof.
  intros Hnd. destruct (clases_iniciales nodes Hnd) as [Hlk _]. split.
  - apply set_eq. intros v. rewrite elem_of_dom, Hlk, elem_of_list_to_set.
    destruct (decide (v ∈ nodes)); split; try done; by eauto. 
  - intros v c Hv w. rewrite Hlk in Hv.
    destruct (decide (v ∈ nodes)) as [Hin |]; [| done]. injection Hv as <-.
    rewrite elem_of_singleton, conectados_nil, elem_of_list_to_set.
    split; [by intros -> | by intros [_ ->]].
Qed.

End KruskalInicio.

Section Aristas.
Context {K : Type} `{Countable K}.

Lemma assoc_elem_of {A B : Type} `{EqDecision A} (k : A) (b : B) (l : list (A * B)) :
  assoc k l = Some b → (k, b) ∈ l.
Proof.
  induction l as [|[k' b'] l IH]; simpl; [done |].
  case_decide; [intros [= <-]; subst; left | intros ?; right; auto].
Qed.

Lemma assoc_NoDup {A B : Type} `{EqDecision A} (k : A) (b : B) (l : list (A * B)) :
  NoDup l.*1 → (k, b) ∈ l → assoc k l = Some b.
Proof.
  induction l as [|[k' b'] l IH]; simpl; intros Hnd Hin; [by apply elem_of_nil in Hin |].
  apply NoDup_cons in Hnd as [Hk' Hnd].
  apply elem_of_cons in Hin as [[= -> ->] | Hin]; [by rewrite decide_True |].
  rewrite decide_False; [by apply IH |].
  intros ->. apply Hk'. apply list_elem_of_fmap. by exists (k', b).
Qed.

Lemma assoc_is_Some {A B : Type} `{EqDecision A} (k : A) (l : list (A * B)) :
  k ∈ l.*1 → is_Some (assoc k l).
Proof.
  induction l as [|[k' b'] l IH]; simpl; [by intros ?%elem_of_nil |].
  intros [-> | Hin]%elem_of_cons; case_decide; eauto; done.
Qed.

(** Every pair that [G.edges] yields is an adjacency entry. *)
Lemma edges_from_elem_of dir (tab : list (K * list (K * EdgeData))) seen u v :
  (u, v) ∈ edges_from dir seen tab → ∃ nbrs, (u, nbrs) ∈ tab ∧ v ∈ nbrs.*1.
Proof.
  revert seen. induction tab as [|[n nbrs] tab IH]; intros seen; simpl;
    [by intros ?%elem_of_nil |].
  intros [Hin | Hin]%elem_of_app.
  - apply list_elem_of_fmap in Hin as (nbr & [= -> ->] & Hnbr).
    apply list_elem_of_filter in Hnbr as [_ Hnbr]. exists nbrs. split; [left | done].
  - destruct (IH _ Hin) as (nbrs' & ? & ?). exists nbrs'. split; [by right | done].
Qed.

(** A directed graph yields every adjacency entry. *)
Lemma edges_from_directed (tab : list (K * list (K * EdgeData))) seen u v nbrs :
  (u, nbrs) ∈ tab → v ∈ nbrs.*1 → (u, v) ∈ edges_from true seen tab.
Proof.
  revert seen. induction tab as [|[n nbrs'] tab IH]; intros seen; simpl;
    [by intros ?%elem_of_nil |].
  intros [[= -> ->] | Hin]%elem_of_cons Hv; apply elem_of_app.
  - left. apply list_elem_of_fmap. exists v. split; [done |].
    apply list_elem_of_filter. split; [by left | done].
  - right. by apply IH.
Qed.

(** An undirected graph yields every adjacency entry in one direction. *)
Lemma edges_from_undirected (tab : list (K * list (K * EdgeData))) seen u v nu nv :
  NoDup tab.*1 →
  (u, nu) ∈ tab → (v, nv) ∈ tab → v ∈ nu.*1 → u ∈ nv.*1 →
  u ∉ seen → v ∉ seen →
  (u, v) ∈ edges_from false seen tab ∨ (v, u) ∈ edges_from false seen tab.
Proof.
  revert seen. induction tab as [|[n nbrs] tab IH]; intros seen Hnd Hu Hv Hvu Huv Hus Hvs;
    [by apply elem_of_nil in Hu |].
  simpl in Hnd. apply NoDup_cons in Hnd as [Hn Hnd]. simpl.
  assert (∀ k b, (k, b) ∈ tab → k ≠ n) as Hfresh.
  { intros k b Hkb ->. apply Hn. apply list_elem_of_fmap. by exists (n, b). }
  apply elem_of_cons in Hu as [[= -> ->] | Hu].
  - left. apply elem_of_app. left. apply list_elem_of_fmap. exists v. split; [done |].
    apply list_elem_of_filter. split; [by right | done].
  - apply elem_of_cons in Hv as [[= -> ->] | Hv].
    + right. apply elem_of_app. left. apply list_elem_of_fmap. exists u. split; [done |].
      apply list_elem_of_filter. split; [by right | done].
    + pose proof (Hfresh _ _ Hu). pose proof (Hfresh _ _ Hv).
      destruct (IH ({[n]} ∪ seen) Hnd Hu Hv Hvu Huv) as [? | ?];
        [set_solver | set_solver | |]; [left | right]; apply elem_of_app; by right.
Qed.

Lemma adyacente_fila (g : Graph K) (u v : K) :
  NoDup (adj_tab g).*1 →
  adyacente g u v ↔ ∃ nbrs, (u, nbrs) ∈ adj_tab g ∧ v ∈ nbrs.*1.
Proof.
  intros Hnd. unfold adyacente. split; intros (nbrs & Hu & Hv); exists nbrs;
    (split; [| done]); [by apply assoc_elem_of | by apply assoc_NoDup].
Qed.

Lemma G_edges_adyacente (g : Graph K) (u v : K) :
  bien_formado g →
  ((u, v) ∈ edges_from (directed g) ∅ (adj_tab g) → adyacente g u v) ∧
  (adyacente g u v →
     (u, v) ∈ edges_from (directed g) ∅ (adj_tab g) ∨
     (v, u) ∈ edges_from (directed g) ∅ (adj_tab g)).
Proof.
  intros [Hnd Hadj Hvec Hsim].
  assert (NoDup (adj_tab g).*1) as Hnd' by (by rewrite Hadj).
  split.
  - intros Hin%edges_from_elem_of. by apply adyacente_fila.
  - intros Huv. destruct (directed g) eqn:Hdir.
    + left. apply (adyacente_fila _ _ _ Hnd') in Huv as (nbrs & ? & ?).
      by apply (edges_from_directed _ _ _ _ nbrs).
    + pose proof (Hsim eq_refl u v Huv) as Hvu.
      apply (adyacente_fila _ _ _ Hnd') in Huv as (nu & ? & ?).
      apply (adyacente_fila _ _ _ Hnd') in Hvu as (nv & ? & ?).
      by apply (edges_from_undirected _ _ _ _ nu nv).
Qed.

Lemma adyacente_nodos (g : Graph K) (u v : K) :
  bien_formado g → adyacente g u v → u ∈ nodos g ∧ v ∈ nodos g.
Proof.
  intros Hbf Huv. split; [| by apply (bf_vecinos g Hbf u v)].
  destruct Huv as (nbrs & Hu%assoc_elem_of & _).
  rewrite <- (bf_adj g Hbf). apply list_elem_of_fmap. by exists (u, nbrs).
Qed.

(** The edges [G.edges] yields join what the graph joins. *)
Lemma conectados_G_edges (g : Graph K) (a b : K) :
  bien_formado g →
  conectados (edges_from (directed g) ∅ (adj_tab g)) a b ↔ conectados_en g a b.
Proof.
  intros Hbf. split.
  - unfold conectados, conectados_en. apply (rtsc_congruence id).
    intros x y Hxy. by apply G_edges_adyacente.
  - unfold conectados_en. induction 1 as [| a c b Hac _ IH]; [reflexivity |].
    trans c; [| done].
    destruct Hac as [Hac | Hac]; apply (G_edges_adyacente g) in Hac as [? | ?];
      try done; first [by apply rtsc_lr | by apply rtsc_rl].
Qed.

End Aristas.

Section Orden.
Context {A : Type} (key : A → float).
Import FloatOrder.

Lemma sort_insert_perm (x : A) (l : list A) : sort_insert key x l ≡ₚ x :: l.
Proof.
  induction l as [|y l IH]; simpl; [done |].
  destruct (key y <? key x)%float; [| done].
  rewrite IH. apply Permutation_swap.
Qed.

Lemma list_sort_perm (l : list A) : list_sort key l ≡ₚ l.
Proof.
  unfold list_sort. induction l as [|x l IH]; simpl; [done |].
  by rewrite sort_insert_perm, IH.
Qed.



Lemma sort_insert_ordenada (x : A) (l : list A) :
  is_nan (key x) = false → Forall (λ y, is_nan (key y) = false) l →
  ordenada key l → ordenada key (sort_insert key x l).
Proof.
  intros Hx. unfold ordenada.
  induction l as [|y l IH]; simpl; intros Hnan Hs.
  - by repeat constructor.
  - apply Forall_cons in Hnan as [Hy Hnan].
    apply StronglySorted_inv in Hs as [Hs Hyl].
    destruct (key y <? key x)%float eqn:Hlt.
    + constructor; [by apply IH |].
      rewrite sort_insert_perm. constructor; [| done].
      rewrite leb_ltb_eqb, Hlt. done.
    + assert ((key x <=? key y)%float = true) as Hxy by (by apply nltb_leb).
      constructor; [by constructor |].
      constructor; [done |].
      eapply Forall_impl; [exact Hyl |]. intros z Hyz. by apply (leb_trans _ (key y)).
Qed.

(** Among keys that are numbers, sorting puts them in ascending order. *)
Lemma list_sort_ordenada (l : list A) :
  Forall (λ y, is_nan (key y) = false) l → ordenada key (list_sort key l).
Proof.
  unfold list_sort. induction l as [|x l IH]; simpl; intros Hnan.
  - constructor.
  - apply Forall_cons in Hnan as [Hx Hnan].
    apply sort_insert_ordenada; [done | | by apply IH].
    fold (list_sort key l). by rewrite list_sort_perm.
Qed.

End Orden.

Section KruskalClaim.
Context {K : Type} `{Countable K}.

Lemma mapM_ok {A B} (R : A → B → Prop) (f : A → M K B) (l : list A) (g : Graph K) :
  (∀ a, a ∈ l → ∃ b, f a g = (Ok b, g) ∧ R a b) →
  ∃ bs, mapM f l g = (Ok bs, g) ∧ Forall2 R l bs.
Proof.
  induction l as [|a l IH]; intros Hf; simpl.
  - exists []. by split.
  - destruct (Hf a) as (b & Hb & Hab); [left |].
    destruct IH as (bs & Hbs & Hall); [intros a' Ha'; apply Hf; by right |].
    exists (b :: bs). rewrite (M_bind_ok _ _ _ _ _ Hb), (M_bind_ok _ _ _ _ _ Hbs).
    split; [done | by constructor].
Qed.


Lemma Forall2_arista_de (edges : list (K * K)) (pesadas : list (float * K * K))
    (Q : K * K → float * K * K → Prop) :
  Forall2 (λ e x, arista_de x = e ∧ Q e x) edges pesadas →
  arista_de <$> pesadas = edges.
Proof.
  induction 1 as [| e x edges pesadas [He _] _ IH]; [done |].
  rewrite fmap_cons. by rewrite He, IH.
Qed.

(** The run of [kruskal]: the weights of the edges are computed, the
    weighted edges are sorted, and the loop is the greedy pass over them. *)
Lemma kruskal_voraz (g : Graph K) (peso : Peso K) :
  bien_formado g → peso_definido g peso →
  ∃ (pesadas : list (float * K * K)) (aristas_aam : list (K * K))
    (C : gmap K (gset K)),
    kruskal peso g = (Ok aristas_aam, g) ∧
    Forall2 (λ e x, arista_de x = e ∧ peso e.1 e.2 g = (Ok x.1.1, g))
      (edges_from (directed g) ∅ (adj_tab g)) pesadas ∧
    voraz (arista_de <$> list_sort (λ x, x.1.1) pesadas) aristas_aam ∧
    clases_de (list_to_set (nodos g)) (arista_de <$> list_sort (λ x, x.1.1) pesadas) C ∧
    (size (map_img C : gset (gset K)) + length aristas_aam = length (nodos g))%nat ∧
    (∀ a b, conectados (arista_de <$> list_sort (λ x, x.1.1) pesadas) a b
            ↔ conectados_en g a b).
Proof.
  intros Hbf Hpeso.
  set (edges := edges_from (directed g) ∅ (adj_tab g)).
  set (V := list_to_set (nodos g) : gset K).
  destruct (mapM_ok (λ e x, arista_de x = e ∧ peso e.1 e.2 g = (Ok x.1.1, g))
              (λ '(u, v), c ← peso u v; mret (c, u, v)) edges g)
    as (pesadas & Hmap & Hpes).
  { intros [u v] Huv. destruct (Hpeso u v) as [w Hw]; [by apply G_edges_adyacente |].
    exists (w, u, v). by rewrite (M_bind_ok _ _ _ _ _ Hw). }
  set (lista := list_sort (λ x : float * K * K, x.1.1) pesadas).
  pose proof (list_sort_perm (λ x : float * K * K, x.1.1) pesadas) as Hperm.
  fold lista in Hperm.
  pose proof (Forall2_arista_de _ _ _ Hpes) as Hedges.
  assert (∀ e, e ∈ arista_de <$> lista ↔ e ∈ edges) as Hmem.
  { intros e. by rewrite Hperm, Hedges. }
  destruct (kruskal_loop_voraz V lista [] 
              (foldl (λ (C : gmap K (gset K)) v, <[v := {[v]}]> C) ∅ (nodos g)) [])
    as (aristas & C' & Hloop & HC' & Hvor & Hsize).
  { apply clases_de_iniciales, Hbf. }
  { constructor. }
  { destruct (clases_iniciales (nodos g) (bf_nodos g Hbf)) as [_ ->].
    simpl. unfold V. rewrite size_list_to_set by apply Hbf. lia. }
  { intros x Hx.
    assert (arista_de x ∈ edges) as Hin.
    { apply Hmem. apply list_elem_of_fmap. by exists x. }
    destruct x as [[c u] v]. unfold arista_de in Hin. simpl in *.
    apply (G_edges_adyacente g u v Hbf) in Hin.
    unfold V. rewrite !elem_of_list_to_set. by apply adyacente_nodos. }
  simpl in HC', Hvor.
  exists pesadas, aristas, C'.
  split; [| split; [done | split; [done | split; [done | split]]]].
  - unfold kruskal.
    rewrite (M_bind_ok G_edges _ g edges g) by done.
    rewrite (M_bind_ok _ _ _ _ _ Hmap).
    rewrite (M_bind_ok G_nodes _ g (nodos g) g) by done.
    unfold lift. fold lista. by rewrite Hloop.
  - unfold V in Hsize. rewrite size_list_to_set in Hsize by apply Hbf. done.
  - intros a b. rewrite <- (conectados_G_edges g a b Hbf). fold edges.
    split; apply conectados_mono; intros e; apply Hmem.
Qed.


End KruskalClaim.

(** The graph of the two islands is well formed, and [mas_corto] is
    defined on its edges, where it gives numbers. *)
Lemma grafo_islas_adyacente (u v : string) :
  adyacente grafo_islas u v ↔
    (u, v) ∈ [("A", "B"); ("A", "C"); ("B", "A"); ("B", "C"); ("C", "B"); ("C", "A");
              ("D", "E"); ("E", "D")].
Proof.
  unfold adyacente. simpl. split.
  - intros (nbrs & Hu & Hv).
    repeat (case_decide; [subst; injection Hu as <-; set_solver |]). done.
  - intros Huv.
    repeat (apply elem_of_cons in Huv as [[= -> ->] | Huv];
            [eexists; split; [reflexivity | set_solver] |]).
    by apply elem_of_nil in Huv.
Qed.

Lemma grafo_islas_bien_formado : bien_formado grafo_islas.
Proof.
  split.
  - refine (bool_decide_unpack (NoDup (nodos grafo_islas)) _). by vm_compute.
  - reflexivity.
  - intros u v Huv%grafo_islas_adyacente.
    repeat (apply elem_of_cons in Huv as [[= -> ->] | Huv];
            [unfold nodos; simpl; by repeat constructor |]).
    by apply elem_of_nil in Huv.
  - intros _ u v Huv%grafo_islas_adyacente. apply grafo_islas_adyacente.
    repeat (apply elem_of_cons in Huv as [[= -> ->] | Huv]; [by repeat constructor |]).
    by apply elem_of_nil in Huv.
Qed.

Lemma grafo_islas_mas_corto : peso_definido grafo_islas mas_corto.
Proof.
  intros u v Huv%grafo_islas_adyacente.
  repeat (apply elem_of_cons in Huv as [[= -> ->] | Huv]; [eexists; reflexivity |]).
  by apply elem_of_nil in Huv.
Qed.

Lemma grafo_islas_numerico : peso_numerico grafo_islas mas_corto.
Proof.
  intros u v Huv%grafo_islas_adyacente.
  repeat (apply elem_of_cons in Huv as [[= -> ->] | Huv];
          [eexists; split; reflexivity |]).
  by apply elem_of_nil in Huv.
Qed.




(** ** C6: Prim *)

Section Heap.
Context {K : Type}.
Import FloatOrder.

Lemma entry_lt_leb (a b : entry K) :
  entry_lt a b = true → (a.1.1 <=? b.1.1)%float = true.
Proof.
  destruct a as [[d1 c1] n1], b as [[d2 c2] n2]. simpl.
  rewrite leb_ltb_eqb. destruct (d1 =? d2)%float; [by rewrite orb_true_r |].
  intros ->. done.
Qed.

Lemma entry_nlt_leb (a b : entry K) :
  is_nan a.1.1 = false → is_nan b.1.1 = false →
  entry_lt a b = false → (b.1.1 <=? a.1.1)%float = true.
Proof.
  destruct a as [[d1 c1] n1], b as [[d2 c2] n2]. simpl. intros Ha Hb.
  rewrite leb_ltb_eqb, (eqb_sym d2 d1).
  destruct (d1 =? d2)%float eqn:Heq; [by rewrite orb_true_r |].
  intros Hlt. pose proof (nltb_leb d2 d1 Hb Ha Hlt) as Hle.
  rewrite leb_ltb_eqb, (eqb_sym d2 d1), Heq, orb_false_r in Hle. by rewrite Hle.
Qed.

Lemma pop_min_perm (e : entry K) (q : list (entry K)) m r :
  pop_min e q = (m, r) → m :: r ≡ₚ e :: q.
Proof.
  revert e m r. induction q as [|e' q IH]; intros e m r; simpl.
  - by intros [= <- <-].
  - destruct (pop_min e' q) as [m' r'] eqn:Hpop.
    pose proof (IH _ _ _ Hpop) as Hperm.
    destruct (entry_lt m' e); intros [= <- <-]; [| done].
    rewrite <- Hperm. apply Permutation_swap.
Qed.

(** What [heappop] returns has the least cost of the queue. *)
Lemma pop_min_least (e : entry K) (q : list (entry K)) m r :
  pop_min e q = (m, r) →
  Forall (λ x, is_nan x.1.1 = false) (e :: q) →
  Forall (λ x, (m.1.1 <=? x.1.1)%float = true) r.
Proof.
  revert e m r. induction q as [|e' q IH]; intros e m r; simpl.
  - by intros [= <- <-].
  - destruct (pop_min e' q) as [m' r'] eqn:Hpop. intros Hres Hnan.
    apply Forall_cons in Hnan as [He Hnan].
    pose proof (IH _ _ _ Hpop Hnan) as Hleast.
    pose proof (pop_min_perm _ _ _ _ Hpop) as Hperm.
    assert (is_nan m'.1.1 = false) as Hm'.
    { rewrite <- Hperm in Hnan. by apply Forall_cons in Hnan as [? _]. }
    destruct (entry_lt m' e) eqn:Hlt; injection Hres as <- <-.
    + constructor; [by apply entry_lt_leb | done].
    + pose proof (entry_nlt_leb _ _ Hm' He Hlt) as Hle.
      rewrite <- Hperm. constructor; [done |].
      eapply Forall_impl; [exact Hleast |]. intros x Hx. simpl in Hx.
      by apply (leb_trans _ m'.1.1).
Qed.

End Heap.

Section PrimBasics.
Context {K : Type} `{Countable K}.

Lemma previos_elem_of (orden : list K) (x a : K) : a ∈ previos orden x → a ∈ orden.
Proof.
  induction orden as [|y orden IH]; simpl; [done |].
  case_decide; [by intros ?%elem_of_nil |].
  intros [-> | Ha]%elem_of_cons; [left | right; auto].
Qed.

Lemma previos_not_in (orden : list K) (x : K) : x ∉ orden → previos orden x = orden.
Proof.
  induction orden as [|y orden IH]; simpl; [done |]. intros Hx.
  rewrite decide_False by (intros ->; apply Hx; left).
  f_equal. apply IH. intros Hin. apply Hx. by right.
Qed.

Lemma previos_app_l (orden l : list K) (x : K) :
  x ∈ orden → previos (orden ++ l) x = previos orden x.
Proof.
  induction orden as [|y orden IH]; simpl; [by intros ?%elem_of_nil |].
  intros Hx. case_decide; [done |]. f_equal. apply IH.
  by apply elem_of_cons in Hx as [-> | Hx].
Qed.

Lemma previos_snoc_self (orden : list K) (x : K) :
  x ∉ orden → previos (orden ++ [x]) x = orden.
Proof.
  induction orden as [|y orden IH]; simpl; intros Hx.
  - by rewrite decide_True.
  - rewrite decide_False by (intros ->; apply Hx; left).
    f_equal. apply IH. intros Hin. apply Hx. by right.
Qed.

Lemma previos_self (orden : list K) (x : K) : x ∉ previos orden x.
Proof.
  induction orden as [|y orden IH]; simpl; [by intros ?%elem_of_nil |].
  case_decide; [by intros ?%elem_of_nil |].
  intros [-> | Hin]%elem_of_cons; done.
Qed.

End PrimBasics.

Section PrimLoop.
Context {K : Type} `{Countable K}.
Variable g : Graph K.
Variable peso : Peso K.
Hypothesis Hbf : bien_formado g.
Hypothesis Hsim : simetrico g.
Hypothesis Hpeso : peso_acotado g peso.
Import FloatOrder.

#[local] Abbreviation W := (peso_en g peso).

Lemma peso_en_spec (a b : K) :
  adyacente g a b →
  peso a b g = (Ok (W a b), g) ∧ (W a b <? INFTY)%float = true.
Proof.
  intros Hab. destruct (Hpeso a b Hab) as (w & Hw & Hlt).
  unfold peso_en. by rewrite Hw.
Qed.

Lemma ltb_leb (x y : float) : (x <? y)%float = true → (x <=? y)%float = true.
Proof. intros Hlt. by rewrite leb_ltb_eqb, Hlt. Qed.

Lemma prim_inv_relajada (A A' : K → K → Prop) (st : PState K) (orden : list K) :
  prim_inv g peso A st orden →
  (∀ a x, A' a x → x ∈ p_en_Q st →
     ∃ c, p_coste st !! x = Some c ∧ (c <=? W a x)%float = true) →
  prim_inv g peso A' st orden.
Proof. intros [] HA'. by constructor. Qed.

Lemma prim_inv_en_Q (A : K → K → Prop) (st : PState K) (orden : list K) (x : K) :
  prim_inv g peso A st orden → x ∈ p_en_Q st → x ∈ nodos g ∧ x ∉ orden.
Proof.
  intros Hinv Hx. rewrite (pi_en_Q _ _ _ _ _ Hinv) in Hx.
  apply elem_of_difference in Hx as [Hx1 Hx2].
  rewrite elem_of_list_to_set in Hx1, Hx2. done.
Qed.

Lemma prim_inv_coste_num (A : K → K → Prop) (st : PState K) (orden : list K) x c :
  prim_inv g peso A st orden → x ∈ p_en_Q st → p_coste st !! x = Some c →
  is_nan c = false.
Proof.
  intros Hinv Hx Hc.
  destruct (pi_coste _ _ _ _ _ Hinv x c Hx Hc) as [[_ ->] | (p & _ & _ & Hpx & ->)];
    [done |].
  destruct (peso_en_spec p x Hpx) as [_ Hlt]. by apply ltb_not_nan in Hlt as [? _].
Qed.

Lemma retirado_bien_padre (padre padre' : gmap K (option K)) (orden : list K) (x : K) :
  padre' !! x = padre !! x →
  retirado_bien g peso padre orden x → retirado_bien g peso padre' orden x.
Proof. unfold retirado_bien. by intros ->. Qed.

(** One turn of [for x in G.neighbors(v)], after [v] has been removed. *)
Lemma prim_relax_spec (A : K → K → Prop) (st : PState K) (orden : list K) (v x : K) :
  prim_inv g peso A st orden → v ∈ orden → adyacente g v x →
  ∃ st',
    prim_relax peso v st x g = (Ok st', g) ∧
    prim_inv g peso (λ a y, A a y ∨ (a = v ∧ y = x)) st' orden ∧
    (length (p_Q st') ≤ S (length (p_Q st)))%nat ∧
    p_en_Q st' = p_en_Q st.
Proof.
  intros Hinv Hv Hvx. unfold prim_relax.
  destruct (decide (x ∈ p_en_Q st)) as [Hx | Hx].
  2:{ exists st. split; [done |]. split; [| split; [lia | done]].
      apply (prim_inv_relajada A); [done |].
      intros a y [Hay | [-> ->]] Hy; [by apply (pi_relajada _ _ _ _ _ Hinv) | done]. }
  destruct (peso_en_spec v x Hvx) as [Hw Hlt].
  rewrite (M_bind_ok _ _ _ _ _ Hw).
  destruct (pi_entrada _ _ _ _ _ Hinv x Hx) as (c & n & Hc & _).
  rewrite M_bind_lift. unfold getitem. rewrite Hc.
  pose proof (prim_inv_coste_num _ _ _ _ _ Hinv Hx Hc) as Hcnum.
  pose proof (ltb_not_nan _ _ Hlt) as [Hwnum _].
  destruct (prim_inv_en_Q _ _ _ _ Hinv Hx) as [HxV Hxo].
  destruct (W v x <? c)%float eqn:Hcmp.
  2:{ exists st. split; [done |]. split; [| split; [lia | done]].
      apply (prim_inv_relajada A); [done |].
      intros a y [Hay | [-> ->]] Hy; [by apply (pi_relajada _ _ _ _ _ Hinv) |].
      exists c. split; [done |]. by apply nltb_leb. }
  eexists. split; [reflexivity |].
  split; [| split; [simpl; unfold heappush; rewrite length_app; simpl; lia | done]].
  destruct Hinv as [Hnd HenQ Hord Hdp Hdc Hent Hcola Hcoste Hret Hrel].
  constructor; simpl; unfold heappush.
  - done.
  - done.
  - done.
  - rewrite dom_insert_L, Hdp.
    assert (x ∈ (list_to_set (nodos g) : gset K)) by (by apply elem_of_list_to_set).
    set_solver.
  - rewrite dom_insert_L, Hdc.
    assert (x ∈ (list_to_set (nodos g) : gset K)) by (by apply elem_of_list_to_set).
    set_solver.
  - intros y Hy. destruct (decide (y = x)) as [-> | Hne].
    + exists (W v x), (p_contador st). rewrite lookup_insert_eq.
      split; [done |]. apply elem_of_app. right. by apply list_elem_of_singleton.
    + destruct (Hent y Hy) as (c' & n' & Hc' & Hin).
      exists c', n'. rewrite lookup_insert_ne by done.
      split; [done |]. apply elem_of_app. by left.
  - intros c' n' y [Hin | Hin%list_elem_of_singleton]%elem_of_app.
    + destruct (Hcola c' n' y Hin) as (HyV & Hc'num & Hy).
      split; [done |]. split; [done |]. intros HyQ.
      destruct (Hy HyQ) as (c'' & Hc'' & Hle).
      destruct (decide (y = x)) as [-> | Hne].
      * exists (W v x). rewrite lookup_insert_eq. split; [done |].
        rewrite Hc in Hc''. injection Hc'' as <-.
        apply ltb_leb. by apply (ltb_leb_trans _ c).
      * exists c''. by rewrite lookup_insert_ne.
    + injection Hin as -> -> ->. split; [done |]. split; [done |].
      intros _. exists (W v x). rewrite lookup_insert_eq. split; [done |].
      by apply leb_refl.
  - intros y c' Hy. destruct (decide (y = x)) as [-> | Hne].
    + rewrite !lookup_insert_eq. intros [= <-]. right. by exists v.
    + rewrite !lookup_insert_ne by done. by apply Hcoste.
  - intros y Hy. apply (retirado_bien_padre (p_padre st)); [| by apply Hret].
    apply lookup_insert_ne. by intros ->.
  - intros a y Hay Hy. destruct (decide (y = x)) as [-> | Hne].
    + exists (W v x). rewrite lookup_insert_eq. split; [done |].
      destruct Hay as [Hay | [-> _]]; [| by apply leb_refl].
      destruct (Hrel a x Hay Hy) as (c' & Hc' & Hle).
      rewrite Hc in Hc'. injection Hc' as <-.
      apply ltb_leb. by apply (ltb_leb_trans _ c).
    + rewrite lookup_insert_ne by done.
      destruct Hay as [Hay | [_ ->]]; [by apply Hrel | done].
Qed.

(** The whole of [for x in G.neighbors(v)]. *)
Lemma prim_relax_all (vecinos : list K) :
  ∀ (A : K → K → Prop) (st : PState K) (orden : list K) (v : K),
  prim_inv g peso A st orden → v ∈ orden →
  (∀ x, x ∈ vecinos → adyacente g v x) →
  ∃ st',
    foldM (prim_relax peso v) vecinos st g = (Ok st', g) ∧
    prim_inv g peso (λ a y, A a y ∨ (a = v ∧ y ∈ vecinos)) st' orden ∧
    (length (p_Q st') ≤ length (p_Q st) + length vecinos)%nat ∧
    p_en_Q st' = p_en_Q st.
Proof.
  induction vecinos as [|x vecinos IH]; intros A st orden v Hinv Hv Hadj; simpl.
  - exists st. split; [done |]. split; [| split; [lia | done]].
    apply (prim_inv_relajada A); [done |].
    intros a y [Hay | [_ Hy%elem_of_nil]]; [by apply (pi_relajada _ _ _ _ _ Hinv) | done].
  - destruct (prim_relax_spec A st orden v x Hinv Hv) as (st1 & Hst1 & Hinv1 & Hlen1 & HQ1);
      [apply Hadj; left |].
    destruct (IH _ st1 orden v Hinv1 Hv) as (st2 & Hst2 & Hinv2 & Hlen2 & HQ2);
      [intros y Hy; apply Hadj; by right |].
    exists st2. rewrite (M_bind_ok _ _ _ _ _ Hst1).
    split; [done |]. split; [| split; [lia | congruence]].
    apply (prim_inv_relajada _ _ _ _ Hinv2).
    intros a y Hay HyQ. apply (pi_relajada _ _ _ _ _ Hinv2); [| done].
    destruct Hay as [Hay | [-> Hy]]; [left; by left |].
    apply elem_of_cons in Hy as [-> | Hy]; [left; by right | by right].
Qed.

Lemma G_neighbors_spec (v : K) :
  v ∈ nodos g →
  ∃ vecinos, G_neighbors v g = (Ok vecinos, g) ∧
    (∀ x, x ∈ vecinos ↔ adyacente g v x) ∧ length vecinos = grado g v.
Proof.
  intros Hv. rewrite <- (bf_adj g Hbf) in Hv.
  destruct (assoc_is_Some v (adj_tab g) Hv) as [nbrs Hnbrs].
  exists nbrs.*1. unfold G_neighbors, grado, adyacente. rewrite Hnbrs. simpl.
  split; [done |]. split; [| by rewrite length_fmap].
  intros x. split; [by exists nbrs |]. by intros (? & [= <-] & ?).
Qed.

(** A popped entry that is out of date. *)
Lemma prim_descartar (A : K → K → Prop) (st : PState K) (orden : list K) c n v Q' :
  prim_inv g peso A st orden →
  heappop (p_Q st) = Some ((c, n, v), Q') → v ∉ p_en_Q st →
  prim_inv g peso A
    (mkPState (p_padre st) (p_coste st) (p_contador st) Q' (p_en_Q st)) orden.
Proof.
  intros [Hnd HenQ Hord Hdp Hdc Hent Hcola Hcoste Hret Hrel] Hpop Hv.
  destruct (p_Q st) as [|e q] eqn:HQ; [done |]. injection Hpop as Hpop.
  apply pop_min_perm in Hpop.
  constructor; simpl; try done.
  - intros x Hx. destruct (Hent x Hx) as (c' & n' & Hc' & Hin).
    exists c', n'. split; [done |]. rewrite <- Hpop in Hin.
    apply elem_of_cons in Hin as [[= -> -> ->] | Hin]; done.
  - intros c' n' x Hin. apply (Hcola c' n' x). rewrite <- Hpop. by right.
Qed.

(** The removal of the node of the least entry. *)
Lemma prim_retirar (st : PState K) (orden : list K) c n v Q' :
  prim_inv g peso (relajadas g orden) st orden →
  heappop (p_Q st) = Some ((c, n, v), Q') → v ∈ p_en_Q st →
  prim_inv g peso (relajadas g orden)
    (mkPState (p_padre st) (p_coste st) (p_contador st) Q' (p_en_Q st ∖ {[v]}))
    (orden ++ [v]).
Proof.
  intros Hinv Hpop Hv.
  destruct (prim_inv_en_Q _ _ _ _ Hinv Hv) as [HvV Hvo].
  pose proof Hinv as [Hnd HenQ Hord Hdp Hdc Hent Hcola Hcoste Hret Hrel].
  destruct (p_Q st) as [|e q] eqn:HQ; [done |]. injection Hpop as Hpop.
  pose proof (pop_min_perm _ _ _ _ Hpop) as Hperm.
  assert (Forall (λ x : entry K, is_nan x.1.1 = false) (e :: q)) as Hnum.
  { apply Forall_forall. intros [[c' n'] x] Hin. by destruct (Hcola c' n' x Hin) as (_ & ? & _). }
  pose proof (pop_min_least _ _ _ _ Hpop Hnum) as Hleast. simpl in Hleast.
  assert (is_nan c = false) as Hcnum.
  { rewrite <- Hperm in Hnum. by apply Forall_cons in Hnum as [? _]. }
  (* the cost of every node still in the queue is at least [c] *)
  assert (∀ y cy, y ∈ p_en_Q st → p_coste st !! y = Some cy →
            (c <=? cy)%float = true) as Hmin.
  { intros y cy Hy Hcy. destruct (Hent y Hy) as (cy' & ny & Hcy' & Hin).
    rewrite Hcy in Hcy'. injection Hcy' as <-. rewrite <- Hperm in Hin.
    apply elem_of_cons in Hin as [[= -> -> ->] | Hin]; [by apply leb_refl |].
    rewrite Forall_forall in Hleast. by apply (Hleast _ Hin). }
  (* and the cost of [v] is at most [c] *)
  destruct (Hcola c n v) as (_ & _ & Hcv); [rewrite <- Hperm; left |].
  destruct (Hcv Hv) as (cv & Hcvv & Hcvc).
  assert (∀ y cy, y ∈ p_en_Q st → p_coste st !! y = Some cy →
            (cv <=? cy)%float = true) as Hmin'.
  { intros y cy Hy Hcy. apply (leb_trans _ c); [done | by apply (Hmin y)]. }
  constructor; simpl.
  - apply NoDup_app. split; [done |]. split; [| apply NoDup_singleton].
    intros x Hx ->%list_elem_of_singleton. done.
  - rewrite HenQ, list_to_set_app_L. simpl. set_solver.
  - intros x [Hx | ->%list_elem_of_singleton]%elem_of_app; [by apply Hord | done].
  - done.
  - done.
  - intros x [Hx Hxv]%elem_of_difference.
    destruct (Hent x Hx) as (c' & n' & Hc' & Hin).
    exists c', n'. split; [done |]. rewrite <- Hperm in Hin.
    apply elem_of_cons in Hin as [[= -> -> ->] | Hin]; [| done].
    destruct Hxv. by apply elem_of_singleton.
  - intros c' n' x Hin.
    destruct (Hcola c' n' x) as (? & ? & Hx); [rewrite <- Hperm; by right |].
    split; [done |]. split; [done |]. intros [HxQ _]%elem_of_difference. by apply Hx.
  - intros x c' [Hx _]%elem_of_difference Hc'.
    destruct (Hcoste x c' Hx Hc') as [? | (p & ? & ? & ? & ?)]; [by left |].
    right. exists p. split; [done |]. split; [| done]. apply elem_of_app. by left.
  - intros x [Hx | ->%list_elem_of_singleton]%elem_of_app.
    + pose proof (Hret x Hx) as Hx'. unfold retirado_bien in *.
      by rewrite (previos_app_l orden [v] x Hx).
    + unfold retirado_bien. rewrite (previos_snoc_self orden v Hvo).
      destruct (Hcoste v cv Hv Hcvv) as [[Hroot ->] | (p & Hp & Hpo & Hpv & ->)].
      * left. split; [done |].
        (* the removed nodes are closed under adjacency *)
        intros a b Ha Hab. destruct (decide (b ∈ orden)) as [| Hbo]; [done |].
        assert (b ∈ p_en_Q st) as Hb.
        { rewrite HenQ. apply elem_of_difference. rewrite !elem_of_list_to_set.
          split; [by apply (bf_vecinos g Hbf a b) | done]. }
        destruct (Hrel a b (conj Ha Hab) Hb) as (cb & Hcb & Hle).
        destruct (peso_en_spec a b Hab) as [_ Hlt].
        pose proof (Hmin' b cb Hb Hcb) as Hinf.
        pose proof (leb_ltb_trans _ _ _ (leb_trans _ _ _ Hinf Hle) Hlt) as Habs.
        by rewrite ltb_irrefl in Habs.
      * right. exists p. split; [done |]. split; [done |]. split; [done |].
        intros a b Ha Hb Hbo Hab.
        assert (b ∈ p_en_Q st) as HbQ.
        { rewrite HenQ. apply elem_of_difference. by rewrite !elem_of_list_to_set. }
        destruct (Hrel a b (conj Ha Hab) HbQ) as (cb & Hcb & Hle).
        apply (leb_trans _ cb); [by apply (Hmin' b) | done].
  - intros a x Hax [Hx _]%elem_of_difference. by apply Hrel.
Qed.

Lemma sum_filter_remove (f : K → nat) (l : list K) (S : gset K) (v : K) :
  NoDup l → v ∈ S →
  (sum_list (f <$> filter (λ x, x ∈ S ∖ {[v]}) l) + (if decide (v ∈ l) then f v else 0)
   = sum_list (f <$> filter (λ x, x ∈ S) l))%nat.
Proof.
  intros Hnd Hv. induction l as [|y l IH]; [done |].
  apply NoDup_cons in Hnd as [Hy Hnd]. specialize (IH Hnd).
  assert (v ∉ S ∖ {[v]}) as Hvv.
  { intros [_ Hn]%elem_of_difference. apply Hn. by apply elem_of_singleton. }
  assert (y ≠ v → (y ∈ S ∖ {[v]} ↔ y ∈ S)) as Hyv.
  { intros Hne. rewrite elem_of_difference, elem_of_singleton. tauto. }
  rewrite !filter_cons. destruct (decide (y = v)) as [-> | Hne].
  - rewrite (decide_False (P := v ∈ S ∖ {[v]})) by done.
    rewrite (decide_True (P := v ∈ S)) by done.
    rewrite (decide_True (P := v ∈ v :: l)) by left.
    rewrite decide_False in IH by done.
    rewrite fmap_cons. simpl. lia.
  - assert ((if decide (v ∈ y :: l) then f v else 0%nat)
            = (if decide (v ∈ l) then f v else 0%nat)) as ->.
    { destruct (decide (v ∈ l)) as [Hin | Hin].
      - rewrite decide_True; [done | by right].
      - rewrite decide_False; [done |]. by intros [-> | ?]%elem_of_cons. }
    destruct (decide (y ∈ S)) as [HyS | HyS].
    + rewrite decide_True by (by apply Hyv). rewrite !fmap_cons. simpl. lia.
    + rewrite decide_False by (by rewrite Hyv). done.
Qed.

Lemma pendiente_retirar (en_Q : gset K) (v : K) :
  v ∈ en_Q → v ∈ nodos g →
  (pendiente g (en_Q ∖ {[v]}) + grado g v = pendiente g en_Q)%nat.
Proof.
  intros Hv HvV. unfold pendiente.
  rewrite <- (sum_filter_remove (grado g) (nodos g) en_Q v (bf_nodos g Hbf) Hv).
  by rewrite decide_True.
Qed.

Lemma pendiente_total :
  pendiente g (list_to_set (nodos g)) = adj_size g.
Proof.
  unfold pendiente, adj_size.
  assert (filter (λ x, x ∈ (list_to_set (nodos g) : gset K)) (nodos g) = nodos g) as ->.
  { generalize (list_to_set (nodos g) : gset K)
      (λ x, proj2 (elem_of_list_to_set (C := gset K) x (nodos g))).
    intros S HS. induction (nodos g) as [|y l IH]; [done |].
    rewrite filter_cons, decide_True by (apply HS; left).
    f_equal. apply IH. intros x Hx. apply HS. by right. }
  pose proof (bf_nodos g Hbf) as Hnd. rewrite <- (bf_adj g Hbf) in *.
  rewrite <- list_fmap_compose. f_equal.
  apply list_fmap_ext. intros i [k nbrs] Hi. simpl. unfold grado.
  rewrite (assoc_NoDup k nbrs (adj_tab g) Hnd); [done |].
  by apply list_elem_of_lookup_2 in Hi.
Qed.

Lemma prim_tabs_spec (nodes : list K) :
  let st := prim_tabs nodes in
  dom (p_padre st) = list_to_set nodes ∧
  dom (p_coste st) = list_to_set nodes ∧
  length (p_Q st) = length nodes ∧
  (∀ x, x ∈ nodes →
     p_padre st !! x = Some None ∧ p_coste st !! x = Some INFTY ∧
     ∃ n, (INFTY, n, x) ∈ p_Q st) ∧
  (∀ c n x, (c, n, x) ∈ p_Q st → c = INFTY ∧ x ∈ nodes).
Proof.
  unfold prim_tabs. induction nodes as [|v nodes IH] using rev_ind; cbv zeta.
  - cbn [foldl]. simpl. rewrite !dom_empty_L.
    split; [done |]. split; [done |]. split; [done |].
    split; [intros x Hx | intros c n x Hx]; by apply elem_of_nil in Hx.
  - rewrite foldl_app. cbn [foldl]. cbv zeta in IH.
    set (st0 := foldl _ _ nodes) in *.
    destruct IH as (Hdp & Hdc & Hlen & Hin & HQ). simpl. unfold heappush.
    rewrite !dom_insert_L, Hdp, Hdc, list_to_set_app_L, !length_app, Hlen. simpl.
    split; [set_solver |]. split; [set_solver |]. split; [done |]. split.
    + intros x Hx. destruct (decide (x = v)) as [-> | Hne].
      * rewrite !lookup_insert_eq. split; [done |]. split; [done |].
        eexists. apply elem_of_app. right. by apply list_elem_of_singleton.
      * rewrite !lookup_insert_ne by done.
        apply elem_of_app in Hx as [Hx | Hx%list_elem_of_singleton]; [| done].
        destruct (Hin x Hx) as (? & ? & n & ?). split; [done |]. split; [done |].
        exists n. apply elem_of_app. by left.
    + intros c n x [Hx | [= -> -> ->]%list_elem_of_singleton]%elem_of_app.
      * destruct (HQ c n x Hx). split; [done |]. apply elem_of_app. by left.
      * split; [done |]. apply elem_of_app. right. by apply list_elem_of_singleton.
Qed.

Lemma prim_init_inv :
  prim_inv g peso (relajadas g []) (prim_init (nodos g)) [] ∧
  length (p_Q (prim_init (nodos g))) = length (nodos g).
Proof.
  destruct (prim_tabs_spec (nodos g)) as (Hdp & Hdc & Hlen & Hin & HQ).
  split; [| done]. constructor; simpl.
  - constructor.
  - set_solver.
  - by intros x ?%elem_of_nil.
  - done.
  - done.
  - intros x Hx%elem_of_list_to_set. destruct (Hin x Hx) as (_ & ? & n & ?).
    by exists INFTY, n.
  - intros c n x Hx. destruct (HQ c n x Hx) as [-> HxV].
    split; [done |]. split; [done |]. intros _.
    destruct (Hin x HxV) as (_ & ? & _). by exists INFTY.
  - intros x c Hx%elem_of_list_to_set Hc. destruct (Hin x Hx) as (? & Hc' & _).
    left. split; [done | congruence].
  - by intros x ?%elem_of_nil.
  - by intros a x [?%elem_of_nil _].
Qed.

(** [while Q] runs to the end within its budget, and keeps the invariant. *)
Lemma prim_loop_spec (fuel : nat) :
  ∀ (st : PState K) (orden : list K),
  prim_inv g peso (relajadas g orden) st orden →
  (length (p_Q st) + pendiente g (p_en_Q st) < fuel)%nat →
  ∃ st' orden',
    prim_loop fuel peso st g = (Ok st', g) ∧
    prim_inv g peso (relajadas g orden') st' orden' ∧ p_Q st' = [].
Proof.
  induction fuel as [|fuel IH]; intros st orden Hinv Hfuel; [lia |].
  cbn [prim_loop].
  destruct (heappop (p_Q st)) as [[[[c n] v] Q']|] eqn:Hpop.
  2:{ exists st, orden. split; [done |]. split; [done |].
      unfold heappop in Hpop. by destruct (p_Q st). }
  assert (length (p_Q st) = S (length Q')) as HlenQ.
  { unfold heappop in Hpop. destruct (p_Q st) as [|e q]; [done |].
    injection Hpop as Hpop. apply pop_min_perm in Hpop.
    apply Permutation_length in Hpop. simpl in *. lia. }
  cbn [p_en_Q p_padre p_coste p_contador].
  destruct (decide (v ∈ p_en_Q st)) as [Hv | Hv].
  - pose proof (prim_retirar st orden c n v Q' Hinv Hpop Hv) as Hinv1.
    destruct (prim_inv_en_Q _ _ _ _ Hinv Hv) as [HvV Hvo].
    destruct (G_neighbors_spec v HvV) as (vecinos & Hvec & Hadj & Hgrado).
    rewrite (M_bind_ok _ _ _ _ _ Hvec).
    destruct (prim_relax_all vecinos _ _ (orden ++ [v]) v Hinv1)
      as (st2 & Hst2 & Hinv2 & Hlen2 & HenQ2).
    { apply elem_of_app. right. by apply list_elem_of_singleton. }
    { intros x Hx. by apply Hadj. }
    rewrite (M_bind_ok _ _ _ _ _ Hst2).
    apply (IH st2 (orden ++ [v])).
    + apply (prim_inv_relajada _ _ _ _ Hinv2).
      intros a x [Ha Hax] Hx. apply (pi_relajada _ _ _ _ _ Hinv2); [| done].
      apply elem_of_app in Ha as [Ha | ->%list_elem_of_singleton].
      * left. by split.
      * right. split; [done | by apply Hadj].
    + rewrite HenQ2. simpl in *.
      pose proof (pendiente_retirar (p_en_Q st) v Hv HvV). lia.
  - apply (IH _ orden).
    + by apply (prim_descartar _ st orden c n v Q').
    + simpl. lia.
Qed.

End PrimLoop.

Section PrimOrden.
Context {K : Type} `{Countable K}.

Lemma previos_total (orden : list K) (x y : K) :
  x ≠ y → x ∈ orden → y ∈ orden → x ∈ previos orden y ∨ y ∈ previos orden x.
Proof.
  intros Hne. induction orden as [|z orden IH]; [by intros ?%elem_of_nil |].
  intros Hx Hy. simpl.
  destruct (decide (z = y)) as [-> | Hzy].
  - right. rewrite decide_False by done. left.
  - destruct (decide (z = x)) as [-> | Hzx]; [left; left |].
    apply elem_of_cons in Hx as [-> | Hx]; [done |].
    apply elem_of_cons in Hy as [-> | Hy]; [done |].
    destruct (IH Hx Hy); [left | right]; by right.
Qed.

Lemma previos_lt (orden : list K) (p x : K) :
  p ∈ previos orden x → (length (previos orden p) < length (previos orden x))%nat.
Proof.
  induction orden as [|z orden IH]; simpl; [by intros ?%elem_of_nil |].
  destruct (decide (z = x)) as [-> | Hzx]; [by intros ?%elem_of_nil |].
  intros [-> | Hp]%elem_of_cons.
  - rewrite decide_True by done. simpl. lia.
  - destruct (decide (z = p)); simpl; [lia |]. specialize (IH Hp). lia.
Qed.

Section Forest.
Variable g : Graph K.
Variable peso : Peso K.
Variable padre : gmap K (option K).
Variable orden : list K.
Hypothesis Hsim : simetrico g.
Hypothesis Hret : ∀ x, x ∈ orden → retirado_bien g peso padre orden x.

(** When a root is removed, the nodes removed before it make up whole
    components. *)
Lemma raiz_separada (r a : K) :
  r ∈ orden → padre !! r = Some None → a ∈ previos orden r →
  ¬ conectados_en g a r.
Proof.
  intros Hr Hroot Ha Hcon.
  destruct (Hret r Hr) as [[_ Hclosed] | (p & Hp & _)]; [| congruence].
  apply (previos_self orden r).
  assert (∀ d, conectados_en g a d → d ∈ previos orden r) as Hall; [| by apply Hall].
  clear Hcon. intros d Hcon. unfold conectados_en, rtsc in Hcon.
  induction Hcon as [a | a b d Hab _ IH]; [done |].
  apply IH. destruct Hab as [Hab | Hab]; [by apply (Hclosed a) |].
  apply (Hclosed a); [done | by apply Hsim].
Qed.

(** Two roots are never in the same component. *)
Lemma raices_separadas (r1 r2 : K) :
  r1 ∈ orden → r2 ∈ orden →
  padre !! r1 = Some None → padre !! r2 = Some None →
  conectados_en g r1 r2 → r1 = r2.
Proof.
  intros H1 H2 Hr1 Hr2 Hcon. destruct (decide (r1 = r2)) as [| Hne]; [done |].
  exfalso. destruct (previos_total orden r1 r2 Hne H1 H2) as [Hprev | Hprev].
  - by apply (raiz_separada r2 r1).
  - apply (raiz_separada r1 r2); [done .. |]. by symmetry.
Qed.

(** Following parents leads to a root, within the component. *)
Lemma asciende_a_raiz (v : K) :
  v ∈ orden →
  ∃ r, padre !! r = Some None ∧ asciende padre v r ∧ conectados_en g v r.
Proof.
  remember (length (previos orden v)) as n eqn:Hn. revert v Hn.
  induction n as [n IH] using lt_wf_ind. intros v -> Hv.
  destruct (Hret v Hv) as [[Hroot _] | (p & Hp & Hprev & Hadj & _)].
  - exists v. split; [done |]. split; reflexivity.
  - destruct (IH _ (previos_lt _ _ _ Hprev) p eq_refl (previos_elem_of _ _ _ Hprev))
      as (r & Hr & Hasc & Hcon).
    exists r. split; [done |]. split.
    + by apply (rtc_l _ v p r).
    + trans p; [| done]. by apply rtsc_rl.
Qed.

End Forest.
End PrimOrden.

(** *** Sums counted by thresholds *)

Section Umbrales.
Context {A : Type}.

Lemma sum_list_fmap_plus {B} (f g : B → nat) (l : list B) :
  (sum_list ((λ t, f t + g t) <$> l) = sum_list (f <$> l) + sum_list (g <$> l))%nat.
Proof. induction l as [|x l IH]; csimpl; lia. Qed.

Lemma sum_list_fmap_le {B} (f g : B → nat) (l : list B) :
  (∀ t, f t ≤ g t)%nat → (sum_list (f <$> l) ≤ sum_list (g <$> l))%nat.
Proof. intros Hle. induction l as [|x l IH]; csimpl; [lia |]. specialize (Hle x). lia. Qed.

Lemma sum_list_snoc (l : list nat) (x : nat) :
  (sum_list (l ++ [x]) = sum_list l + x)%nat.
Proof. induction l as [|y l IH]; simpl; lia. Qed.

Lemma sum_indicador (x m : nat) :
  sum_list ((λ t, if decide (t < x)%nat then 1 else 0)%nat <$> seq 0 m) = min x m.
Proof.
  induction m as [|m IH]; [simpl; lia |].
  rewrite seq_S, fmap_app. cbn [fmap list_fmap]. rewrite sum_list_snoc, IH. simpl.
  case_decide; lia.
Qed.

(** A sum of natural numbers, counted by thresholds: the elements above
    0, those above 1, and so on. *)
Lemma sum_umbral (f : A → nat) (l : list A) (m : nat) :
  Forall (λ e, f e ≤ m)%nat l →
  sum_list (f <$> l)
  = sum_list ((λ t, length (filter (λ e, t < f e)%nat l)) <$> seq 0 m).
Proof.
  induction l as [|x l IH]; intros Hm.
  - simpl. by rewrite sum_list_fmap_const.
  - apply Forall_cons in Hm as [Hx Hm]. rewrite fmap_cons. cbn [sum_list].
    rewrite (IH Hm).
    pose proof (sum_indicador (f x) m) as Hind. rewrite Nat.min_l in Hind by done.
    rewrite <- Hind at 1. unfold id.
    rewrite <- (sum_list_fmap_plus (λ t, if decide (t < f x)%nat then 1 else 0)%nat
                  (λ t, length (filter (λ e, t < f e)%nat l))).
    f_equal. apply list_fmap_ext. intros _ t _. rewrite filter_cons.
    by case_decide.
Qed.

Lemma length_filter_neg (P : A → Prop) `{∀ x, Decision (P x)} (l : list A) :
  (length (filter P l) + length (filter (λ x, ¬ P x) l) = length l)%nat.
Proof.
  induction l as [|x l IH]; [done |]. rewrite !filter_cons.
  destruct (decide (P x)); destruct (decide (¬ P x)); simpl; try lia; tauto.
Qed.

Lemma elemento_le_suma (f : A → nat) (l : list A) :
  Forall (λ e, f e ≤ sum_list (f <$> l))%nat l.
Proof.
  induction l as [|x l IH]; constructor; csimpl; [lia |].
  eapply Forall_impl; [exact IH |]. simpl. intros; lia.
Qed.

(** Of two lists of the same length, the one that has, below every
    threshold, at least as many elements as the other has the smaller
    sum. *)
Lemma suma_por_umbrales (f : A → nat) (l1 l2 : list A) :
  length l1 = length l2 →
  (∀ t, length (filter (λ e, f e ≤ t)%nat l2)
        ≤ length (filter (λ e, f e ≤ t)%nat l1))%nat →
  (sum_list (f <$> l1) ≤ sum_list (f <$> l2))%nat.
Proof.
  intros Hlen Hum.
  set (m := (sum_list (f <$> l1) + sum_list (f <$> l2))%nat).
  rewrite (sum_umbral f l1 m), (sum_umbral f l2 m).
  - apply sum_list_fmap_le. intros t.
    pose proof (length_filter_neg (λ e, f e ≤ t)%nat l1) as H1.
    pose proof (length_filter_neg (λ e, f e ≤ t)%nat l2) as H2.
    assert (∀ l : list A,
              filter (λ e, t < f e)%nat l = filter (λ e, ¬ (f e ≤ t)%nat) l) as Heq.
    { intros l. apply list_filter_iff. intros e. lia. }
    rewrite !Heq. specialize (Hum t). cbv beta in H1, H2. lia.
  - apply (Forall_impl _ _ _ (elemento_le_suma f l2)). intros; unfold m; lia.
  - apply (Forall_impl _ _ _ (elemento_le_suma f l1)). intros; unfold m; lia.
Qed.

End Umbrales.

Section BosqueCuenta.
Context {K : Type} `{Countable K}.

Lemma size_list_to_set_le (l : list (gset K)) :
  (size (list_to_set l : gset (gset K)) ≤ length l)%nat.
Proof.
  induction l as [|x l IH]; [by rewrite list_to_set_nil, size_empty |].
  rewrite list_to_set_cons. cbn [length].
  destruct (decide (x ∈ (list_to_set l : gset (gset K)))) as [Hin | Hout].
  - rewrite (subseteq_union_1_L {[x]}) by set_solver. lia.
  - rewrite size_union by set_solver. rewrite size_singleton. lia.
Qed.

Lemma bosque_filter (P : K * K → Prop) `{∀ e, Decision (P e)} (ks : list (K * K)) :
  bosque ks → bosque (filter P ks).
Proof.
  induction 1 as [| ks u v _ IH Hno]; [constructor |].
  rewrite filter_app, filter_cons, filter_nil.
  case_decide; [| by rewrite app_nil_r].
  constructor; [done |]. intros Hcon. apply Hno.
  revert Hcon. apply conectados_mono. intros e. by intros [_ ?]%list_elem_of_filter.
Qed.

Variable nodes : list K.
Hypothesis Hnd : NoDup nodes.

(** A forest on [n] nodes with [m] edges has [n - m] trees. *)
Lemma bosque_clases (ks : list (K * K)) :
  bosque ks → (∀ u v, (u, v) ∈ ks → u ∈ nodes ∧ v ∈ nodes) →
  ∃ C : gmap K (gset K),
    clases_de (list_to_set nodes) ks C ∧
    (size (map_img C : gset (gset K)) + length ks = length nodes)%nat.
Proof.
  induction 1 as [| ks u v _ IH Hno]; intros Hin.
  - eexists. split; [by apply clases_de_iniciales |].
    destruct (clases_iniciales nodes Hnd) as [_ Hsz]. simpl. cbv zeta in Hsz. lia.
  - destruct IH as (C & HC & Hsz).
    { intros a b Hab. apply Hin. apply elem_of_app. by left. }
    destruct (Hin u v) as [Hu Hv].
    { apply elem_of_app. right. by apply list_elem_of_singleton. }
    pose proof HC as [Hdom _].
    destruct (C !! u) as [cu|] eqn:Hcu.
    2:{ apply not_elem_of_dom in Hcu. rewrite Hdom in Hcu.
        by rewrite elem_of_list_to_set in Hcu. }
    destruct (C !! v) as [cv|] eqn:Hcv.
    2:{ apply not_elem_of_dom in Hcv. rewrite Hdom in Hcv.
        by rewrite elem_of_list_to_set in Hcv. }
    assert (cu ≠ cv) as Hne
      by (by rewrite (clases_de_eq _ _ _ _ _ _ _ HC Hcu Hcv)).
    destruct (clases_de_unir _ ks C u v cu cv HC Hcu Hcv Hne) as [HC' Hsz'].
    eexists. split; [exact HC' |]. rewrite length_app. simpl. lia.
Qed.

(** The finer the connectivity, the more classes. *)
Lemma clases_mas_finas (ks1 ks2 : list (K * K)) (C1 C2 : gmap K (gset K)) :
  clases_de (list_to_set nodes) ks1 C1 → clases_de (list_to_set nodes) ks2 C2 →
  (∀ a b, conectados ks1 a b → conectados ks2 a b) →
  (size (map_img C2 : gset (gset K)) ≤ size (map_img C1 : gset (gset K)))%nat.
Proof.
  intros HC1 HC2 Hsub.
  set (f := λ c : gset K,
         match elements c with
         | w :: _ => default ∅ (C2 !! w)
         | [] => ∅
         end).
  trans (size (set_map f (map_img C1 : gset (gset K)) : gset (gset K))).
  - apply subseteq_size. intros c2 [v Hv]%elem_of_map_img.
    apply elem_of_map.
    destruct (clases_de_self _ _ _ _ _ HC2 Hv) as [HvV _].
    pose proof HC1 as [Hdom1 Hcl1].
    destruct (C1 !! v) as [c1|] eqn:Hc1;
      [| apply not_elem_of_dom in Hc1; by rewrite Hdom1 in Hc1].
    exists c1. split; [| apply elem_of_map_img; by eauto].
    destruct (clases_de_self _ _ _ _ _ HC1 Hc1) as [_ Hvc1].
    unfold f. destruct (elements c1) as [|w ws] eqn:Hel.
    { apply elements_empty_inv in Hel. apply leibniz_equiv in Hel. subst.
      by apply not_elem_of_empty in Hvc1. }
    assert (w ∈ c1) as Hw by (apply elem_of_elements; rewrite Hel; left).
    apply (Hcl1 v c1 Hc1) in Hw as [HwV Hvw].
    pose proof HC2 as [Hdom2 _].
    destruct (C2 !! w) as [cw|] eqn:Hcw;
      [| apply not_elem_of_dom in Hcw; by rewrite Hdom2 in Hcw].
    simpl. apply (clases_de_eq _ _ _ _ _ _ _ HC2 Hv Hcw). by apply Hsub.
  - unfold set_map. etrans; [apply size_list_to_set_le |].
    rewrite length_fmap. done.
Qed.

(** A forest that joins no more than another forest has no more edges. *)
Lemma bosque_menor (ks1 ks2 : list (K * K)) :
  bosque ks1 → bosque ks2 →
  (∀ u v, (u, v) ∈ ks1 → u ∈ nodes ∧ v ∈ nodes) →
  (∀ u v, (u, v) ∈ ks2 → u ∈ nodes ∧ v ∈ nodes) →
  (∀ a b, conectados ks1 a b → conectados ks2 a b) →
  (length ks1 ≤ length ks2)%nat.
Proof.
  intros Hb1 Hb2 Hin1 Hin2 Hsub.
  destruct (bosque_clases ks1 Hb1 Hin1) as (C1 & HC1 & Hsz1).
  destruct (bosque_clases ks2 Hb2 Hin2) as (C2 & HC2 & Hsz2).
  pose proof (clases_mas_finas ks1 ks2 C1 C2 HC1 HC2 Hsub). lia.
Qed.

End BosqueCuenta.

(** *** The spanning forests of least weight *)

Section BosqueMinimo.
Context {K : Type} `{Countable K}.
Variable g : Graph K.
Variable peso : Peso K.
Hypothesis Hbf : bien_formado g.
Import FloatOrder.

(** Weights that are equal have the same value. *)
Lemma monotona_simetrica (μ : float → nat) :
  monotona μ → peso_simetrico g peso →
  ∀ a b, adyacente g a b → μ (peso_en g peso a b) = μ (peso_en g peso b a).
Proof.
  intros Hmono Hpsim a b Hab. pose proof (Hpsim a b Hab) as Heq.
  assert ((peso_en g peso a b <=? peso_en g peso b a)%float = true) as H1
    by (by rewrite leb_ltb_eqb, Heq, orb_true_r).
  assert ((peso_en g peso b a <=? peso_en g peso a b)%float = true) as H2
    by (by rewrite leb_ltb_eqb, eqb_sym, Heq, orb_true_r).
  apply Hmono in H1, H2. lia.
Qed.

Lemma conectados_en_grafo (ks : list (K * K)) (a b : K) :
  (∀ u v, (u, v) ∈ ks → adyacente g u v) →
  conectados ks a b → conectados_en g a b.
Proof.
  intros Hks Hab. unfold conectados, rtsc in Hab.
  induction Hab as [a | a c b Hac _ IH]; [done |].
  trans c; [| done].
  destruct Hac as [Hac | Hac]; [apply rtsc_lr | apply rtsc_rl]; by apply Hks.
Qed.

(** Two spanning forests of the graph have the same number of edges. *)
Lemma bosque_abarcador_length (T F : list (K * K)) :
  bosque_abarcador g T → bosque_abarcador g F → length T = length F.
Proof.
  intros (HT & HinT & HspanT) (HF & HinF & HspanF).
  apply Nat.le_antisymm; apply (bosque_menor (nodos g) (bf_nodos g Hbf)); try done.
  - intros u v Huv. by apply adyacente_nodos, HinT.
  - intros u v Huv. by apply adyacente_nodos, HinF.
  - intros a b Hab. by apply HspanF, (conectados_en_grafo T).
  - intros u v Huv. by apply adyacente_nodos, HinF.
  - intros u v Huv. by apply adyacente_nodos, HinT.
  - intros a b Hab. by apply HspanT, (conectados_en_grafo F).
Qed.

(** A spanning forest whose edges of weight at most [t] join, for every
    [t], the ends of every edge of the graph of weight at most [t] is a
    lightest one: below every threshold it has at least as many edges as
    any other spanning forest, and as many edges in all. *)
Lemma bosque_ligero_minimo (μ : float → nat) (T F : list (K * K)) :
  bosque_abarcador g T → bosque_abarcador g F →
  (∀ t a b, adyacente g a b → ligera μ g peso t (a, b) →
     conectados (filter (ligera μ g peso t) T) a b) →
  (coste_total μ g peso T ≤ coste_total μ g peso F)%nat.
Proof.
  intros HTs HFs Hune.
  pose proof (bosque_abarcador_length T F HTs HFs) as Hlen.
  destruct HTs as (HT & HinT & HspanT). destruct HFs as (HF & HinF & HspanF).
  unfold coste_total. apply suma_por_umbrales; [done |].
  intros t.
  apply (bosque_menor (nodos g) (bf_nodos g Hbf)
           (filter (ligera μ g peso t) F) (filter (ligera μ g peso t) T)).
  - by apply bosque_filter.
  - by apply bosque_filter.
  - intros u v [_ Huv]%list_elem_of_filter. by apply adyacente_nodos, HinF.
  - intros u v [_ Huv]%list_elem_of_filter. by apply adyacente_nodos, HinT.
  - intros a b Hab. unfold conectados, rtsc in Hab.
    induction Hab as [a | a c b Hac _ IH]; [done |].
    trans c; [| done].
    destruct Hac as [[Hl Hac]%list_elem_of_filter | [Hl Hac]%list_elem_of_filter].
    + apply Hune; [by apply HinF | done].
    + symmetry. apply Hune; [by apply HinF | done].
Qed.

End BosqueMinimo.

(** *** The forest of the parents is a lightest one *)

Section PrimMinimo.
Context {K : Type} `{Countable K}.
Variable g : Graph K.
Variable peso : Peso K.
Variable padre : gmap K (option K).
Variable orden : list K.
Hypothesis Hbf : bien_formado g.
Hypothesis Hsim : simetrico g.
Hypothesis Hperm : orden ≡ₚ nodos g.
Hypothesis Hret : ∀ x, x ∈ orden → retirado_bien g peso padre orden x.
Import FloatOrder.

#[local] Abbreviation W := (peso_en g peso).
#[local] Abbreviation T := (aristas_del_padre padre orden).

Lemma elem_of_aristas_del_padre (l : list K) (p x : K) :
  (p, x) ∈ aristas_del_padre padre l ↔ x ∈ l ∧ padre !! x = Some (Some p).
Proof.
  unfold aristas_del_padre. rewrite list_elem_of_omap. split.
  - intros (y & Hy & Hpy). destruct (padre !! y) as [[q|]|] eqn:Hq; try done.
    injection Hpy as -> ->. done.
  - intros [Hx Hp]. exists x. by rewrite Hp.
Qed.

Lemma previos_trans (l : list K) (a b c : K) :
  a ∈ previos l b → b ∈ previos l c → a ∈ previos l c.
Proof.
  induction l as [|z l IH]; simpl; [by intros ?%elem_of_nil |].
  destruct (decide (z = b)) as [-> | Hzb]; [by intros ?%elem_of_nil |].
  destruct (decide (z = c)) as [-> | Hzc]; [by intros _ ?%elem_of_nil |].
  intros [-> | Ha]%elem_of_cons [-> | Hb]%elem_of_cons; try done; try by left.
  right. by apply IH.
Qed.

Lemma previos_asym (l : list K) (a b : K) :
  a ∈ previos l b → b ∉ previos l a.
Proof.
  intros Hab Hba. pose proof (previos_lt _ _ _ Hab). pose proof (previos_lt _ _ _ Hba).
  lia.
Qed.

Lemma orden_nodos (x : K) : x ∈ orden ↔ x ∈ nodos g.
Proof. by rewrite Hperm. Qed.

Lemma padre_previo (x p : K) :
  x ∈ orden → padre !! x = Some (Some p) → p ∈ previos orden x ∧ adyacente g p x.
Proof.
  intros Hx Hp. destruct (Hret x Hx) as [[Hroot _] | (q & Hq & Hprev & Hadj & _)];
    [congruence |].
  rewrite Hp in Hq. injection Hq as <-. done.
Qed.

(** The edges of the graph join nodes of the graph. *)
Lemma aristas_del_padre_grafo (u v : K) :
  (u, v) ∈ T → adyacente g u v ∧ u ∈ nodos g ∧ v ∈ nodos g.
Proof.
  intros [Hv Hp]%elem_of_aristas_del_padre.
  destruct (padre_previo v u Hv Hp) as [_ Hadj].
  split; [done |]. by apply adyacente_nodos.
Qed.

Lemma conectados_extremo (es : list (K * K)) (a b : K) :
  conectados es a b → a ≠ b → ∃ c, (c, b) ∈ es ∨ (b, c) ∈ es.
Proof.
  intros Hab Hne. symmetry in Hab. unfold conectados, rtsc in Hab.
  destruct Hab as [| b c a [Hbc | Hbc] _]; [done | |]; exists c; [by right | by left].
Qed.

(** The parent edges, in the order of removal, make a forest: each one
    hangs a new node from a node removed before. *)
Lemma aristas_del_padre_bosque : bosque T.
Proof.
  assert (NoDup orden) as Hnd by (rewrite Hperm; apply Hbf).
  assert (∀ x p, x ∈ orden → padre !! x = Some (Some p) → p ∈ previos orden x)
    as Hpre by (intros x p Hx Hp; by destruct (padre_previo x p Hx Hp)).
  clear Hret Hperm. revert Hnd Hpre.
  induction orden as [|x l IH] using rev_ind; intros Hnd Hpre; [constructor |].
  apply NoDup_app in Hnd as (Hnd & Hx & _).
  assert (x ∉ l) as Hxl.
  { intros Hin. apply (Hx x Hin). by apply list_elem_of_singleton. }
  assert (bosque (aristas_del_padre padre l)) as Hl.
  { apply IH; [done |]. intros y p Hy Hp.
    rewrite <- (previos_app_l l [x] y Hy). apply Hpre; [| done].
    apply elem_of_app. by left. }
  unfold aristas_del_padre. rewrite omap_app. simpl.
  destruct (padre !! x) as [[p|]|] eqn:Hp; simpl; try by rewrite app_nil_r.
  constructor; [done |]. intros Hcon.
  assert (p ∈ l) as Hpl.
  { rewrite <- (previos_snoc_self l x Hxl). apply Hpre; [| done].
    apply elem_of_app. right. by apply list_elem_of_singleton. }
  destruct (conectados_extremo _ p x Hcon) as [c [Hc | Hc]].
  - by intros ->.
  - apply elem_of_aristas_del_padre in Hc as [Hin _]. done.
  - apply elem_of_aristas_del_padre in Hc as [Hin Hc].
    assert (x ∈ previos (l ++ [x]) c) as Hxc.
    { apply Hpre; [| done]. apply elem_of_app. by left. }
    rewrite (previos_app_l l [x] c Hin) in Hxc.
    by apply previos_elem_of in Hxc.
Qed.

Section Umbral.
Variable μ : float → nat.
Variable t : nat.
Hypothesis Hmono : monotona μ.
Hypothesis Hμsim : ∀ a b, adyacente g a b → μ (W a b) = μ (W b a).

(** While a light edge leads from a removed node to one that is not, the
    node removed next hangs from a light edge. *)
Lemma prim_nodo_ligero (a b y : K) :
  y ∈ orden → a ∈ previos orden y → b ∉ previos orden y →
  adyacente g a b → ligera μ g peso t (a, b) →
  ∃ p, padre !! y = Some (Some p) ∧ p ∈ previos orden y ∧ adyacente g p y ∧
       ligera μ g peso t (p, y).
Proof.
  intros Hy Ha Hb Hab Hl.
  destruct (Hret y Hy) as [[_ Hclosed] | (p & Hp & Hprev & Hadj & Hmin)].
  - destruct Hb. by apply (Hclosed a b).
  - exists p. split; [done |]. split; [done |]. split; [done |].
    unfold ligera in *. simpl in *.
    assert (b ∈ nodos g) as HbV by (by apply (bf_vecinos g Hbf a b)).
    pose proof (Hmono _ _ (Hmin a b Ha HbV Hb Hab)). lia.
Qed.

Lemma prim_intervalo (n : nat) :
  ∀ u v y, length (previos orden y) = n →
    adyacente g u v → ligera μ g peso t (u, v) →
    v ∈ orden → y ∈ orden → u ∈ previos orden y →
    (y = v ∨ y ∈ previos orden v) →
    conectados (filter (ligera μ g peso t) T) u y.
Proof.
  induction n as [n IH] using lt_wf_ind. intros u v y Hn Huv Hl Hv Hy Hu Hyv.
  assert (v ∉ previos orden y) as Hvy.
  { destruct Hyv as [-> | Hyv]; [apply previos_self | by apply previos_asym]. }
  destruct (prim_nodo_ligero u v y Hy Hu Hvy Huv Hl) as (p & Hp & Hprev & Hadj & Hlp).
  assert (conectados (filter (ligera μ g peso t) T) p y) as Hpy.
  { apply conectados_arista. apply list_elem_of_filter. split; [done |].
    by apply elem_of_aristas_del_padre. }
  destruct (decide (p = u)) as [-> | Hne]; [done |].
  pose proof (previos_elem_of _ _ _ Hprev) as Hpo.
  pose proof (previos_elem_of _ _ _ Hu) as Huo.
  destruct (previos_total orden p u Hne Hpo Huo) as [Hpu | Hup].
  - (* the parent was removed before [u] *)
    assert (conectados (filter (ligera μ g peso t) T) p u) as Hcon.
    { apply (IH (length (previos orden u))) with (v := y); try done.
      - subst n. by apply previos_lt.
      - by right. }
    trans p; [by symmetry | done].
  - assert (conectados (filter (ligera μ g peso t) T) u p) as Hcon.
    { apply (IH (length (previos orden p))) with (v := v); try done.
      - subst n. by apply previos_lt.
      - right. destruct Hyv as [-> | Hyv]; [done |].
        by apply (previos_trans _ _ y). }
    by trans p.
Qed.

(** The parent edges of weight at most [t] join the ends of every edge of
    the graph of weight at most [t]. *)
Lemma prim_une_ligeras (a b : K) :
  adyacente g a b → ligera μ g peso t (a, b) → conectados (filter (ligera μ g peso t) T) a b.
Proof.
  intros Hab Hl. destruct (decide (a = b)) as [-> | Hne]; [done |].
  destruct (adyacente_nodos g a b Hbf Hab) as [Ha Hb].
  apply orden_nodos in Ha, Hb.
  destruct (previos_total orden a b Hne Ha Hb) as [Hprev | Hprev].
  - apply (prim_intervalo _ a b b eq_refl); auto.
  - symmetry. apply (prim_intervalo _ b a a eq_refl); auto.
    unfold ligera in *. simpl in *. by rewrite <- Hμsim.
Qed.

End Umbral.

(** The parent edges join whatever the graph joins. *)
Lemma aristas_del_padre_abarcan : bosque_abarcador g T.
Proof.
  split; [apply aristas_del_padre_bosque |]. split.
  - intros u v Huv. by destruct (aristas_del_padre_grafo u v Huv).
  - intros a b Hab. unfold conectados_en, rtsc in Hab.
    induction Hab as [a | a c b Hac _ IH]; [done |].
    trans c; [| done].
    assert (∀ x y, adyacente g x y → conectados T x y) as Hady.
    { intros x y Hxy.
      pose proof (prim_une_ligeras (λ _, 0%nat) 0 (λ _ _ _, le_n 0)
                    (λ _ _ _, eq_refl) x y Hxy (le_n 0)) as Hcon.
      revert Hcon. apply conectados_mono.
      intros e. by intros [_ ?]%list_elem_of_filter. }
    destruct Hac as [Hac | Hac]; [by apply Hady | symmetry; by apply Hady].
Qed.

(** Under a valuation of the weights that respects their order, no
    spanning forest of the graph weighs less than the forest of the
    parents. *)
Lemma prim_minimo (μ : float → nat) (F : list (K * K)) :
  monotona μ → peso_simetrico g peso → bosque_abarcador g F →
  (coste_total μ g peso T ≤ coste_total μ g peso F)%nat.
Proof.
  intros Hmono Hpsim HF.
  apply (bosque_ligero_minimo g peso Hbf μ T F aristas_del_padre_abarcan HF).
  intros t a b. apply prim_une_ligeras; [done |].
  by apply monotona_simetrica.
Qed.

End PrimMinimo.

(** *** The exact value of the weights *)

Section Unidades.
Import FloatOrder.

Lemma digits2_pos_spec (m : positive) :
  2 ^ (Z.pos (digits2_pos m) - 1) ≤ Z.pos m < 2 ^ Z.pos (digits2_pos m).
Proof.
  induction m as [m IH | m IH |]; cbn [digits2_pos]; [| | by vm_compute].
  - rewrite Pos2Z.inj_succ, Z.pow_succ_r by lia.
    replace (Z.succ (Z.pos (digits2_pos m)) - 1) with (Z.succ (Z.pos (digits2_pos m) - 1))
      by lia.
    rewrite Z.pow_succ_r by lia. lia.
  - rewrite Pos2Z.inj_succ, Z.pow_succ_r by lia.
    replace (Z.succ (Z.pos (digits2_pos m)) - 1) with (Z.succ (Z.pos (digits2_pos m) - 1))
      by lia.
    rewrite Z.pow_succ_r by lia. lia.
Qed.

(** What [valid_binary] says of a finite number: its exponent is in range
    and its mantissa has 53 digits, or fewer at the least exponent. *)
Lemma finito_valido (x : float) (s : bool) (m : positive) (e : Z) :
  Prim2SF x = S754_finite s m e →
  -1074 ≤ e ≤ 971 ∧ Z.pos m < 2 ^ 53 ∧ (-1074 < e → 2 ^ 52 ≤ Z.pos m).
Proof.
  intros Hx. pose proof (FloatAxioms.Prim2SF_valid x) as Hv. rewrite Hx in Hv.
  unfold SpecFloat.valid_binary, bounded, canonical_mantissa, fexp in Hv.
  apply andb_true_iff in Hv as [Hc He].
  apply Z.eqb_eq in Hc. apply Z.leb_le in He.
  change (SpecFloat.emin prec emax) with (-1074) in Hc.
  change (emax - prec) with 971 in He. change prec with 53 in Hc.
  pose proof (digits2_pos_spec m) as [Hlo Hhi].
  set (d := Z.pos (digits2_pos m)) in *.
  assert (d ≤ 53 ∧ (-1074 < e → d = 53)) as [Hd Hn] by lia.
  split; [lia |]. split.
  - eapply Z.lt_le_trans; [exact Hhi |]. apply Z.pow_le_mono_r; lia.
  - intros Hgt. rewrite (Hn Hgt) in Hlo. exact Hlo.
Qed.

Lemma en_unidades_monotona : monotona en_unidades.
Proof.
  intros x y Hxy. apply leb_compara in Hxy. unfold compara, en_unidades in *.
  destruct (Prim2SF x) as [sx | sx | | sx mx ex] eqn:Hx;
    destruct (Prim2SF y) as [sy | sy | | sy my ey] eqn:Hy;
    try destruct sx; try destruct sy; simpl in Hxy;
    try lia; try (by destruct Hxy as [[=] | [=]]).
  - (* a number below infinity *)
    destruct (finito_valido x _ _ _ Hx) as (He & Hm & _).
    apply Z2Nat.inj_le; [lia | lia |].
    trans (2 ^ 53 * 2 ^ (ex + 1074)).
    + apply Z.mul_le_mono_nonneg_r; [apply Z.pow_nonneg; lia | lia].
    + rewrite <- Z.pow_add_r by lia. apply Z.pow_le_mono_r; lia.
  - (* two positive numbers *)
    destruct (finito_valido x _ _ _ Hx) as (Hex & Hmx & _).
    destruct (finito_valido y _ _ _ Hy) as (Hey & _ & Hmy).
    apply Z2Nat.inj_le; [lia | lia |].
    destruct (Z.compare_spec ex ey) as [-> | Hlt | Hgt].
    + apply Z.mul_le_mono_nonneg_r; [apply Z.pow_nonneg; lia |].
      change (Z.pos mx ≤ Z.pos my). apply Pos.compare_le_iff.
      intros Hgt.
      change (PosDef.Pos.compare_cont Eq mx my) with (Pos.compare mx my) in Hxy.
      rewrite Hgt in Hxy. by destruct Hxy as [[=] | [=]].
    + trans (2 ^ 53 * 2 ^ (ex + 1074)).
      * apply Z.mul_le_mono_nonneg_r; [apply Z.pow_nonneg; lia | lia].
      * trans (2 ^ 52 * 2 ^ (ey + 1074)).
        -- rewrite <- !Z.pow_add_r by lia. apply Z.pow_le_mono_r; lia.
        -- apply Z.mul_le_mono_nonneg_r; [apply Z.pow_nonneg; lia | apply Hmy; lia].
    + by destruct Hxy as [[=] | [=]].
Qed.

End Unidades.

Section PrimClaim.
Context {K : Type} `{Countable K}.

(** C6, as the code has it.  On a well-formed graph with symmetric
    adjacency, connected or not, and a weight function that gives numbers
    below [INFTY] on its edges, [prim] raises nothing and returns a
    dictionary [padre] whose keys are all the nodes of the graph.  The
    nodes leave the queue in an order [orden], and for every node this
    holds ([retirado_bien]): either its parent is [None], and then no edge
    leads from a node removed before it to a node that was not; or its
    parent is a neighbour removed before it, and the edge from the parent
    is a lightest edge among those leading from a node removed before it
    to a node that was not (the choice of Prim's algorithm).  Hence each
    connected component has exactly one root: two roots are never in the
    same component, and following parents from any node leads to a root of
    its component.  The parent edges form a spanning forest of the graph,
    and a minimum one when the weight of an edge is the same in both
    directions: whatever way of reading the weights as natural numbers
    that respects their order is used to add them up, no spanning forest
    of the graph has a smaller total than the parent edges. *)
Theorem prim_bosque (g : Graph K) (peso : Peso K) :
  bien_formado g → simetrico g → peso_acotado g peso →
  ∃ (padre : gmap K (option K)) (orden : list K),
    prim peso g = (Ok padre, g) ∧
    dom padre = list_to_set (nodos g) ∧
    orden ≡ₚ nodos g ∧
    (∀ x, x ∈ nodos g → retirado_bien g peso padre orden x) ∧
    (∀ r1 r2, padre !! r1 = Some None → padre !! r2 = Some None →
       conectados_en g r1 r2 → r1 = r2) ∧
    (∀ v, v ∈ nodos g →
       ∃ r, padre !! r = Some None ∧ asciende padre v r ∧ conectados_en g v r) ∧
    bosque_abarcador g (aristas_del_padre padre orden) ∧
    (peso_simetrico g peso →
     ∀ (μ : float → nat) (F : list (K * K)),
       monotona μ → bosque_abarcador g F →
       (coste_total μ g peso (aristas_del_padre padre orden)
        ≤ coste_total μ g peso F)%nat).
Proof.
  intros Hbf Hsim Hpeso.
  destruct (prim_init_inv g peso Hbf Hsim Hpeso) as [Hinv0 Hlen0].
  destruct (prim_loop_spec g peso Hbf Hsim Hpeso
              (1 + length (nodos g) + adj_size g) (prim_init (nodos g)) [] Hinv0)
    as (st & orden & Hloop & Hinv & HQ).
  { rewrite Hlen0. simpl. rewrite (pendiente_total g Hbf). lia. }
  assert (∀ x, x ∈ nodos g → x ∈ orden) as Htodos.
  { intros x Hx. destruct (decide (x ∈ orden)) as [| Hno]; [done |].
    assert (x ∈ p_en_Q st) as HxQ.
    { rewrite (pi_en_Q _ _ _ _ _ Hinv). apply elem_of_difference.
      by rewrite !elem_of_list_to_set. }
    destruct (pi_entrada _ _ _ _ _ Hinv x HxQ) as (c & n & _ & Hin).
    rewrite HQ in Hin. by apply elem_of_nil in Hin. }
  assert (orden ≡ₚ nodos g) as Hperm.
  { apply NoDup_Permutation; [apply Hinv | apply Hbf |].
    intros x. split; [apply (pi_orden _ _ _ _ _ Hinv) | apply Htodos]. }
  exists (p_padre st), orden.
  split; [| split; [apply (pi_dom_padre _ _ _ _ _ Hinv) |
             split; [done | split; [| split; [| split; [| split]]]]]].
  - unfold prim. rewrite (M_bind_ok G_nodes _ g (nodos g) g) by done.
    rewrite (M_bind_ok (budget _) _ g (1 + length (nodos g) + adj_size g)%nat g) by done.
    by rewrite (M_bind_ok _ _ _ _ _ Hloop).
  - intros x Hx. apply (pi_retirados _ _ _ _ _ Hinv). by apply Htodos.
  - intros r1 r2 Hr1 Hr2.
    assert (∀ r, p_padre st !! r = Some None → r ∈ orden) as Hkey.
    { intros r Hr. apply Htodos. apply elem_of_dom_2 in Hr.
      rewrite (pi_dom_padre _ _ _ _ _ Hinv) in Hr. by apply elem_of_list_to_set in Hr. }
    apply (raices_separadas g peso (p_padre st) orden Hsim
             (pi_retirados _ _ _ _ _ Hinv)); auto.
  - intros v Hv.
    apply (asciende_a_raiz g peso (p_padre st) orden (pi_retirados _ _ _ _ _ Hinv)).
    by apply Htodos.
  - apply (aristas_del_padre_abarcan g peso (p_padre st) orden Hbf Hsim Hperm
             (pi_retirados _ _ _ _ _ Hinv)).
  - intros Hpsim μ F Hmono HF.
    by apply (prim_minimo g peso (p_padre st) orden Hbf Hsim Hperm
                (pi_retirados _ _ _ _ _ Hinv)).
Qed.

End PrimClaim.

(** On the two islands: [mas_corto] is below [INFTY] on every edge, and
    nothing joins the triangle to the street D, E. *)
Lemma grafo_islas_acotado : peso_acotado grafo_islas mas_corto.
Proof.
  intros u v Huv%grafo_islas_adyacente.
  repeat (apply elem_of_cons in Huv as [[= -> ->] | Huv];
          [eexists; split; reflexivity |]).
  by apply elem_of_nil in Huv.
Qed.

Lemma grafo_islas_triangulo (a b : string) :
  conectados_en grafo_islas a b →
  a ∈ ["A"; "B"; "C"] ↔ b ∈ ["A"; "B"; "C"].
Proof.
  assert (∀ x y, adyacente grafo_islas x y →
            x ∈ ["A"; "B"; "C"] ↔ y ∈ ["A"; "B"; "C"]) as Hstep.
  { intros x y Hxy%grafo_islas_adyacente.
    repeat (apply elem_of_cons in Hxy as [[= -> ->] | Hxy];
            [split; intros Hin; first [by repeat constructor
               | repeat (apply elem_of_cons in Hin as [[=] | Hin]);
                 by apply elem_of_nil in Hin] |]).
    by apply elem_of_nil in Hxy. }
  unfold conectados_en, rtsc. induction 1 as [a | a c b [Hac | Hac] _ IH]; [done | |].
  - by rewrite (Hstep a c Hac).
  - by rewrite <- (Hstep c a Hac).
Qed.

Lemma grafo_islas_simetrico : peso_simetrico grafo_islas mas_corto.
Proof.
  intros u v Huv%grafo_islas_adyacente.
  repeat (apply elem_of_cons in Huv as [[= -> ->] | Huv]; [reflexivity |]).
  by apply elem_of_nil in Huv.
Qed.

Lemma prim_bosque_witness :
  prim mas_corto grafo_islas
    = (Ok {["A" := None; "B" := Some "A"; "C" := Some "B";
            "D" := None; "E" := Some "D"]}, grafo_islas) ∧
  ¬ conectados_en grafo_islas "A" "D" ∧
  ∃ orden : list string,
    orden ≡ₚ ["A"; "B"; "C"; "D"; "E"] ∧
    ∀ F, bosque_abarcador grafo_islas F →
      (coste_total en_unidades grafo_islas mas_corto
         (aristas_del_padre {["A" := None; "B" := Some "A"; "C" := Some "B";
                              "D" := None; "E" := Some "D"]} orden)
       ≤ coste_total en_unidades grafo_islas mas_corto F)%nat.
Proof.
  destruct (prim_bosque grafo_islas mas_corto grafo_islas_bien_formado
              (bf_simetrico _ grafo_islas_bien_formado eq_refl) grafo_islas_acotado)
    as (padre & orden & Hprim & _ & Hperm & _ & Hraices & _ & _ & Hmin).
  assert (prim mas_corto grafo_islas
          = (Ok {["A" := None; "B" := Some "A"; "C" := Some "B";
                  "D" := None; "E" := Some "D"]}, grafo_islas)) as Heval
    by (vm_compute; reflexivity).
  split; [exact Heval |].
  rewrite Heval in Hprim. injection Hprim as <-. split.
  - intros Hcon. by pose proof (Hraices "A" "D" eq_refl eq_refl Hcon).
  - exists orden. split; [exact Hperm |]. intros F HF.
    exact (Hmin grafo_islas_simetrico en_unidades F en_unidades_monotona HF).
Defined.

(** C6, as the claim states it, fails on the two islands.  "A" is the
    first node popped and is a root; "E" is in a component that does not
    contain "A"; yet "E" does not keep the parent [None]: its parent is
    "D", the root of its own component. *)
Lemma prim_hijo_en_otra_componente :
  ∃ padre : gmap string (option string),
    prim mas_corto grafo_islas = (Ok padre, grafo_islas) ∧
    head (nodos grafo_islas) = Some "A" ∧
    padre !! "A" = Some None ∧
    ¬ conectados_en grafo_islas "A" "E" ∧
    padre !! "E" = Some (Some "D").
Proof.
  eexists. split; [vm_compute; reflexivity |].
  split; [reflexivity |]. split; [reflexivity |]. split; [| reflexivity].
  intros Hcon%grafo_islas_triangulo.
  assert ("E" ∈ ["A"; "B"; "C"]) as Hin by (apply Hcon; by repeat constructor).
  repeat (apply elem_of_cons in Hin as [[=] | Hin]). by apply elem_of_nil in Hin.
Qed.

(** ** Kruskal: the forest it returns is a lightest one *)

Section KruskalMinimo.
Context {K : Type} `{Countable K}.

(** When the edges are taken in an order in which every edge before a
    light one is light, the light edges that the greedy pass keeps join
    the ends of every light edge. *)
Lemma voraz_une_ligeras (L : K * K → Prop) `{∀ e, Decision (L e)}
    (es ks : list (K * K)) :
  voraz es ks →
  (∀ es1 e es2, es = es1 ++ e :: es2 → L e → Forall L es1) →
  ∀ u v, (u, v) ∈ es → L (u, v) → conectados (filter L ks) u v.
Proof.
  induction 1 as [| es ks u v Hvor IH Hno | es ks u v Hvor IH Hyes]; intros Hpre a b Hab Hl.
  - by apply elem_of_nil in Hab.
  - apply elem_of_app in Hab as [Hab | [= -> ->]%list_elem_of_singleton].
    + assert (conectados (filter L ks) a b) as Hcon.
      { apply IH; [| done | done]. intros es1 e es2 -> He.
        apply (Hpre es1 e (es2 ++ [(u, v)])); [| done].
        by rewrite <- app_assoc. }
      revert Hcon. apply conectados_mono. intros e He.
      rewrite filter_app. apply elem_of_app. by left.
    + apply conectados_arista. rewrite filter_app. apply elem_of_app. right.
      rewrite filter_cons, decide_True by done. left.
  - apply elem_of_app in Hab as [Hab | [= -> ->]%list_elem_of_singleton].
    + apply IH; [| done | done]. intros es1 e es2 -> He.
      apply (Hpre es1 e (es2 ++ [(u, v)])); [| done].
      by rewrite <- app_assoc.
    + assert (Forall L es) as Hall by (by apply (Hpre es (u, v) [])).
      apply (voraz_conectados _ _ Hvor) in Hyes.
      revert Hyes. apply conectados_mono. intros e He.
      apply list_elem_of_filter. split; [| done].
      rewrite Forall_forall in Hall. apply Hall.
      apply voraz_sublist in Hvor. by apply (sublist_subseteq _ _ Hvor).
Qed.

Lemma ordenada_previos {A} (key : A → float) (l1 l2 : list A) (x : A) :
  ordenada key (l1 ++ x :: l2) →
  Forall (λ y, (key y <=? key x)%float = true) l1.
Proof.
  unfold ordenada. induction l1 as [|y l1 IH]; simpl; intros Hs; [constructor |].
  apply StronglySorted_inv in Hs as [Hs Hall]. constructor; [| by apply IH].
  rewrite Forall_forall in Hall. apply Hall. apply elem_of_app. right. left.
Qed.

(** The forest of [kruskal] spans the graph, and its edges of weight at
    most [t] join the ends of every edge of the graph of weight at most
    [t]. *)
Lemma kruskal_ligero (g : Graph K) (peso : Peso K) :
  bien_formado g → peso_numerico g peso → peso_simetrico g peso →
  ∃ aristas_aam : list (K * K),
    kruskal peso g = (Ok aristas_aam, g) ∧
    bosque_abarcador g aristas_aam ∧
    ∀ (μ : float → nat) (t : nat) (a b : K),
      monotona μ → adyacente g a b → ligera μ g peso t (a, b) →
      conectados (filter (ligera μ g peso t) aristas_aam) a b.
Proof.
  intros Hbf Hnum Hpsim.
  assert (peso_definido g peso) as Hpeso.
  { intros u v Huv. destruct (Hnum u v Huv) as (w & Hw & _). by exists w. }
  destruct (kruskal_voraz g peso Hbf Hpeso)
    as (pesadas & aristas & C & Hrun & Hpes & Hvor & _ & _ & Hcon).
  set (lista := list_sort (λ x : float * K * K, x.1.1) pesadas) in *.
  pose proof (list_sort_perm (λ x : float * K * K, x.1.1) pesadas) as Hperm.
  fold lista in Hperm.
  (* every entry of the list carries the weight of its edge *)
  assert (∀ x, x ∈ lista →
            adyacente g x.1.2 x.2 ∧ peso_en g peso x.1.2 x.2 = x.1.1) as Hlista.
  { intros x Hx. rewrite Hperm in Hx.
    apply list_elem_of_lookup in Hx as [i Hi].
    destruct (Forall2_lookup_r _ _ _ _ _ Hpes Hi) as (e & He & <- & Hw).
    apply list_elem_of_lookup_2 in He.
    split; [by apply (G_edges_adyacente g _ _ Hbf) |].
    unfold peso_en. destruct x as [[c u] v]. simpl in *. by rewrite Hw. }
  assert (ordenada (λ x : float * K * K, x.1.1) lista) as Hord.
  { apply list_sort_ordenada. apply Forall_forall. intros x Hx.
    assert (x ∈ lista) as Hx' by (by rewrite Hperm).
    destruct (Hlista x Hx') as [Hadj Hw].
    destruct (Hnum _ _ Hadj) as (w & Hpw & Hnan).
    unfold peso_en in Hw. rewrite Hpw in Hw. simpl in Hw. by rewrite <- Hw. }
  assert (bosque_abarcador g aristas) as Hspan.
  { split; [by apply (voraz_bosque (arista_de <$> lista)) |]. split.
    - intros u v Huv. apply voraz_sublist in Hvor.
      apply (sublist_subseteq _ _ Hvor) in Huv.
      apply list_elem_of_fmap in Huv as (x & Hx & Hin).
      destruct (Hlista x Hin) as [Hadj _]. unfold arista_de in Hx.
      by injection Hx as -> ->.
    - intros a b Hab. by rewrite (voraz_conectados _ _ Hvor), Hcon. }
  exists aristas. split; [done |]. split; [done |].
  intros μ t a0 b0 Hmono Hab0 Hl0. revert a0 b0 Hab0 Hl0.
  assert (∀ u v, (u, v) ∈ arista_de <$> lista → ligera μ g peso t (u, v) →
            conectados (filter (ligera μ g peso t) aristas) u v) as Hune.
  { apply (voraz_une_ligeras _ _ _ Hvor).
    intros es1 e es2 Heq He.
    apply fmap_app_inv in Heq as (l1 & l2' & -> & Heq & Hl).
    symmetry in Heq. apply fmap_cons_inv in Heq as (x & l2 & -> & _ & ->).
    rewrite Hl in Hord. apply ordenada_previos in Hord.
    apply Forall_fmap. apply Forall_forall. intros y Hy.
    rewrite Forall_forall in Hord. specialize (Hord y Hy). apply Hmono in Hord.
    destruct (Hlista y) as [_ Hwy]; [rewrite Hl; apply elem_of_app; by left |].
    destruct (Hlista x) as [_ Hwx];
      [rewrite Hl; apply elem_of_app; right; left |].
    unfold ligera, arista_de in *. simpl in *. rewrite Hwy. rewrite Hwx in He. lia. }
  intros a b Hab Hl.
  destruct (G_edges_adyacente g a b Hbf) as [_ Hedge].
  assert (∀ e, e ∈ arista_de <$> lista ↔ e ∈ edges_from (directed g) ∅ (adj_tab g))
    as Hmem.
  { intros e. rewrite Hperm. by rewrite (Forall2_arista_de _ _ _ Hpes). }
  destruct (Hedge Hab) as [Hin | Hin]; apply Hmem in Hin.
  - by apply Hune.
  - symmetry. apply Hune; [done |].
    unfold ligera in *. simpl in *.
    by rewrite <- (monotona_simetrica g peso μ Hmono Hpsim a b Hab).
Qed.


(** X3.  [kruskal] returns a minimum spanning forest.  On a well-formed graph,
    with a weight function that gives a number on every edge, the same in
    both directions, the edges that [kruskal] returns are a spanning forest
    of the graph, and whatever way of reading the weights as natural
    numbers that respects their order is used to add them up, no spanning
    forest of the graph has a smaller total. *)
Theorem kruskal_minimo (g : Graph K) (peso : Peso K) :
  bien_formado g → peso_numerico g peso → peso_simetrico g peso →
  ∃ aristas_aam : list (K * K),
    kruskal peso g = (Ok aristas_aam, g) ∧
    bosque_abarcador g aristas_aam ∧
    ∀ (μ : float → nat) (F : list (K * K)),
      monotona μ → bosque_abarcador g F →
      (coste_total μ g peso aristas_aam ≤ coste_total μ g peso F)%nat.
Proof.
  intros Hbf Hnum Hpsim.
  destruct (kruskal_ligero g peso Hbf Hnum Hpsim) as (aristas & Hrun & Hspan & Hune).
  exists aristas. split; [done |]. split; [done |].
  intros μ F Hmono HF.
  apply (bosque_ligero_minimo g peso Hbf μ aristas F Hspan HF).
  intros t a b Hab Hl. by apply Hune.
Qed.

End KruskalMinimo.

(** On the two islands Kruskal's three edges weigh 1 + 1 + 2, and no
    spanning forest of the graph weighs less, the weights counted exactly
    (in units of [2^-1074]). *)
Lemma kruskal_minimo_witness :
  bosque_abarcador grafo_islas [("A", "B"); ("D", "E"); ("B", "C")] ∧
  ∀ F, bosque_abarcador grafo_islas F →
    (coste_total en_unidades grafo_islas mas_corto [("A", "B"); ("D", "E"); ("B", "C")]
     ≤ coste_total en_unidades grafo_islas mas_corto F)%nat.
Proof.
  destruct (kruskal_minimo grafo_islas mas_corto grafo_islas_bien_formado
              grafo_islas_numerico grafo_islas_simetrico)
    as (aristas & Hk & Hspan & Hmin).
  assert (kruskal mas_corto grafo_islas
          = (Ok [("A", "B"); ("D", "E"); ("B", "C")], grafo_islas)) as Heval
    by (vm_compute; reflexivity).
  rewrite Heval in Hk. injection Hk as <-.
  split; [exact Hspan |].
  intros F HF. exact (Hmin en_unidades F en_unidades_monotona HF).
Defined.

(** ** Dijkstra: the dictionary it returns *)

Section DijkstraLoop.
Context {K : Type} `{Countable K}.
Variable g : Graph K.
Variable peso : Peso K.
Variable origen : K.
Hypothesis Hbf : bien_formado g.
Hypothesis Hpeso : peso_definido g peso.

Lemma dijkstra_relax_spec (st : DState K) (U : gset K) (v x : K) :
  dijkstra_inv g origen st U → v ∈ nodos g → alcanzable g origen v →
  adyacente g v x →
  ∃ st',
    dijkstra_relax peso v st x g = (Ok st', g) ∧
    dijkstra_inv g origen st' U ∧
    (length (d_Q st') ≤ length (d_Q st) + 1)%nat.
Proof.
  intros [Hdp Hdd Hvis Hcola Halc Hsp] Hv Hov Hvx.
  assert (x ∈ nodos g) as Hx by (by apply (bf_vecinos g Hbf v x)).
  destruct (Hpeso v x Hvx) as (w & Hw).
  assert (∀ y, y ∈ nodos g → ∃ d, d_dist st !! y = Some d) as Hdist.
  { intros y Hy. apply elem_of_dom. rewrite Hdd. by apply elem_of_list_to_set. }
  destruct (Hdist x Hx) as (dx & Hdx). destruct (Hdist v Hv) as (dv & Hdv).
  assert (x ∈ (list_to_set (nodos g) : gset K)) as HxS by (by apply elem_of_list_to_set).
  unfold dijkstra_relax. rewrite (M_bind_ok _ _ _ _ _ Hw).
  unfold getitem. rewrite Hdx, Hdv. rewrite !M_bind_lift. cbn [res_bind mbind].
  cbv zeta. destruct (dv + w <? dx)%float.
  - eexists. split; [reflexivity |].
    split; [| unfold heappush; simpl; rewrite length_app; simpl; lia].
    constructor; simpl.
    + rewrite dom_insert_L, Hdp. set_solver.
    + rewrite dom_insert_L, Hdd. set_solver.
    + done.
    + intros c n y [Hy | [= -> -> ->]%list_elem_of_singleton]%elem_of_app;
        [by apply Hcola in Hy |].
      split; [done |]. by apply (rtc_r _ v).
    + intros y p. destruct (decide (y = x)) as [-> | Hne].
      * rewrite lookup_insert_eq. intros [= <-]. done.
      * rewrite lookup_insert_ne by done. apply Halc.
    + intros y Hy. destruct (decide (y = x)) as [-> | Hne].
      * rewrite lookup_insert_eq. by eexists.
      * rewrite lookup_insert_ne by done. by apply Hsp.
  - exists st. split; [reflexivity |]. split; [done | lia].
Qed.

Lemma dijkstra_relax_all (vecinos : list K) :
  ∀ (st : DState K) (U : gset K) (v : K),
  dijkstra_inv g origen st U → v ∈ nodos g → alcanzable g origen v →
  (∀ x, x ∈ vecinos → adyacente g v x) →
  ∃ st',
    foldM (dijkstra_relax peso v) vecinos st g = (Ok st', g) ∧
    dijkstra_inv g origen st' U ∧
    (length (d_Q st') ≤ length (d_Q st) + length vecinos)%nat.
Proof.
  induction vecinos as [|x vecinos IH]; intros st U v Hinv Hv Hov Hadj; simpl.
  - exists st. split; [done |]. split; [done | lia].
  - destruct (dijkstra_relax_spec st U v x Hinv Hv Hov) as (st1 & Hst1 & Hinv1 & Hlen1);
      [apply Hadj; left |].
    destruct (IH st1 U v Hinv1 Hv Hov) as (st2 & Hst2 & Hinv2 & Hlen2);
      [intros y Hy; apply Hadj; by right |].
    exists st2. rewrite (M_bind_ok _ _ _ _ _ Hst1).
    split; [done |]. split; [done | lia].
Qed.

(** [while Q] runs to the end within its budget, and keeps the invariant. *)
Lemma dijkstra_loop_spec (fuel : nat) :
  ∀ (st : DState K) (U : gset K),
  dijkstra_inv g origen st U → U ⊆ list_to_set (nodos g) →
  (length (d_Q st) + pendiente g U < fuel)%nat →
  ∃ st' U',
    dijkstra_loop fuel peso st g = (Ok st', g) ∧ dijkstra_inv g origen st' U'.
Proof.
  induction fuel as [|fuel IH]; intros st U Hinv HU Hfuel; [lia |].
  cbn [dijkstra_loop].
  destruct (heappop (d_Q st)) as [[[[c n] v] Q']|] eqn:Hpop.
  2:{ by exists st, U. }
  assert ((c, n, v) :: Q' ≡ₚ d_Q st) as Hperm.
  { unfold heappop in Hpop. destruct (d_Q st) as [|e q]; [done |].
    injection Hpop as Hpop. by apply pop_min_perm in Hpop. }
  pose proof (Permutation_length Hperm) as HlenQ. simpl in HlenQ.
  pose proof Hinv as [Hdp Hdd Hvis Hcola Halc Hsp].
  destruct (Hcola c n v) as [Hv Hov]; [rewrite <- Hperm; left |].
  assert (∀ c' n' x, (c', n', x) ∈ Q' → x ∈ nodos g ∧ alcanzable g origen x) as Hcola'.
  { intros c' n' x Hin. apply (Hcola c' n' x). rewrite <- Hperm. by right. }
  rewrite M_bind_lift. unfold getitem. rewrite (Hvis v Hv). cbn [res_bind mbind].
  case_bool_decide as HvU; cbn [negb].
  - apply (IH _ U); [| done | cbn [d_Q]; unfold entry in *; lia].
    constructor; simpl; done.
  - (* not visited yet *)
    destruct (G_neighbors_spec g Hbf v Hv) as (vecinos & Hvec & Hadj & Hgrado).
    cbv zeta. rewrite (M_bind_ok _ _ _ _ _ Hvec).
    set (st1 := mkDState (d_padre st) (d_dist st) (<[v := true]> (d_visitado st))
                  (d_contador st) Q').
    assert (dijkstra_inv g origen st1 (U ∖ {[v]})) as Hinv1.
    { constructor; simpl; try done.
      intros x Hx. destruct (decide (x = v)) as [-> | Hne].
      - rewrite lookup_insert_eq. f_equal. symmetry. apply bool_decide_eq_true.
        set_solver.
      - rewrite lookup_insert_ne by done. rewrite (Hvis x Hx). f_equal.
        apply bool_decide_ext. set_solver. }
    destruct (dijkstra_relax_all vecinos st1 _ v Hinv1 Hv Hov) as (st2 & Hst2 & Hinv2 & Hlen2).
    { intros x Hx. by apply Hadj. }
    rewrite (M_bind_ok _ _ _ _ _ Hst2).
    apply (IH st2 (U ∖ {[v]})); [done | set_solver |].
    pose proof (pendiente_retirar g Hbf U v HvU Hv). cbn [d_Q st1] in Hlen2. unfold entry in *. lia.
Qed.

Lemma dijkstra_init_inv :
  origen ∈ nodos g →
  dijkstra_inv g origen (dijkstra_init (nodos g) origen) (list_to_set (nodos g)).
Proof.
  intros Ho. destruct (dijkstra_tabs_dom (nodos g)) as (Hdp & Hdd & Hdv).
  assert (∀ (nodes : list K) x, x ∈ nodes →
            d_padre (dijkstra_tabs nodes) !! x = Some None ∧
            d_visitado (dijkstra_tabs nodes) !! x = Some false) as Htabs'.
  { clear. intros nodes. unfold dijkstra_tabs.
    induction nodes as [|y l IHl] using rev_ind; [by intros x ?%elem_of_nil |].
    intros x Hx. rewrite foldl_app. simpl.
    destruct (decide (x = y)) as [-> | Hne]; [by rewrite !lookup_insert_eq |].
    rewrite !lookup_insert_ne by done. apply IHl.
    by apply elem_of_app in Hx as [Hx | Hx%list_elem_of_singleton]. }
  pose proof (Htabs' (nodos g)) as Htabs. clear Htabs'.
  constructor; simpl.
  - done.
  - rewrite dom_insert_L, Hdd.
    assert (origen ∈ (list_to_set (nodos g) : gset K)) by (by apply elem_of_list_to_set).
    set_solver.
  - intros x Hx. destruct (Htabs x Hx) as [_ ->]. f_equal. symmetry.
    apply bool_decide_eq_false. intros Hno. apply Hno. by apply elem_of_list_to_set.
  - intros c n x [= -> -> ->]%list_elem_of_singleton. split; [done | reflexivity].
  - intros x p Hp. destruct (decide (x ∈ nodos g)) as [Hx | Hx].
    + destruct (Htabs x Hx) as [Hnone _]. congruence.
    + apply elem_of_dom_2 in Hp. rewrite Hdp in Hp. by apply elem_of_list_to_set in Hp.
  - intros x Hx. destruct (Htabs x Hx) as [-> _]. by eexists.
Qed.

(** The run of [dijkstra]: the loop ends within its budget, and the
    dictionary returned is [padre] without the origin. *)
Lemma dijkstra_run :
  origen ∈ nodos g →
  ∃ (st : DState K) (U : gset K),
    dijkstra peso origen g = (Ok (delete origen (d_padre st)), g) ∧
    dijkstra_inv g origen st U.
Proof.
  intros Ho.
  destruct (dijkstra_loop_spec (2 + adj_size g) (dijkstra_init (nodos g) origen)
              (list_to_set (nodos g)) (dijkstra_init_inv Ho))
    as (st & U & Hloop & Hinv); [done | |].
  { simpl. rewrite (pendiente_total g Hbf). lia. }
  exists st, U. split; [| done].
  unfold dijkstra. rewrite (M_bind_ok G_nodes _ g (nodos g) g) by done.
  rewrite (M_bind_ok (budget _) _ g (2 + adj_size g)%nat g) by done.
  by rewrite (M_bind_ok _ _ _ _ _ Hloop).
Qed.

(** A node that cannot be reached keeps the parent [None]. *)
Lemma dijkstra_inv_inalcanzable (st : DState K) (U : gset K) (x : K) :
  dijkstra_inv g origen st U → x ∈ nodos g → ¬ alcanzable g origen x →
  d_padre st !! x = Some None.
Proof.
  intros Hinv Hx Hno.
  destruct (di_sin_padre _ _ _ _ Hinv x Hx) as [[p|] Hp]; [| done].
  destruct Hno. destruct (di_alcanzable _ _ _ _ Hinv x p Hp) as [Hop Hpx].
  by apply (rtc_r _ p).
Qed.

End DijkstraLoop.

Section DijkstraClaves.
Context {K : Type} `{Countable K}.

Lemma alcanzable_conectados (g : Graph K) (a b : K) :
  alcanzable g a b → conectados_en g a b.
Proof.
  unfold alcanzable, conectados_en, rtsc. apply rtc_subrel. intros x y Hxy. by left.
Qed.

(** X1.  What [dijkstra] returns.  On a well-formed graph, with a weight
    function that gives a number on every edge and an origin that is a
    node of the graph, [dijkstra] raises nothing, leaves the graph as it
    is, and returns a dictionary whose keys are all the nodes of the graph
    but the origin.  A node bound to a parent [p] is a neighbour of [p],
    and [p] can be reached from the origin; a node that cannot be reached
    from the origin is a key all the same, bound to [None]. *)
Theorem dijkstra_claves (g : Graph K) (peso : Peso K) (origen : K) :
  bien_formado g → peso_definido g peso → origen ∈ nodos g →
  ∃ padre : gmap K (option K),
    dijkstra peso origen g = (Ok padre, g) ∧
    dom padre = list_to_set (nodos g) ∖ {[origen]} ∧
    (∀ x p, padre !! x = Some (Some p) →
       alcanzable g origen p ∧ adyacente g p x) ∧
    (∀ x, x ∈ nodos g → x ≠ origen → ¬ alcanzable g origen x →
       padre !! x = Some None).
Proof.
  intros Hbf Hpeso Ho.
  destruct (dijkstra_run g peso origen Hbf Hpeso Ho) as (st & U & Hrun & Hinv).
  exists (delete origen (d_padre st)).
  split; [done |]. split; [| split].
  - by rewrite dom_delete_L, (di_padre _ _ _ _ Hinv).
  - intros x p [_ Hp]%lookup_delete_Some. by apply (di_alcanzable _ _ _ _ Hinv).
  - intros x Hx Hne Hno. rewrite lookup_delete_ne by done.
    by apply (dijkstra_inv_inalcanzable g origen st U).
Qed.

(** X2.  What [camino_minimo] does for a destination that cannot be reached.
    Under the same hypotheses, for every destination that is a node of the
    graph, differs from the origin and cannot be reached from it,
    [camino_minimo] raises [KeyError]: the destination is a key of the
    dictionary of [dijkstra], bound to [None], and the loop looks [None]
    up. *)
Theorem camino_minimo_sin_camino (g : Graph K) (peso : Peso K) (origen destino : K) :
  bien_formado g → peso_definido g peso →
  origen ∈ nodos g → destino ∈ nodos g → origen ≠ destino →
  ¬ alcanzable g origen destino →
  camino_minimo peso origen destino g = (Raise KeyError, g).
Proof.
  intros Hbf Hpeso Ho Hd Hne Hno.
  destruct (dijkstra_run g peso origen Hbf Hpeso Ho) as (st & U & Hrun & Hinv).
  apply (camino_minimo_sin_padre peso origen destino g g _ Hne Hrun).
  rewrite lookup_delete_ne by done.
  by apply (dijkstra_inv_inalcanzable g origen st U).
Qed.

End DijkstraClaves.

Lemma grafo_islas_inalcanzable : ¬ alcanzable grafo_islas "A" "D".
Proof.
  intros Hcon%alcanzable_conectados%grafo_islas_triangulo.
  assert ("D" ∈ ["A"; "B"; "C"]) as Hin by (apply Hcon; by repeat constructor).
  repeat (apply elem_of_cons in Hin as [[=] | Hin]). by apply elem_of_nil in Hin.
Qed.

Lemma grafo_islas_nodos : nodos grafo_islas = ["A"; "B"; "C"; "D"; "E"].
Proof. reflexivity. Qed.

Lemma dijkstra_claves_witness :
  ∃ padre : gmap string (option string),
    dijkstra mas_corto "A" grafo_islas = (Ok padre, grafo_islas) ∧
    padre !! "A" = None ∧
    padre !! "D" = Some None.
Proof.
  destruct (dijkstra_claves grafo_islas mas_corto "A" grafo_islas_bien_formado
              grafo_islas_mas_corto) as (padre & Hdij & Hdom & _ & Hnone).
  { rewrite grafo_islas_nodos. left. }
  exists padre. split; [done |]. split.
  - apply not_elem_of_dom. rewrite Hdom.
    intros [_ Hno]%elem_of_difference. apply Hno. by apply elem_of_singleton.
  - apply Hnone; [| done | apply grafo_islas_inalcanzable].
    rewrite grafo_islas_nodos. do 3 right. left.
Defined.

Lemma camino_minimo_sin_camino_witness :
  camino_minimo mas_corto "A" "D" grafo_islas = (Raise KeyError, grafo_islas).
Proof.
  apply (camino_minimo_sin_camino grafo_islas mas_corto "A" "D"
           grafo_islas_bien_formado grafo_islas_mas_corto).
  - rewrite grafo_islas_nodos. left.
  - rewrite grafo_islas_nodos. do 3 right. left.
  - done.
  - apply grafo_islas_inalcanzable.
Defined.

(** ** Nodes that are not in the graph *)

Section FueraDelGrafo.
Context {K : Type} `{Countable K}.

(** X4.  What [camino_minimo] does with nodes that are not in the graph.
    A destination that is not a node of the graph is no key of the
    dictionary of [dijkstra], so the early exit is taken: the answer is
    the empty list, with no error.  An origin that is not a node of the
    graph (and differs from the destination) makes [dijkstra] raise
    [KeyError] at [visitado[origen]], and [camino_minimo] with it. *)
Theorem camino_minimo_fuera_del_grafo (g : Graph K) (peso : Peso K)
    (origen destino : K) :
  bien_formado g → peso_definido g peso → origen ≠ destino →
  (origen ∈ nodos g → destino ∉ nodos g →
     camino_minimo peso origen destino g = (Ok [], g)) ∧
  (origen ∉ nodos g →
     camino_minimo peso origen destino g = (Raise KeyError, g)).
Proof.
  intros Hbf Hpeso Hne. split.
  - intros Ho Hd.
    destruct (dijkstra_run g peso origen Hbf Hpeso Ho) as (st & U & Hrun & Hinv).
    unfold camino_minimo. rewrite decide_False by done.
    rewrite (M_bind_ok _ _ _ _ _ Hrun).
    rewrite decide_True; [done |].
    rewrite lookup_delete_ne by done. apply not_elem_of_dom.
    rewrite (di_padre _ _ _ _ Hinv). by rewrite elem_of_list_to_set.
  - intros Ho. unfold camino_minimo. rewrite decide_False by done.
    by rewrite (M_bind_raise _ _ _ _ _ (dijkstra_fuera_del_grafo peso origen g Ho)).
Qed.

End FueraDelGrafo.

Lemma camino_minimo_fuera_del_grafo_witness :
  camino_minimo mas_corto "A" "Z" grafo_islas = (Ok [], grafo_islas) ∧
  camino_minimo mas_corto "Z" "A" grafo_islas = (Raise KeyError, grafo_islas).
Proof.
  split.
  - apply (camino_minimo_fuera_del_grafo grafo_islas mas_corto "A" "Z"
             grafo_islas_bien_formado grafo_islas_mas_corto); [done | |].
    + rewrite grafo_islas_nodos. left.
    + rewrite grafo_islas_nodos. intros Hin.
      repeat (apply elem_of_cons in Hin as [[=] | Hin]). by apply elem_of_nil in Hin.
  - apply (camino_minimo_fuera_del_grafo grafo_islas mas_corto "Z" "A"
             grafo_islas_bien_formado grafo_islas_mas_corto); [done |].
    rewrite grafo_islas_nodos. intros Hin.
    repeat (apply elem_of_cons in Hin as [[=] | Hin]). by apply elem_of_nil in Hin.
Defined.

(** ** Prim and Kruskal agree *)

Section PrimKruskal.
Context {K : Type} `{Countable K}.

(** The run of [prim]: the loop ends within its budget, and every node is
    removed from the queue as Prim's algorithm removes it. *)
Lemma prim_run (g : Graph K) (peso : Peso K) :
  bien_formado g → simetrico g → peso_acotado g peso →
  ∃ (padre : gmap K (option K)) (orden : list K),
    prim peso g = (Ok padre, g) ∧
    orden ≡ₚ nodos g ∧
    (∀ x, x ∈ orden → retirado_bien g peso padre orden x).
Proof.
  intros Hbf Hsim Hpeso.
  destruct (prim_init_inv g peso Hbf Hsim Hpeso) as [Hinv0 Hlen0].
  destruct (prim_loop_spec g peso Hbf Hsim Hpeso
              (1 + length (nodos g) + adj_size g) (prim_init (nodos g)) [] Hinv0)
    as (st & orden & Hloop & Hinv & HQ).
  { rewrite Hlen0. simpl. rewrite (pendiente_total g Hbf). lia. }
  assert (∀ x, x ∈ nodos g → x ∈ orden) as Htodos.
  { intros x Hx. destruct (decide (x ∈ orden)) as [| Hno]; [done |].
    assert (x ∈ p_en_Q st) as HxQ.
    { rewrite (pi_en_Q _ _ _ _ _ Hinv). apply elem_of_difference.
      by rewrite !elem_of_list_to_set. }
    destruct (pi_entrada _ _ _ _ _ Hinv x HxQ) as (c & n & _ & Hin).
    rewrite HQ in Hin. by apply elem_of_nil in Hin. }
  exists (p_padre st), orden. split; [| split].
  - unfold prim. rewrite (M_bind_ok G_nodes _ g (nodos g) g) by done.
    rewrite (M_bind_ok (budget _) _ g (1 + length (nodos g) + adj_size g)%nat g) by done.
    by rewrite (M_bind_ok _ _ _ _ _ Hloop).
  - apply NoDup_Permutation; [apply Hinv | apply Hbf |].
    intros x. split; [apply (pi_orden _ _ _ _ _ Hinv) | apply Htodos].
  - apply (pi_retirados _ _ _ _ _ Hinv).
Qed.

Lemma coste_total_Permutation (μ : float → nat) (g : Graph K) (peso : Peso K)
    (F F' : list (K * K)) :
  F ≡ₚ F' → coste_total μ g peso F = coste_total μ g peso F'.
Proof.
  intros HF. unfold coste_total.
  apply (sum_list_with_Permutation_proper id). by rewrite HF.
Qed.

(** X5.  [prim] and [kruskal] agree.  On a well-formed graph with
    symmetric adjacency and a weight function that gives, on every edge, a
    number below [INFTY], the same in both directions, the parent edges of
    the dictionary of [prim] and the edges that [kruskal] returns are as
    many, and they have the same total weight, whatever way of reading
    the weights as natural numbers that respects their order is used to
    add them up. *)
Theorem prim_kruskal_mismo_coste (g : Graph K) (peso : Peso K) :
  bien_formado g → simetrico g → peso_acotado g peso → peso_simetrico g peso →
  ∃ (padre : gmap K (option K)) (aristas_aam : list (K * K)),
    prim peso g = (Ok padre, g) ∧
    kruskal peso g = (Ok aristas_aam, g) ∧
    length (aristas_del_padre padre (nodos g)) = length aristas_aam ∧
    ∀ μ : float → nat, monotona μ →
      coste_total μ g peso (aristas_del_padre padre (nodos g))
      = coste_total μ g peso aristas_aam.
Proof.
  intros Hbf Hsim Hpeso Hpsim.
  assert (peso_numerico g peso) as Hnum.
  { intros u v Huv. destruct (Hpeso u v Huv) as (w & Hw & Hlt).
    exists w. split; [done |]. by destruct (FloatOrder.ltb_not_nan _ _ Hlt). }
  destruct (prim_run g peso Hbf Hsim Hpeso) as (padre & orden & Hprim & Hperm & Hret).
  destruct (kruskal_ligero g peso Hbf Hnum Hpsim) as (aristas & Hk & Hspan & Hune).
  pose proof (aristas_del_padre_abarcan g peso padre orden Hbf Hsim Hperm Hret) as HT.
  assert (aristas_del_padre padre (nodos g) ≡ₚ aristas_del_padre padre orden) as HTperm.
  { unfold aristas_del_padre. by rewrite Hperm. }
  exists padre, aristas. split; [done |]. split; [done |]. split.
  - rewrite HTperm. by apply (bosque_abarcador_length g Hbf).
  - intros μ Hmono. rewrite (coste_total_Permutation μ g peso _ _ HTperm).
    apply Nat.le_antisymm.
    + by apply (prim_minimo g peso padre orden Hbf Hsim Hperm Hret).
    + apply (bosque_ligero_minimo g peso Hbf μ aristas _ Hspan HT).
      intros t a b Hab Hl. by apply Hune.
Qed.

End PrimKruskal.

Lemma prim_kruskal_mismo_coste_witness :
  coste_total en_unidades grafo_islas mas_corto
    (aristas_del_padre {["A" := None; "B" := Some "A"; "C" := Some "B";
                         "D" := None; "E" := Some "D"]} (nodos grafo_islas))
  = coste_total en_unidades grafo_islas mas_corto [("A", "B"); ("D", "E"); ("B", "C")].
Proof.
  destruct (prim_kruskal_mismo_coste grafo_islas mas_corto grafo_islas_bien_formado
              (bf_simetrico _ grafo_islas_bien_formado eq_refl) grafo_islas_acotado
              grafo_islas_simetrico)
    as (padre & aristas & Hprim & Hk & _ & Hcoste).
  assert (prim mas_corto grafo_islas
          = (Ok {["A" := None; "B" := Some "A"; "C" := Some "B";
                  "D" := None; "E" := Some "D"]}, grafo_islas)) as Hp
    by (vm_compute; reflexivity).
  assert (kruskal mas_corto grafo_islas
          = (Ok [("A", "B"); ("D", "E"); ("B", "C")], grafo_islas)) as Hk'
    by (vm_compute; reflexivity).
  rewrite Hp in Hprim. injection Hprim as <-.
  rewrite Hk' in Hk. injection Hk as <-.
  exact (Hcoste en_unidades en_unidades_monotona).
Defined.

(** ** gps.py: the segments and the sentences of a route *)

Section Tramos.
Context {K : Type} `{Countable K}.

Lemma segmentacion_uno (s : Segmento) :
  s_inicio s = 0%nat → segmentacion (s_fin s) [s].
Proof.
  intros Hs. split; [| split].
  - by intros s' [= <-].
  - by exists s.
  - intros k s1 s2 _ Hk. destruct k; done.
Qed.

(** The open segment grows by one edge. *)
Lemma segmentacion_extender (n : nat) (segs : list Segmento) (s s' : Segmento) :
  segmentacion n (segs ++ [s]) →
  s_inicio s' = s_inicio s → s_nombre s' = s_nombre s →
  segmentacion (s_fin s') (segs ++ [s']).
Proof.
  intros (Hhead & _ & Hlink) Hini Hnom. split; [| split].
  - intros s0 Hs0. destruct segs as [|s1 segs]; simpl in *.
    + injection Hs0 as <-. rewrite Hini. by apply Hhead.
    + by apply Hhead.
  - exists s'. by rewrite last_snoc.
  - intros k s1 s2 H1 H2.
    destruct (decide (S k < length segs)%nat) as [Hlt | Hge].
    + rewrite lookup_app_l in H1 by lia. rewrite lookup_app_l in H2 by lia.
      apply (Hlink k); by rewrite lookup_app_l by lia.
    + assert (S k = length segs) as Hk.
      { apply lookup_lt_Some in H2. rewrite length_app in H2. simpl in H2. lia. }
      rewrite lookup_app_l in H1 by lia.
      rewrite Hk, list_lookup_middle in H2 by done. injection H2 as <-.
      rewrite Hini, Hnom. apply (Hlink k).
      * by rewrite lookup_app_l by lia.
      * by rewrite Hk, list_lookup_middle.
Qed.

(** The open segment is closed and another one starts where it ends. *)
Lemma segmentacion_snoc (n : nat) (segs : list Segmento) (s s' : Segmento) :
  segmentacion n (segs ++ [s]) →
  s_inicio s' = s_fin s → s_nombre s ≠ s_nombre s' →
  segmentacion (s_fin s') ((segs ++ [s]) ++ [s']).
Proof.
  intros (Hhead & _ & Hlink) Hini Hnom. split; [| split].
  - intros s0 Hs0. apply Hhead. by destruct segs.
  - exists s'. by rewrite last_snoc.
  - intros k s1 s2 H1 H2.
    destruct (decide (S k < length (segs ++ [s]))%nat) as [Hlt | Hge].
    + rewrite lookup_app_l in H1 by lia. rewrite lookup_app_l in H2 by lia.
      by apply (Hlink k).
    + assert (S k = length (segs ++ [s])) as Hk.
      { apply lookup_lt_Some in H2. rewrite length_app in H2. simpl in H2. lia. }
      rewrite lookup_app_l in H1 by lia.
      rewrite Hk, list_lookup_middle in H2 by done. injection H2 as <-.
      assert (k = length segs) as -> by (rewrite length_app in Hk; simpl in Hk; lia).
      rewrite list_lookup_middle in H1 by done. injection H1 as <-. done.
Qed.

Lemma suma_izquierda_snoc (ls : list float) (d l : float) :
  suma_izquierda ls = Some d → suma_izquierda (ls ++ [l]) = Some (d + l)%float.
Proof.
  destruct ls as [|l0 ls]; [done |]. simpl. intros [= <-]. by rewrite foldl_app.
Qed.

Lemma tramo_de_extender (g : Graph K) (camino : list K) (nombre : string)
    (dist l : float) (inicio i : nat) (datos : EdgeData) :
  tramo_de g camino (mkSegmento nombre dist inicio i) →
  arista_del_camino g camino i datos →
  nombre_de datos = nombre → longitud_de datos = Ok l →
  tramo_de g camino (mkSegmento nombre (dist + l)%float inicio (S i)).
Proof.
  intros (Hlt & ls & Hlen & Hls & Hsum) Hi Hnom Hl. simpl in *.
  split; [simpl; lia |]. exists (ls ++ [l]). simpl.
  split; [rewrite length_app; simpl; lia |].
  split; [| by apply suma_izquierda_snoc].
  intros k l' Hk. destruct (decide (k < length ls)%nat) as [Hk' | Hk'].
  - rewrite lookup_app_l in Hk by done. by apply Hls.
  - assert (k = length ls) as ->.
    { apply lookup_lt_Some in Hk. rewrite length_app in Hk. simpl in Hk. lia. }
    rewrite list_lookup_middle in Hk by done. injection Hk as <-.
    exists datos. replace (inicio + length ls)%nat with i by lia. done.
Qed.

Lemma tramo_de_nuevo (g : Graph K) (camino : list K) (l : float) (i : nat)
    (datos : EdgeData) :
  arista_del_camino g camino i datos → longitud_de datos = Ok l →
  tramo_de g camino (mkSegmento (nombre_de datos) l i (S i)).
Proof.
  intros Hi Hl. split; [simpl; lia |]. exists [l]. simpl.
  split; [lia |]. split; [| done].
  intros k l' Hk. destruct k; [| done]. injection Hk as <-.
  exists datos. by rewrite Nat.add_0_r.
Qed.

(** [for i in range(1, len(camino) - 1)] keeps the segments a cut of the
    edges seen so far. *)
Lemma segmentos_loop_tramos (g : Graph K) (camino : list K) :
  transitable g camino →
  ∀ (resto : list K) (i : nat) nombre dist inicio segs,
  drop i camino = resto → resto ≠ [] →
  segmentacion i (segs ++ [mkSegmento nombre dist inicio i]) →
  Forall (tramo_de g camino) (segs ++ [mkSegmento nombre dist inicio i]) →
  ∃ nombre' dist' inicio' segs',
    segmentos_loop i resto nombre dist inicio segs g
      = (Ok (nombre', dist', inicio', segs'), g) ∧
    segmentacion (length camino - 1)
      (segs' ++ [mkSegmento nombre' dist' inicio' (length camino - 1)]) ∧
    Forall (tramo_de g camino)
      (segs' ++ [mkSegmento nombre' dist' inicio' (length camino - 1)]).
Proof.
  intros Ht resto. induction resto as [|u resto IH];
    intros i nombre dist inicio segs Hdrop Hne Hseg Hall; [done |].
  assert (camino !! i = Some u) as Hu.
  { rewrite <- (Nat.add_0_r i), <- lookup_drop, Hdrop. done. }
  assert (drop (S i) camino = resto) as Hdrop'.
  { trans (drop 1 (drop i camino)); [| by rewrite Hdrop].
    rewrite drop_drop. f_equal. lia. }
  destruct resto as [|v resto'].
  - (* the last node *)
    assert (length camino - 1 = i)%nat as Hlen.
    { apply (f_equal length) in Hdrop. rewrite length_drop in Hdrop.
      simpl in Hdrop. lia. }
    simpl. rewrite Hlen. by exists nombre, dist, inicio, segs.
  - assert (camino !! S i = Some v) as Hv.
    { rewrite <- (Nat.add_0_r (S i)), <- lookup_drop, Hdrop'. done. }
    destruct (Ht i u v Hu Hv) as (datos & Hd & Hadm).
    destruct (longitud_admisible_ok _ Hadm) as [l Hl].
    assert (arista_del_camino g camino i datos) as Hi by (by exists u, v).
    cbn [segmentos_loop].
    rewrite (M_bind_ok _ _ _ _ _ Hd).
    rewrite (M_bind_ok _ _ _ _ _ (_nombre_calle_ok _ _ _ _ Hd)).
    rewrite M_bind_lift, Hl.
    apply Forall_app in Hall as [Hall Hopen]. rewrite Forall_singleton in Hopen.
    case_decide as Hnom.
    + apply (IH (S i)); [done | done | |].
      * apply (segmentacion_extender i segs (mkSegmento nombre dist inicio i)
                    (mkSegmento nombre (dist + l)%float inicio (S i))); done.
      * apply Forall_app. split; [done |]. apply Forall_singleton.
        by apply (tramo_de_extender g camino nombre dist l inicio i datos).
    + apply (IH (S i)); [done | done | |].
      * apply (segmentacion_snoc i segs (mkSegmento nombre dist inicio i)
                 (mkSegmento (nombre_de datos) l i (S i))); [done | done |].
        simpl. congruence.
      * apply Forall_app. split.
        -- apply Forall_app. split; [done | by apply Forall_singleton].
        -- apply Forall_singleton. by apply tramo_de_nuevo.
Qed.

(** The segments of a path whose consecutive nodes are joined by edges. *)
Lemma segmentos_de_tramos (g : Graph K) (camino : list K) :
  (2 ≤ length camino)%nat → transitable g camino →
  ∃ segs : list Segmento,
    segmentos_de camino g = (Ok segs, g) ∧
    segmentacion (length camino - 1) segs ∧
    Forall (tramo_de g camino) segs.
Proof.
  intros Hlen Ht. unfold segmentos_de.
  destruct camino as [|u0 [|v0 resto]]; simpl in Hlen; [lia | lia |].
  destruct (Ht 0%nat u0 v0 eq_refl eq_refl) as (datos & Hd & Hadm).
  destruct (longitud_admisible_ok _ Hadm) as [l Hl].
  rewrite (M_bind_ok _ _ _ _ _ (_nombre_calle_ok _ _ _ _ Hd)).
  rewrite (M_bind_ok _ _ _ _ _ Hd), M_bind_lift, Hl.
  assert (arista_del_camino g (u0 :: v0 :: resto) 0 datos) as H0 by (by exists u0, v0).
  destruct (segmentos_loop_tramos g (u0 :: v0 :: resto) Ht (v0 :: resto) 1
              (nombre_de datos) l 0 [])
    as (nombre' & dist' & inicio' & segs' & Hloop & Hseg & Hall).
  { done. }
  { done. }
  { apply (segmentacion_uno (mkSegmento (nombre_de datos) l 0 1)). done. }
  { apply Forall_singleton. by apply tramo_de_nuevo. }
  rewrite (M_bind_ok _ _ _ _ _ Hloop).
  eexists. split; [reflexivity |]. done.
Qed.

End Tramos.

Section Instrucciones.
Context {K : Type} `{Countable K}.

(** A segment ends within the path. *)
Lemma tramo_de_fin (g : Graph K) (camino : list K) (s : Segmento) :
  tramo_de g camino s → (s_fin s < length camino)%nat.
Proof.
  intros (Hlt & ls & Hlen & Hls & _).
  destruct (lookup_lt_is_Some_2 ls (s_fin s - s_inicio s - 1)) as [l Hl]; [lia |].
  destruct (Hls _ _ Hl) as (datos & (u & v & _ & Hv & _) & _).
  apply lookup_lt_Some in Hv. lia.
Qed.

(** A segment that is not the first starts at an interior node of the
    path: the bounds test of [_calcular_giro] does not fire there. *)
Lemma segmentacion_interior (g : Graph K) (camino : list K) (n : nat)
    (segs : list Segmento) (k : nat) (s : Segmento) :
  segmentacion n segs → Forall (tramo_de g camino) segs →
  segs !! S k = Some s →
  (0 < s_inicio s)%nat ∧ (s_inicio s + 1 < length camino)%nat.
Proof.
  intros (_ & _ & Hlink) Hall Hs.
  destruct (lookup_lt_is_Some_2 segs k) as [s0 Hs0];
    [apply lookup_lt_Some in Hs; lia |].
  destruct (Hlink k s0 s Hs0 Hs) as [Hfin _].
  rewrite Forall_forall in Hall.
  pose proof (Hall s0 (list_elem_of_lookup_2 _ _ _ Hs0)) as (Hlt0 & _).
  pose proof (Hall s (list_elem_of_lookup_2 _ _ _ Hs)) as Hts.
  pose proof (tramo_de_fin g camino s Hts). destruct Hts as (Hlt & _). lia.
Qed.

(** [for j, seg in enumerate(segmentos)]: one sentence for each segment. *)
Lemma foldM_frase_de_frases (g : Graph K) (camino : list K) :
  con_coordenadas g camino →
  ∀ (segs : list Segmento) (j : nat) (ins : list string) (tot : float),
  ∃ frases : list string,
    foldM (frase_de camino) segs (j, ins, tot) g
      = (Ok ((j + length segs)%nat, ins ++ frases,
             foldl (λ a s, (a + s_dist s)%float) tot segs), g) ∧
    length frases = length segs ∧
    ∀ k s, segs !! k = Some s →
      ∃ giro : option string,
        frases !! k = Some (_frase_segmento (s_nombre s) (s_dist s)
                              (bool_decide ((j + k)%nat = 0%nat)) giro) ∧
        if decide ((j + k)%nat = 0%nat) then giro = None
        else _calcular_giro camino (Z.of_nat (s_inicio s)) g = (Ok giro, g).
Proof.
  intros Hc segs. induction segs as [|seg segs IH]; intros j ins tot.
  - exists []. simpl. rewrite Nat.add_0_r, app_nil_r. split; [done |].
    split; [done |]. by intros k s ?.
  - assert (∃ giro, (if decide (j = 0%nat) then mret None
                     else _calcular_giro camino (Z.of_nat (s_inicio seg))) g
                    = (Ok giro, g) ∧
                    if decide (j = 0%nat) then giro = None
                    else _calcular_giro camino (Z.of_nat (s_inicio seg)) g = (Ok giro, g))
      as (giro & Hg & Hgiro).
    { case_decide; [by exists None |].
      destruct (_calcular_giro_ok g camino (Z.of_nat (s_inicio seg)) Hc) as [giro Hg].
      by exists giro. }
    destruct (IH (S j)
                (ins ++ [_frase_segmento (s_nombre seg) (s_dist seg)
                           (bool_decide (j = 0%nat)) giro])
                (tot + s_dist seg)%float)
      as (frases & Hfold & Hlen & Hfr).
    exists (_frase_segmento (s_nombre seg) (s_dist seg) (bool_decide (j = 0%nat)) giro
              :: frases).
    split; [| split].
    + assert (frase_de camino (j, ins, tot) seg g
              = (Ok (S j, ins ++ [_frase_segmento (s_nombre seg) (s_dist seg)
                                    (bool_decide (j = 0%nat)) giro],
                     (tot + s_dist seg)%float), g)) as Hstep.
      { unfold frase_de. cbv beta iota. by rewrite (M_bind_ok _ _ _ _ _ Hg). }
      cbn [foldM]. rewrite (M_bind_ok _ _ _ _ _ Hstep).
      rewrite Hfold. simpl. rewrite <- app_assoc. simpl.
      by replace (j + S (length segs))%nat with (S (j + length segs)) by lia.
    + simpl. by rewrite Hlen.
    + intros [|k] s Hs.
      * injection Hs as <-. exists giro. rewrite Nat.add_0_r. done.
      * destruct (Hfr k s Hs) as (giro' & Hfk & Hgk).
        exists giro'. replace (j + S k)%nat with (S j + k)%nat by lia. done.
Qed.

(** X6.  The segments of [construir_instrucciones].  For a path of two
    nodes or more whose consecutive nodes are joined by edges of the graph
    (each with a length that is absent or converts to a float), the list
    [segmentos] cuts the path into consecutive stretches: the first
    starts at index 0, the last ends at the last index, each starts where
    the one before it ends, and consecutive segments are of different
    streets.  Each segment runs over one edge at least, all its edges
    bear its street name, and its distance is the sum of their lengths,
    added from left to right. *)
Theorem construir_instrucciones_tramos (g : Graph K) (camino : list K) :
  (2 ≤ length camino)%nat → transitable g camino →
  ∃ segs : list Segmento,
    segmentos_de camino g = (Ok segs, g) ∧
    segmentacion (length camino - 1) segs ∧
    Forall (tramo_de g camino) segs ∧
    (length segs ≤ length camino - 1)%nat.
Proof.
  intros Hlen Ht.
  destruct (segmentos_de_tramos g camino Hlen Ht) as (segs & Hsegs & Hseg & Hall).
  exists segs. split; [done |]. split; [done |]. split; [done |].
  (* the segments start at different indices below the last *)
  assert (∀ k s, segs !! k = Some s → (k ≤ s_inicio s)%nat) as Hmono.
  { destruct Hseg as (_ & _ & Hlink). rewrite Forall_forall in Hall.
    induction k as [|k IHk]; intros s Hs; [lia |].
    destruct (lookup_lt_is_Some_2 segs k) as [s0 Hs0];
      [apply lookup_lt_Some in Hs; lia |].
    destruct (Hlink k s0 s Hs0 Hs) as [Hfin _].
    pose proof (Hall s0 (list_elem_of_lookup_2 _ _ _ Hs0)) as (Hlt0 & _).
    specialize (IHk s0 Hs0). lia. }
  destruct Hseg as (_ & (s & Hlast & Hfin) & _).
  rewrite last_lookup in Hlast.
  pose proof (Hmono _ _ Hlast) as Hk.
  rewrite Forall_forall in Hall.
  pose proof (Hall s (list_elem_of_lookup_2 _ _ _ Hlast)) as (Hlt & _).
  apply lookup_lt_Some in Hlast. lia.
Qed.

(** X7.  The sentences of [construir_instrucciones].  For such a path,
    when its nodes have coordinates, the instructions are one sentence for
    each segment, in order, followed by the line of the total.  The first
    sentence is the one of the origin, with no turn; the sentence of a
    later segment says the turn that [_calcular_giro] finds at the node
    where the segment starts, which is an interior node of the path.  The
    total is the sum of the distances of the segments. *)
Theorem construir_instrucciones_frases (g : Graph K) (camino : list K) :
  (2 ≤ length camino)%nat → transitable g camino → con_coordenadas g camino →
  ∃ (segs : list Segmento) (frases : list string),
    segmentos_de camino g = (Ok segs, g) ∧
    construir_instrucciones camino g
      = (Ok (frases ++
               [linea_total (foldl (λ a s, (a + s_dist s)%float) 0%float segs)]), g) ∧
    length frases = length segs ∧
    (∀ s, segs !! 0%nat = Some s →
       frases !! 0%nat = Some (_frase_segmento (s_nombre s) (s_dist s) true None)) ∧
    (∀ k s, segs !! S k = Some s →
       (0 < s_inicio s)%nat ∧ (s_inicio s + 1 < length camino)%nat ∧
       ∃ giro : option string,
         _calcular_giro camino (Z.of_nat (s_inicio s)) g = (Ok giro, g) ∧
         frases !! S k = Some (_frase_segmento (s_nombre s) (s_dist s) false giro)).
Proof.
  intros Hlen Ht Hc.
  destruct (segmentos_de_tramos g camino Hlen Ht) as (segs & Hsegs & Hseg & Hall).
  destruct (foldM_frase_de_frases g camino Hc segs 0 [] 0%float)
    as (frases & Hfold & Hlenf & Hfr).
  exists segs, frases. split; [done |]. split; [| split; [done | split]].
  - unfold construir_instrucciones.
    destruct camino as [|u0 [|v0 resto]]; simpl in Hlen; [lia | lia |].
    rewrite (M_bind_ok _ _ _ _ _ Hsegs), (M_bind_ok _ _ _ _ _ Hfold). done.
  - intros s Hs. destruct (Hfr 0%nat s Hs) as (giro & Hf & Hg). simpl in Hg.
    by subst giro.
  - intros k s Hs.
    destruct (segmentacion_interior g camino _ segs k s Hseg Hall Hs) as [H0 H1].
    split; [done |]. split; [done |].
    destruct (Hfr (S k) s Hs) as (giro & Hf & Hg). simpl in Hg.
    exists giro. done.
Qed.

Lemma G_getitem_casos (g : Graph K) (u v : K) :
  (∃ datos, G_getitem u v g = (Ok datos, g)) ∨ G_getitem u v g = (Raise KeyError, g).
Proof.
  unfold G_getitem. destruct (assoc u (adj_tab g)) as [nbrs|]; simpl; [| by right].
  destruct (assoc v nbrs) as [datos|]; simpl; [left; by eexists | by right].
Qed.

Lemma segmentos_loop_sin_arista (g : Graph K) (camino : list K) (i : nat) (u v : K) :
  camino !! i = Some u → camino !! S i = Some v →
  (∀ j a b, (j < i)%nat → camino !! j = Some a → camino !! S j = Some b →
     ∃ datos, G_getitem a b g = (Ok datos, g) ∧ longitud_admisible datos) →
  G_getitem u v g = (Raise KeyError, g) →
  ∀ (resto : list K) (k : nat) nombre dist inicio segs,
  drop k camino = resto → (k ≤ i)%nat →
  segmentos_loop k resto nombre dist inicio segs g = (Raise KeyError, g).
Proof.
  intros Hu Hv Hantes Hno resto.
  induction resto as [|a resto IH]; intros k nombre dist inicio segs Hdrop Hk.
  - apply (f_equal length) in Hdrop. rewrite length_drop in Hdrop. simpl in Hdrop.
    apply lookup_lt_Some in Hu. lia.
  - assert (camino !! k = Some a) as Ha.
    { rewrite <- (Nat.add_0_r k), <- lookup_drop, Hdrop. done. }
    assert (drop (S k) camino = resto) as Hdrop'.
    { trans (drop 1 (drop k camino)); [| by rewrite Hdrop].
      rewrite drop_drop. f_equal. lia. }
    destruct resto as [|b resto'].
    { apply (f_equal length) in Hdrop'. rewrite length_drop in Hdrop'. simpl in Hdrop'.
      apply lookup_lt_Some in Hv. lia. }
    assert (camino !! S k = Some b) as Hb.
    { rewrite <- (Nat.add_0_r (S k)), <- lookup_drop, Hdrop'. done. }
    cbn [segmentos_loop].
    destruct (decide (k = i)) as [-> | Hne].
    + rewrite Hu in Ha. injection Ha as <-. rewrite Hv in Hb. injection Hb as <-.
      by rewrite (M_bind_raise _ _ _ _ _ Hno).
    + destruct (Hantes k a b) as (datos & Hd & Hadm); [lia | done | done |].
      destruct (longitud_admisible_ok _ Hadm) as [l Hl].
      rewrite (M_bind_ok _ _ _ _ _ Hd).
      rewrite (M_bind_ok _ _ _ _ _ (_nombre_calle_ok _ _ _ _ Hd)).
      rewrite M_bind_lift, Hl.
      case_decide; apply IH; (done || lia).
Qed.

(** X8.  A path that leaves the graph.  If two consecutive nodes of the
    path are not joined by an edge of the graph, and the edges before
    them are there (each with a length that is absent or converts to a
    float), [construir_instrucciones] raises [KeyError]. *)
Theorem construir_instrucciones_sin_arista (g : Graph K) (camino : list K)
    (i : nat) (u v : K) :
  camino !! i = Some u → camino !! S i = Some v →
  (∀ j a b, (j < i)%nat → camino !! j = Some a → camino !! S j = Some b →
     ∃ datos, G_getitem a b g = (Ok datos, g) ∧ longitud_admisible datos) →
  (∀ datos, G_getitem u v g ≠ (Ok datos, g)) →
  construir_instrucciones camino g = (Raise KeyError, g).
Proof.
  intros Hu Hv Hantes Hno.
  assert (G_getitem u v g = (Raise KeyError, g)) as Hraise.
  { destruct (G_getitem_casos g u v) as [[datos Hd] | Hr]; [| done].
    by destruct (Hno datos). }
  unfold construir_instrucciones.
  destruct camino as [|u0 [|v0 resto]] eqn:Hcam.
  { by apply lookup_lt_Some in Hu. }
  { apply lookup_lt_Some in Hv. simpl in Hv. lia. }
  erewrite M_bind_raise; [done |].
  unfold segmentos_de.
  destruct (decide (i = 0%nat)) as [-> | Hi].
  - injection Hu as <-. injection Hv as <-.
    erewrite M_bind_raise; [done |].
    unfold _nombre_calle. by rewrite (M_bind_raise _ _ _ _ _ Hraise).
  - destruct (Hantes 0%nat u0 v0) as (datos & Hd & Hadm); [lia | done | done |].
    destruct (longitud_admisible_ok _ Hadm) as [l Hl].
    rewrite (M_bind_ok _ _ _ _ _ (_nombre_calle_ok _ _ _ _ Hd)).
    rewrite (M_bind_ok _ _ _ _ _ Hd), M_bind_lift, Hl.
    erewrite M_bind_raise; [done |].
    apply (segmentos_loop_sin_arista g (u0 :: v0 :: resto) i u v Hu Hv Hantes Hraise);
      [done | lia].
Qed.

End Instrucciones.

Lemma grafo_esquina_transitable : transitable grafo_esquina ["A"; "B"; "C"].
Proof.
  intros [|[|[|i]]] u v; simpl; intros [= <-] [= <-];
    eexists; (split; [reflexivity | exact I || (eexists; reflexivity)]).
Defined.

Lemma grafo_esquina_con_coordenadas : con_coordenadas grafo_esquina ["A"; "B"; "C"].
Proof.
  intros n Hn.
  repeat (apply elem_of_cons in Hn as [-> | Hn]; [do 2 eexists; reflexivity |]).
  by apply elem_of_nil in Hn.
Defined.

Lemma construir_instrucciones_tramos_witness :
  ∃ segs : list Segmento,
    segmentos_de ["A"; "B"; "C"] grafo_esquina = (Ok segs, grafo_esquina) ∧
    segmentacion 2 segs ∧
    Forall (tramo_de grafo_esquina ["A"; "B"; "C"]) segs ∧
    (length segs ≤ 2)%nat.
Proof.
  apply (construir_instrucciones_tramos grafo_esquina ["A"; "B"; "C"]).
  - simpl. lia.
  - exact grafo_esquina_transitable.
Defined.

Lemma construir_instrucciones_frases_witness :
  ∃ (segs : list Segmento) (frases : list string),
    segmentos_de ["A"; "B"; "C"] grafo_esquina = (Ok segs, grafo_esquina) ∧
    construir_instrucciones ["A"; "B"; "C"] grafo_esquina
      = (Ok (frases ++
               [linea_total (foldl (λ a s, (a + s_dist s)%float) 0%float segs)]),
         grafo_esquina) ∧
    length frases = length segs ∧
    (∀ s, segs !! 0%nat = Some s →
       frases !! 0%nat = Some (_frase_segmento (s_nombre s) (s_dist s) true None)) ∧
    (∀ k s, segs !! S k = Some s →
       (0 < s_inicio s)%nat ∧ (s_inicio s + 1 < 3)%nat ∧
       ∃ giro : option string,
         _calcular_giro ["A"; "B"; "C"] (Z.of_nat (s_inicio s)) grafo_esquina
           = (Ok giro, grafo_esquina) ∧
         frases !! S k = Some (_frase_segmento (s_nombre s) (s_dist s) false giro)).
Proof.
  apply (construir_instrucciones_frases grafo_esquina ["A"; "B"; "C"]).
  - simpl. lia.
  - exact grafo_esquina_transitable.
  - exact grafo_esquina_con_coordenadas.
Defined.

Lemma construir_instrucciones_sin_arista_witness :
  construir_instrucciones ["A"; "B"; "A"] grafo_esquina = (Raise KeyError, grafo_esquina).
Proof.
  apply (construir_instrucciones_sin_arista grafo_esquina ["A"; "B"; "A"] 1 "B" "A").
  - reflexivity.
  - reflexivity.
  - intros [|j] a b Hj; [| lia]. simpl. intros [= <-] [= <-].
    eexists. split; [reflexivity | eexists; reflexivity].
  - intros datos Hd. vm_compute in Hd. discriminate Hd.
Defined.

(** ** callejero.py: what [procesa_grafo] leaves on the edges *)

Section ProcesaDatos.
Import FloatOrder.

Lemma velocidad_de_tabla_num (i : string) (v : float) :
  velocidad_de_tabla i = Some v →
  is_nan v = false ∧ (neg_infinity <? v)%float = true.
Proof.
  unfold velocidad_de_tabla, MAX_SPEEDS. simpl.
  repeat (case_decide; [intros [= <-]; by vm_compute |]). done.
Qed.

(** The loop over a list of road classes keeps the fastest one, the first
    of them. *)
Lemma tipo_mas_rapido_spec (highway : list string) :
  ∀ (vel_ant : float) (tipo r : string),
  is_nan vel_ant = false →
  tipo_mas_rapido highway vel_ant tipo = Ok r →
  (r = tipo ∧
   ∀ j vj, j ∈ highway → velocidad_de_tabla j = Some vj → (vj <=? vel_ant)%float = true) ∨
  (∃ pre post vel,
     highway = pre ++ r :: post ∧ velocidad_de_tabla r = Some vel ∧
     (vel_ant <? vel)%float = true ∧
     (∀ j vj, j ∈ pre → velocidad_de_tabla j = Some vj → (vj <? vel)%float = true) ∧
     (∀ j vj, j ∈ post → velocidad_de_tabla j = Some vj → (vj <=? vel)%float = true)).
Proof.
  induction highway as [|i highway IH]; intros vel_ant tipo r Hnan;
    cbn [tipo_mas_rapido].
  - intros [= <-]. left. split; [done |]. by intros j vj ?%elem_of_nil.
  - rewrite py_float_opt_tabla.
    destruct (velocidad_de_tabla i) as [vel|] eqn:Hvel; [| done]. simpl.
    destruct (velocidad_de_tabla_num i vel Hvel) as [Hvnan _].
    destruct (vel_ant <? vel)%float eqn:Hlt; intros Hr.
    + right. destruct (IH vel i r Hvnan Hr)
        as [[-> Hpost] | (pre & post & vel' & -> & Hr' & Hlt' & Hpre & Hpost)].
      * exists [], highway, vel. split; [done |]. split; [done |]. split; [done |].
        split; [by intros j vj ?%elem_of_nil | done].
      * exists (i :: pre), post, vel'. split; [done |]. split; [done |].
        split; [by apply (ltb_trans _ vel) |]. split; [| done].
        intros j vj [-> | Hj]%elem_of_cons Hvj; [| by apply (Hpre j)].
        rewrite Hvel in Hvj. by injection Hvj as <-.
    + assert ((vel <=? vel_ant)%float = true) as Hle by (by apply nltb_leb).
      destruct (IH vel_ant tipo r Hnan Hr)
        as [[-> Hpost] | (pre & post & vel' & -> & Hr' & Hlt' & Hpre & Hpost)].
      * left. split; [done |].
        intros j vj [-> | Hj]%elem_of_cons Hvj; [| by apply (Hpost j)].
        rewrite Hvel in Hvj. by injection Hvj as <-.
      * right. exists (i :: pre), post, vel'. split; [done |]. split; [done |].
        split; [done |]. split; [| done].
        intros j vj [-> | Hj]%elem_of_cons Hvj; [| by apply (Hpre j)].
        rewrite Hvel in Hvj. injection Hvj as <-. by apply (leb_ltb_trans _ vel_ant).
Qed.

Lemma tipo_mas_rapido_ok (highway : list string) :
  Forall (λ j, is_Some (velocidad_de_tabla j)) highway →
  ∀ vel_ant tipo, ∃ r, tipo_mas_rapido highway vel_ant tipo = Ok r.
Proof.
  induction 1 as [|i highway [vel Hvel] _ IH]; intros vel_ant tipo;
    cbn [tipo_mas_rapido]; [by eexists |].
  rewrite py_float_opt_tabla, Hvel. simpl. destruct (vel_ant <? vel)%float; apply IH.
Qed.

Lemma tipo_mas_rapido_raise (highway : list string) :
  ∀ vel_ant tipo,
  Exists (λ j, velocidad_de_tabla j = None) highway →
  tipo_mas_rapido highway vel_ant tipo = Raise TypeError.
Proof.
  induction highway as [|i highway IH]; intros vel_ant tipo Hex;
    [by apply Exists_nil in Hex |].
  cbn [tipo_mas_rapido]. rewrite py_float_opt_tabla.
  destruct (velocidad_de_tabla i) as [vel|] eqn:Hvel; [| done]. simpl.
  apply Exists_cons in Hex as [Hi | Hex]; [congruence |].
  destruct (vel_ant <? vel)%float; by apply IH.
Qed.

Lemma limpia_highway_post (d d1 : DatosOSM) :
  limpia_highway d = Ok d1 →
  o_name d1 = o_name d ∧ o_length d1 = o_length d ∧ o_maxspeed d1 = o_maxspeed d ∧
  (∀ i l, o_highway d1 ≠ Some (VLista (i :: l))).
Proof.
  unfold limpia_highway. destruct (o_highway d) as [[s|x|[|i l]]|] eqn:Hhw;
    try (intros [= <-]; rewrite Hhw; done).
  destruct (tipo_mas_rapido _ _ _); [| done..]. by intros [= <-].
Qed.

Lemma limpia_name_post (d d2 : DatosOSM) :
  limpia_name d = Ok d2 →
  o_highway d2 = o_highway d ∧ o_length d2 = o_length d ∧ o_maxspeed d2 = o_maxspeed d ∧
  (∀ l, o_name d2 ≠ Some (VLista l)).
Proof.
  unfold limpia_name. destruct (o_name d) as [[s|x|[|primero l]]|] eqn:Hname;
    try (intros [= <-]; rewrite Hname; done); try done.
  by intros [= <-].
Qed.

Lemma limpia_maxspeed_post (d d3 : DatosOSM) :
  limpia_maxspeed d = Ok d3 →
  o_name d3 = o_name d ∧ o_length d3 = o_length d ∧ o_highway d3 = o_highway d ∧
  ∃ f, o_maxspeed d3 = Some (VNum f).
Proof.
  unfold limpia_maxspeed. intros Hd.
  repeat (case_match; simplify_eq/=; try done); eauto;
    repeat match goal with
    | H : mbind _ ?r = Ok _ |- _ => destruct r eqn:?; simplify_eq/=
    | H : from_option _ _ ?o ≫= _ = Ok _ |- _ => destruct o eqn:?; simplify_eq/=
    end; eauto 10.
Qed.

(** A clean record is left as it is. *)
Lemma procesa_datos_limpio (d : DatosOSM) : limpio d → procesa_datos d = Ok d.
Proof.
  destruct d as [name len hw ms]. intros ([f Hf] & Hname & Hhw). simpl in *. subst ms.
  assert (∀ l, name ≠ Some (VLista l)) as Hname' by done.
  assert (∀ i l, hw ≠ Some (VLista (i :: l))) as Hhw' by done.
  unfold procesa_datos, limpia_highway, limpia_name, limpia_maxspeed.
  destruct hw as [[s|x|[|i l]]|]; try (by destruct (Hhw' i l));
    destruct name as [[s'|x'|l']|]; try (by destruct (Hname' l')); done.
Qed.

(** What [procesa_datos] returns is clean, and has the length it had. *)
Lemma procesa_datos_post (d d' : DatosOSM) :
  procesa_datos d = Ok d' → limpio d' ∧ o_length d' = o_length d.
Proof.
  unfold procesa_datos. intros Hd.
  destruct (limpia_highway d) as [d1| |] eqn:H1; [| done..]. simpl in Hd.
  destruct (limpia_name d1) as [d2| |] eqn:H2; [| done..]. simpl in Hd.
  apply limpia_highway_post in H1 as (_ & Hl1 & _ & Hh1).
  apply limpia_name_post in H2 as (Hh2 & Hl2 & _ & Hn2).
  apply limpia_maxspeed_post in Hd as (Hn3 & Hl3 & Hh3 & Hf).
  split; [| congruence]. split; [done |].
  split; [intros l; rewrite Hn3; apply Hn2 | intros i l; rewrite Hh3, Hh2; apply Hh1].
Qed.


Lemma tipo_mas_rapido_conocidos (highway : list string) :
  ∀ vel_ant tipo r,
  tipo_mas_rapido highway vel_ant tipo = Ok r →
  Forall (λ j, is_Some (velocidad_de_tabla j)) highway.
Proof.
  induction highway as [|i highway IH]; intros vel_ant tipo r; [done |].
  cbn [tipo_mas_rapido]. rewrite py_float_opt_tabla.
  destruct (velocidad_de_tabla i) as [vel|] eqn:Hvel; [| done]. simpl.
  intros Hr. constructor; [by eexists |].
  destruct (vel_ant <? vel)%float; by eapply IH.
Qed.

(** From [-inf], the class kept over a list that is not empty is one of
    the list. *)
Lemma tipo_mas_rapido_inicial (highway : list string) (r : string) :
  highway ≠ [] →
  tipo_mas_rapido highway neg_infinity "" = Ok r →
  ∃ pre post vel,
    highway = pre ++ r :: post ∧ velocidad_de_tabla r = Some vel ∧
    (∀ j, j ∈ pre → ∃ vj, velocidad_de_tabla j = Some vj ∧ (vj <? vel)%float = true) ∧
    (∀ j, j ∈ post → ∃ vj, velocidad_de_tabla j = Some vj ∧ (vj <=? vel)%float = true).
Proof.
  intros Hne Hr.
  pose proof (tipo_mas_rapido_conocidos _ _ _ _ Hr) as Hcon.
  rewrite Forall_forall in Hcon.
  destruct (tipo_mas_rapido_spec highway neg_infinity "" r eq_refl Hr)
    as [[_ Hle] | (pre & post & vel & -> & Hvel & _ & Hpre & Hpost)].
  - destruct highway as [|i highway]; [done |].
    destruct (Hcon i) as [vi Hvi]; [left |].
    destruct (velocidad_de_tabla_num i vi Hvi) as [_ Hlt].
    assert (i ∈ i :: highway) as Hi by left. specialize (Hle i vi Hi Hvi).
    apply leb_nltb in Hle. congruence.
  - exists pre, post, vel. split; [done |]. split; [done |].
    split; intros j Hj; (destruct (Hcon j) as [vj Hvj]; [set_solver |]);
      exists vj; split; eauto.
Qed.

(** [max] keeps one of the values, and none of them is greater. *)
Lemma py_max_spec (xs : list float) :
  ∀ m, (py_max m xs = m ∨ py_max m xs ∈ xs) ∧
       (py_max m xs <? m)%float = false ∧
       (∀ z, z ∈ xs → (py_max m xs <? z)%float = false) ∧
       (is_nan m = true → py_max m xs = m).
Proof.
  unfold py_max. induction xs as [|y xs IH]; intros m; cbn [foldl].
  - split; [by left |]. split; [apply ltb_irrefl |]. split; [| done].
    by intros z ?%elem_of_nil.
  - destruct (m <? y)%float eqn:Hmy.
    + destruct (IH y) as (Hin & Hy & Hxs & _).
      destruct (ltb_not_nan _ _ Hmy) as [Hm _].
      split; [right; destruct Hin as [-> | Hin]; [left | by right] |].
      split; [| split; [| congruence]].
      * destruct (foldl _ y xs <? m)%float eqn:Hfm; [| done].
        rewrite (ltb_trans _ _ _ Hfm Hmy) in Hy. done.
      * intros z [-> | Hz]%elem_of_cons; [done | by apply Hxs].
    + destruct (IH m) as (Hin & Hm & Hxs & Hnan).
      split; [destruct Hin as [-> | Hin]; [by left | right; by right] |].
      split; [done |]. split; [| done].
      intros z [-> | Hz]%elem_of_cons; [| by apply Hxs].
      destruct (foldl _ m xs <? y)%float eqn:Hfy; [| done].
      destruct (ltb_not_nan _ _ Hfy) as [Hf Hynan].
      destruct (is_nan m) eqn:Hmnan.
      * rewrite (Hnan eq_refl) in Hf. congruence.
      * pose proof (nltb_leb _ _ Hmnan Hf Hm) as Hle.
        rewrite (leb_ltb_trans _ _ _ Hle Hfy) in Hmy. done.
Qed.

Lemma floats_de_omap (vs : list string) (fs : list float) :
  floats_de vs = Ok fs ↔ Forall2 (λ v f, float_of_string v = Some f) vs fs.
Proof.
  revert fs. induction vs as [|v vs IH]; intros fs; cbn [floats_de].
  - split; [intros [= <-]; constructor | by intros ->%Forall2_nil_inv_l].
  - unfold py_float. destruct (float_of_string v) as [f|] eqn:Hv; simpl.
    + destruct (floats_de vs) as [fs'| |] eqn:Hvs; simpl.
      * split; [intros [= <-]; constructor; [done | by apply IH] |].
        intros Hall. inversion Hall as [|? f' ? fs'' Hf Hfs]; subst.
        apply IH in Hfs. congruence.
      * split; [done |]. intros Hall. inversion Hall as [|? f' ? fs'' Hf Hfs]; subst.
        by apply IH in Hfs.
      * split; [done |]. intros Hall. inversion Hall as [|? f' ? fs'' Hf Hfs]; subst.
        by apply IH in Hfs.
    + split; [done |]. intros Hall. inversion Hall as [|? f' ? fs'' Hf Hfs]; subst.
      congruence.
Qed.

Lemma floats_de_raise (vs : list string) :
  Exists (λ v, float_of_string v = None) vs → floats_de vs = Raise ValueError.
Proof.
  induction vs as [|v vs IH]; [by intros ?%Exists_nil |].
  cbn [floats_de]. unfold py_float.
  destruct (float_of_string v) as [f|] eqn:Hv; [| done]. simpl.
  intros [? | Hex]%Exists_cons; [congruence |]. by rewrite (IH Hex).
Qed.

Lemma float_of_string_vacio : float_of_string "" = None.
Proof. reflexivity. Qed.

(** The three steps, when they go through. *)
Lemma limpia_highway_ok (d : DatosOSM) :
  (∀ l, o_highway d = Some (VLista l) →
        Forall (λ j, is_Some (velocidad_de_tabla j)) l) →
  ∃ d1, limpia_highway d = Ok d1 ∧
        o_name d1 = o_name d ∧ o_length d1 = o_length d ∧
        o_maxspeed d1 = o_maxspeed d ∧
        match o_highway d with
        | Some (VLista (i :: l)) =>
            ∃ tipo, tipo_mas_rapido (i :: l) neg_infinity "" = Ok tipo ∧
                    o_highway d1 = Some (VStr tipo)
        | h => o_highway d1 = h
        end.
Proof.
  intros Hcon. unfold limpia_highway.
  destruct (o_highway d) as [[s|x|[|i l]]|] eqn:Hhw;
    try (exists d; rewrite Hhw; done).
  destruct (tipo_mas_rapido_ok (i :: l) (Hcon _ eq_refl) neg_infinity "") as [r Hr].
  rewrite Hr. simpl. eexists. split; [done |]. repeat split. by exists r.
Qed.

Lemma limpia_name_ok (d : DatosOSM) :
  o_name d ≠ Some (VLista []) →
  ∃ d2, limpia_name d = Ok d2 ∧
        o_highway d2 = o_highway d ∧ o_length d2 = o_length d ∧
        o_maxspeed d2 = o_maxspeed d.
Proof.
  intros Hname. unfold limpia_name.
  destruct (o_name d) as [[s|x|[|primero l]]|]; try done; by eexists.
Qed.


Lemma limpia_maxspeed_valor (d : DatosOSM) (h : string) (vh : float) :
  o_highway d = Some (VStr h) → velocidad_de_tabla h = Some vh →
  (∀ l, o_maxspeed d = Some (VLista l) →
        Forall (λ v, is_Some (float_of_string v)) l) →
  ∃ f, limpia_maxspeed d
       = Ok (mkOSM (o_name d) (o_length d) (o_highway d) (Some (VNum f))) ∧
    match o_maxspeed d with
    | Some (VNum x) => f = x
    | Some (VStr s) => f = default vh (float_of_string s)
    | Some (VLista (v :: vs)) =>
        ∃ fs, Forall2 (λ v x, float_of_string v = Some x) (v :: vs) fs ∧
              f ∈ fs ∧ ∀ y, y ∈ fs → (f <? y)%float = false
    | Some (VLista []) | None => f = vh
    end.
Proof.
  intros Hh Hvh Hlista. unfold limpia_maxspeed. rewrite Hh.
  assert (tabla_getitem (Some (VStr h)) ≫= (λ valor, py_float (PStr valor)) = Ok vh)
    as Htabla.
  { unfold velocidad_de_tabla, tabla_getitem, tabla_get in *.
    destruct (assoc h MAX_SPEEDS) as [txt|]; [| done].
    cbn [mbind option_bind res_bind from_option fmap option_fmap option_map
         py_float py_float_opt] in *.
    by rewrite Hvh. }
  assert (tabla_get (Some (VStr h)) ≫= (λ valor, py_float_opt (PStr <$> valor)) = Ok vh)
    as Htabla'.
  { unfold velocidad_de_tabla, tabla_getitem, tabla_get in *.
    destruct (assoc h MAX_SPEEDS) as [txt|]; [| done].
    cbn [mbind option_bind res_bind from_option fmap option_fmap option_map
         py_float py_float_opt] in *.
    by rewrite Hvh. }
  assert (∀ k : float → res DatosOSM,
            tabla_getitem (Some (VStr h)) ≫= (λ valor, py_float (PStr valor) ≫= k)
            = k vh) as Hget.
  { intros k. destruct (tabla_getitem (Some (VStr h))) as [valor| |]; [| done..].
    simpl in *. by rewrite Htabla. }
  assert (∀ k : float → res DatosOSM,
            tabla_get (Some (VStr h)) ≫= (λ valor, py_float_opt (PStr <$> valor) ≫= k)
            = k vh) as Hget'.
  { intros k. destruct (tabla_get (Some (VStr h))) as [valor| |]; [| done..].
    simpl in *. by rewrite Htabla'. }
  destruct (o_maxspeed d) as [[s|x|[|v vs]]|] eqn:Hms.
  - destruct s as [|c s].
    + rewrite Hget. by exists vh.
    + cbn [float_de_valor py_float].
      destruct (float_of_string (String c s)) as [x|]; cbn [from_option default].
      * by exists x.
      * rewrite Hget'. by exists vh.
  - by exists x.
  - rewrite Hget. by exists vh.
  - specialize (Hlista _ eq_refl).
    assert (∃ fs, Forall2 (λ v x, float_of_string v = Some x) (v :: vs) fs)
      as [fs Hfs].
    { clear -Hlista. induction Hlista as [|w ws [x Hx] _ [fs IH]];
        [by exists [] | exists (x :: fs); by constructor]. }
    rewrite (proj2 (floats_de_omap _ _) Hfs).
    destruct fs as [|x xs]; [by apply Forall2_length in Hfs |].
    cbn [mbind res_bind]. exists (py_max x xs). split; [done |].
    exists (x :: xs). split; [done |].
    destruct (py_max_spec xs x) as (Hin & Hx & Hxs & _).
    split; [destruct Hin as [-> | Hin]; [left | by right] |].
    intros y [-> | Hy]%elem_of_cons; [done | by apply Hxs].
  - rewrite Hget. by exists vh.
Qed.

End ProcesaDatos.

(** X9. What [procesa_grafo] leaves on an edge: [maxspeed] is a number,
    [name] is no list and [highway] no list of road classes; [length] is
    as it was, and cleaning the edge again changes nothing. *)
Theorem procesa_datos_limpia (d d' : DatosOSM) :
  procesa_datos d = Ok d' →
  limpio d' ∧ o_length d' = o_length d ∧ procesa_datos d' = Ok d'.
Proof.
  intros Hd. destruct (procesa_datos_post d d' Hd) as [Hlimpio Hlen].
  split; [done |]. split; [done |]. by apply procesa_datos_limpio.
Qed.

(** X10. Of a list of road classes, [procesa_grafo] keeps the one with the
    greatest speed of the table: the classes listed before it are
    slower, those listed after it are not faster. *)
Theorem procesa_datos_tipo_mas_rapido (d d' : DatosOSM) (highway : list string) :
  o_highway d = Some (VLista highway) → highway ≠ [] →
  procesa_datos d = Ok d' →
  ∃ pre tipo post vel,
    highway = pre ++ tipo :: post ∧ o_highway d' = Some (VStr tipo) ∧
    velocidad_de_tabla tipo = Some vel ∧
    (∀ j, j ∈ pre → ∃ vj, velocidad_de_tabla j = Some vj ∧ (vj <? vel)%float = true) ∧
    (∀ j, j ∈ post → ∃ vj, velocidad_de_tabla j = Some vj ∧ (vj <=? vel)%float = true).
Proof.
  intros Hhw Hne Hd. unfold procesa_datos in Hd.
  destruct (limpia_highway d) as [d1| |] eqn:H1; [| done..]. cbn [mbind res_bind] in Hd.
  destruct (limpia_name d1) as [d2| |] eqn:H2; [| done..]. cbn [mbind res_bind] in Hd.
  apply limpia_name_post in H2 as (Hh2 & _).
  apply limpia_maxspeed_post in Hd as (_ & _ & Hh3 & _).
  unfold limpia_highway in H1. rewrite Hhw in H1.
  destruct highway as [|i highway]; [done |].
  destruct (tipo_mas_rapido (i :: highway) neg_infinity "") as [tipo| |] eqn:Htipo;
    [| done..].
  cbn [mbind res_bind] in H1. injection H1 as <-.
  destruct (tipo_mas_rapido_inicial _ _ Hne Htipo)
    as (pre & post & vel & Heq & Hvel & Hpre & Hpost).
  exists pre, tipo, post, vel. split; [done |]. split; [| done].
  by rewrite Hh3, Hh2.
Qed.

(** X11. An edge whose road class is in the table (or is a list of
    classes of the table), whose [name] is no empty list and whose
    [maxspeed], if it is a list, lists numbers, is cleaned without error.
    Its speed is then: the number [maxspeed] was or reads as; the greatest
    of the list; and otherwise (no [maxspeed], a blank one, or a text that
    is no number) the speed of the table for the class kept. *)
Theorem procesa_datos_velocidad (d : DatosOSM) :
  (∃ h, o_highway d = Some (VStr h) ∧ is_Some (velocidad_de_tabla h)) ∨
  (∃ i l, o_highway d = Some (VLista (i :: l)) ∧
          Forall (λ j, is_Some (velocidad_de_tabla j)) (i :: l)) →
  o_name d ≠ Some (VLista []) →
  (∀ l, o_maxspeed d = Some (VLista l) →
        Forall (λ v, is_Some (float_of_string v)) l) →
  ∃ d' h vh f,
    procesa_datos d = Ok d' ∧ o_highway d' = Some (VStr h) ∧
    velocidad_de_tabla h = Some vh ∧ o_maxspeed d' = Some (VNum f) ∧
    match o_maxspeed d with
    | Some (VNum x) => f = x
    | Some (VStr s) => f = default vh (float_of_string s)
    | Some (VLista (v :: vs)) =>
        ∃ fs, Forall2 (λ v x, float_of_string v = Some x) (v :: vs) fs ∧
              f ∈ fs ∧ ∀ y, y ∈ fs → (f <? y)%float = false
    | Some (VLista []) | None => f = vh
    end.
Proof.
  intros Hhw Hname Hms.
  destruct (limpia_highway_ok d) as (d1 & H1 & Hn1 & Hl1 & Hm1 & Hh1).
  { intros l Hl. destruct Hhw as [(h & Hh & _) | (i & l' & Hh & Hall)]; [congruence |].
    rewrite Hl in Hh. by injection Hh as ->. }
  assert (∃ h vh, o_highway d1 = Some (VStr h) ∧ velocidad_de_tabla h = Some vh)
    as (h & vh & Hh & Hvh).
  { destruct Hhw as [(h & Hh & [vh Hvh]) | (i & l & Hh & Hall)]; rewrite Hh in Hh1.
    - by exists h, vh.
    - destruct Hh1 as (tipo & Htipo & Hh1).
      destruct (tipo_mas_rapido_inicial (i :: l) tipo) as (_ & _ & vel & _ & Hvel & _);
        [done..|]. by exists tipo, vel. }
  destruct (limpia_name_ok d1) as (d2 & H2 & Hh2 & Hl2 & Hm2); [by rewrite Hn1 |].
  destruct (limpia_maxspeed_valor d2 h vh) as (f & H3 & Hf).
  { by rewrite Hh2. }
  { done. }
  { intros l Hl. apply Hms. by rewrite <- Hm1, <- Hm2. }
  eexists _, h, vh, f. unfold procesa_datos. rewrite H1. cbn [mbind res_bind].
  rewrite H2. cbn [mbind res_bind]. split; [exact H3 |]. simpl.
  split; [by rewrite Hh2 |]. split; [done |]. split; [done |].
  by rewrite <- Hm1, <- Hm2.
Qed.

(** X12. An edge whose road class is not in the table (or that has none)
    is cleaned only if its [maxspeed] reads as a number.  With no
    [maxspeed], or a blank one, [procesa_grafo] raises [KeyError]; with a
    [maxspeed] that is a text and no number, it raises [TypeError]. *)
Theorem procesa_datos_clase_desconocida (d : DatosOSM) :
  o_highway d = None ∨ (∃ h, o_highway d = Some (VStr h) ∧ assoc h MAX_SPEEDS = None) →
  o_name d ≠ Some (VLista []) →
  (o_maxspeed d = None ∨ o_maxspeed d = Some (VStr "") ∨ o_maxspeed d = Some (VLista []) →
   procesa_datos d = Raise KeyError) ∧
  (∀ s, o_maxspeed d = Some (VStr s) → s ≠ "" → float_of_string s = None →
        procesa_datos d = Raise TypeError) ∧
  (∀ s f, o_maxspeed d = Some (VStr s) → float_of_string s = Some f →
          ∃ d', procesa_datos d = Ok d' ∧ o_maxspeed d' = Some (VNum f)).
Proof.
  intros Hhw Hname.
  assert (limpia_highway d = Ok d) as H1.
  { unfold limpia_highway. by destruct Hhw as [-> | (h & -> & _)]. }
  destruct (limpia_name_ok d Hname) as (d2 & H2 & Hh2 & Hl2 & Hm2).
  assert (tabla_getitem (o_highway d2) = Raise KeyError) as Hget.
  { rewrite Hh2. destruct Hhw as [-> | (h & -> & Hh)]; [done |].
    unfold tabla_getitem. by rewrite Hh. }
  assert (tabla_get (o_highway d2) = Ok None) as Hget'.
  { rewrite Hh2. destruct Hhw as [-> | (h & -> & Hh)]; [done |].
    unfold tabla_get. by rewrite Hh. }
  unfold procesa_datos. rewrite H1. cbn [mbind res_bind]. rewrite H2.
  cbn [mbind res_bind]. unfold limpia_maxspeed. rewrite Hm2, Hget, Hget'.
  split; [| split].
  - by intros [-> | [-> | ->]].
  - intros s -> Hs Hnone. destruct s as [|c s]; [done |].
    cbn [float_de_valor py_float]. by rewrite Hnone.
  - intros s f -> Hf. destruct s as [|c s]; [by rewrite float_of_string_vacio in Hf |].
    cbn [float_de_valor py_float]. rewrite Hf. by eexists.
Qed.

(** X13. The errors of the lists, in the order in which the steps run: a
    list of road classes with a class that is not in the table raises
    [TypeError]; if that step goes through, an empty list of names raises
    [IndexError]; and if both go through, a list of speeds with an entry
    that is no number raises [ValueError]. *)
Theorem procesa_datos_error_de_lista (d : DatosOSM) :
  (∀ l, o_highway d = Some (VLista l) →
        Exists (λ j, velocidad_de_tabla j = None) l →
        procesa_datos d = Raise TypeError) ∧
  ((∀ l, o_highway d = Some (VLista l) →
         Forall (λ j, is_Some (velocidad_de_tabla j)) l) →
   (o_name d = Some (VLista []) → procesa_datos d = Raise IndexError) ∧
   (o_name d ≠ Some (VLista []) →
    ∀ l, o_maxspeed d = Some (VLista l) →
         Exists (λ v, float_of_string v = None) l →
         procesa_datos d = Raise ValueError)).
Proof.
  split.
  - intros l Hl Hex. unfold procesa_datos, limpia_highway. rewrite Hl.
    destruct l as [|i l]; [by apply Exists_nil in Hex |].
    by rewrite (tipo_mas_rapido_raise _ _ _ Hex).
  - intros Hcon.
    destruct (limpia_highway_ok d Hcon) as (d1 & H1 & Hn1 & Hl1 & Hm1 & _).
    unfold procesa_datos. rewrite H1. cbn [mbind res_bind]. split.
    + intros Hname. unfold limpia_name. by rewrite Hn1, Hname.
    + intros Hname l Hl Hex.
      destruct (limpia_name_ok d1) as (d2 & H2 & Hh2 & Hl2 & Hm2); [by rewrite Hn1 |].
      rewrite H2. cbn [mbind res_bind]. unfold limpia_maxspeed.
      rewrite Hm2, Hm1, Hl. destruct l as [|v vs]; [by apply Exists_nil in Hex |].
      by rewrite (floats_de_raise _ Hex).
Qed.

Section ProcesaDigrafo.
Context {K : Type} `{Countable K}.

Lemma mapR_Forall2 {A B} (f : A → res B) (l : list A) (k : list B) :
  mapR f l = Ok k ↔ Forall2 (λ a b, f a = Ok b) l k.
Proof.
  revert k. induction l as [|a l IH]; intros k; cbn [mapR].
  - split; [intros [= <-]; constructor | by intros ->%Forall2_nil_inv_l].
  - destruct (f a) as [b| |] eqn:Ha; cbn [mbind res_bind].
    + destruct (mapR f l) as [bs| |] eqn:Hl; cbn [mbind res_bind].
      * split; [intros [= <-]; constructor; [done | by apply IH] |].
        intros Hall. inversion Hall as [|? b' ? bs' Hb Hbs]; subst.
        apply IH in Hbs. congruence.
      * split; [done |]. intros Hall. inversion Hall as [|? b' ? bs' Hb Hbs]; subst.
        by apply IH in Hbs.
      * split; [done |]. intros Hall. inversion Hall as [|? b' ? bs' Hb Hbs]; subst.
        by apply IH in Hbs.
    + split; [done |]. intros Hall. inversion Hall; subst. congruence.
    + split; [done |]. intros Hall. inversion Hall; subst. congruence.
Qed.

Lemma Forall2_elem_of_r {A B} (P : A → B → Prop) (l : list A) (k : list B) (b : B) :
  Forall2 P l k → b ∈ k → ∃ a, a ∈ l ∧ P a b.
Proof.
  induction 1 as [|a b' l k Hab _ IH]; [by intros ?%elem_of_nil |].
  intros [-> | Hb]%elem_of_cons; [exists a; split; [left | done] |].
  destruct (IH Hb) as (a' & Ha' & HP). exists a'. split; [by right | done].
Qed.

Lemma Forall2_elem_of_l {A B} (P : A → B → Prop) (l : list A) (k : list B) (a : A) :
  Forall2 P l k → a ∈ l → ∃ b, b ∈ k ∧ P a b.
Proof.
  induction 1 as [|a' b l k Hab _ IH]; [by intros ?%elem_of_nil |].
  intros [-> | Ha]%elem_of_cons; [exists b; split; [left | done] |].
  destruct (IH Ha) as (b' & Hb' & HP). exists b'. split; [by right | done].
Qed.

Lemma mapR_id {A} (f : A → res A) (l : list A) :
  Forall (λ a, f a = Ok a) l → mapR f l = Ok l.
Proof.
  intros Hall. apply mapR_Forall2. induction Hall; by constructor.
Qed.

(** The rows of [procesa_digrafo], one by one. *)
Lemma procesa_digrafo_filas (G G' : GrafoOSM K) :
  procesa_digrafo G = Ok G' →
  osm_nodos G' = osm_nodos G ∧
  Forall2 (λ (fila fila' : K * list (K * DatosOSM)),
             fila'.1 = fila.1 ∧
             Forall2 (λ (a a' : K * DatosOSM),
                        a'.1 = a.1 ∧ procesa_datos a.2 = Ok a'.2)
                     (filter (λ a : K * DatosOSM, a.1 ≠ fila.1) fila.2) fila'.2)
          (osm_adj G) (osm_adj G').
Proof.
  unfold procesa_digrafo. destruct (mapR _ _) as [adj| |] eqn:Hadj; [| done..].
  cbn [mbind res_bind]. intros [= <-]. split; [done |]. simpl.
  apply mapR_Forall2 in Hadj. unfold sin_bucles in Hadj.
  apply Forall2_fmap_l in Hadj. eapply Forall2_impl; [exact Hadj |].
  intros [u vecinos] fila'. simpl.
  destruct (mapR _ _) as [aristas| |] eqn:Har; [| done..].
  cbn [mbind res_bind]. intros [= <-]. split; [done |]. simpl.
  apply mapR_Forall2 in Har. eapply Forall2_impl; [exact Har |].
  intros [v d] a'. simpl.
  destruct (procesa_datos d) as [d'| |]; [| done..].
  cbn [mbind res_bind]. by intros [= <-].
Qed.

Lemma procesa_digrafo_arista (G G' : GrafoOSM K) (u v : K) (d' : DatosOSM) :
  procesa_digrafo G = Ok G' → arista_osm G' u v d' →
  u ≠ v ∧ ∃ d, arista_osm G u v d ∧ procesa_datos d = Ok d'.
Proof.
  intros HG (vecinos' & Hu & Hv).
  destruct (procesa_digrafo_filas G G' HG) as [_ Hfilas].
  destruct (Forall2_elem_of_r _ _ _ _ Hfilas Hu) as ([u0 vecinos] & Hfila & Hu0 & Har).
  simpl in *. subst u0.
  destruct (Forall2_elem_of_r _ _ _ _ Har Hv) as ([v0 d] & Ha & Hv0 & Hd).
  simpl in *. subst v0.
  apply list_elem_of_filter in Ha as [Hne Ha]. simpl in Hne.
  split; [done |]. exists d. split; [by exists vecinos | done].
Qed.

Lemma procesa_digrafo_id (G : GrafoOSM K) :
  (∀ u v d, arista_osm G u v d → u ≠ v ∧ limpio d) → procesa_digrafo G = Ok G.
Proof.
  destruct G as [nodos adj]. unfold arista_osm, procesa_digrafo. simpl. intros Hlimpio.
  enough (mapR (λ fila : K * list (K * DatosOSM),
             aristas ← mapR (λ arista : K * DatosOSM,
                               datos ← procesa_datos arista.2;
                               Ok (arista.1, datos)) fila.2;
             Ok (fila.1, aristas)) (sin_bucles adj) = Ok adj) as -> by done.
  apply mapR_Forall2. unfold sin_bucles. apply Forall2_fmap_l.
  apply Forall_Forall2_diag, Forall_forall. intros [u vecinos] Hfila. simpl.
  assert (∀ v d, (v, d) ∈ vecinos → u ≠ v ∧ limpio d) as Hvec by eauto.
  assert (filter (λ arista : K * DatosOSM, arista.1 ≠ u) vecinos = vecinos) as ->.
  { clear Hfila. induction vecinos as [|[v d] vecinos IH]; [done |].
    rewrite filter_cons_True.
    - f_equal. apply IH. intros v' d' Hin. apply Hvec. by right.
    - simpl. intros ->. by destruct (Hvec u d (list_elem_of_here _ _)). }
  rewrite (mapR_id _ vecinos); [done |].
  apply Forall_forall. intros [v d] Hin. simpl.
  destruct (Hvec v d Hin) as [_ Hd]. by rewrite (procesa_datos_limpio d Hd).
Qed.

Lemma mapO_Forall2 {A B} (f : A → option B) (l : list A) (k : list B) :
  mapO f l = Some k → Forall2 (λ a b, f a = Some b) l k.
Proof.
  revert k. induction l as [|a l IH]; intros k; cbn [mapO].
  - intros [= <-]. constructor.
  - destruct (f a) as [b|] eqn:Ha; [| done]. cbn [mbind option_bind].
    destruct (mapO f l) as [bs|]; [| done]. cbn [mbind option_bind].
    intros [= <-]. constructor; [done | by apply IH].
Qed.

(** An edge of the graph the weight functions read is an edge that
    [procesa_grafo] left. *)
Lemma como_grafo_arista (G : GrafoOSM K) (g : Graph K) (u v : K) (datos : EdgeData) :
  como_grafo G = Some g → G_getitem u v g = (Ok datos, g) →
  ∃ d, arista_osm G u v d ∧ arista_limpia d = Some datos.
Proof.
  unfold como_grafo. destruct (mapO _ _) as [adj|] eqn:Hadj; [| done].
  cbn [mbind option_bind]. intros [= <-]. unfold G_getitem. simpl.
  destruct (assoc u adj) as [vecinos'|] eqn:Hu; [| done]. cbn [from_option mbind res_bind].
  destruct (assoc v vecinos') as [datos'|] eqn:Hv; [| done]. cbn [from_option].
  intros [= ->].
  apply assoc_elem_of in Hu, Hv. apply mapO_Forall2 in Hadj.
  destruct (Forall2_elem_of_r _ _ _ _ Hadj Hu) as ([u0 vecinos] & Hfila & Hrow).
  simpl in Hrow. destruct (mapO _ vecinos) as [aristas|] eqn:Har; [| done].
  cbn [mbind option_bind] in Hrow. injection Hrow as -> ->.
  apply mapO_Forall2 in Har.
  destruct (Forall2_elem_of_r _ _ _ _ Har Hv) as ([v0 d] & Ha & Hd).
  simpl in Hd. destruct (arista_limpia d) as [datos'|] eqn:Hlim; [| done].
  cbn [mbind option_bind] in Hd. injection Hd as -> ->.
  exists d. split; [by exists vecinos | done].
Qed.

(** X14. [procesa_grafo] keeps the nodes and the order of the adjacency.
    The edges it returns are those it was given that are no loops, each
    one cleaned; none of them is a loop; and applying it to its own result
    returns that result. *)
Theorem procesa_digrafo_limpio (G G' : GrafoOSM K) :
  procesa_digrafo G = Ok G' →
  osm_nodos G' = osm_nodos G ∧ (osm_adj G').*1 = (osm_adj G).*1 ∧
  (∀ u v d', arista_osm G' u v d' →
     u ≠ v ∧ limpio d' ∧ ∃ d, arista_osm G u v d ∧ procesa_datos d = Ok d') ∧
  (∀ u v d, arista_osm G u v d → u ≠ v →
     ∃ d', arista_osm G' u v d' ∧ procesa_datos d = Ok d') ∧
  procesa_digrafo G' = Ok G'.
Proof.
  intros HG. destruct (procesa_digrafo_filas G G' HG) as [Hnodos Hfilas].
  assert (∀ u v d', arista_osm G' u v d' →
            u ≠ v ∧ limpio d' ∧ ∃ d, arista_osm G u v d ∧ procesa_datos d = Ok d')
    as Hlimpio.
  { intros u v d' Hd'.
    destruct (procesa_digrafo_arista G G' u v d' HG Hd') as (Hne & d & Hd & Hproc).
    split; [done |]. split; [| by exists d].
    by destruct (procesa_datos_post d d' Hproc). }
  split; [done |]. split; [| split; [done | split]].
  - clear -Hfilas. induction Hfilas as [|fila fila' ? ? [Hk _] _ IH]; [done |].
    csimpl. by rewrite Hk, IH.
  - intros u v d (vecinos & Hu & Hv) Hne.
    destruct (Forall2_elem_of_l _ _ _ _ Hfilas Hu) as ([u0 vecinos'] & Hfila' & Hu0 & Har).
    simpl in *. subst u0.
    assert ((v, d) ∈ filter (λ a : K * DatosOSM, a.1 ≠ u) vecinos) as Hin.
    { apply list_elem_of_filter. split; [simpl; congruence | done]. }
    destruct (Forall2_elem_of_l _ _ _ _ Har Hin) as ([v0 d'] & Ha' & Hv0 & Hd).
    simpl in *. subst v0. exists d'. split; [by exists vecinos' | done].
  - apply procesa_digrafo_id. intros u v d' Hd'.
    destruct (Hlimpio u v d' Hd') as (? & ? & _). done.
Qed.

(** X15. On the graph that [procesa_grafo] returns, the speed of an edge
    is the number it left in [maxspeed]: [_velocidad_kmh] answers it, and
    [mas_rapido] divides the length by it (in metres per second); the
    table of road classes is not consulted, and the edge is no loop. *)
Theorem procesa_grafo_velocidad (G G' : GrafoOSM K) (g : Graph K) (u v : K)
    (datos : EdgeData) :
  procesa_digrafo G = Ok G' → como_grafo G' = Some g →
  G_getitem u v g = (Ok datos, g) →
  u ≠ v ∧
  ∃ f, e_maxspeed datos = Some (PFloat f) ∧
       _velocidad_kmh u v g = (Ok f, g) ∧
       ∀ l, py_float_opt (e_length datos) = Ok l →
            mas_rapido u v g = (truediv l (f / 3.6)%float, g).
Proof.
  intros HG Hg Hdatos.
  destruct (como_grafo_arista G' g u v datos Hg Hdatos) as (d' & Hd' & Hlim).
  destruct (procesa_digrafo_arista G G' u v d' HG Hd') as (Hne & d & _ & Hproc).
  destruct (procesa_datos_post d d' Hproc) as [([f Hf] & _) _].
  split; [done |]. exists f.
  assert (e_maxspeed datos = Some (PFloat f)) as Hms.
  { unfold arista_limpia in Hlim. rewrite Hf in Hlim.
    destruct (texto_de (o_name d')); [| done].
    destruct (texto_de (o_highway d')); [| done].
    simpl in Hlim. by injection Hlim as <-. }
  assert (maxspeed_usable datos = Some f) as Hus.
  { unfold maxspeed_usable. by rewrite Hms. }
  assert (_velocidad_kmh u v g = (Ok f, g)) as Hvel.
  { by rewrite (_velocidad_kmh_unfold g u v datos Hdatos), Hus. }
  split; [done |]. split; [done |].
  intros l Hl. by rewrite (mas_rapido_unfold g u v datos l Hdatos Hl), Hvel.
Qed.

End ProcesaDigrafo.

Lemma procesa_datos_limpia_witness :
  limpio datos_fusionados_limpios ∧
  o_length datos_fusionados_limpios = o_length datos_fusionados ∧
  procesa_datos datos_fusionados_limpios = Ok datos_fusionados_limpios.
Proof.
  apply (procesa_datos_limpia datos_fusionados datos_fusionados_limpios).
  vm_compute. reflexivity.
Defined.

Lemma procesa_datos_tipo_mas_rapido_witness :
  ∃ pre tipo post vel,
    ["residential"; "primary"; "secondary"] = pre ++ tipo :: post ∧
    o_highway datos_fusionados_limpios = Some (VStr tipo) ∧
    velocidad_de_tabla tipo = Some vel ∧
    (∀ j, j ∈ pre → ∃ vj, velocidad_de_tabla j = Some vj ∧ (vj <? vel)%float = true) ∧
    (∀ j, j ∈ post → ∃ vj, velocidad_de_tabla j = Some vj ∧ (vj <=? vel)%float = true).
Proof.
  apply (procesa_datos_tipo_mas_rapido datos_fusionados datos_fusionados_limpios).
  - reflexivity.
  - discriminate.
  - vm_compute. reflexivity.
Defined.

Lemma procesa_datos_velocidad_witness :
  ∃ d' h vh f,
    procesa_datos datos_fusionados = Ok d' ∧ o_highway d' = Some (VStr h) ∧
    velocidad_de_tabla h = Some vh ∧ o_maxspeed d' = Some (VNum f) ∧ f = vh.
Proof.
  apply (procesa_datos_velocidad datos_fusionados).
  - right. exists "residential", ["primary"; "secondary"]. split; [reflexivity |].
    repeat constructor; eexists; vm_compute; reflexivity.
  - discriminate.
  - discriminate.
Defined.

Lemma procesa_datos_clase_desconocida_witness :
  procesa_datos (datos_pista None) = Raise KeyError ∧
  procesa_datos (datos_pista (Some (VStr "walk"))) = Raise TypeError ∧
  ∃ d', procesa_datos (datos_pista (Some (VStr "20"))) = Ok d' ∧
        o_maxspeed d' = Some (VNum 20).
Proof.
  assert (∀ ms, o_highway (datos_pista ms) = None ∨
                ∃ h, o_highway (datos_pista ms) = Some (VStr h) ∧
                     assoc h MAX_SPEEDS = None) as Hhw.
  { intros ms. right. exists "track". split; reflexivity. }
  split; [| split].
  - apply (procesa_datos_clase_desconocida (datos_pista None) (Hhw _)).
    + discriminate.
    + left. reflexivity.
  - apply (procesa_datos_clase_desconocida (datos_pista (Some (VStr "walk"))) (Hhw _))
      with (s := "walk").
    + discriminate.
    + reflexivity.
    + discriminate.
    + vm_compute. reflexivity.
  - apply (procesa_datos_clase_desconocida (datos_pista (Some (VStr "20"))) (Hhw _))
      with (s := "20").
    + discriminate.
    + reflexivity.
    + vm_compute. reflexivity.
Defined.

Lemma procesa_datos_error_de_lista_witness :
  procesa_datos (mkOSM (Some (VLista [])) None
                       (Some (VLista ["primary"; "track"])) None)
  = Raise TypeError ∧
  procesa_datos (mkOSM (Some (VLista [])) None
                       (Some (VStr "primary")) (Some (VLista ["30"; "walk"])))
  = Raise IndexError ∧
  procesa_datos (mkOSM None None
                       (Some (VStr "primary")) (Some (VLista ["30"; "walk"])))
  = Raise ValueError.
Proof.
  split; [| split].
  - eapply (proj1 (procesa_datos_error_de_lista _)); [reflexivity |].
    right. left. vm_compute. reflexivity.
  - eapply (proj2 (procesa_datos_error_de_lista _)); [discriminate | reflexivity].
  - eapply (proj2 (procesa_datos_error_de_lista _)); [discriminate | discriminate | reflexivity |].
    right. left. vm_compute. reflexivity.
Defined.

Lemma procesa_digrafo_limpio_witness :
  osm_nodos osm_ida_y_vuelta_limpio = osm_nodos osm_ida_y_vuelta ∧
  (osm_adj osm_ida_y_vuelta_limpio).*1 = (osm_adj osm_ida_y_vuelta).*1 ∧
  (∀ u v d', arista_osm osm_ida_y_vuelta_limpio u v d' →
     u ≠ v ∧ limpio d' ∧
     ∃ d, arista_osm osm_ida_y_vuelta u v d ∧ procesa_datos d = Ok d') ∧
  (∀ u v d, arista_osm osm_ida_y_vuelta u v d → u ≠ v →
     ∃ d', arista_osm osm_ida_y_vuelta_limpio u v d' ∧ procesa_datos d = Ok d') ∧
  procesa_digrafo osm_ida_y_vuelta_limpio = Ok osm_ida_y_vuelta_limpio.
Proof.
  apply (procesa_digrafo_limpio osm_ida_y_vuelta osm_ida_y_vuelta_limpio).
  vm_compute. reflexivity.
Defined.

Lemma procesa_grafo_velocidad_witness :
  "A" ≠ "B" ∧
  ∃ f, Some (PFloat 50) = Some (PFloat f) ∧
       _velocidad_kmh "A" "B" grafo_ida_y_vuelta = (Ok f, grafo_ida_y_vuelta) ∧
       ∀ l, py_float_opt (Some (PFloat 120)) = Ok l →
            mas_rapido "A" "B" grafo_ida_y_vuelta
            = (truediv l (f / 3.6)%float, grafo_ida_y_vuelta).
Proof.
  apply (procesa_grafo_velocidad osm_ida_y_vuelta osm_ida_y_vuelta_limpio
           grafo_ida_y_vuelta "A" "B"
           (mkEdge (Some "Calle Mayor") (Some (PFloat 120)) (Some "primary")
                   (Some (PFloat 50)))).
  - vm_compute. reflexivity.
  - vm_compute. reflexivity.
  - vm_compute. reflexivity.
Defined.

(** ** The addition of binary64 numbers that are not negative *)

Section Redondeo.

(** Rounding at a fixed position is monotone. *)
Lemma redondeo_en_mono (sh n n' : Z) :
  0 ≤ sh → 0 ≤ n ≤ n' →
  let f := λ n, match 2 * (n mod 2 ^ sh) ?= 2 ^ sh with
                | Lt => n / 2 ^ sh
                | Gt => n / 2 ^ sh + 1
                | Eq => if Z.even (n / 2 ^ sh) then n / 2 ^ sh else n / 2 ^ sh + 1
                end in
  f n ≤ f n'.
Proof.
  intros Hsh Hn f. unfold f.
  assert (0 < 2 ^ sh) as Hpos by (apply Z.pow_pos_nonneg; lia).
  pose proof (Z.div_mod n (2 ^ sh) ltac:(lia)) as Hdn.
  pose proof (Z.div_mod n' (2 ^ sh) ltac:(lia)) as Hdn'.
  pose proof (Z.mod_pos_bound n (2 ^ sh) Hpos) as Hrn.
  pose proof (Z.mod_pos_bound n' (2 ^ sh) Hpos) as Hrn'.
  assert (n / 2 ^ sh ≤ n' / 2 ^ sh) as Hq by (apply Z.div_le_mono; lia).
  set (q := n / 2 ^ sh) in *. set (q' := n' / 2 ^ sh) in *.
  set (r := n mod 2 ^ sh) in *. set (r' := n' mod 2 ^ sh) in *.
  destruct (Z.eq_dec q q') as [Heq | Hne].
  - rewrite <- Heq in *. assert (r ≤ r') by nia.
    destruct (Z.compare_spec (2 * r) (2 ^ sh)); destruct (Z.compare_spec (2 * r') (2 ^ sh));
      destruct (Z.even q); lia.
  - assert (q + 1 ≤ q') by lia.
    destruct (Z.compare_spec (2 * r) (2 ^ sh)); destruct (Z.compare_spec (2 * r') (2 ^ sh));
      destruct (Z.even q); destruct (Z.even q'); lia.
Qed.

Lemma redondeo_0 : redondeo 0 = 0.
Proof. reflexivity. Qed.

Lemma redondeo_nonneg (n : Z) : 0 ≤ n → 0 ≤ redondeo n.
Proof.
  intros Hn. unfold redondeo.
  set (sh := Z.max (Z.log2 n + 1 - 53) 0).
  assert (0 < 2 ^ sh) as Hpos by (apply Z.pow_pos_nonneg; lia).
  pose proof (Z.mod_pos_bound n (2 ^ sh) Hpos) as Hr.
  assert (0 ≤ n / 2 ^ sh) as Hq by (apply Z.div_pos; lia).
  apply Z.min_glb; [| apply Z.pow_nonneg; lia].
  apply Z.mul_nonneg_nonneg; [| lia].
  destruct (2 * (n mod 2 ^ sh) ?= 2 ^ sh); [destruct (Z.even _) | |]; lia.
Qed.

(** Rounding is monotone. *)
Lemma redondeo_mono (n n' : Z) : 0 ≤ n ≤ n' → redondeo n ≤ redondeo n'.
Proof.
  intros [Hn Hnn'].
  destruct (Z.eq_dec n 0) as [-> | Hn0];
    [rewrite redondeo_0; apply redondeo_nonneg; lia |].
  unfold redondeo. apply Z.min_le_compat_r.
  pose proof (Z.log2_spec n ltac:(lia)) as [Hlo Hhi].
  pose proof (Z.log2_spec n' ltac:(lia)) as [Hlo' Hhi'].
  pose proof (Z.log2_nonneg n) as HL. pose proof (Z.log2_nonneg n') as HL'.
  assert (Z.log2 n ≤ Z.log2 n') as HLL by (apply Z.log2_le_mono; lia).
  set (L := Z.log2 n) in *. set (L' := Z.log2 n') in *.
  set (sh := Z.max (L + 1 - 53) 0). set (sh' := Z.max (L' + 1 - 53) 0).
  assert (0 ≤ sh ≤ sh') as Hsh by lia.
  assert (0 < 2 ^ sh) as Hpos by (apply Z.pow_pos_nonneg; lia).
  assert (0 < 2 ^ sh') as Hpos' by (apply Z.pow_pos_nonneg; lia).
  destruct (Z.eq_dec sh sh') as [Heq | Hne].
  - rewrite <- Heq. apply Z.mul_le_mono_nonneg_r; [lia |].
    apply (redondeo_en_mono sh n n'); lia.
  - assert (sh' = L' + 1 - 53 ∧ L + 1 ≤ L' ∧ sh ≤ L + 1) as (Hsh' & HLlt & HshL) by lia.
    trans (2 ^ (L + 1)).
    + (* the rounded value of [n] does not exceed the next power of two *)
      pose proof (Z.div_mod n (2 ^ sh) ltac:(lia)) as Hdn.
      pose proof (Z.mod_pos_bound n (2 ^ sh) Hpos) as Hrn.
      set (q := n / 2 ^ sh) in *. set (r := n mod 2 ^ sh) in *.
      assert (2 ^ (L + 1) = 2 ^ (L + 1 - sh) * 2 ^ sh) as Hpow
        by (rewrite <- Z.pow_add_r by lia; f_equal; lia).
      assert (0 < 2 ^ (L + 1 - sh)) by (apply Z.pow_pos_nonneg; lia).
      assert (q + 1 ≤ 2 ^ (L + 1 - sh)) by nia.
      rewrite Hpow. apply Z.mul_le_mono_nonneg_r; [lia |].
      destruct (2 * r ?= 2 ^ sh); [destruct (Z.even q) | |]; lia.
    + (* the rounded value of [n'] is at least its leading power of two *)
      trans (2 ^ L'); [apply Z.pow_le_mono_r; lia |].
      pose proof (Z.div_mod n' (2 ^ sh') ltac:(lia)) as Hdn'.
      pose proof (Z.mod_pos_bound n' (2 ^ sh') Hpos') as Hrn'.
      set (q := n' / 2 ^ sh') in *. set (r := n' mod 2 ^ sh') in *.
      assert (2 ^ L' = 2 ^ (L' - sh') * 2 ^ sh') as Hpow
        by (rewrite <- Z.pow_add_r by lia; f_equal; lia).
      assert (0 < 2 ^ (L' - sh')) by (apply Z.pow_pos_nonneg; lia).
      assert (2 ^ (L' - sh') ≤ q) by nia.
      rewrite Hpow. apply Z.mul_le_mono_nonneg_r; [lia |].
      destruct (2 * r ?= 2 ^ sh'); [destruct (Z.even q) | |]; lia.
Qed.

(** A number of 53 significant bits below [2^2098] is its own rounding. *)
Lemma redondeo_exacto (m e : Z) :
  0 < m < 2 ^ 53 → 0 ≤ e ≤ 2045 → (0 < e → 2 ^ 52 ≤ m) →
  redondeo (m * 2 ^ e) = m * 2 ^ e.
Proof.
  intros Hm He Hnorm. unfold redondeo.
  assert (0 < 2 ^ e) as Hpe by (apply Z.pow_pos_nonneg; lia).
  assert (Z.log2 (m * 2 ^ e) = Z.log2 m + e) as HL.
  { rewrite <- Z.shiftl_mul_pow2 by lia. apply Z.log2_shiftl; lia. }
  rewrite HL.
  pose proof (Z.log2_spec m ltac:(lia)) as [Hlo Hhi].
  assert (Z.log2 m < 53) as Hlt.
  { apply Z.log2_lt_pow2; lia. }
  assert (0 < e → Z.log2 m = 52) as Hn52.
  { intros H0. specialize (Hnorm H0).
    assert (52 ≤ Z.log2 m) by (apply Z.log2_le_pow2; lia). lia. }
  assert (Z.max (Z.log2 m + e + 1 - 53) 0 ≤ e) as Hsh.
  { pose proof (Z.log2_nonneg m). lia. }
  set (sh := Z.max (Z.log2 m + e + 1 - 53) 0) in *.
  assert (0 ≤ sh) as Hsh0 by lia.
  assert (0 < 2 ^ sh) as Hpos by (apply Z.pow_pos_nonneg; lia).
  assert (m * 2 ^ e = (m * 2 ^ (e - sh)) * 2 ^ sh) as Hfac.
  { rewrite <- Z.mul_assoc, <- Z.pow_add_r by lia. do 2 f_equal. lia. }
  assert ((m * 2 ^ e) mod 2 ^ sh = 0) as Hmod by (rewrite Hfac; apply Z.mod_mul; lia).
  assert ((m * 2 ^ e) / 2 ^ sh = m * 2 ^ (e - sh)) as Hdiv
    by (rewrite Hfac; apply Z.div_mul; lia).
  rewrite Hmod, Hdiv.
  replace (2 * 0 ?= 2 ^ sh) with Lt by (symmetry; apply Z.compare_lt_iff; lia).
  rewrite <- Hfac. apply Z.min_l.
  trans (2 ^ 53 * 2 ^ e); [apply Z.mul_le_mono_nonneg_r; lia |].
  rewrite <- Z.pow_add_r by lia. apply Z.pow_le_mono_r; lia.
Qed.

Lemma redondeo_infinito : redondeo (2 ^ 2098) = 2 ^ 2098.
Proof. by vm_compute. Qed.

Lemma redondeo_tope (n : Z) : 2 ^ 2098 ≤ n → redondeo n = 2 ^ 2098.
Proof.
  intros Hn. apply Z.le_antisymm.
  - unfold redondeo. apply Z.le_min_r.
  - rewrite <- redondeo_infinito at 1. apply redondeo_mono. split; [| done].
    apply Z.pow_nonneg. lia.
Qed.

End Redondeo.

Section Desplazamiento.

Lemma iter_pos_nat {A} (f : A → A) (p : positive) (x : A) :
  SpecFloat.iter_pos f p x = Nat.iter (Pos.to_nat p) f x.
Proof.
  revert x. induction p as [p IH | p IH |]; intros x; cbn [SpecFloat.iter_pos].
  - rewrite !IH, Pos2Nat.inj_xI. 
    replace (S (2 * Pos.to_nat p)) with (Pos.to_nat p + (Pos.to_nat p + 1))%nat by lia.
    rewrite !Nat.iter_add. done.
  - rewrite !IH, Pos2Nat.inj_xO.
    replace (2 * Pos.to_nat p)%nat with (Pos.to_nat p + Pos.to_nat p)%nat by lia.
    rewrite Nat.iter_add. done.
  - done.
Qed.

Lemma shr_1_spec (m : Z) (r s : bool) :
  0 ≤ m →
  shr_1 (Build_shr_record m r s) = Build_shr_record (m / 2) (Z.odd m) (r || s).
Proof.
  intros Hm. destruct m as [|p|p]; [done | | lia].
  destruct p as [p | p |]; cbn [shr_1].
  - f_equal. rewrite Pos2Z.inj_xI. apply (Z.div_unique _ 2 _ 1); lia.
  - f_equal. rewrite Pos2Z.inj_xO. apply (Z.div_unique _ 2 _ 0); lia.
  - done.
Qed.

(** [k] shifts to the right of a number without a remainder yet: the
    quotient, the last bit that fell, and whether a bit fell before it. *)
Lemma shr_iter_spec (M : Z) (k : nat) :
  0 ≤ M →
  Nat.iter (S k) shr_1 (Build_shr_record M false false)
  = Build_shr_record (M / 2 ^ Z.of_nat (S k)) (Z.odd (M / 2 ^ Z.of_nat k))
      (negb (M mod 2 ^ Z.of_nat k =? 0)).
Proof.
  intros HM. induction k as [|k IH].
  - cbn [Nat.iter]. rewrite shr_1_spec by done.
    change (2 ^ Z.of_nat 1) with 2. change (2 ^ Z.of_nat 0) with 1.
    by rewrite Z.div_1_r, Z.mod_1_r.
  - rewrite Nat.iter_succ, IH.
    assert (0 < 2 ^ Z.of_nat k) as Hk by (apply Z.pow_pos_nonneg; lia).
    assert (0 < 2 ^ Z.of_nat (S k)) as HSk by (apply Z.pow_pos_nonneg; lia).
    rewrite shr_1_spec by (apply Z.div_pos; lia).
    assert (2 ^ Z.of_nat (S k) = 2 ^ Z.of_nat k * 2) as Hpow.
    { rewrite Nat2Z.inj_succ, Z.pow_succ_r by lia. lia. }
    assert (2 ^ Z.of_nat (S (S k)) = 2 ^ Z.of_nat (S k) * 2) as Hpow'.
    { rewrite (Nat2Z.inj_succ (S k)), Z.pow_succ_r by lia. lia. }
    f_equal.
    + rewrite Hpow', Z.div_div by lia. done.
    + rewrite Hpow, Z.rem_mul_r by lia.
      pose proof (Z.mod_pos_bound M (2 ^ Z.of_nat k) Hk) as Hr.
      rewrite (Zmod_odd (M / 2 ^ Z.of_nat k)).
      destruct (Z.odd (M / 2 ^ Z.of_nat k)); simpl.
      * symmetry. apply negb_true_iff, Z.eqb_neq. lia.
      * f_equal. f_equal. lia.
Qed.

(** The location that [k] shifts leave is the comparison of the remainder
    with the half of the divisor. *)
Lemma shr_iter_loc (M : Z) (k : nat) :
  0 ≤ M →
  let mrs := Nat.iter (S k) shr_1 (Build_shr_record M false false) in
  shr_m mrs = M / 2 ^ Z.of_nat (S k) ∧
  round_nearest_even (shr_m mrs) (loc_of_shr_record mrs)
  = match 2 * (M mod 2 ^ Z.of_nat (S k)) ?= 2 ^ Z.of_nat (S k) with
    | Lt => M / 2 ^ Z.of_nat (S k)
    | Gt => M / 2 ^ Z.of_nat (S k) + 1
    | Eq => if Z.even (M / 2 ^ Z.of_nat (S k)) then M / 2 ^ Z.of_nat (S k)
            else M / 2 ^ Z.of_nat (S k) + 1
    end.
Proof.
  intros HM mrs. unfold mrs. rewrite (shr_iter_spec M k HM). cbn [shr_m].
  split; [done |].
  assert (0 < 2 ^ Z.of_nat k) as Hk by (apply Z.pow_pos_nonneg; lia).
  assert (2 ^ Z.of_nat (S k) = 2 ^ Z.of_nat k * 2) as Hpow.
  { rewrite Nat2Z.inj_succ, Z.pow_succ_r by lia. lia. }
  pose proof (Z.mod_pos_bound M (2 ^ Z.of_nat k) Hk) as Hr.
  assert (M mod 2 ^ Z.of_nat (S k)
          = M mod 2 ^ Z.of_nat k
            + 2 ^ Z.of_nat k * (if Z.odd (M / 2 ^ Z.of_nat k) then 1 else 0)) as Hmod.
  { rewrite Hpow, Z.rem_mul_r by lia. by rewrite Zmod_odd. }
  rewrite Hmod. set (q := M / 2 ^ Z.of_nat (S k)).
  destruct (Z.odd (M / 2 ^ Z.of_nat k));
    destruct (Z.eqb_spec (M mod 2 ^ Z.of_nat k) 0) as [H0 | H0];
    cbn [negb loc_of_shr_record round_nearest_even].
  - rewrite H0. replace (2 * (0 + 2 ^ Z.of_nat k * 1) ?= 2 ^ Z.of_nat (S k)) with Eq;
      [done |]. symmetry. apply Z.compare_eq_iff. lia.
  - replace (2 * (M mod 2 ^ Z.of_nat k + 2 ^ Z.of_nat k * 1) ?= 2 ^ Z.of_nat (S k))
      with Gt; [done |]. symmetry. apply Z.compare_gt_iff. lia.
  - rewrite H0. replace (2 * (0 + 2 ^ Z.of_nat k * 0) ?= 2 ^ Z.of_nat (S k)) with Lt;
      [done |]. symmetry. apply Z.compare_lt_iff. lia.
  - replace (2 * (M mod 2 ^ Z.of_nat k + 2 ^ Z.of_nat k * 0) ?= 2 ^ Z.of_nat (S k))
      with Lt; [done |]. symmetry. apply Z.compare_lt_iff. lia.
Qed.

End Desplazamiento.

Section RedondeoBinario.

Lemma fexp_eq (k : Z) : fexp prec emax k = Z.max (k - 53) (-1074).
Proof. reflexivity. Qed.

Lemma Zdigits2_log2 (M : Z) : 0 < M → Zdigits2 M = Z.log2 M + 1.
Proof.
  intros HM. destruct M as [|p|p]; [lia | | lia]. cbn [Zdigits2].
  pose proof (digits2_pos_spec p) as [Hlo Hhi].
  assert (Z.log2 (Z.pos p) = Z.pos (digits2_pos p) - 1); [| lia].
  apply Z.log2_unique; [lia |].
  replace (Z.succ (Z.pos (digits2_pos p) - 1)) with (Z.pos (digits2_pos p)) by lia.
  split; [exact Hlo | exact Hhi].
Qed.

Lemma shr_fexp_quieto (M e : Z) :
  0 < M → fexp prec emax (Z.log2 M + 1 + e) ≤ e →
  shr_fexp prec emax M e loc_Exact = (Build_shr_record M false false, e).
Proof.
  intros HM HE. unfold shr_fexp, shr. rewrite (Zdigits2_log2 M HM).
  cbn [shr_record_of_loc].
  destruct (fexp prec emax (Z.log2 M + 1 + e) - e) eqn:Hd; [done | lia | done].
Qed.

Lemma shr_fexp_desplaza (M e : Z) :
  0 < M → e < fexp prec emax (Z.log2 M + 1 + e) →
  let E := fexp prec emax (Z.log2 M + 1 + e) in
  ∃ mrs, shr_fexp prec emax M e loc_Exact = (mrs, E) ∧
    shr_m mrs = M / 2 ^ (E - e) ∧
    round_nearest_even (shr_m mrs) (loc_of_shr_record mrs)
    = match 2 * (M mod 2 ^ (E - e)) ?= 2 ^ (E - e) with
      | Lt => M / 2 ^ (E - e)
      | Gt => M / 2 ^ (E - e) + 1
      | Eq => if Z.even (M / 2 ^ (E - e)) then M / 2 ^ (E - e)
              else M / 2 ^ (E - e) + 1
      end.
Proof.
  intros HM HE E. unfold shr_fexp, shr. rewrite (Zdigits2_log2 M HM).
  cbn [shr_record_of_loc]. fold E.
  destruct (E - e) as [|p|p] eqn:Hd; [lia | | lia].
  eexists. split; [f_equal; lia |].
  rewrite iter_pos_nat.
  destruct (Pos.to_nat p) as [|k] eqn:Hk; [lia |].
  replace (Z.pos p) with (Z.of_nat (S k)) by lia.
  apply (shr_iter_loc M k). lia.
Qed.

(** Rounding a positive number [M * 2^e] whose exponent is not above the
    canonical one. *)
Lemma binary_round_aux_unidades (M e : Z) :
  0 < M → -1074 ≤ e → e ≤ fexp prec emax (Z.log2 M + 1 + e) →
  positivo (binary_round_aux prec emax false M e loc_Exact) ∧
  unidades (binary_round_aux prec emax false M e loc_Exact)
  = redondeo (M * 2 ^ (e + 1074)).
Proof.
  intros HM He HE.
  pose proof (Z.log2_spec M HM) as [Hlo Hhi].
  pose proof (Z.log2_nonneg M) as HL.
  assert (0 < 2 ^ (e + 1074)) as Hpe by (apply Z.pow_pos_nonneg; lia).
  assert (Z.log2 (M * 2 ^ (e + 1074)) = Z.log2 M + (e + 1074)) as HLn.
  { rewrite <- Z.shiftl_mul_pow2 by lia. apply Z.log2_shiftl; lia. }
  unfold binary_round_aux.
  destruct (Z.eq_dec e (fexp prec emax (Z.log2 M + 1 + e))) as [Heq | Hne].
  - (* the exponent is the canonical one: nothing is shifted *)
    rewrite (shr_fexp_quieto M e HM) by lia.
    cbn [shr_m loc_of_shr_record round_nearest_even].
    rewrite (shr_fexp_quieto M e HM) by lia. cbn [shr_m].
    rewrite fexp_eq in Heq.
    assert (M < 2 ^ 53) as HM53.
    { eapply Z.lt_le_trans; [exact Hhi |]. apply Z.pow_le_mono_r; lia. }
    assert (-1074 < e → 2 ^ 52 ≤ M) as Hnorm.
    { intros Hgt. etrans; [| exact Hlo]. apply Z.pow_le_mono_r; lia. }
    destruct M as [|m|m]; [lia | | lia].
    change (emax - prec) with 971.
    destruct (Z.leb_spec e 971) as [Hle | Hgt].
    + split; [done |]. cbn [unidades]. symmetry. apply redondeo_exacto; lia.
    + split; [done |]. cbn [unidades]. symmetry. apply redondeo_tope.
      trans (2 ^ 52 * 2 ^ (e + 1074)).
      * rewrite <- Z.pow_add_r by lia. apply Z.pow_le_mono_r; lia.
      * apply Z.mul_le_mono_nonneg_r; [lia | apply Hnorm; lia].
  - (* the mantissa is too long: it is shifted and rounded *)
    destruct (shr_fexp_desplaza M e HM ltac:(lia)) as (mrs & -> & Hm & Hround).
    rewrite Hround. clear Hround Hm mrs.
    set (E := fexp prec emax (Z.log2 M + 1 + e)) in *.
    assert (E = Z.log2 M + 1 + e - 53 ∧ 0 < E - e) as [HEv Hp].
    { unfold E in *. rewrite fexp_eq in *. lia. }
    set (p := E - e) in *.
    assert (0 < 2 ^ p) as Hpp by (apply Z.pow_pos_nonneg; lia).
    assert (Z.log2 M = 52 + p) as HLp by lia.
    assert (2 ^ 52 ≤ M / 2 ^ p < 2 ^ 53) as Hq.
    { split.
      - apply Z.div_le_lower_bound; [lia |]. rewrite Z.mul_comm, <- Z.pow_add_r by lia.
        by rewrite <- HLp.
      - apply Z.div_lt_upper_bound; [lia |]. rewrite <- Z.pow_add_r by lia.
        replace (p + 53) with (Z.succ (Z.log2 M)) by lia. done. }
    pose proof (Z.mod_pos_bound M (2 ^ p) Hpp) as Hr.
    (* the same rounding, in units *)
    assert (redondeo (M * 2 ^ (e + 1074))
            = Z.min (match 2 * (M mod 2 ^ p) ?= 2 ^ p with
                     | Lt => M / 2 ^ p
                     | Gt => M / 2 ^ p + 1
                     | Eq => if Z.even (M / 2 ^ p) then M / 2 ^ p else M / 2 ^ p + 1
                     end * 2 ^ (E + 1074)) (2 ^ 2098)) as Hred.
    { unfold redondeo. rewrite HLn.
      replace (Z.max (Z.log2 M + (e + 1074) + 1 - 53) 0) with (E + 1074) by lia.
      replace (2 ^ (E + 1074)) with (2 ^ p * 2 ^ (e + 1074))
        by (rewrite <- Z.pow_add_r by lia; f_equal; lia).
      rewrite Z.div_mul_cancel_r, Z.mul_mod_distr_r by lia.
      replace (2 * (M mod 2 ^ p * 2 ^ (e + 1074)) ?= 2 ^ p * 2 ^ (e + 1074))
        with (2 * (M mod 2 ^ p) ?= 2 ^ p); [done |].
      destruct (Z.compare_spec (2 * (M mod 2 ^ p)) (2 ^ p)); symmetry;
        [apply Z.compare_eq_iff | apply Z.compare_lt_iff | apply Z.compare_gt_iff]; nia. }
    rewrite Hred. clear Hred.
    set (q' := match 2 * (M mod 2 ^ p) ?= 2 ^ p with
               | Lt => M / 2 ^ p
               | Gt => M / 2 ^ p + 1
               | Eq => if Z.even (M / 2 ^ p) then M / 2 ^ p else M / 2 ^ p + 1
               end).
    assert (2 ^ 52 ≤ q' ≤ 2 ^ 53) as Hq'.
    { unfold q'. destruct (2 * (M mod 2 ^ p) ?= 2 ^ p); [destruct (Z.even _) | |]; lia. }
    assert (0 < q') as Hq0 by lia.
    assert (0 < 2 ^ (E + 1074)) as HpE by (apply Z.pow_pos_nonneg; lia).
    destruct (Z.eq_dec q' (2 ^ 53)) as [Hcarry | Hnc].
    + (* the rounding carried into a new bit *)
      rewrite Hcarry.
      assert (Z.log2 (2 ^ 53) = 53) as HL53 by reflexivity.
      destruct (shr_fexp_desplaza (2 ^ 53) E ltac:(lia)) as (mrs & Hs & Hm & _).
      { rewrite fexp_eq, HL53. lia. }
      rewrite HL53, fexp_eq in Hs.
      replace (Z.max (53 + 1 + E - 53) (-1074)) with (E + 1) in Hs by lia.
      rewrite Hs, Hm. rewrite HL53, fexp_eq.
      replace (Z.max (53 + 1 + E - 53) (-1074) - E) with 1 by lia.
      change (2 ^ 53 / 2 ^ 1) with (Z.pos (Z.to_pos (2 ^ 52))).
      change (emax - prec) with 971.
      destruct (Z.leb_spec (E + 1) 971) as [Hle | Hgt].
      * split; [done |]. cbn [unidades]. rewrite Z.min_l.
        -- change (Z.pos (Z.to_pos (2 ^ 52))) with (2 ^ 52).
           replace (E + 1 + 1074) with (1 + (E + 1074)) by lia.
           rewrite Z.pow_add_r by lia. change (2 ^ 53) with (2 ^ 52 * 2 ^ 1). lia.
        -- change (2 ^ 2098) with (2 ^ 53 * 2 ^ 2045).
           apply Z.mul_le_mono_nonneg_l; [lia |]. apply Z.pow_le_mono_r; lia.
      * split; [done |]. cbn [unidades]. rewrite Z.min_r; [done |].
        change (2 ^ 2098) with (2 ^ 53 * 2 ^ 2045).
        apply Z.mul_le_mono_nonneg_l; [lia |]. apply Z.pow_le_mono_r; lia.
    + assert (Z.log2 q' = 52) as HL52.
      { apply Z.log2_unique; [lia |]. change (2 ^ (52 + 1)) with (2 ^ 53). lia. }
      rewrite (shr_fexp_quieto q' E Hq0) by (rewrite HL52, fexp_eq; lia).
      cbn [shr_m]. destruct q' as [|m|m] eqn:Hqm; [lia | | lia].
      change (emax - prec) with 971.
      destruct (Z.leb_spec E 971) as [Hle | Hgt].
      * split; [done |]. cbn [unidades]. rewrite Z.min_l; [done |].
        trans (2 ^ 53 * 2 ^ (E + 1074)); [apply Z.mul_le_mono_nonneg_r; lia |].
        rewrite <- Z.pow_add_r by lia. apply Z.pow_le_mono_r; lia.
      * split; [done |]. cbn [unidades]. rewrite Z.min_r; [done |].
        trans (2 ^ 52 * 2 ^ (E + 1074)); [| apply Z.mul_le_mono_nonneg_r; lia].
        rewrite <- Z.pow_add_r by lia. apply Z.pow_le_mono_r; lia.
Qed.

End RedondeoBinario.

Section SumaBinaria.
Import FloatOrder.

Lemma Pos_iter_xO (m d : positive) : Z.pos (Pos.iter xO m d) = Z.pos m * 2 ^ Z.pos d.
Proof.
  induction d as [|d IH] using Pos.peano_ind.
  - cbn [Pos.iter]. rewrite Pos2Z.inj_xO. change (2 ^ 1) with 2. lia.
  - rewrite Pos.iter_succ, Pos2Z.inj_xO, IH, Pos2Z.inj_succ, Z.pow_succ_r by lia. lia.
Qed.

Lemma shl_align_spec (m : positive) (e e' : Z) :
  (e' ≤ e → shl_align m e e' = (Z.to_pos (Z.pos m * 2 ^ (e - e')), e')) ∧
  (e ≤ e' → shl_align m e e' = (m, e)).
Proof.
  unfold shl_align. split; intros He.
  - destruct (e' - e) as [|d|d] eqn:Hd; [| lia |].
    + replace e' with e by lia. rewrite Z.sub_diag. simpl. f_equal. lia.
    + f_equal. apply Pos2Z.inj. rewrite Pos_iter_xO, Z2Pos.id.
      * do 2 f_equal. lia.
      * apply Z.mul_pos_pos; [lia | apply Z.pow_pos_nonneg; lia].
  - destruct (e' - e) as [|d|d] eqn:Hd; [done | done | lia].
Qed.

(** Rounding a positive number [M * 2^e]. *)
Lemma binary_round_unidades (M : positive) (e : Z) :
  -1074 ≤ e →
  positivo (binary_round prec emax false M e) ∧
  unidades (binary_round prec emax false M e) = redondeo (Z.pos M * 2 ^ (e + 1074)).
Proof.
  intros He. unfold binary_round.
  change (Z.pos (digits2_pos M)) with (Zdigits2 (Z.pos M)).
  rewrite (Zdigits2_log2 (Z.pos M)) by lia.
  set (E := fexp prec emax (Z.log2 (Z.pos M) + 1 + e)).
  destruct (shl_align_spec M e E) as [Hshl Hno].
  destruct (Z.le_gt_cases e E) as [Hle | Hgt].
  - rewrite (Hno Hle). by apply binary_round_aux_unidades.
  - rewrite (Hshl ltac:(lia)).
    assert (0 < 2 ^ (e - E)) as Hp by (apply Z.pow_pos_nonneg; lia).
    assert (-1074 ≤ E) as HE by (unfold E; rewrite fexp_eq; lia).
    rewrite Z2Pos.id by lia.
    assert (Z.log2 (Z.pos M * 2 ^ (e - E)) = Z.log2 (Z.pos M) + (e - E)) as HL.
    { rewrite <- Z.shiftl_mul_pow2 by lia. apply Z.log2_shiftl; lia. }
    destruct (binary_round_aux_unidades (Z.pos M * 2 ^ (e - E)) E) as [Hpos Hu];
      [lia | done | |].
    { rewrite HL. replace (Z.log2 (Z.pos M) + (e - E) + 1 + E)
        with (Z.log2 (Z.pos M) + 1 + e) by lia. done. }
    split; [done |]. rewrite Hu. f_equal.
    rewrite <- Z.mul_assoc, <- Z.pow_add_r by lia. do 2 f_equal. lia.
Qed.

Lemma unidades_acotadas (x : spec_float) :
  valido_no_negativo x → 0 ≤ unidades x ≤ 2 ^ 2098.
Proof.
  destruct x as [s | [|] | | [|] m e]; cbn [unidades valido_no_negativo];
    try (intros; lia); try (by intros [? _]).
  intros (_ & He & Hm & _).
  assert (0 < 2 ^ (e + 1074)) by (apply Z.pow_pos_nonneg; lia).
  split; [lia |].
  trans (2 ^ 53 * 2 ^ (e + 1074)); [apply Z.mul_le_mono_nonneg_r; lia |].
  rewrite <- Z.pow_add_r by lia. apply Z.pow_le_mono_r; lia.
Qed.

Lemma redondeo_unidades (x : spec_float) :
  valido_no_negativo x → redondeo (unidades x) = unidades x.
Proof.
  destruct x as [s | [|] | | [|] m e]; cbn [unidades valido_no_negativo];
    try done; try (by intros [? _]).
  intros (_ & He & Hm & Hn). apply redondeo_exacto; lia.
Qed.

(** The sum of two numbers that are not negative is the rounding of
    their exact sum. *)
Lemma SFadd_unidades (x y : spec_float) :
  valido_no_negativo x → valido_no_negativo y →
  unidades (SFadd prec emax x y) = redondeo (unidades x + unidades y) ∧
  match SFadd prec emax x y with
  | S754_zero _ => True
  | S754_infinity s | S754_finite s _ _ => s = false
  | S754_nan => False
  end.
Proof.
  intros Hx Hy.
  pose proof (unidades_acotadas x Hx) as Hux.
  pose proof (unidades_acotadas y Hy) as Huy.
  pose proof (redondeo_unidades x Hx) as Hrx.
  pose proof (redondeo_unidades y Hy) as Hry.
  destruct x as [sx | sx | | sx mx ex]; [| | done |];
    (destruct y as [sy | sy | | sy my ey]; [| | done |]);
    cbn [valido_no_negativo] in Hx, Hy.
  - (* 0 + 0 *)
    destruct sx, sy; (split; [by vm_compute | done]).
  - (* 0 + infinity *)
    subst sy. cbn [SFadd unidades]. split; [| done]. symmetry. by apply redondeo_tope.
  - (* 0 + y *)
    destruct Hy as (-> & _). cbn [SFadd]. split; [| done].
    change (unidades (S754_zero sx)) with 0. by rewrite Z.add_0_l.
  - (* infinity + 0 *)
    subst sx. cbn [SFadd unidades]. split; [| done]. symmetry. by apply redondeo_tope.
  - (* infinity + infinity *)
    subst sx sy. cbn [SFadd unidades]. split; [| done]. symmetry.
    apply redondeo_tope. lia.
  - (* infinity + y *)
    subst sx. cbn [SFadd]. split; [| done]. symmetry. apply redondeo_tope.
    change (unidades (S754_infinity false)) with (2 ^ 2098).
    destruct Huy as [H0 _]. clear -H0. lia.
  - (* x + 0 *)
    destruct Hx as (-> & _). cbn [SFadd]. split; [| done].
    change (unidades (S754_zero sy)) with 0. by rewrite Z.add_0_r.
  - (* x + infinity *)
    subst sy. cbn [SFadd]. split; [| done]. symmetry. apply redondeo_tope.
    change (unidades (S754_infinity false)) with (2 ^ 2098).
    destruct Hux as [H0 _]. clear -H0. lia.
  - (* two positive numbers *)
    destruct Hx as (-> & Hex & Hmx & _). destruct Hy as (-> & Hey & Hmy & _).
    cbn [SFadd cond_Zopp].
    assert (Z.min ex ey ≤ ex ∧ Z.min ex ey ≤ ey ∧ -1074 ≤ Z.min ex ey)
      as (Hzx & Hzy & Hz) by lia.
    generalize dependent (Z.min ex ey). intros ez Hzx Hzy Hz.
    destruct (shl_align_spec mx ex ez) as [-> _]; [| lia].
    destruct (shl_align_spec my ey ez) as [-> _]; [| lia].
    cbn [fst].
    assert (0 < 2 ^ (ex - ez)) by (apply Z.pow_pos_nonneg; lia).
    assert (0 < 2 ^ (ey - ez)) by (apply Z.pow_pos_nonneg; lia).
    rewrite !Z2Pos.id by lia.
    destruct (Z.pos mx * 2 ^ (ex - ez) + Z.pos my * 2 ^ (ey - ez)) as [|M|M] eqn:HM;
      [lia | | lia].
    cbn [binary_normalize].
    destruct (binary_round_unidades M ez ltac:(lia)) as [Hpos Hu].
    split.
    + rewrite Hu, <- HM. cbn [unidades]. f_equal.
      rewrite Z.mul_add_distr_r, <- !Z.mul_assoc, <- !Z.pow_add_r by lia.
      do 2 f_equal; f_equal; lia.
    + destruct (binary_round prec emax false M ez) as [? | [|] | | [|] ? ?]; done.
Qed.

End SumaBinaria.

Section SumaFlotante.
Import FloatOrder.

Lemma no_negativo_valido (x : float) :
  no_negativo x ↔ valido_no_negativo (Prim2SF x).
Proof.
  unfold no_negativo. rewrite leb_spec.
  change (Prim2SF 0) with (S754_zero false).
  destruct (Prim2SF x) as [s | s | | s m e] eqn:Hx;
    cbn [valido_no_negativo SFleb SFcompare].
  - done.
  - destruct s; split; done.
  - split; done.
  - pose proof (finito_valido x s m e Hx) as Hv.
    destruct s; split; try done. by intros [? _].
Qed.

(** The order of the floats that are not negative is the order of their
    values. *)
Lemma compara_unidades (x y : float) :
  no_negativo x → no_negativo y →
  compara x y = Some (unidades (Prim2SF x) ?= unidades (Prim2SF y)).
Proof.
  intros Hx Hy. apply no_negativo_valido in Hx, Hy. unfold compara.
  pose proof (unidades_acotadas _ Hx) as Hux.
  pose proof (unidades_acotadas _ Hy) as Huy.
  destruct (Prim2SF x) as [sx | sx | | sx mx ex]; [| | done |];
    (destruct (Prim2SF y) as [sy | sy | | sy my ey]; [| | done |]);
    cbn [valido_no_negativo] in Hx, Hy.
  - done.
  - by subst sy.
  - destruct Hy as (-> & Hey & _). cbn [SFcompare unidades]. f_equal. symmetry.
    apply Z.compare_lt_iff. apply Z.mul_pos_pos; [lia | apply Z.pow_pos_nonneg; lia].
  - by subst sx.
  - by subst sx sy.
  - subst sx. destruct Hy as (-> & Hey & Hmy & _). cbn [SFcompare unidades].
    f_equal. symmetry. apply Z.compare_gt_iff.
    eapply Z.lt_le_trans with (2 ^ 53 * 2 ^ (ey + 1074)).
    + apply Z.mul_lt_mono_pos_r; [apply Z.pow_pos_nonneg; lia | done].
    + rewrite <- Z.pow_add_r by lia. apply Z.pow_le_mono_r; lia.
  - destruct Hx as (-> & Hex & _). cbn [SFcompare unidades]. f_equal. symmetry.
    apply Z.compare_gt_iff. apply Z.mul_pos_pos; [lia | apply Z.pow_pos_nonneg; lia].
  - subst sy. destruct Hx as (-> & Hex & Hmx & _). cbn [SFcompare unidades].
    f_equal. symmetry. apply Z.compare_lt_iff.
    eapply Z.lt_le_trans with (2 ^ 53 * 2 ^ (ex + 1074)).
    + apply Z.mul_lt_mono_pos_r; [apply Z.pow_pos_nonneg; lia | done].
    + rewrite <- Z.pow_add_r by lia. apply Z.pow_le_mono_r; lia.
  - destruct Hx as (-> & Hex & Hmx & Hnx). destruct Hy as (-> & Hey & Hmy & Hny).
    cbn [SFcompare unidades]. f_equal.
    assert (0 < 2 ^ (ex + 1074)) by (apply Z.pow_pos_nonneg; lia).
    assert (0 < 2 ^ (ey + 1074)) by (apply Z.pow_pos_nonneg; lia).
    destruct (Z.compare_spec ex ey) as [-> | Hlt | Hgt].
    + change (PosDef.Pos.compare_cont Eq mx my) with (Z.pos mx ?= Z.pos my).
      destruct (Z.compare_spec (Z.pos mx) (Z.pos my)); symmetry;
        [apply Z.compare_eq_iff | apply Z.compare_lt_iff | apply Z.compare_gt_iff]; nia.
    + symmetry. apply Z.compare_lt_iff.
      eapply Z.lt_le_trans with (2 ^ 53 * 2 ^ (ex + 1074)).
      * apply Z.mul_lt_mono_pos_r; done.
      * trans (2 ^ 52 * 2 ^ (ey + 1074)).
        -- rewrite <- !Z.pow_add_r by lia. apply Z.pow_le_mono_r; lia.
        -- apply Z.mul_le_mono_nonneg_r; [lia | apply Hny; lia].
    + symmetry. apply Z.compare_gt_iff.
      eapply Z.lt_le_trans with (2 ^ 53 * 2 ^ (ey + 1074)).
      * apply Z.mul_lt_mono_pos_r; done.
      * trans (2 ^ 52 * 2 ^ (ex + 1074)).
        -- rewrite <- !Z.pow_add_r by lia. apply Z.pow_le_mono_r; lia.
        -- apply Z.mul_le_mono_nonneg_r; [lia | apply Hnx; lia].
Qed.

Lemma leb_unidades (x y : float) :
  no_negativo x → no_negativo y →
  (x <=? y)%float = true ↔ unidades (Prim2SF x) ≤ unidades (Prim2SF y).
Proof.
  intros Hx Hy. rewrite leb_compara, (compara_unidades x y Hx Hy).
  destruct (Z.compare_spec (unidades (Prim2SF x)) (unidades (Prim2SF y)));
    split; try lia; try (intros [[=] | [=]]); auto.
Qed.

Lemma ltb_unidades (x y : float) :
  no_negativo x → no_negativo y →
  (x <? y)%float = true ↔ unidades (Prim2SF x) < unidades (Prim2SF y).
Proof.
  intros Hx Hy. rewrite ltb_compara, (compara_unidades x y Hx Hy).
  destruct (Z.compare_spec (unidades (Prim2SF x)) (unidades (Prim2SF y)));
    split; try lia; try (intros [=]); auto.
Qed.

(** The sum of two floats that are not negative is not negative, and it
    is the rounding of the exact sum. *)
Lemma suma_unidades (a w : float) :
  no_negativo a → no_negativo w →
  no_negativo (a + w) ∧
  unidades (Prim2SF (a + w))
  = redondeo (unidades (Prim2SF a) + unidades (Prim2SF w)).
Proof.
  intros Ha Hw. apply no_negativo_valido in Ha, Hw.
  destruct (SFadd_unidades _ _ Ha Hw) as [Hu Hs].
  rewrite add_spec. split; [| exact Hu].
  apply no_negativo_valido. rewrite add_spec.
  change SF64add with (SFadd prec emax).
  destruct (SFadd prec emax (Prim2SF a) (Prim2SF w)) as [s | s | | s m e] eqn:Hsum;
    cbn [valido_no_negativo]; try done.
  split; [done |]. rewrite <- add_spec in Hsum.
  exact (finito_valido _ _ _ _ Hsum).
Qed.

(** Adding a float that is not negative does not make a float smaller. *)
Lemma suma_creciente (a w : float) :
  no_negativo a → no_negativo w → (a <=? a + w)%float = true.
Proof.
  intros Ha Hw. destruct (suma_unidades a w Ha Hw) as [Hs Hu].
  apply leb_unidades; [done | done |]. rewrite Hu.
  pose proof (proj1 (no_negativo_valido a) Ha) as Hva.
  pose proof (proj1 (no_negativo_valido w) Hw) as Hvw.
  rewrite <- (redondeo_unidades _ Hva) at 1.
  pose proof (unidades_acotadas _ Hva). pose proof (unidades_acotadas _ Hvw).
  apply redondeo_mono. lia.
Qed.

(** Float addition is monotone on the floats that are not negative. *)
Lemma suma_monotona (a b w : float) :
  no_negativo a → no_negativo b → no_negativo w →
  (a <=? b)%float = true → (a + w <=? b + w)%float = true.
Proof.
  intros Ha Hb Hw Hab.
  destruct (suma_unidades a w Ha Hw) as [Hsa Hua].
  destruct (suma_unidades b w Hb Hw) as [Hsb Hub].
  apply leb_unidades; [done | done |]. rewrite Hua, Hub.
  apply (leb_unidades a b Ha Hb) in Hab.
  pose proof (unidades_acotadas _ (proj1 (no_negativo_valido a) Ha)).
  pose proof (unidades_acotadas _ (proj1 (no_negativo_valido w) Hw)).
  apply redondeo_mono. lia.
Qed.

End SumaFlotante.

(** ** Dijkstra: the lightest paths *)

Section DijkstraNoNegativo.
Context {K : Type} `{Countable K}.
Import FloatOrder.
Variable g : Graph K.
Variable peso : Peso K.
Variable origen : K.
Hypothesis Hbf : bien_formado g.
Hypothesis Hpeso : peso_no_negativo g peso.

Notation W := (peso_en g peso).

Lemma peso_no_negativo_definido : peso_definido g peso.
Proof. intros u v Huv. destruct (Hpeso u v Huv) as (w & Hw & _). by exists w. Qed.

Lemma peso_en_no_negativo (u v : K) :
  adyacente g u v → peso u v g = (Ok (W u v), g) ∧ no_negativo (W u v).
Proof.
  intros Huv. destruct (Hpeso u v Huv) as (w & Hw & Hnn).
  unfold peso_en. by rewrite Hw.
Qed.

Lemma no_negativo_no_nan (x : float) : no_negativo x → is_nan x = false.
Proof. intros Hx. by destruct (leb_not_nan _ _ Hx). Qed.

Lemma no_negativo_refl (x : float) : no_negativo x → (x <=? x)%float = true.
Proof. intros Hx. apply leb_refl. by apply no_negativo_no_nan. Qed.

Lemma no_negativo_0 : no_negativo 0.
Proof. reflexivity. Qed.

Lemma no_negativo_INFTY : no_negativo INFTY.
Proof. reflexivity. Qed.

(** The relaxation of one edge from the node [v] that is being visited. *)
Lemma dijkstra_nn_relax (A : K → K → Prop) (st : DState K) (U : gset K)
    (orden : list K) (v x : K) :
  dijkstra_nn g peso origen A st U orden →
  v ∈ orden → adyacente g v x →
  (∀ y dy dv, y ∈ orden → d_dist st !! y = Some dy → d_dist st !! v = Some dv →
     (dy <=? dv)%float = true) →
  ∃ st',
    dijkstra_relax peso v st x g = (Ok st', g) ∧
    dijkstra_nn g peso origen (λ a b, A a b ∨ (a = v ∧ b = x)) st' U orden ∧
    (∀ y, y ∈ orden → d_dist st' !! y = d_dist st !! y).
Proof.
  intros Hinv Hv Hvx Hmin.
  pose proof Hinv as [Hbase HU Hnd Hord Horig Hran Hcola Hent Hfro Hhe Hrel Harb Hraiz
                        Hcp Hop].
  pose proof Hbase as [Hdp Hdd Hvis Hcol0 Halc Hsp].
  destruct (Hord v Hv) as [HvV Hov].
  assert (x ∈ nodos g) as HxV by (by apply (bf_vecinos g Hbf v x)).
  destruct (dijkstra_relax_spec g peso origen Hbf peso_no_negativo_definido
              st U v x Hbase HvV Hov Hvx) as (st0 & Hst0 & Hbase0 & _).
  destruct (peso_en_no_negativo v x Hvx) as [Hw Hwnn].
  assert (∀ y, y ∈ nodos g → ∃ d, d_dist st !! y = Some d) as Hdist.
  { intros y Hy. apply elem_of_dom. rewrite Hdd. by apply elem_of_list_to_set. }
  destruct (Hdist x HxV) as (dx & Hdx). destruct (Hdist v HvV) as (dv & Hdv).
  destruct (Hran x dx Hdx) as [Hdxnn Hdxle].
  destruct (Hran v dv Hdv) as [Hdvnn Hdvle].
  destruct (suma_unidades dv (W v x) Hdvnn Hwnn) as [Hdnn _].
  pose proof (suma_creciente dv (W v x) Hdvnn Hwnn) as Hcrece.
  set (d := (dv + W v x)%float) in *.
  assert (∀ y, y ∈ orden ↔ y ∈ nodos g ∧ y ∉ U) as HordU.
  { intros y. rewrite HU. split.
    - intros Hy. split; [by apply Hord |]. set_solver.
    - intros [Hy HyU]. destruct (decide (y ∈ orden)) as [|Hno]; [done |].
      destruct HyU. apply elem_of_difference. split; [by apply elem_of_list_to_set |].
      by rewrite elem_of_list_to_set. }
  unfold dijkstra_relax in Hst0 |- *. rewrite (M_bind_ok _ _ _ _ _ Hw) in Hst0 |- *.
  unfold getitem in Hst0 |- *. rewrite Hdx, Hdv in Hst0 |- *.
  rewrite !M_bind_lift in Hst0 |- *.
  cbn [res_bind mbind] in Hst0 |- *. cbv zeta in Hst0 |- *. fold d in Hst0 |- *.
  destruct (d <? dx)%float eqn:Hlt.
  - (* the edge improves the distance of [x] *)
    injection Hst0 as <-. eexists. split; [reflexivity |].
    assert (x ∈ U) as HxU.
    { destruct (decide (x ∈ U)) as [|HxU]; [done |].
      assert (x ∈ orden) as Hxo by (apply HordU; done).
      pose proof (Hmin x dx dv Hxo Hdx Hdv) as Hle.
      pose proof (leb_trans _ _ _ Hle Hcrece) as Hle'.
      apply leb_nltb in Hle'. congruence. }
    assert (x ∉ orden) as Hxno by (rewrite HordU; tauto).
    assert (x ≠ v) as Hxv by (intros ->; done).
    assert (x ≠ origen) as Hxo.
    { intros ->. rewrite Horig in Hdx. injection Hdx as <-.
      pose proof (leb_nltb _ _ Hdnn). congruence. }
    assert ((d <? INFTY)%float = true) as HdI by (by apply (ltb_leb_trans _ dx)).
    split.
    + constructor; cbn [d_padre d_dist d_visitado d_contador d_Q].
      * done.
      * done.
      * done.
      * done.
      * by rewrite lookup_insert_ne.
      * intros y dy. destruct (decide (y = x)) as [-> | Hne].
        -- rewrite lookup_insert_eq. intros [= <-]. split; [done | by apply ltb_leb].
        -- rewrite lookup_insert_ne by done. apply Hran.
      * intros c n y [Hy | [= -> -> ->]%list_elem_of_singleton]%elem_of_app.
        -- destruct (Hcola c n y Hy) as (dy & Hdy & Hle).
           destruct (decide (y = x)) as [-> | Hne].
           ++ rewrite lookup_insert_eq. exists d. split; [done |].
              rewrite Hdx in Hdy. injection Hdy as <-.
              apply ltb_leb. by apply (ltb_leb_trans _ dx).
           ++ rewrite lookup_insert_ne by done. by exists dy.
        -- rewrite lookup_insert_eq. exists d. split; [done |].
           by apply no_negativo_refl.
      * intros y dy Hy. destruct (decide (y = x)) as [-> | Hne].
        -- rewrite lookup_insert_eq. intros [= <-] _. exists (d_contador st).
           apply elem_of_app. right. left.
        -- rewrite lookup_insert_ne by done. intros Hdy HdyI.
           destruct (Hent y dy Hy Hdy HdyI) as [n Hn]. exists n.
           apply elem_of_app. by left.
      * intros a y da dy Ha Hy.
        rewrite lookup_insert_ne by (intros ->; done). intros Hda.
        destruct (decide (y = x)) as [-> | Hne].
        -- rewrite lookup_insert_eq. intros [= <-].
           apply (leb_trans _ dv); [exact (Hmin a da dv Ha Hda Hdv) | done].
        -- rewrite lookup_insert_ne by done. intros Hdy.
           exact (Hfro a y da dy Ha Hy Hda Hdy).
      * intros a b [Hab | [-> ->]]; [by apply Hhe | done].
      * intros a b [Hab | [-> ->]].
        -- destruct (Hhe a b Hab) as [Hao _].
           destruct (Hrel a b Hab) as (da & db & Hda & Hdb & Hle).
           exists da. rewrite lookup_insert_ne by (intros ->; done).
           destruct (decide (b = x)) as [-> | Hne].
           ++ exists d. rewrite lookup_insert_eq. split; [done |]. split; [done |].
              rewrite Hdx in Hdb. injection Hdb as <-.
              apply ltb_leb. by apply (ltb_leb_trans _ dx).
           ++ exists db. by rewrite lookup_insert_ne.
        -- exists dv, d. rewrite lookup_insert_ne by done. rewrite lookup_insert_eq.
           split; [done |]. split; [done |]. by apply no_negativo_refl.
      * intros y p. destruct (decide (y = x)) as [-> | Hne].
        -- rewrite lookup_insert_eq. intros [= <-].
           split; [done |]. split; [done |]. split; [done |].
           exists dv. rewrite lookup_insert_ne by done. rewrite lookup_insert_eq. done.
        -- rewrite lookup_insert_ne by done. intros Hp.
           destruct (Harb y p Hp) as (Hyo & Hpo & Hprev & dp & Hdp' & Hdy & HI).
           split; [done |]. split; [done |]. split; [done |].
           assert (x ≠ p) as Hxp by (intros ->; done).
           exists dp. rewrite (lookup_insert_ne _ x p) by done.
           rewrite (lookup_insert_ne _ x y) by done. done.
      * intros y Hyo. destruct (decide (y = x)) as [-> | Hne].
        -- by rewrite lookup_insert_eq.
        -- rewrite (lookup_insert_ne (d_padre st)) by done.
           rewrite (lookup_insert_ne (d_dist st)) by done. by apply Hraiz.
      * intros c n y Hin Hyo. destruct (decide (y = x)) as [-> | Hne].
        -- exists v. by rewrite lookup_insert_eq.
        -- rewrite lookup_insert_ne by done.
           apply elem_of_app in Hin as [Hin | [= -> -> ->]%list_elem_of_singleton];
             [by apply (Hcp c n y) | done].
      * intros y Hy Hyo. rewrite lookup_insert_ne by (intros ->; done).
        by apply Hop.
    + intros y Hy. cbn [d_dist]. rewrite lookup_insert_ne by (intros ->; done). done.
  - (* the edge does not improve it *)
    injection Hst0 as <-. exists st. split; [reflexivity |].
    split; [| done].
    constructor; try done.
    + intros a b [Hab | [-> ->]]; [by apply Hhe | done].
    + intros a b [Hab | [-> ->]]; [by apply Hrel |].
      exists dv, dx. split; [done |]. split; [done |].
      apply nltb_leb; [by apply no_negativo_no_nan.. | done].
Qed.

Lemma dijkstra_nn_ext (A A' : K → K → Prop) (st : DState K) (U : gset K)
    (orden : list K) :
  (∀ a b, A' a b → A a b) →
  dijkstra_nn g peso origen A st U orden → dijkstra_nn g peso origen A' st U orden.
Proof.
  intros HA [Hbase HU Hnd Hord Horig Hran Hcola Hent Hfro Hhe Hrel Harb Hraiz Hcp Hop].
  constructor; try done.
  - intros a b Hab. by apply Hhe, HA.
  - intros a b Hab. by apply Hrel, HA.
Qed.

(** The relaxation of the edges that leave the node [v]. *)
Lemma dijkstra_nn_relax_all (A : K → K → Prop) (U : gset K) (orden : list K)
    (v : K) (vecinos : list K) :
  ∀ (hechos : list K) (st : DState K),
  dijkstra_nn g peso origen (λ a b, A a b ∨ (a = v ∧ b ∈ hechos)) st U orden →
  v ∈ orden → (∀ x, x ∈ vecinos → adyacente g v x) →
  (∀ y dy dv, y ∈ orden → d_dist st !! y = Some dy → d_dist st !! v = Some dv →
     (dy <=? dv)%float = true) →
  ∃ st',
    foldM (dijkstra_relax peso v) vecinos st g = (Ok st', g) ∧
    dijkstra_nn g peso origen (λ a b, A a b ∨ (a = v ∧ b ∈ hechos ++ vecinos))
      st' U orden.
Proof.
  induction vecinos as [|x vecinos IH]; intros hechos st Hinv Hv Hadj Hmin; simpl.
  - exists st. split; [done |]. by rewrite app_nil_r.
  - destruct (dijkstra_nn_relax _ st U orden v x Hinv Hv) as (st1 & Hst1 & Hinv1 & Hsame);
      [apply Hadj; left | done |].
    destruct (IH (hechos ++ [x]) st1) as (st2 & Hst2 & Hinv2).
    + eapply dijkstra_nn_ext; [| exact Hinv1]. simpl.
      intros a b [Hab | [-> Hb]]; [by left; left |].
      apply elem_of_app in Hb as [Hb | ->%list_elem_of_singleton];
        [left; right; done | right; done].
    + done.
    + intros y Hy. apply Hadj. by right.
    + intros y dy dv Hy. rewrite (Hsame y Hy), (Hsame v Hv). by apply Hmin.
    + exists st2. rewrite (M_bind_ok _ _ _ _ _ Hst1). split; [done |].
      by rewrite <- app_assoc in Hinv2.
Qed.

(** An entry of the queue whose node has been visited is dropped. *)
Lemma dijkstra_nn_descartar (st : DState K) (U : gset K) (orden : list K)
    c n v Q' :
  dijkstra_nn g peso origen (relajadas g orden) st U orden →
  (c, n, v) :: Q' ≡ₚ d_Q st → v ∉ U →
  dijkstra_nn g peso origen (relajadas g orden)
    (mkDState (d_padre st) (d_dist st) (d_visitado st) (d_contador st) Q') U orden.
Proof.
  intros [Hbase HU Hnd Hord Horig Hran Hcola Hent Hfro Hhe Hrel Harb Hraiz Hcp Hop]
    Hperm HvU.
  pose proof Hbase as [Hdp Hdd Hvis Hcol0 Halc Hsp].
  constructor; cbn [d_padre d_dist d_visitado d_contador d_Q]; try done.
  - constructor; cbn [d_padre d_dist d_visitado d_contador d_Q]; try done.
    intros c' n' x Hin. apply (Hcol0 c' n' x). rewrite <- Hperm. by right.
  - intros c' n' y Hin. apply (Hcola c' n' y). rewrite <- Hperm. by right.
  - intros y dy Hy Hdy HI. destruct (Hent y dy Hy Hdy HI) as [n' Hn'].
    exists n'. rewrite <- Hperm in Hn'.
    apply elem_of_cons in Hn' as [[= -> -> ->] | Hn']; [done | done].
  - intros c' n' y Hin. apply (Hcp c' n' y). rewrite <- Hperm. by right.
Qed.

(** The visit of the node of the least entry of the queue. *)
Lemma dijkstra_nn_visitar (st : DState K) (U : gset K) (orden : list K)
    c n v Q' :
  dijkstra_nn g peso origen (relajadas g orden) st U orden →
  (c, n, v) :: Q' ≡ₚ d_Q st →
  Forall (λ e : entry K, (c <=? e.1.1)%float = true) Q' →
  v ∈ U →
  dijkstra_nn g peso origen (λ a b, relajadas g orden a b ∨ (a = v ∧ b ∈ []))
    (mkDState (d_padre st) (d_dist st) (<[v := true]> (d_visitado st))
       (d_contador st) Q')
    (U ∖ {[v]}) (orden ++ [v]) ∧
  (∀ y dy dv, y ∈ orden ++ [v] → d_dist st !! y = Some dy →
     d_dist st !! v = Some dv → (dy <=? dv)%float = true).
Proof.
  intros [Hbase HU Hnd Hord Horig Hran Hcola Hent Hfro Hhe Hrel Harb Hraiz Hcp Hop]
    Hperm Hleast HvU.
  pose proof Hbase as [Hdp Hdd Hvis Hcol0 Halc Hsp].
  destruct (Hcol0 c n v) as [HvV Hov]; [rewrite <- Hperm; left |].
  assert (v ∉ orden) as Hvno by (rewrite HU in HvU; set_solver).
  destruct (Hcola c n v) as (dv & Hdv & Hdvc); [rewrite <- Hperm; left |].
  rewrite Forall_forall in Hleast.
  split.
  - constructor; cbn [d_padre d_dist d_visitado d_contador d_Q].
    + constructor; cbn [d_padre d_dist d_visitado d_contador d_Q]; try done.
      * intros x Hx. destruct (decide (x = v)) as [-> | Hne].
        -- rewrite lookup_insert_eq. f_equal. symmetry. apply bool_decide_eq_true.
           set_solver.
        -- rewrite lookup_insert_ne by done. rewrite (Hvis x Hx). f_equal.
           apply bool_decide_ext. set_solver.
      * intros c' n' x Hin. apply (Hcol0 c' n' x). rewrite <- Hperm. by right.
    + rewrite HU, list_to_set_app_L. set_solver.
    + apply NoDup_app. split; [done |]. split; [| apply NoDup_singleton].
      intros x Hx ->%list_elem_of_singleton. done.
    + intros x [Hx | ->%list_elem_of_singleton]%elem_of_app; [by apply Hord | done].
    + done.
    + done.
    + intros c' n' y Hin. apply (Hcola c' n' y). rewrite <- Hperm. by right.
    + intros y dy [Hy Hyv%not_elem_of_singleton]%elem_of_difference Hdy HI.
      destruct (Hent y dy Hy Hdy HI) as [n' Hn']. exists n'.
      rewrite <- Hperm in Hn'.
      apply elem_of_cons in Hn' as [[= -> -> ->] | Hn']; [done | done].
    + intros x y dx dy Hx [Hy Hyv%not_elem_of_singleton]%elem_of_difference Hdx Hdy.
      apply elem_of_app in Hx as [Hx | ->%list_elem_of_singleton];
        [exact (Hfro x y dx dy Hx Hy Hdx Hdy) |].
      rewrite Hdv in Hdx. injection Hdx as <-.
      destruct (Hran y dy Hdy) as [Hdynn HdyI].
      destruct (Hran v dv Hdv) as [Hdvnn HdvI].
      destruct (dy <? INFTY)%float eqn:Hlt.
      * destruct (Hent y dy Hy Hdy Hlt) as [n' Hn'].
        rewrite <- Hperm in Hn'.
        apply elem_of_cons in Hn' as [[= -> -> ->] | Hn']; [done |].
        apply (leb_trans _ c); [done |]. exact (Hleast _ Hn').
      * apply (leb_trans _ INFTY); [done |].
        apply nltb_leb; [reflexivity | by apply no_negativo_no_nan | done].
    + intros a b [[Ha Hab] | [_ Hb]]; [| by apply elem_of_nil in Hb].
      split; [apply elem_of_app; by left | done].
    + intros a b [Hab | [_ Hb]]; [by apply Hrel | by apply elem_of_nil in Hb].
    + intros x p Hp.
      destruct (Harb x p Hp) as (Hxo & Hpo & Hprev & dp & Hdp' & Hdx & HI).
      split; [done |]. split; [apply elem_of_app; by left |]. split; [| by exists dp].
      intros [Hx | ->%list_elem_of_singleton]%elem_of_app.
      * rewrite previos_app_l by done. by apply Hprev.
      * by rewrite previos_snoc_self.
    + done.
    + intros c' n' y Hin. apply (Hcp c' n' y). rewrite <- Hperm. by right.
    + intros x [Hx | ->%list_elem_of_singleton]%elem_of_app Hxo; [by apply Hop |].
      apply (Hcp c n v); [rewrite <- Hperm; left | done].
  - intros y dy dv' [Hy | ->%list_elem_of_singleton]%elem_of_app Hdy Hdv'.
    + exact (Hfro y v dy dv' Hy HvU Hdy Hdv').
    + rewrite Hdy in Hdv'. injection Hdv' as <-.
      destruct (Hran v dy Hdy) as [Hnn _]. by apply no_negativo_refl.
Qed.

(** [while Q] keeps the invariant; when it ends the queue is empty. *)
Lemma dijkstra_nn_loop (fuel : nat) :
  ∀ (st st' : DState K) (U : gset K) (orden : list K),
  dijkstra_nn g peso origen (relajadas g orden) st U orden →
  dijkstra_loop fuel peso st g = (Ok st', g) →
  ∃ U' orden',
    dijkstra_nn g peso origen (relajadas g orden') st' U' orden' ∧ d_Q st' = [].
Proof.
  induction fuel as [|fuel IH]; intros st st' U orden Hinv Hloop; [done |].
  cbn [dijkstra_loop] in Hloop.
  destruct (heappop (d_Q st)) as [[[[c n] v] Q']|] eqn:Hpop.
  2:{ injection Hloop as <-. exists U, orden. split; [done |].
      unfold heappop in Hpop. by destruct (d_Q st). }
  pose proof Hinv as [Hbase HU Hnd Hord Horig Hran Hcola Hent Hfro Hhe Hrel Harb Hraiz
                        Hcp Hop].
  pose proof Hbase as [Hdp Hdd Hvis Hcol0 Halc Hsp].
  assert ((c, n, v) :: Q' ≡ₚ d_Q st ∧
          Forall (λ e : entry K, (c <=? e.1.1)%float = true) Q') as [Hperm Hleast].
  { unfold heappop in Hpop. destruct (d_Q st) as [|e q] eqn:HQ; [done |].
    injection Hpop as Hpop. split; [by apply pop_min_perm in Hpop |].
    apply (pop_min_least _ _ _ _ Hpop).
    apply Forall_forall. intros [[c' n'] y] Hin.
    destruct (Hcola c' n' y Hin) as (dy & _ & Hle). simpl.
    by destruct (leb_not_nan _ _ Hle). }
  destruct (Hcol0 c n v) as [HvV Hov]; [rewrite <- Hperm; left |].
  rewrite M_bind_lift in Hloop. unfold getitem in Hloop.
  rewrite (Hvis v HvV) in Hloop. cbn [res_bind mbind] in Hloop.
  case_bool_decide as HvU; cbn [negb] in Hloop.
  - refine (IH _ st' U orden _ Hloop).
    by apply (dijkstra_nn_descartar st U orden c n v Q').
  - pose proof HvU as HvU'.
    destruct (dijkstra_nn_visitar st U orden c n v Q' Hinv Hperm Hleast HvU')
      as [Hinv1 Hmin].
    destruct (G_neighbors_spec g Hbf v HvV) as (vecinos & Hvec & Hadj & _).
    cbv zeta in Hloop. rewrite (M_bind_ok _ _ _ _ _ Hvec) in Hloop.
    destruct (dijkstra_nn_relax_all _ _ _ v vecinos [] _ Hinv1)
      as (st2 & Hst2 & Hinv2).
    { apply elem_of_app. right. left. }
    { intros x Hx. by apply Hadj. }
    { done. }
    rewrite (M_bind_ok _ _ _ _ _ Hst2) in Hloop.
    refine (IH _ st' (U ∖ {[v]}) (orden ++ [v]) _ Hloop).
    eapply dijkstra_nn_ext; [| exact Hinv2]. simpl.
    intros a b [Ha Hab]. apply elem_of_app in Ha as [Ha | ->%list_elem_of_singleton].
    + left. by split.
    + right. split; [done |]. by apply Hadj.
Qed.

Lemma dijkstra_tabs_valores (nodes : list K) (x : K) :
  x ∈ nodes →
  d_padre (dijkstra_tabs nodes) !! x = Some None ∧
  d_dist (dijkstra_tabs nodes) !! x = Some INFTY.
Proof.
  unfold dijkstra_tabs.
  induction nodes as [|y l IHl] using rev_ind; [by intros ?%elem_of_nil |].
  intros Hx. rewrite foldl_app. simpl.
  destruct (decide (x = y)) as [-> | Hne]; [by rewrite !lookup_insert_eq |].
  rewrite !lookup_insert_ne by done. apply IHl.
  by apply elem_of_app in Hx as [Hx | Hx%list_elem_of_singleton].
Qed.

Lemma dijkstra_nn_init :
  origen ∈ nodos g →
  dijkstra_nn g peso origen (relajadas g []) (dijkstra_init (nodos g) origen)
    (list_to_set (nodos g)) [].
Proof.
  intros Ho. destruct (dijkstra_tabs_dom (nodos g)) as (Hdp & Hdd & Hdv).
  assert (∀ x, d_padre (dijkstra_tabs (nodos g)) !! x = None ∨
               (x ∈ nodos g ∧ d_padre (dijkstra_tabs (nodos g)) !! x = Some None ∧
                d_dist (dijkstra_tabs (nodos g)) !! x = Some INFTY)) as Htabs.
  { intros x. destruct (decide (x ∈ nodos g)) as [Hx | Hx].
    - right. split; [done |]. by apply dijkstra_tabs_valores.
    - left. apply not_elem_of_dom. rewrite Hdp. by rewrite elem_of_list_to_set. }
  assert (∀ x d, d_dist (dijkstra_tabs (nodos g)) !! x = Some d → d = INFTY) as Hdist.
  { intros x d Hd. destruct (decide (x ∈ nodos g)) as [Hx | Hx].
    - destruct (dijkstra_tabs_valores (nodos g) x Hx) as [_ Hd']. congruence.
    - apply elem_of_dom_2 in Hd. rewrite Hdd in Hd. by apply elem_of_list_to_set in Hd. }
  constructor; cbn [dijkstra_init d_padre d_dist d_visitado d_contador d_Q].
  - exact (dijkstra_init_inv g peso origen Hbf peso_no_negativo_definido Ho).
  - set_solver.
  - constructor.
  - by intros x ?%elem_of_nil.
  - by rewrite lookup_insert_eq.
  - intros x d. destruct (decide (x = origen)) as [-> | Hne].
    + rewrite lookup_insert_eq. by intros [= <-].
    + rewrite lookup_insert_ne by done. intros Hd. by rewrite (Hdist x d Hd).
  - intros c n y [= -> -> ->]%list_elem_of_singleton.
    exists 0%float. by rewrite lookup_insert_eq.
  - intros y dy Hy. destruct (decide (y = origen)) as [-> | Hne].
    + rewrite lookup_insert_eq. intros [= <-] _. exists 0%nat. left.
    + rewrite lookup_insert_ne by done. intros Hd. by rewrite (Hdist y dy Hd).
  - by intros x y dx dy ?%elem_of_nil.
  - by intros a b [?%elem_of_nil _].
  - by intros a b [?%elem_of_nil _].
  - intros x p Hp. destruct (Htabs x) as [Hn | (_ & Hn & _)]; congruence.
  - intros x Hxo Hp. rewrite lookup_insert_ne by done.
    destruct (Htabs x) as [Hn | (_ & _ & Hd)]; [congruence | done].
  - by intros c n y [= -> -> ->]%list_elem_of_singleton.
  - by intros x ?%elem_of_nil.
Qed.

(** The run of [dijkstra] when no weight is negative. *)
Lemma dijkstra_nn_run :
  origen ∈ nodos g →
  ∃ (st : DState K) (U : gset K) (orden : list K),
    dijkstra peso origen g = (Ok (delete origen (d_padre st)), g) ∧
    dijkstra_nn g peso origen (relajadas g orden) st U orden ∧ d_Q st = [].
Proof.
  intros Ho.
  destruct (dijkstra_loop_spec g peso origen Hbf peso_no_negativo_definido
              (2 + adj_size g) (dijkstra_init (nodos g) origen)
              (list_to_set (nodos g))
              (dijkstra_init_inv g peso origen Hbf peso_no_negativo_definido Ho))
    as (st & U0 & Hloop & _); [done | |].
  { simpl. rewrite (pendiente_total g Hbf). lia. }
  destruct (dijkstra_nn_loop _ _ _ _ _ (dijkstra_nn_init Ho) Hloop)
    as (U & orden & Hinv & HQ).
  exists st, U, orden. split; [| done].
  unfold dijkstra. rewrite (M_bind_ok G_nodes _ g (nodos g) g) by done.
  rewrite (M_bind_ok (budget _) _ g (2 + adj_size g)%nat g) by done.
  by rewrite (M_bind_ok _ _ _ _ _ Hloop).
Qed.

Lemma peso_desde_snoc (resto : list K) :
  ∀ (acc : float) (u y x : K),
  last (u :: resto) = Some y →
  peso_desde g peso acc u (resto ++ [x])
  = (peso_desde g peso acc u resto + W y x)%float.
Proof.
  induction resto as [|v resto IH]; intros acc u y x Hy.
  - simpl in Hy. by injection Hy as <-.
  - cbn [app peso_desde]. apply IH. by rewrite last_cons_cons in Hy.
Qed.

Lemma peso_camino_snoc (P : list K) (y x : K) :
  last P = Some y →
  peso_camino g peso (P ++ [x]) = (peso_camino g peso P + W y x)%float.
Proof.
  destruct P as [|u resto]; [done |]. intros Hy. by apply peso_desde_snoc.
Qed.

(** A path that ends with an edge: the path to the start of the edge,
    and the edge. *)
Lemma es_camino_snoc (o x y : K) (P : list K) :
  last P = Some y → es_camino g o x (P ++ [x]) →
  es_camino g o y P ∧ adyacente g y x.
Proof.
  intros Hy (Hhead & _ & Hedges).
  assert (P ≠ []) as Hne by (by intros ->).
  split; [split; [| split] |].
  - destruct P; [done | by simpl in *].
  - done.
  - intros i u v Hu Hv. apply (Hedges i);
      by apply lookup_app_l_Some.
  - rewrite last_lookup in Hy.
    apply (Hedges (pred (length P))).
    + by apply lookup_app_l_Some.
    + replace (S (pred (length P))) with (length P + 0)%nat
        by (destruct P; [done | simpl; lia]).
      by rewrite lookup_app_r, Nat.add_comm, Nat.add_sub by lia.
Qed.

Lemma es_camino_extender (o x y : K) (P : list K) :
  es_camino g o y P → adyacente g y x → es_camino g o x (P ++ [x]).
Proof.
  intros (Hhead & Hlast & Hedges) Hyx.
  assert (P ≠ []) as Hne by (by intros ->).
  split; [| split].
  - destruct P; [done | by simpl in *].
  - by rewrite last_snoc.
  - intros i u v Hu Hv.
    destruct (decide (S i < length P)%nat) as [Hlt | Hge].
    + apply (Hedges i).
      * rewrite lookup_app_l in Hu by lia. done.
      * rewrite lookup_app_l in Hv by lia. done.
    + assert (S i = length P) as Hi.
      { apply lookup_lt_Some in Hv. rewrite length_app in Hv. simpl in Hv. lia. }
      rewrite lookup_app_l in Hu by lia.
      rewrite Hi, lookup_app_r, Nat.sub_diag in Hv by lia. injection Hv as <-.
      rewrite last_lookup in Hlast.
      replace (pred (length P)) with i in Hlast by lia.
      rewrite Hu in Hlast. injection Hlast as ->. done.
Qed.

Section Final.
Variable st : DState K.
Variable U : gset K.
Variable orden : list K.
Hypothesis Hinv : dijkstra_nn g peso origen (relajadas g orden) st U orden.
Hypothesis HQ : d_Q st = [].

Lemma dn_dist_definida (x : K) : x ∈ nodos g ↔ is_Some (d_dist st !! x).
Proof.
  rewrite <- elem_of_dom, (di_dist _ _ _ _ (dn_base _ _ _ _ _ _ _ Hinv)).
  by rewrite elem_of_list_to_set.
Qed.

Lemma dn_orden_U (x : K) : x ∈ orden ↔ x ∈ nodos g ∧ x ∉ U.
Proof.
  rewrite (dn_U _ _ _ _ _ _ _ Hinv). split.
  - intros Hx. split; [by apply (dn_orden _ _ _ _ _ _ _ Hinv) | set_solver].
  - intros [Hx HxU]. destruct (decide (x ∈ orden)) as [|Hno]; [done |].
    destruct HxU. apply elem_of_difference. split; [by apply elem_of_list_to_set |].
    by rewrite elem_of_list_to_set.
Qed.

(** When the loop has ended, every node with a distance below [INFTY]
    has been visited. *)
Lemma dn_finito_visitado (x : K) (dx : float) :
  d_dist st !! x = Some dx → (dx <? INFTY)%float = true → x ∈ orden.
Proof.
  intros Hdx Hlt. apply dn_orden_U.
  split; [apply dn_dist_definida; by eexists |].
  intros HxU. destruct (dn_entrada _ _ _ _ _ _ _ Hinv x dx HxU Hdx Hlt) as [n Hn].
  rewrite HQ in Hn. by apply elem_of_nil in Hn.
Qed.

(** No path is lighter than the distance of its end. *)
Lemma dn_optimo (P : list K) :
  ∀ x, es_camino g origen x P →
  no_negativo (peso_camino g peso P) ∧
  ∃ dx, d_dist st !! x = Some dx ∧ (dx <=? peso_camino g peso P)%float = true.
Proof.
  induction P as [|z P IH] using rev_ind; intros x HP.
  { by destruct HP as ([=] & _). }
  assert (z = x) as ->.
  { destruct HP as (_ & Hlast & _). rewrite last_snoc in Hlast. by injection Hlast. }
  destruct (last P) as [y|] eqn:Hy.
  2:{ apply last_None in Hy as ->. destruct HP as ([= ->] & _).
      split; [exact no_negativo_0 |]. exists 0%float.
      split; [exact (dn_origen _ _ _ _ _ _ _ Hinv) | done]. }
  destruct (es_camino_snoc origen x y P Hy HP) as [HPy Hyx].
  destruct (IH y HPy) as (Hnn & dy & Hdy & Hle).
  destruct (peso_en_no_negativo y x Hyx) as [_ Hwnn].
  rewrite (peso_camino_snoc P y x Hy).
  destruct (suma_unidades _ _ Hnn Hwnn) as [Hsnn _].
  split; [done |].
  assert (x ∈ nodos g) as HxV by (by apply (bf_vecinos g Hbf y x)).
  destruct (proj1 (dn_dist_definida x) HxV) as [dx Hdx].
  exists dx. split; [done |].
  destruct (dn_rango _ _ _ _ _ _ _ Hinv x dx Hdx) as [Hdxnn HdxI].
  destruct (dn_rango _ _ _ _ _ _ _ Hinv y dy Hdy) as [Hdynn HdyI].
  destruct (dy <? INFTY)%float eqn:Hlt.
  - (* the start of the edge has been visited: the edge has been relaxed *)
    pose proof (dn_finito_visitado y dy Hdy Hlt) as Hyo.
    destruct (dn_relajada _ _ _ _ _ _ _ Hinv y x) as (dy' & dx' & Hdy' & Hdx' & Hrel);
      [by split |].
    rewrite Hdy in Hdy'. injection Hdy' as <-.
    rewrite Hdx in Hdx'. injection Hdx' as <-.
    apply (leb_trans _ _ _ Hrel). by apply suma_monotona.
  - (* its distance is [INFTY] *)
    apply (leb_trans _ INFTY); [done |].
    apply (leb_trans _ dy).
    + apply nltb_leb; [reflexivity | by apply no_negativo_no_nan | done].
    + apply (leb_trans _ _ _ Hle). by apply suma_creciente.
Qed.

(** The branch of a visited node: a path of the graph from the origin,
    through nodes visited before it, whose weight is its distance. *)
Lemma dn_rama (n : nat) :
  ∀ x, x ∈ orden → (length (previos orden x) ≤ n)%nat →
  ∃ C dx,
    rama (delete origen (d_padre st)) origen x C ∧ es_camino g origen x C ∧
    d_dist st !! x = Some dx ∧ peso_camino g peso C = dx ∧
    (∀ y, y ∈ C → y = x ∨ y ∈ previos orden x) ∧ NoDup C.
Proof.
  induction n as [|n IH]; intros x Hx Hn.
  all: destruct (decide (x = origen)) as [-> | Hxo];
    [exists [origen], 0%float; split; [constructor |];
     split; [split; [done | split; [done |]];
             intros [|i] u v Hu Hv; simpl in *; done |];
     split; [exact (dn_origen _ _ _ _ _ _ _ Hinv) |]; split; [done |];
     split; [by intros y ->%list_elem_of_singleton; left | apply NoDup_singleton] |].
  all: destruct (dn_orden_padre _ _ _ _ _ _ _ Hinv x Hx Hxo) as [p Hp];
    destruct (dn_arbol _ _ _ _ _ _ _ Hinv x p Hp)
      as (_ & Hpo & Hprev & dp & Hdp & Hdx & HI);
    specialize (Hprev Hx); pose proof (previos_lt orden p x Hprev) as Hlt.
  - lia.
  - destruct (IH p Hpo ltac:(lia)) as (C & dp' & Hrama & HC & Hdp' & HW & Hmem & HndC).
    rewrite Hdp in Hdp'. injection Hdp' as <-.
    destruct (di_alcanzable _ _ _ _ (dn_base _ _ _ _ _ _ _ Hinv) x p Hp) as [_ Hpx].
    exists (C ++ [x]), (dp + W p x)%float.
    split; [apply (rama_hijo _ _ x p C); [done | by rewrite lookup_delete_ne | done] |].
    split; [by apply (es_camino_extender origen x p) |].
    split; [done |].
    split; [destruct HC as (_ & Hlast & _); by rewrite (peso_camino_snoc C p x Hlast), HW |].
    split.
    + intros y [Hy | ->%list_elem_of_singleton]%elem_of_app; [| by left].
      right. destruct (Hmem y Hy) as [-> | Hyp]; [done |].
      by apply (previos_trans orden y p x).
    + apply NoDup_app. split; [done |]. split; [| apply NoDup_singleton].
      intros y Hy ->%list_elem_of_singleton.
      apply (previos_self orden x).
      destruct (Hmem x Hy) as [-> | Hyp]; [done |].
      by apply (previos_trans orden x p x).
Qed.

End Final.

Lemma rama_last (padres : gmap K (option K)) (o x : K) (C : list K) :
  rama padres o x C → ∃ C0, C = C0 ++ [x].
Proof. intros [|y p C' _ _ _]; [by exists [] | by exists C']. Qed.

(** The loop of [camino_minimo] climbs the branch of its node. *)
Lemma camino_minimo_loop_rama (padres : gmap K (option K)) (o x : K) (C : list K) :
  rama padres o x C →
  ∀ (C0 acc : list K) (fuel : nat),
  C = C0 ++ [x] → (length C ≤ fuel)%nat →
  camino_minimo_loop fuel padres o x acc = Ok (C0 ++ reverse acc).
Proof.
  induction 1 as [|x p C Hxo Hp Hrama IH]; intros C0 acc fuel HC Hfuel.
  - destruct C0 as [|? [|? ?]]; [| done | done].
    destruct fuel as [|fuel]; [simpl in Hfuel; lia |].
    cbn [camino_minimo_loop]. by rewrite decide_True.
  - apply app_inj_tail in HC as [<- _].
    destruct fuel as [|fuel]; [rewrite length_app in Hfuel; simpl in Hfuel; lia |].
    cbn [camino_minimo_loop]. rewrite decide_False by done. rewrite Hp.
    destruct (rama_last _ _ _ _ Hrama) as [C1 HC1].
    rewrite (IH C1 (acc ++ [p]) fuel HC1).
    + rewrite reverse_app. simpl. rewrite HC1, <- app_assoc. done.
    + rewrite length_app in Hfuel. simpl in Hfuel. lia.
Qed.

(** What [dijkstra] returns when no weight is negative: for every node
    but the origin, either no path to it weighs less than [INFTY] and its
    parent is [None], or its branch is a lightest path to it. *)
Lemma dijkstra_nn_resultado :
  origen ∈ nodos g →
  ∃ padre : gmap K (option K),
    dijkstra peso origen g = (Ok padre, g) ∧
    dom padre = list_to_set (nodos g) ∖ {[origen]} ∧
    ∀ x, x ∈ nodos g → x ≠ origen →
      (padre !! x = Some None ∧
       ∀ P, es_camino g origen x P → (peso_camino g peso P <? INFTY)%float = false) ∨
      (∃ p C, padre !! x = Some (Some p) ∧ rama padre origen x C ∧
         es_camino g origen x C ∧ NoDup C ∧ (length C ≤ length (nodos g))%nat ∧
         (peso_camino g peso C <? INFTY)%float = true ∧
         ∀ P, es_camino g origen x P →
           (peso_camino g peso C <=? peso_camino g peso P)%float = true).
Proof.
  intros Ho. destruct (dijkstra_nn_run Ho) as (st & U & orden & Hdij & Hinv & HQ).
  exists (delete origen (d_padre st)). split; [done |].
  pose proof (dn_base _ _ _ _ _ _ _ Hinv) as Hbase.
  split; [by rewrite dom_delete_L, (di_padre _ _ _ _ Hbase) |].
  intros x Hx Hxo. rewrite lookup_delete_ne by done.
  destruct (di_sin_padre _ _ _ _ Hbase x Hx) as [[p|] Hp].
  - right.
    destruct (dn_arbol _ _ _ _ _ _ _ Hinv x p Hp)
      as (_ & Hpo & _ & dp & Hdp & Hdx & HI).
    pose proof (dn_finito_visitado st U orden Hinv HQ x _ Hdx HI) as Hxord.
    destruct (dn_rama st U orden Hinv (length (previos orden x)) x Hxord ltac:(lia))
      as (C & dx & Hrama & HC & Hdx' & HW & Hmem & HndC).
    rewrite Hdx in Hdx'. injection Hdx' as <-.
    exists p, C. split; [done |]. split; [done |]. split; [done |]. split; [done |].
    split; [| split].
    + apply submseteq_length, NoDup_submseteq; [done |].
      intros y Hy. apply (dn_orden _ _ _ _ _ _ _ Hinv).
      destruct (Hmem y Hy) as [-> | Hyp]; [done | by apply (previos_elem_of orden x)].
    + by rewrite HW.
    + intros P HP. destruct (dn_optimo st U orden Hinv HQ P x HP) as (_ & dx & Hdx' & Hle).
      rewrite Hdx in Hdx'. injection Hdx' as <-. by rewrite HW.
  - left. split; [done |]. intros P HP.
    destruct (dn_optimo st U orden Hinv HQ P x HP) as (_ & dx & Hdx & Hle).
    rewrite (dn_raiz _ _ _ _ _ _ _ Hinv x Hxo Hp) in Hdx. injection Hdx as <-.
    by apply leb_nltb.
Qed.

End DijkstraNoNegativo.

Section CaminoMinimoOptimo.
Context {K : Type} `{Countable K}.

(** X16.  [dijkstra] computes a tree of lightest paths.  On a well-formed
    graph whose weight function gives, on every edge, a number that is
    not negative, and for an origin that is a node of the graph,
    [dijkstra] returns a dictionary in which every other node [x] is
    either bound to [None], and then every path from the origin to [x]
    weighs [INFTY] or more; or bound to a parent, and then following the
    parents from [x] leads to the origin along a path of the graph
    without repeated nodes that weighs less than [INFTY] and no more than
    any path from the origin to [x].  The weight of a path is the sum of
    the weights of its edges, added from the origin on with the
    floating-point addition that [dijkstra] uses. *)
Theorem dijkstra_arbol_minimo (g : Graph K) (peso : Peso K) (origen : K) :
  bien_formado g → peso_no_negativo g peso → origen ∈ nodos g →
  ∃ padre : gmap K (option K),
    dijkstra peso origen g = (Ok padre, g) ∧
    ∀ x, x ∈ nodos g → x ≠ origen →
      (padre !! x = Some None ∧
       ∀ P, es_camino g origen x P → (peso_camino g peso P <? INFTY)%float = false) ∨
      (∃ p C, padre !! x = Some (Some p) ∧ rama padre origen x C ∧
         es_camino g origen x C ∧ NoDup C ∧
         (peso_camino g peso C <? INFTY)%float = true ∧
         ∀ P, es_camino g origen x P →
           (peso_camino g peso C <=? peso_camino g peso P)%float = true).
Proof.
  intros Hbf Hpeso Ho.
  destruct (dijkstra_nn_resultado g peso origen Hbf Hpeso Ho) as (padre & Hdij & _ & Hx).
  exists padre. split; [done |]. intros x HxV Hxo.
  destruct (Hx x HxV Hxo) as [Hnone | (p & C & Hp & Hrama & HC & Hnd & _ & HI & Hopt)];
    [by left |].
  right. by exists p, C.
Qed.

(** X17.  [camino_minimo] returns a lightest path.  Under the same
    hypotheses, for a destination that is a node of the graph and differs
    from the origin: if some path from the origin to the destination
    weighs less than [INFTY], [camino_minimo] returns a path of the graph
    from the origin to the destination, without repeated nodes, that
    weighs no more than any other; if no path does, it raises
    [KeyError]. *)
Theorem camino_minimo_optimo (g : Graph K) (peso : Peso K) (origen destino : K) :
  bien_formado g → peso_no_negativo g peso →
  origen ∈ nodos g → destino ∈ nodos g → origen ≠ destino →
  (camino_minimo peso origen destino g = (Raise KeyError, g) ∧
   ∀ P, es_camino g origen destino P →
     (peso_camino g peso P <? INFTY)%float = false) ∨
  (∃ C, camino_minimo peso origen destino g = (Ok C, g) ∧
     es_camino g origen destino C ∧ NoDup C ∧
     (peso_camino g peso C <? INFTY)%float = true ∧
     ∀ P, es_camino g origen destino P →
       (peso_camino g peso C <=? peso_camino g peso P)%float = true).
Proof.
  intros Hbf Hpeso Ho Hd Hod.
  destruct (dijkstra_nn_resultado g peso origen Hbf Hpeso Ho)
    as (padre & Hdij & Hdom & Hx).
  destruct (Hx destino Hd (not_eq_sym Hod))
    as [[Hnone Hinf] | (p & C & Hp & Hrama & HC & Hnd & Hlen & HI & Hopt)].
  - left. split; [| done]. by apply (camino_minimo_sin_padre peso origen destino g g padre).
  - right. exists C. split; [| done].
    unfold camino_minimo. rewrite decide_False by done.
    rewrite (M_bind_ok _ _ _ _ _ Hdij).
    rewrite decide_False by (by rewrite Hp). unfold lift.
    destruct (rama_last _ _ _ _ Hrama) as [C0 HC0].
    rewrite (camino_minimo_loop_rama padre origen destino C Hrama C0 [destino]
               (2 + size padre) HC0); [by rewrite HC0 |].
    assert (size padre = pred (length (nodos g))) as ->.
    { rewrite <- (size_dom (D := gset K) padre), Hdom.
      rewrite size_difference by (apply singleton_subseteq_l; by apply elem_of_list_to_set).
      rewrite size_singleton, size_list_to_set by apply (bf_nodos g Hbf). lia. }
    lia.
Qed.

End CaminoMinimoOptimo.

Lemma grafo_islas_no_negativo : peso_no_negativo grafo_islas mas_corto.
Proof.
  intros u v Huv%grafo_islas_adyacente.
  repeat (apply elem_of_cons in Huv as [[= -> ->] | Huv];
          [eexists; split; reflexivity |]).
  by apply elem_of_nil in Huv.
Qed.

Lemma dijkstra_arbol_minimo_witness :
  ∃ padre : gmap string (option string),
    dijkstra mas_corto "A" grafo_islas = (Ok padre, grafo_islas) ∧
    ∀ x, x ∈ nodos grafo_islas → x ≠ "A" →
      (padre !! x = Some None ∧
       ∀ P, es_camino grafo_islas "A" x P →
         (peso_camino grafo_islas mas_corto P <? INFTY)%float = false) ∨
      (∃ p C, padre !! x = Some (Some p) ∧ rama padre "A" x C ∧
         es_camino grafo_islas "A" x C ∧ NoDup C ∧
         (peso_camino grafo_islas mas_corto C <? INFTY)%float = true ∧
         ∀ P, es_camino grafo_islas "A" x P →
           (peso_camino grafo_islas mas_corto C
            <=? peso_camino grafo_islas mas_corto P)%float = true).
Proof.
  apply (dijkstra_arbol_minimo grafo_islas mas_corto "A" grafo_islas_bien_formado
           grafo_islas_no_negativo).
  rewrite grafo_islas_nodos. left.
Defined.

(** From A to C the street A-C (3) is taken: the way round B weighs 3 as
    well, and is found later. *)
Lemma camino_minimo_optimo_witness :
  camino_minimo mas_corto "A" "C" grafo_islas = (Ok ["A"; "C"], grafo_islas) ∧
  ∀ P, es_camino grafo_islas "A" "C" P →
    (peso_camino grafo_islas mas_corto ["A"; "C"]
     <=? peso_camino grafo_islas mas_corto P)%float = true.
Proof.
  assert (camino_minimo mas_corto "A" "C" grafo_islas = (Ok ["A"; "C"], grafo_islas))
    as Heval by (vm_compute; reflexivity).
  destruct (camino_minimo_optimo grafo_islas mas_corto "A" "C" grafo_islas_bien_formado
              grafo_islas_no_negativo)
    as [[Hraise _] | (C & Hcam & _ & _ & _ & Hopt)].
  - rewrite grafo_islas_nodos. left.
  - rewrite grafo_islas_nodos. right. right. left.
  - done.
  - rewrite Heval in Hraise. discriminate Hraise.
  - rewrite Heval in Hcam. injection Hcam as <-. split; [reflexivity | exact Hopt].
Defined.

(** ** The weight functions: weights that are not negative *)

Section SignoDelCociente.
Import FloatOrder.

Lemma shr_1_no_negativo (mrs : shr_record) : 0 ≤ shr_m mrs → 0 ≤ shr_m (shr_1 mrs).
Proof.
  destruct mrs as [m r s]. cbn [shr_m]. intros Hm.
  rewrite shr_1_spec by done. cbn [shr_m]. apply Z.div_pos; lia.
Qed.

Lemma shr_no_negativo (mrs : shr_record) (e n : Z) :
  0 ≤ shr_m mrs → 0 ≤ shr_m (shr mrs e n).1.
Proof.
  intros Hm. unfold shr. destruct n as [|p|p]; [done | | done].
  cbn [fst]. rewrite iter_pos_nat.
  induction (Pos.to_nat p) as [|k IH]; [done |].
  cbn [Nat.iter]. by apply shr_1_no_negativo.
Qed.

Lemma shr_fexp_no_negativo (m e : Z) (l : location) :
  0 ≤ m → 0 ≤ shr_m (shr_fexp prec emax m e l).1.
Proof.
  intros Hm. unfold shr_fexp. apply shr_no_negativo. by destruct l as [|[| |]].
Qed.

(** Rounding a mantissa that is not negative gives no NaN and no
    negative number. *)
Lemma binary_round_aux_signo (m e : Z) (l : location) :
  0 ≤ m →
  match binary_round_aux prec emax false m e l with
  | S754_zero _ => True
  | S754_infinity s | S754_finite s _ _ => s = false
  | S754_nan => False
  end.
Proof.
  intros Hm. unfold binary_round_aux.
  pose proof (shr_fexp_no_negativo m e l Hm) as H1.
  destruct (shr_fexp prec emax m e l) as [mrs' e'] eqn:Hs1. cbn [fst] in H1.
  assert (0 ≤ round_nearest_even (shr_m mrs') (loc_of_shr_record mrs')) as H2.
  { unfold round_nearest_even.
    destruct (loc_of_shr_record mrs') as [|[| |]]; [done | | done | lia].
    destruct (Z.even _); lia. }
  pose proof (shr_fexp_no_negativo _ e' loc_Exact H2) as H3.
  destruct (shr_fexp prec emax _ e' loc_Exact) as [mrs'' e''] eqn:Hs2. cbn [fst] in H3.
  destruct (shr_m mrs'') as [|p|p]; [done | | lia].
  by destruct (e'' <=? emax - prec).
Qed.

(** The quotient of a number that is not negative nor infinite by a
    positive number is not negative. *)
Lemma cociente_no_negativo (l v : float) :
  no_negativo l → (l <? infinity)%float = true → (0 <? v)%float = true →
  no_negativo (l / v).
Proof.
  intros Hl Hfin Hv. apply no_negativo_valido in Hl.
  rewrite ltb_spec in Hfin, Hv.
  change (Prim2SF infinity) with (S754_infinity false) in Hfin.
  change (Prim2SF 0) with (S754_zero false) in Hv.
  apply no_negativo_valido.
  assert (match Prim2SF (l / v) with
          | S754_zero _ => True
          | S754_infinity s | S754_finite s _ _ => s = false
          | S754_nan => False
          end) as Hsigno.
  { rewrite div_spec. change SF64div with (SFdiv prec emax).
    destruct (Prim2SF l) as [sl | sl | | sl ml el];
      cbn [valido_no_negativo SFltb SFcompare] in Hl, Hfin.
    - destruct (Prim2SF v) as [sv | [|] | | [|] mv ev];
        cbn [SFltb SFcompare] in Hv; cbn [SFdiv]; done.
    - subst sl. done.
    - done.
    - destruct Hl as [-> _].
      destruct (Prim2SF v) as [sv | [|] | | [|] mv ev];
        cbn [SFltb SFcompare] in Hv; cbn [SFdiv xorb]; try done.
      destruct (SFdiv_core_binary prec emax (Z.pos ml) el (Z.pos mv) ev)
        as [[mz ez] lz] eqn:Hcore.
      apply binary_round_aux_signo.
      unfold SFdiv_core_binary in Hcore.
      set (s := _ - _ - _) in Hcore.
      set (m' := match s with Z.pos _ => _ | Z0 => _ | Z.neg _ => _ end) in Hcore.
      assert (0 ≤ m') as Hm'.
      { unfold m'. destruct s; [lia | | lia]. apply Z.shiftl_nonneg. lia. }
      pose proof (Z_div_mod m' (Z.pos mv) ltac:(lia)) as Hdm.
      destruct (Z.div_eucl m' (Z.pos mv)) as [q r]. injection Hcore as <- _ _.
      nia. }
  destruct (Prim2SF (l / v)) as [s | s | | s m e] eqn:Hq;
    cbn [valido_no_negativo]; try done.
  split; [done |]. exact (finito_valido _ _ _ _ Hq).
Qed.

End SignoDelCociente.

Section PesosNoNegativos.
Context {K : Type} `{Countable K}.
Import FloatOrder.

Lemma ltb_neqb (x y : float) : (x <? y)%float = true → (y =? x)%float = false.
Proof.
  intros Hlt. rewrite eqb_sym. apply ltb_compara in Hlt.
  destruct (x =? y)%float eqn:Heq; [| done].
  apply eqb_compara in Heq. congruence.
Qed.

(** X18.  The weights are not negative.  If every edge of the graph has
    a [length] that converts to a float that is not negative nor
    infinite, and the speed that [_velocidad_kmh] finds for it is above
    zero in metres per second, the three weight functions [mas_corto],
    [mas_rapido] and [mas_rapido_semaforos] give on every edge a weight
    that is not negative, and leave the graph as it is: they meet what
    [dijkstra] and [camino_minimo] need to return lightest paths. *)
Theorem pesos_no_negativos (g : Graph K) :
  (∀ u v, adyacente g u v →
     ∃ datos l s, G_getitem u v g = (Ok datos, g) ∧
       py_float_opt (e_length datos) = Ok l ∧
       no_negativo l ∧ (l <? infinity)%float = true ∧
       _velocidad_kmh u v g = (Ok s, g) ∧ (0 <? s / 3.6)%float = true) →
  peso_no_negativo g mas_corto ∧ peso_no_negativo g mas_rapido ∧
  peso_no_negativo g mas_rapido_semaforos.
Proof.
  intros Hedge.
  assert (peso_no_negativo g mas_rapido) as Hrapido.
  { intros u v Huv.
    destruct (Hedge u v Huv) as (datos & l & s & Hd & Hl & Hnn & Hfin & Hs & Hpos).
    exists (l / (s / 3.6))%float.
    rewrite (mas_rapido_unfold g u v datos l Hd Hl), Hs. unfold truediv.
    rewrite (ltb_neqb _ _ Hpos). split; [done |].
    by apply cociente_no_negativo. }
  split; [| split; [done |]].
  - intros u v Huv.
    destruct (Hedge u v Huv) as (datos & l & _ & Hd & Hl & Hnn & _).
    exists l. split; [| done].
    unfold mas_corto. rewrite (M_bind_ok _ _ _ _ _ Hd).
    destruct (e_length datos) as [valor|]; [| done]. simpl in Hl. unfold lift. simpl.
    by rewrite Hl.
  - intros u v Huv. destruct (Hrapido u v Huv) as (t & Ht & Hnn).
    exists (t + 0.8 * 30.0)%float. split.
    + unfold mas_rapido_semaforos. by rewrite (M_bind_ok _ _ _ _ _ Ht).
    + by apply suma_unidades.
Qed.

End PesosNoNegativos.

(** On the two islands every street is 1 to 3 metres long, and
    residential: 30 km/h. *)
Lemma pesos_no_negativos_witness :
  peso_no_negativo grafo_islas mas_corto ∧ peso_no_negativo grafo_islas mas_rapido ∧
  peso_no_negativo grafo_islas mas_rapido_semaforos.
Proof.
  apply (pesos_no_negativos grafo_islas).
  intros u v Huv%grafo_islas_adyacente.
  repeat (apply elem_of_cons in Huv as [[= -> ->] | Huv];
          [do 3 eexists; repeat (split; [reflexivity |]); reflexivity |]).
  by apply elem_of_nil in Huv.
Defined.

(** ** camino_minimo: whatever the weights *)

Section CaminoCualquierPeso.
Context {K : Type} `{Countable K}.

Lemma camino_minimo_loop_sin_fin (padres : gmap K (option K)) (origen : K)
    (fuel : nat) :
  ∀ (actual : K) (camino : list K),
  (∀ n, ∃ x, ancestro padres n actual = Some x ∧ x ≠ origen) →
  camino_minimo_loop fuel padres origen actual camino = OutOfFuel.
Proof.
  induction fuel as [|fuel IH]; intros actual camino Hciclo; [done |].
  cbn [camino_minimo_loop].
  destruct (Hciclo 0%nat) as (x & [= <-] & Hne). rewrite decide_False by done.
  destruct (Hciclo 1%nat) as (x & Hx & _). cbn [ancestro] in Hx.
  destruct (padres !! actual) as [[p|]|] eqn:Hp; [| done | done].
  apply IH. intros n. destruct (Hciclo (S n)) as (y & Hy & Hyo).
  cbn [ancestro] in Hy. rewrite Hp in Hy. by exists y.
Qed.

(** X19.  [camino_minimo] may not end.  If in the dictionary that
    [dijkstra] returns the parents of the destination never lead to the
    origin nor to a node without parent (they go round a cycle, which
    negative weights can produce), the loop of [camino_minimo] never
    ends: whatever its budget, the budget is used up. *)
Theorem camino_minimo_sin_fin (peso : Peso K) (origen destino : K) (g g' : Graph K)
    (padres : gmap K (option K)) :
  dijkstra peso origen g = (Ok padres, g') →
  (∀ n, ∃ x, ancestro padres n destino = Some x ∧ x ≠ origen) →
  (∀ fuel camino, camino_minimo_loop fuel padres origen destino camino = OutOfFuel) ∧
  camino_minimo peso origen destino g = (OutOfFuel, g').
Proof.
  intros Hdij Hciclo. split.
  - intros fuel camino. by apply camino_minimo_loop_sin_fin.
  - unfold camino_minimo.
    destruct (Hciclo 0%nat) as (x & [= <-] & Hne). rewrite decide_False by done.
    rewrite (M_bind_ok _ _ _ _ _ Hdij).
    destruct (Hciclo 1%nat) as (x & Hx & _). cbn [ancestro] in Hx.
    rewrite decide_False by (intros Hn; by rewrite Hn in Hx).
    unfold lift. by rewrite camino_minimo_loop_sin_fin.
Qed.

(** What the loop of [camino_minimo] returns is the chain of the parents
    of its node, up to the origin. *)
Lemma camino_minimo_loop_cadena (padres : gmap K (option K)) (origen : K)
    (fuel : nat) :
  ∀ (actual : K) (camino C : list K),
  camino_minimo_loop fuel padres origen actual camino = Ok C →
  ∃ resto,
    C = reverse (camino ++ resto) ∧
    last (actual :: resto) = Some origen ∧
    ∀ i x p, (actual :: resto) !! i = Some x → (actual :: resto) !! S i = Some p →
      padres !! x = Some (Some p).
Proof.
  induction fuel as [|fuel IH]; intros actual camino C; [done |].
  cbn [camino_minimo_loop]. case_decide as Ha.
  - intros [= <-]. subst actual. exists []. rewrite app_nil_r.
    split; [done |]. split; [done |]. by intros [|i] x p.
  - destruct (padres !! actual) as [[p|]|] eqn:Hp; [| done | done].
    intros Hloop. destruct (IH p _ C Hloop) as (resto & HC & Hlast & Hlinks).
    exists (p :: resto). split; [by rewrite <- app_assoc in HC |].
    split; [done |].
    intros [|i] x q; simpl.
    + by intros [= <-] [= <-].
    + apply (Hlinks i).
Qed.

(** A list that [camino_minimo] returns and is not empty: a path; the
    origin is then a node of the graph, unless it is the destination. *)
Lemma camino_minimo_resultado (g : Graph K) (peso : Peso K) (origen destino : K)
    (C : list K) :
  bien_formado g → peso_definido g peso →
  camino_minimo peso origen destino g = (Ok C, g) → C ≠ [] →
  es_camino g origen destino C ∧
  (origen = destino ∧ C = [origen] ∨ origen ≠ destino ∧ origen ∈ nodos g).
Proof.
  intros Hbf Hpeso Hcam HC. unfold camino_minimo in Hcam.
  case_decide as Hod.
  { injection Hcam as <-. subst destino.
    split; [| by left]. split; [done |]. split; [done |]. by intros [|i] u v. }
  destruct (decide (origen ∈ nodos g)) as [Ho | Ho].
  2:{ rewrite (M_bind_raise _ _ _ _ _ (dijkstra_fuera_del_grafo peso origen g Ho))
        in Hcam. done. }
  split; [| by right].
  destruct (dijkstra_run g peso origen Hbf Hpeso Ho) as (st & U & Hrun & Hinv).
  rewrite (M_bind_ok _ _ _ _ _ Hrun) in Hcam.
  case_decide as Hd; [by injection Hcam as <- |].
  unfold lift in Hcam.
  destruct (camino_minimo_loop _ _ _ _ _) as [C'| |] eqn:Hloop; [| done..].
  injection Hcam as ->.
  destruct (camino_minimo_loop_cadena _ _ _ _ _ _ Hloop) as (resto & -> & Hlast & Hlinks).
  change ([destino] ++ resto) with (destino :: resto).
  set (l := destino :: resto) in *.
  split; [| split].
  - by rewrite head_reverse.
  - by rewrite last_reverse.
  - intros i u v Hu Hv.
    assert (S i < length l)%nat as Hi.
    { apply lookup_lt_Some in Hv. by rewrite length_reverse in Hv. }
    rewrite reverse_lookup in Hu by lia. rewrite reverse_lookup in Hv by lia.
    assert (padres_v : delete origen (d_padre st) !! v = Some (Some u)).
    { apply (Hlinks (length l - S (S i))%nat); [done |].
      replace (S (length l - S (S i))) with (length l - S i)%nat by lia. done. }
    apply lookup_delete_Some in padres_v as [_ Hp].
    by destruct (di_alcanzable _ _ _ _ Hinv v u Hp).
Qed.

(** X20.  What [camino_minimo] returns is a path.  On a well-formed
    graph, with a weight function that gives a number on every edge,
    whatever the sign of the weights: a list that [camino_minimo] returns,
    if it is not empty, starts at the origin, ends at the destination,
    and each of its nodes is a neighbour of the one before it. *)
Theorem camino_minimo_es_camino (g : Graph K) (peso : Peso K) (origen destino : K)
    (C : list K) :
  bien_formado g → peso_definido g peso →
  camino_minimo peso origen destino g = (Ok C, g) → C ≠ [] →
  es_camino g origen destino C.
Proof.
  intros Hbf Hpeso Hcam HC.
  destruct (camino_minimo_resultado g peso origen destino C Hbf Hpeso Hcam HC)
    as [Hes _].
  exact Hes.
Qed.

End CaminoCualquierPeso.

Lemma grafo_negativo_ciclo (n : nat) :
  (∃ x, ancestro {[ "B" := Some "C"; "C" := Some "B" ]} n "C" = Some x ∧ x ≠ "A") ∧
  (∃ x, ancestro {[ "B" := Some "C"; "C" := Some "B" ]} n "B" = Some x ∧ x ≠ "A").
Proof.
  induction n as [|n [HC HB]]; [split; by eexists |].
  split; cbn [ancestro].
  - replace (({[ "B" := Some "C"; "C" := Some "B" ]} : gmap string (option string))
               !! "C") with (Some (Some "B")) by (by vm_compute). done.
  - replace (({[ "B" := Some "C"; "C" := Some "B" ]} : gmap string (option string))
               !! "B") with (Some (Some "C")) by (by vm_compute). done.
Qed.

(** With the negative street C-B, [dijkstra] makes B the parent of C and
    C the parent of B: the way back from C goes round for ever. *)
Lemma camino_minimo_sin_fin_witness :
  (∀ fuel camino,
     camino_minimo_loop fuel {[ "B" := Some "C"; "C" := Some "B" ]} "A" "C" camino
     = OutOfFuel) ∧
  camino_minimo mas_corto "A" "C" grafo_negativo = (OutOfFuel, grafo_negativo).
Proof.
  apply (camino_minimo_sin_fin mas_corto "A" "C" grafo_negativo grafo_negativo).
  - vm_compute. reflexivity.
  - intros n. apply grafo_negativo_ciclo.
Defined.

Lemma camino_minimo_es_camino_witness :
  es_camino grafo_islas "A" "C" ["A"; "C"].
Proof.
  apply (camino_minimo_es_camino grafo_islas mas_corto "A" "C" ["A"; "C"]
           grafo_islas_bien_formado grafo_islas_mas_corto).
  - vm_compute. reflexivity.
  - discriminate.
Defined.

(** ** From the route to its instructions *)

Section RutaNarrable.
Context {K : Type} `{Countable K}.

(** The nodes of a path that starts at a node of the graph are nodes of
    the graph. *)
Lemma es_camino_nodos (g : Graph K) (o d : K) (C : list K) :
  bien_formado g → es_camino g o d C → o ∈ nodos g → ∀ x, x ∈ C → x ∈ nodos g.
Proof.
  intros Hbf (Hhead & _ & Hedges) Ho x Hx.
  apply list_elem_of_lookup in Hx as [i Hi].
  destruct i as [|i].
  - rewrite <- head_lookup, Hhead in Hi. by injection Hi as <-.
  - destruct (lookup_lt_is_Some_2 C i) as [u Hu];
      [apply lookup_lt_Some in Hi; lia |].
    by apply (bf_vecinos g Hbf u x), (Hedges i).
Qed.

(** X21.  A route that is found can be told.  On a well-formed graph
    whose edges have a [length] that is absent or converts to a float and
    whose nodes have their coordinates, with a weight function that gives
    a number on every edge: the list that [camino_minimo] returns, when it
    is not empty, is a path that [construir_instrucciones] turns into
    instructions without raising anything.  For a route from a node to
    itself they are the one message that origin and destination coincide;
    otherwise there are two lines at least, a sentence and the total. *)
Theorem ruta_narrable (g : Graph K) (peso : Peso K) (origen destino : K)
    (C : list K) :
  bien_formado g → peso_definido g peso →
  (∀ u v, adyacente g u v →
     ∃ datos, G_getitem u v g = (Ok datos, g) ∧ longitud_admisible datos) →
  (∀ n, n ∈ nodos g → ∃ x y, assoc n (node_tab g) = Some (mkNode (Some x) (Some y))) →
  camino_minimo peso origen destino g = (Ok C, g) → C ≠ [] →
  ∃ instrucciones,
    construir_instrucciones C g = (Ok instrucciones, g) ∧
    (origen = destino → instrucciones = [mensaje_coinciden]) ∧
    (origen ≠ destino → (2 ≤ length instrucciones)%nat).
Proof.
  intros Hbf Hpeso Hlen Hcoord Hcam HC.
  destruct (camino_minimo_resultado g peso origen destino C Hbf Hpeso Hcam HC)
    as [Hes [[-> ->] | [Hod Ho]]].
  { exists [mensaje_coinciden]. by split. }
  assert (transitable g C) as Ht.
  { intros i u v Hu Hv. apply Hlen. destruct Hes as (_ & _ & Hedges). by apply (Hedges i). }
  assert (con_coordenadas g C) as Hc.
  { intros n Hn. apply Hcoord. by apply (es_camino_nodos g origen destino C). }
  assert (2 ≤ length C)%nat as H2.
  { destruct Hes as (Hhead & Hlast & _).
    destruct C as [|a [|b C']]; simpl in *; [done | congruence | lia]. }
  destruct (segmentos_de_tramos g C H2 Ht) as (segs & Hsegs & Hseg & _).
  destruct (foldM_frase_de_frases g C Hc segs 0 [] 0%float) as (frases & Hfold & Hlenf & _).
  exists (([] ++ frases) ++
    [linea_total (foldl (λ (a : float) (s : Segmento), (a + s_dist s)%float) 0%float segs)]).
  split; [| split; [by intros ? |]].
  - unfold construir_instrucciones.
    destruct C as [|u0 [|v0 resto]]; simpl in H2; [lia | lia |].
    rewrite (M_bind_ok _ _ _ _ _ Hsegs), (M_bind_ok _ _ _ _ _ Hfold). reflexivity.
  - intros _. rewrite !length_app, Hlenf. simpl.
    destruct Hseg as (_ & (s & Hs & _) & _).
    destruct segs; [done | simpl; lia].
Qed.

End RutaNarrable.

Lemma ruta_narrable_witness :
  ∃ instrucciones,
    construir_instrucciones ["A"; "C"] grafo_islas = (Ok instrucciones, grafo_islas) ∧
    ("A" = "C" → instrucciones = [mensaje_coinciden]) ∧
    ("A" ≠ "C" → (2 ≤ length instrucciones)%nat).
Proof.
  apply (ruta_narrable grafo_islas mas_corto "A" "C" ["A"; "C"]
           grafo_islas_bien_formado grafo_islas_mas_corto).
  - intros u v Huv%grafo_islas_adyacente.
    repeat (apply elem_of_cons in Huv as [[= -> ->] | Huv];
            [eexists; split; [reflexivity | eexists; reflexivity] |]).
    by apply elem_of_nil in Huv.
  - intros n Hn. rewrite grafo_islas_nodos in Hn.
    repeat (apply elem_of_cons in Hn as [-> | Hn]; [do 2 eexists; reflexivity |]).
    by apply elem_of_nil in Hn.
  - vm_compute. reflexivity.
  - discriminate.
Defined.
